(** * ClassiCube audio backend (src/AudioBackend.c): a shallow embedding

    The C file selects one backend at build time ([#if defined CC_BUILD_...]).
    Each backend modelled here lives in a module of its own ([OpenAL],
    [WinMM], [OpenSLES], [GCWii], [Dreamcast], and the channels and memory
    pools of [Switch]); the common code at the end of the C file (volume scaling,
    chunk allocation, the context pool) is modelled once.

    Conventions.
    - C [int] and [cc_uint32] values are integers of [Z]; where the C
      arithmetic can leave the range of its type the wrap-around is written
      out ([to_int32], [to_uint32], [to_int16]).
    - Native audio libraries and the memory allocator are the environment:
      an abstract state [D] with one function per native entry point (type
      classes [OpenAL.Driver], [WinMM.Driver], ...).  Theorems hold for every
      environment; [script] is a concrete one that replays a list of
      answers.
    - [Fault] stands for undefined behaviour of the C code: an array index
      outside the array, or an access through NULL or outside a block. *)

From stdpp Require Import base numbers list option gmap.
From Stdlib Require Import ZArith Lia.

#[local] Open Scope Z_scope.

(** ** Result codes and constants *)

Definition cc_result := Z.

(** Modelled from the spec: Errors.h is not under src/; the spec names the
    codes INVALID_ARGUMENT, OUT_OF_MEMORY and NOT_SUPPORTED.  The values are
    stand-ins: no theorem depends on them. *)
Definition ERR_NOT_SUPPORTED    : cc_result := 0xCCDED002.
Definition ERR_INVALID_ARGUMENT : cc_result := 0xCCDED003.
Definition ERR_OUT_OF_MEMORY    : cc_result := 0xCCDED004.
Definition ERR_NO_AUDIO_OUTPUT  : cc_result := 0xCCDED04F.

(** Modelled from the spec: Audio.h is not under src/; the spec gives the
    platform maximum of buffer slots per context as 4. *)
Definition AUDIO_MAX_BUFFERS : Z := 4.

(** ** Machine integers *)

Definition to_uint32 (x : Z) : Z := x mod 2^32.
Definition to_int32 (x : Z) : Z := (x + 2^31) mod 2^32 - 2^31.
Definition to_uint16 (x : Z) : Z := x mod 2^16.
Definition to_int16 (x : Z) : Z := (x + 2^15) mod 2^16 - 2^15.

Definition INT_MIN : Z := - 2^31.
Definition INT_MAX : Z := 2^31 - 1.

(** [#define Audio_AdjustSampleRate(sampleRate, playbackRate)
      ((sampleRate * playbackRate) / 100)]
    on [int] operands: the product wraps, the division truncates. *)
Definition Audio_AdjustSampleRate (sampleRate playbackRate : Z) : Z :=
  to_int32 (sampleRate * playbackRate) ÷ 100.

(** ** Outcomes and the state monad of the embedding *)

Inductive outcome (A : Type) : Type :=
| Ret (a : A)
| Fault.
Arguments Ret {A} a.
Arguments Fault {A}.

Definition M (St A : Type) : Type := St → outcome (A * St).

Definition m_ret {St A} (a : A) : M St A := λ s, Ret (a, s).

Definition m_bind {St A B} (m : M St A) (k : A → M St B) : M St B :=
  λ s, match m s with
       | Ret (a, s') => k a s'
       | Fault => Fault
       end.

#[global] Instance M_ret St : MRet (M St) := λ A, m_ret.
#[global] Instance M_bind St : MBind (M St) := λ A B k m, m_bind m k.

(** Lifts a possibly faulting pure computation. *)
Definition lift {St A} (o : outcome A) : M St A :=
  λ s, match o with Ret a => Ret (a, s) | Fault => Fault end.

(** A backend state is the context structure paired with the environment. *)
Definition getctx {C D} : M (C * D) C := λ s, Ret (s.1, s).
Definition setctx {C D} (f : C → C) : M (C * D) unit := λ s, Ret (tt, (f s.1, s.2)).

(** Calls of native functions: with and without a value given back. *)
Definition call {C D A} (f : D → A * D) : M (C * D) A :=
  λ s, Ret ((f s.2).1, (s.1, (f s.2).2)).
Definition call_ {C D} (f : D → D) : M (C * D) unit :=
  λ s, Ret (tt, (s.1, f s.2)).

(** [for (i = lo; i < lim; i++) body], the body answering [Some r] for
    [return r] and [None] for falling through or [continue]. *)
Fixpoint for_loop {St R} (fuel : nat) (i lim : Z)
    (body : Z → M St (option R)) : M St (option R) :=
  match fuel with
  | O => mret None
  | S fuel' =>
      if i <? lim then
        r ← body i;
        match r with
        | Some x => mret (Some x)
        | None => for_loop fuel' (i + 1) lim body
        end
      else mret None
  end.

Definition for_range {St R} (lo lim : Z) (body : Z → M St (option R)) : M St (option R) :=
  for_loop (Z.to_nat (lim - lo)) lo lim body.

(** A loop with local variables [acc]; the body answers the new locals and
    whether it left the loop by [break]. *)
Fixpoint for_acc {St L} (fuel : nat) (i lim : Z)
    (body : Z → L → M St (L * bool)) (acc : L) : M St L :=
  match fuel with
  | O => mret acc
  | S fuel' =>
      if i <? lim then
        '(acc', brk) ← body i acc;
        if brk : bool then mret acc' else for_acc fuel' (i + 1) lim body acc'
      else mret acc
  end.

(** ** C arrays: checked element access *)

Definition arr_get {A} (l : list A) (i : Z) : outcome A :=
  if 0 <=? i then
    match l !! Z.to_nat i with
    | Some x => Ret x
    | None => Fault
    end
  else Fault.

Definition arr_set {A} (l : list A) (i : Z) (x : A) : outcome (list A) :=
  if (0 <=? i) && (i <? Z.of_nat (length l))
  then Ret (<[Z.to_nat i := x]> l)
  else Fault.

(** Writes [xs] over the first elements of [l] (a native function filling an
    array handed to it). *)
Definition arr_fill {A} (l xs : list A) : outcome (list A) :=
  if (length xs <=? length l)%nat
  then Ret (xs ++ drop (length xs) l)
  else Fault.

(** The number of elements of [l] that satisfy [p]. *)
Fixpoint count_if {A} (p : A → bool) (l : list A) : Z :=
  match l with
  | [] => 0
  | x :: l' => (if p x then 1 else 0) + count_if p l'
  end.

(** ** A scripted environment

    Answers are replayed from a list; an exhausted script answers 0, which
    every native API modelled here reads as success or nothing to report. *)
Definition script := list Z.

Definition pop (s : script) : Z * script :=
  match s with
  | [] => (0, [])
  | a :: s' => (a, s')
  end.

(** ** Memory

    A pointer is NULL or a block with a byte offset; the heap maps the
    blocks that are allocated to their bytes.  An access of zero bytes is
    harmless wherever it points. *)

Record addr := Addr { blk : nat; ofs : Z }.

Definition ptr : Type := option addr.

Definition NULL : ptr := None.

Definition ptr_add (p : ptr) (n : Z) : ptr :=
  match p with
  | Some a => Some (Addr (blk a) (ofs a + n))
  | None => None
  end.

Abbreviation heap := (gmap nat (list Z)).

Definition in_block (bytes : list Z) (o n : Z) : bool :=
  (0 <=? o) && (0 <=? n) && (o + n <=? Z.of_nat (length bytes)).

Definition load (h : heap) (p : ptr) (n : Z) : outcome (list Z) :=
  if n =? 0 then Ret [] else
  match p with
  | None => Fault
  | Some a =>
      match h !! blk a with
      | None => Fault
      | Some bytes =>
          if in_block bytes (ofs a) n
          then Ret (take (Z.to_nat n) (drop (Z.to_nat (ofs a)) bytes))
          else Fault
      end
  end.

Definition store (h : heap) (p : ptr) (bs : list Z) : outcome heap :=
  if (length bs =? 0)%nat then Ret h else
  match p with
  | None => Fault
  | Some a =>
      match h !! blk a with
      | None => Fault
      | Some bytes =>
          if in_block bytes (ofs a) (Z.of_nat (length bs))
          then Ret (<[blk a := take (Z.to_nat (ofs a)) bytes ++ bs
                                 ++ drop (Z.to_nat (ofs a) + length bs) bytes]> h)
          else Fault
      end
  end.

(** [Mem_Copy(dst, src, numBytes)] *)
Definition Mem_Copy (dst src : ptr) (numBytes : Z) (h : heap) : outcome heap :=
  match load h src numBytes with
  | Ret bytes => store h dst bytes
  | Fault => Fault
  end.

(** The allocator of the platform layer: the environment decides whether a
    request for so many bytes is granted. *)
Class Allocator (D : Type) := {
  mem_grant : Z → D → bool * D
}.

(** Modelled from the spec: Mem_TryAlloc, Mem_TryRealloc and Mem_Free
    (Platform.h) are not under src/ ("generic memory allocation" is an
    external collaborator).  An allocation gives a new block of
    [numElems * elemSize] bytes or NULL; a reallocation moves the old
    contents into a new block and releases the old one, or gives NULL and
    leaves the old block alone; releasing NULL does nothing. *)
Definition Mem_TryAlloc `{Allocator D} (numElems elemSize : Z) (w : heap * D) : ptr * (heap * D) :=
  let n := to_uint32 numElems * to_uint32 elemSize in
  let '(ok, d) := mem_grant n w.2 in
  if ok then
    let b := fresh (dom w.1) in
    (Some (Addr b 0), (<[b := replicate (Z.to_nat n) 0]> w.1, d))
  else (NULL, (w.1, d)).

Definition Mem_TryRealloc `{Allocator D} (mem : ptr) (numElems elemSize : Z) (w : heap * D)
    : outcome (ptr * (heap * D)) :=
  let n := to_uint32 numElems * to_uint32 elemSize in
  match mem with
  | None => Ret (Mem_TryAlloc numElems elemSize w)
  | Some a =>
      match w.1 !! blk a with
      | Some bytes =>
          if ofs a =? 0 then
            let '(ok, d) := mem_grant n w.2 in
            if ok then
              let b := fresh (dom w.1) in
              Ret (Some (Addr b 0),
                   (<[b := take (Z.to_nat n) (bytes ++ replicate (Z.to_nat n) 0)]>
                      (delete (blk a) w.1), d))
            else Ret (NULL, (w.1, d))
          else Fault
      | None => Fault
      end
  end.

Definition Mem_Free (mem : ptr) (h : heap) : outcome heap :=
  match mem with
  | None => Ret h
  | Some a =>
      match h !! blk a with
      | Some _ => if ofs a =? 0 then Ret (delete (blk a) h) else Fault
      | None => Fault
      end
  end.

(** [memalign(alignment, size)] of the C library: a new block of [size]
    bytes or NULL.  Blocks carry no numeric address, so the alignment is not
    represented. *)
Definition memalign `{Allocator D} (alignment size : Z) (w : heap * D) : ptr * (heap * D) :=
  Mem_TryAlloc 1 size w.

(** Heap operations inside a backend state [C * (heap * D)]. *)
Definition on_heap {C D} (f : heap → outcome heap) : M (C * (heap * D)) unit :=
  λ s, match f s.2.1 with
       | Ret h => Ret (tt, (s.1, (h, s.2.2)))
       | Fault => Fault
       end.

Definition call_env {C D A} (f : D → A * D) : M (C * (heap * D)) A :=
  λ s, Ret ((f s.2.2).1, (s.1, (s.2.1, (f s.2.2).2))).

Definition call_world {C W A} (f : W → outcome (A * W)) : M (C * W) A :=
  λ s, match f s.2 with
       | Ret (a, w) => Ret (a, (s.1, w))
       | Fault => Fault
       end.

(** The scripted allocator grants a request when the next answer is 0. *)
#[global] Instance script_allocator : Allocator script := {|
  mem_grant := λ _ d, ((pop d).1 =? 0, (pop d).2)
|}.

(** ** The request handed to the pool ([struct AudioData], Audio.h) *)
Module AudioData.
Record t := {
  data : ptr;
  size : Z;
  channels : Z;
  sampleRate : Z;
  rate : Z;
  volume : Z
}.
End AudioData.

(** ** Common backend code: volume scaling of 16-bit samples *)

(** [samples[k] * volume / 100] stored back into a [cc_int16]: the sample
    is promoted to [int], the quotient truncates, the store keeps the low
    16 bits. *)
Definition scale_sample (sample volume : Z) : Z :=
  to_int16 (to_int32 (sample * volume) ÷ 100).

(** [samples[k] = (samples[k] * volume / 100)] on the array [mem], the
    pointer [samples] standing at index [p]. *)
Definition scale_at (volume : Z) (mem : list Z) (p k : Z) : list Z :=
  match mem !! Z.to_nat (p + k) with
  | Some s => <[Z.to_nat (p + k) := scale_sample s volume]> mem
  | None => mem
  end.

(** [for (i = 0; i < (count & ~0x07); i += 8, samples += 8) { ... }] *)
Fixpoint ApplyVolume_unrolled (fuel : nat) (i p count volume : Z) (mem : list Z)
    : Z * Z * list Z :=
  match fuel with
  | O => (i, p, mem)
  | S fuel' =>
      if i <? Z.land count (Z.lnot 0x07) then
        let mem := scale_at volume mem p 0 in
        let mem := scale_at volume mem p 1 in
        let mem := scale_at volume mem p 2 in
        let mem := scale_at volume mem p 3 in
        let mem := scale_at volume mem p 4 in
        let mem := scale_at volume mem p 5 in
        let mem := scale_at volume mem p 6 in
        let mem := scale_at volume mem p 7 in
        ApplyVolume_unrolled fuel' (i + 8) (p + 8) count volume mem
      else (i, p, mem)
  end.

(** [for (; i < count; i++, samples++) { ... }] *)
Fixpoint ApplyVolume_rest (fuel : nat) (i p count volume : Z) (mem : list Z) : list Z :=
  match fuel with
  | O => mem
  | S fuel' =>
      if i <? count then
        ApplyVolume_rest fuel' (i + 1) (p + 1) count volume (scale_at volume mem p 0)
      else mem
  end.

Definition ApplyVolume (samples : list Z) (count volume : Z) : list Z :=
  let '(i, p, mem) := ApplyVolume_unrolled (Z.to_nat count) 0 0 count volume samples in
  ApplyVolume_rest (Z.to_nat count) i p count volume mem.

(** The array once its first [n] samples are scaled: what the two loops
    are proved to compute. *)
Definition scaled_upto (volume : Z) (n : nat) (samples : list Z) : list Z :=
  ((λ s, scale_sample s volume) <$> take n samples) ++ drop n samples.

Definition is_int16 (s : Z) : Prop := -32768 ≤ s ≤ 32767.

(** The [cc_int16] view of a byte buffer, little-endian as on the
    platforms that define AUDIO_COMMON_VOLUME. *)
Fixpoint samples_of_bytes (bytes : list Z) : list Z :=
  match bytes with
  | lo :: hi :: rest => to_int16 (lo + 256 * hi) :: samples_of_bytes rest
  | _ => []
  end.

Definition bytes_of_sample (s : Z) : list Z := [s mod 256; (s / 256) mod 256].

Fixpoint bytes_of_samples (samples : list Z) : list Z :=
  match samples with
  | [] => []
  | s :: rest => bytes_of_sample s ++ bytes_of_samples rest
  end.

(** [ApplyVolume(audio, count, volume)] with [audio] cast to a [cc_int16]
    pointer into the heap. *)
Definition ApplyVolume_at (audio : ptr) (count volume : Z) (h : heap) : outcome heap :=
  match load h audio (2 * count) with
  | Ret bytes => store h audio (bytes_of_samples (ApplyVolume (samples_of_bytes bytes) count volume))
  | Fault => Fault
  end.

(** ** Common backend code: chunk allocation (AUDIO_COMMON_ALLOC)

    [chunks] is an array the caller hands in; the model gives back the
    pointers written to [chunks[0]], [chunks[1]], ... in order. *)
Definition AudioBase_AllocChunks `{Allocator D} (size numChunks : Z) (w : heap * D)
    : cc_result * list ptr * (heap * D) :=
  let '(dst, w') := Mem_TryAlloc numChunks size w in
  match dst with
  | None => (ERR_OUT_OF_MEMORY, [], w')
  | Some _ => (0, map (λ i, ptr_add dst (to_int32 (size * i))) (seqZ 0 numChunks), w')
  end.

Definition AudioBase_FreeChunks (chunks : list ptr) (numChunks : Z) (h : heap) : outcome heap :=
  match chunks with
  | c :: _ => Mem_Free c h
  | [] => Fault
  end.

(** * OpenAL backend *)
Module OpenAL.

Definition AL_NONE              : Z := 0.
Definition AL_GAIN              : Z := 0x100A.
Definition AL_BUFFERS_PROCESSED : Z := 0x1016.
Definition AL_FORMAT_MONO16     : Z := 0x1101.
Definition AL_FORMAT_STEREO16   : Z := 0x1103.
Definition AL_INVALID_OPERATION : Z := 0xA004.

(** The dynamically loaded OpenAL entry points ([_alGetError], ...). A
    function that writes through a pointer argument gives the written value
    back.  [alSourcef] receives the volume percentage the gain is computed
    from ([volume / 100.0f]); [alBufferData] receives the chunk's address. *)
Class Driver (D : Type) := {
  alGetError : D → Z * D;
  alDistanceModel : Z → D → D;
  alGenSources : D → Z * D;
  alGenBuffers : Z → D → list Z * D;
  alGetSourcei : Z → Z → D → Z * D;
  alSourcef : Z → Z → Z → D → D;
  alSourcePlay : Z → D → D;
  alBufferData : Z → Z → ptr → Z → Z → D → D;
  alSourceQueueBuffers : Z → Z → D → D;
  alSourceUnqueueBuffers : Z → D → Z * D
}.

Record AudioContext := {
  source : Z;
  buffers : list Z;
  freeIDs : list Z;
  count : Z;
  free : Z;
  sampleRate : Z;
  format : Z
}.

Definition set_source (v : Z) (c : AudioContext) : AudioContext :=
  {| source := v; buffers := buffers c; freeIDs := freeIDs c; count := count c;
     free := free c; sampleRate := sampleRate c; format := format c |}.
Definition set_buffers (v : list Z) (c : AudioContext) : AudioContext :=
  {| source := source c; buffers := v; freeIDs := freeIDs c; count := count c;
     free := free c; sampleRate := sampleRate c; format := format c |}.
Definition set_freeIDs (v : list Z) (c : AudioContext) : AudioContext :=
  {| source := source c; buffers := buffers c; freeIDs := v; count := count c;
     free := free c; sampleRate := sampleRate c; format := format c |}.
Definition set_count (v : Z) (c : AudioContext) : AudioContext :=
  {| source := source c; buffers := buffers c; freeIDs := freeIDs c; count := v;
     free := free c; sampleRate := sampleRate c; format := format c |}.
Definition set_free (v : Z) (c : AudioContext) : AudioContext :=
  {| source := source c; buffers := buffers c; freeIDs := freeIDs c; count := count c;
     free := v; sampleRate := sampleRate c; format := format c |}.
Definition set_sampleRate (v : Z) (c : AudioContext) : AudioContext :=
  {| source := source c; buffers := buffers c; freeIDs := freeIDs c; count := count c;
     free := free c; sampleRate := v; format := format c |}.
Definition set_format (v : Z) (c : AudioContext) : AudioContext :=
  {| source := source c; buffers := buffers c; freeIDs := freeIDs c; count := count c;
     free := free c; sampleRate := sampleRate c; format := v |}.

(** A zero-initialised context ([static struct AudioContext]). *)
Definition ctx_zero : AudioContext :=
  {| source := 0; buffers := replicate (Z.to_nat AUDIO_MAX_BUFFERS) 0;
     freeIDs := replicate (Z.to_nat AUDIO_MAX_BUFFERS) 0;
     count := 0; free := 0; sampleRate := 0; format := 0 |}.

Section Backend.
Context {D : Type} `{Driver D}.

Definition state : Type := AudioContext * D.

(** [ctx->freeIDs[i] = ctx->buffers[i];] *)
Definition init_slot (i : Z) : M state (option unit) :=
  ctx ← getctx;
  b ← lift (arr_get (buffers ctx) i);
  ids ← lift (arr_set (freeIDs ctx) i b);
  setctx (set_freeIDs ids);;
  mret None.

Definition Audio_Init (n_buffers : Z) : M state cc_result :=
  call_ (alDistanceModel AL_NONE);;
  setctx (set_source 0);;
  setctx (set_count n_buffers);;
  call alGetError;; (* Reset error state *)
  src ← call alGenSources;
  setctx (set_source src);;
  err ← call alGetError;
  if negb (err =? 0) then mret err else
  names ← call (alGenBuffers n_buffers);
  ctx ← getctx;
  bufs ← lift (arr_fill (buffers ctx) names);
  setctx (set_buffers bufs);;
  err ← call alGetError;
  if negb (err =? 0) then mret err else
  for_range 0 n_buffers init_slot;;
  setctx (set_free n_buffers);;
  mret 0.

Definition Audio_SetFormat (channels sampleRate' playbackRate : Z) : M state cc_result :=
  setctx (set_sampleRate (Audio_AdjustSampleRate sampleRate' playbackRate));;
  if channels =? 1 then
    setctx (set_format AL_FORMAT_MONO16);; mret 0
  else if channels =? 2 then
    setctx (set_format AL_FORMAT_STEREO16);; mret 0
  else
    mret ERR_INVALID_ARGUMENT.

Definition Audio_SetVolume (volume : Z) : M state unit :=
  ctx ← getctx;
  call_ (alSourcef (source ctx) AL_GAIN volume);;
  call alGetError;; (* Reset error state *)
  mret tt.

Definition Audio_QueueChunk (chunk : ptr) (size : Z) : M state cc_result :=
  ctx ← getctx;
  if free ctx =? 0 then mret ERR_INVALID_ARGUMENT else
  setctx (set_free (free ctx - 1));;
  buffer ← lift (arr_get (freeIDs ctx) (free ctx - 1));
  call alGetError;; (* Reset error state *)
  call_ (alBufferData buffer (format ctx) chunk size (sampleRate ctx));;
  err ← call alGetError;
  if negb (err =? 0) then mret err else
  call_ (alSourceQueueBuffers (source ctx) buffer);;
  err ← call alGetError;
  if negb (err =? 0) then mret err else
  mret 0.

Definition Audio_Play : M state cc_result :=
  ctx ← getctx;
  call_ (alSourcePlay (source ctx));;
  call alGetError.

(** [*inUse = ctx->count - ctx->free; return 0;] *)
Definition poll_done : M state (cc_result * Z) :=
  ctx ← getctx;
  mret (0, count ctx - free ctx).

(** The answer pairs the result code with [*inUse], which is 0 from the
    first statement on until [poll_done]. *)
Definition Audio_Poll : M state (cc_result * Z) :=
  ctx ← getctx;
  if source ctx =? 0 then mret (0, 0) else
  call alGetError;; (* Reset error state *)
  processed ← call (alGetSourcei (source ctx) AL_BUFFERS_PROCESSED);
  err ← call alGetError;
  if negb (err =? 0) then mret (err, 0) else
  if processed >? 0 then
    buffer ← call (alSourceUnqueueBuffers (source ctx));
    err ← call alGetError;
    if negb (err =? 0) then mret (err, 0) else
    ids ← lift (arr_set (freeIDs ctx) (free ctx) buffer);
    setctx (set_freeIDs ids);;
    setctx (set_free (free ctx + 1));;
    poll_done
  else poll_done.

(** Channels/Sample rate is per buffer, not a per source property *)
Definition Audio_FastPlay (ctx : AudioContext) (data : AudioData.t) : bool := true.

(** The contexts a caller can hold after [Audio_Init(ctx, n)] succeeded and
    created a source, followed by any number of QueueChunk and Poll calls,
    whatever they answered. *)
Inductive configured (n : Z) : AudioContext → Prop :=
| configured_init c d c' d' :
    Audio_Init n (c, d) = Ret (0, (c', d')) →
    source c' ≠ 0 →
    configured n c'
| configured_queue c d chunk size res c' d' :
    configured n c →
    Audio_QueueChunk chunk size (c, d) = Ret (res, (c', d')) →
    configured n c'
| configured_poll c d r c' d' :
    configured n c →
    Audio_Poll (c, d) = Ret (r, (c', d')) →
    configured n c'.

End Backend.

(** The scripted OpenAL: every value written back is the next answer;
    buffer names are 101, 102, ... *)
#[global] Instance script_driver : Driver script := {|
  alGetError := pop;
  alDistanceModel := λ _ d, d;
  alGenSources := pop;
  alGenBuffers := λ n d, (map (λ k : nat, 101 + Z.of_nat k) (seq 0 (Z.to_nat n)), d);
  alGetSourcei := λ _ _ d, pop d;
  alSourcef := λ _ _ _ d, d;
  alSourcePlay := λ _ d, d;
  alBufferData := λ _ _ _ _ _ d, d;
  alSourceQueueBuffers := λ _ _ d, d;
  alSourceUnqueueBuffers := λ _ d, pop d
|}.


(** The entry points [Audio_Close] calls besides those of [Driver];
    [alDeleteBuffers] receives the count and the array of names. *)
Class Disposer (D : Type) := {
  alSourceStop : Z → D → D;
  alDeleteSources : Z → D → D;
  alDeleteBuffers : Z → list Z → D → D
}.

Section Teardown.
Context {D : Type} `{Driver D} `{Disposer D}.

#[local] Abbreviation state := (@state D).

Definition Audio_Stop : M state unit :=
  ctx ← getctx;
  call_ (alSourceStop (source ctx)).

Definition Audio_Reset : M state unit :=
  ctx ← getctx;
  call_ (alDeleteSources (source ctx));;
  call_ (alDeleteBuffers (count ctx) (buffers ctx));;
  setctx (set_source 0).

(** [ctx->freeIDs[i] = 0;] *)
Definition clear_slot (i : Z) : M state (option unit) :=
  ctx ← getctx;
  ids ← lift (arr_set (freeIDs ctx) i 0);
  setctx (set_freeIDs ids);;
  mret None.

Definition ClearFree : M state unit :=
  for_range 0 AUDIO_MAX_BUFFERS clear_slot;;
  setctx (set_free 0).

Definition Audio_Close : M state unit :=
  ctx ← getctx;
  (if negb (source ctx =? 0) then
     Audio_Stop;;
     Audio_Reset;;
     call alGetError;; (* Reset error state *)
     mret tt
   else mret tt);;
  ClearFree;;
  setctx (set_count 0).

End Teardown.

(** The scripted OpenAL takes the teardown calls without an answer. *)
#[global] Instance script_disposer : Disposer script := {|
  alSourceStop := λ _ d, d;
  alDeleteSources := λ _ d, d;
  alDeleteBuffers := λ _ _ d, d
|}.

End OpenAL.

(** * WinMM backend *)
Module WinMM.

Definition MMSYSERR_BADDEVICEID : Z := 2.
Definition CALLBACK_NULL   : Z := 0.
Definition WAVE_MAPPER     : Z := 0xFFFFFFFF.
Definition WAVE_FORMAT_PCM : Z := 1.
Definition WHDR_DONE       : Z := 0x00000001.
Definition WHDR_PREPARED   : Z := 0x00000002.
Definition WHDR_INQUEUE    : Z := 0x00000010.

Record WAVEHDR := {
  lpData : ptr;
  dwBufferLength : Z;
  dwBytesRecorded : Z;
  dwUser : Z;
  dwFlags : Z;
  dwLoops : Z;
  lpNext : ptr;
  reserved : Z
}.

Record WAVEFORMATEX := {
  wFormatTag : Z;
  nChannels : Z;
  nSamplesPerSec : Z;
  nAvgBytesPerSec : Z;
  nBlockAlign : Z;
  wBitsPerSample : Z;
  cbSize : Z
}.

(** [Mem_Set(hdr, 0, sizeof(WAVEHDR))] *)
Definition hdr_zero : WAVEHDR :=
  {| lpData := NULL; dwBufferLength := 0; dwBytesRecorded := 0; dwUser := 0;
     dwFlags := 0; dwLoops := 0; lpNext := NULL; reserved := 0 |}.

Definition set_dwFlags (v : Z) (h : WAVEHDR) : WAVEHDR :=
  {| lpData := lpData h; dwBufferLength := dwBufferLength h;
     dwBytesRecorded := dwBytesRecorded h; dwUser := dwUser h;
     dwFlags := v; dwLoops := dwLoops h; lpNext := lpNext h; reserved := reserved h |}.

(** [hdr->dwFlags & flag] as a truth value *)
Definition has_flag (h : WAVEHDR) (flag : Z) : bool :=
  negb (Z.land (dwFlags h) flag =? 0).

(** The waveOut entry points of winmm.dll; each answers its MMRESULT.
    [waveOutOpen] also answers the handle it leaves in [*phwo]. *)
Class Driver (D : Type) := {
  waveOutOpen : Z → WAVEFORMATEX → Z → Z → Z → D → (Z * Z) * D;
  waveOutClose : Z → D → Z * D;
  waveOutPrepareHeader : Z → WAVEHDR → D → Z * D;
  waveOutUnprepareHeader : Z → WAVEHDR → D → Z * D;
  waveOutWrite : Z → WAVEHDR → D → Z * D;
  waveOutReset : Z → D → Z * D;
  waveOutGetNumDevs : D → Z * D
}.

Record AudioContext := {
  handle : Z;
  headers : list WAVEHDR;
  count : Z;
  channels : Z;
  sampleRate : Z;
  volume : Z;
  _tmpSize : Z;
  _tmpData : ptr
}.

Definition set_handle (v : Z) (c : AudioContext) : AudioContext :=
  {| handle := v; headers := headers c; count := count c; channels := channels c;
     sampleRate := sampleRate c; volume := volume c;
     _tmpSize := _tmpSize c; _tmpData := _tmpData c |}.
Definition set_headers (v : list WAVEHDR) (c : AudioContext) : AudioContext :=
  {| handle := handle c; headers := v; count := count c; channels := channels c;
     sampleRate := sampleRate c; volume := volume c;
     _tmpSize := _tmpSize c; _tmpData := _tmpData c |}.
Definition set_count (v : Z) (c : AudioContext) : AudioContext :=
  {| handle := handle c; headers := headers c; count := v; channels := channels c;
     sampleRate := sampleRate c; volume := volume c;
     _tmpSize := _tmpSize c; _tmpData := _tmpData c |}.
Definition set_channels (v : Z) (c : AudioContext) : AudioContext :=
  {| handle := handle c; headers := headers c; count := count c; channels := v;
     sampleRate := sampleRate c; volume := volume c;
     _tmpSize := _tmpSize c; _tmpData := _tmpData c |}.
Definition set_sampleRate (v : Z) (c : AudioContext) : AudioContext :=
  {| handle := handle c; headers := headers c; count := count c; channels := channels c;
     sampleRate := v; volume := volume c;
     _tmpSize := _tmpSize c; _tmpData := _tmpData c |}.
Definition set_volume (v : Z) (c : AudioContext) : AudioContext :=
  {| handle := handle c; headers := headers c; count := count c; channels := channels c;
     sampleRate := sampleRate c; volume := v;
     _tmpSize := _tmpSize c; _tmpData := _tmpData c |}.
Definition set__tmpSize (v : Z) (c : AudioContext) : AudioContext :=
  {| handle := handle c; headers := headers c; count := count c; channels := channels c;
     sampleRate := sampleRate c; volume := volume c;
     _tmpSize := v; _tmpData := _tmpData c |}.
Definition set__tmpData (v : ptr) (c : AudioContext) : AudioContext :=
  {| handle := handle c; headers := headers c; count := count c; channels := channels c;
     sampleRate := sampleRate c; volume := volume c;
     _tmpSize := _tmpSize c; _tmpData := v |}.

(** A zero-initialised context ([static struct AudioContext]). *)
Definition ctx_zero : AudioContext :=
  {| handle := 0; headers := replicate (Z.to_nat AUDIO_MAX_BUFFERS) hdr_zero;
     count := 0; channels := 0; sampleRate := 0; volume := 0;
     _tmpSize := 0; _tmpData := NULL |}.

Section Backend.
Context {D : Type} `{Allocator D} `{Driver D}.

Definition state : Type := AudioContext * (heap * D).

(** [ctx->headers[i]] read and written *)
Definition get_header (i : Z) : M state WAVEHDR :=
  ctx ← getctx;
  lift (arr_get (headers ctx) i).

Definition put_header (i : Z) (hdr : WAVEHDR) : M state unit :=
  ctx ← getctx;
  hs ← lift (arr_set (headers ctx) i hdr);
  setctx (set_headers hs).

(** Native calls on [&ctx->headers[i]].  Modelled from the WinMM
    documentation (src/ quotes only the prototypes): a successful
    waveOutPrepareHeader sets WHDR_PREPARED, a successful
    waveOutUnprepareHeader clears it, a successful waveOutWrite queues the
    block (WHDR_INQUEUE set, WHDR_DONE clear); a failed call leaves the
    header as it was. *)
Definition prepare_header (i : Z) : M state Z :=
  ctx ← getctx;
  hdr ← get_header i;
  res ← call_env (waveOutPrepareHeader (handle ctx) hdr);
  (if res =? 0
   then put_header i (set_dwFlags (Z.lor (dwFlags hdr) WHDR_PREPARED) hdr)
   else mret tt);;
  mret res.

Definition unprepare_header (i : Z) : M state Z :=
  ctx ← getctx;
  hdr ← get_header i;
  res ← call_env (waveOutUnprepareHeader (handle ctx) hdr);
  (if res =? 0
   then put_header i (set_dwFlags (Z.land (dwFlags hdr) (Z.lnot WHDR_PREPARED)) hdr)
   else mret tt);;
  mret res.

Definition write_header (i : Z) : M state Z :=
  ctx ← getctx;
  hdr ← get_header i;
  res ← call_env (waveOutWrite (handle ctx) hdr);
  (if res =? 0
   then put_header i (set_dwFlags
          (Z.land (Z.lor (dwFlags hdr) WHDR_INQUEUE) (Z.lnot WHDR_DONE)) hdr)
   else mret tt);;
  mret res.

(** The driver finishing the block of slot [i] at some later time: it sets
    WHDR_DONE and takes the block off its queue. *)
Definition driver_finishes (i : Z) : M state unit :=
  hdr ← get_header i;
  put_header i (set_dwFlags
    (Z.land (Z.lor (dwFlags hdr) WHDR_DONE) (Z.lnot WHDR_INQUEUE)) hdr).

(** [ctx->headers[i].dwFlags = WHDR_DONE;] *)
Definition init_slot (i : Z) : M state (option unit) :=
  hdr ← get_header i;
  put_header i (set_dwFlags WHDR_DONE hdr);;
  mret None.

Definition Audio_Init (n_buffers : Z) : M state cc_result :=
  for_range 0 n_buffers init_slot;;
  setctx (set_count n_buffers);;
  setctx (set_volume 100);;
  mret 0.

Definition Audio_Reset : M state cc_result :=
  ctx ← getctx;
  if handle ctx =? 0 then mret 0 else
  res ← call_env (waveOutClose (handle ctx));
  setctx (set_handle 0);;
  mret res.

Definition Audio_SetFormat (channels' sampleRate' playbackRate : Z) : M state cc_result :=
  let sampleRate' := Audio_AdjustSampleRate sampleRate' playbackRate in
  ctx ← getctx;
  if (channels ctx =? channels') && (sampleRate ctx =? sampleRate') then mret 0 else
  setctx (set_channels channels');;
  setctx (set_sampleRate sampleRate');;
  let sampleSize := to_int32 (channels' * 2) in (* 16 bits per sample / 8 *)
  res ← Audio_Reset;
  if negb (res =? 0) then mret res else
  let fmt := {| wFormatTag      := WAVE_FORMAT_PCM;
                nChannels       := to_uint16 channels';
                nSamplesPerSec  := to_uint32 sampleRate';
                nAvgBytesPerSec := to_uint32 (sampleRate' * sampleSize);
                nBlockAlign     := to_uint16 sampleSize;
                wBitsPerSample  := 16;
                cbSize          := 0 |} in
  '(res, hwo) ← call_env (waveOutOpen WAVE_MAPPER fmt 0 0 CALLBACK_NULL);
  setctx (set_handle hwo);;
  (* Show a better error message when no audio output devices connected *)
  if res =? MMSYSERR_BADDEVICEID then
    devs ← call_env waveOutGetNumDevs;
    if devs =? 0 then mret ERR_NO_AUDIO_OUTPUT else mret res
  else mret res.

Definition Audio_SetVolume (volume' : Z) : M state unit :=
  setctx (set_volume volume').

(** Common backend code (AUDIO_COMMON_VOLUME), compiled against this
    backend's context.  [data] is the C argument [void** data]: [None] when
    that pointer is NULL, [Some p] when it points at a variable holding the
    chunk pointer [p]; [size] is the value [*size].  The answer gives the
    return value and the two variables as the call leaves them. *)
Definition AudioBase_AdjustSound (data : option ptr) (size : Z)
    : M state (bool * option ptr * Z) :=
  let src_size := size in
  ctx ← getctx;
  if volume ctx >=? 100 then mret (true, data, size) else
  (* copy to temp buffer to apply volume *)
  grown ← (if _tmpSize ctx <? src_size then
             audio ← match _tmpData ctx with
                     | Some _ => call_world (Mem_TryRealloc (_tmpData ctx) src_size 1)
                     | None => call_world (λ w, Ret (Mem_TryAlloc src_size 1 w))
                     end;
             match data with
             | None => mret false (* if (!data) return false; *)
             | Some _ =>
                 setctx (set__tmpData audio);;
                 setctx (set__tmpSize src_size);;
                 mret true
             end
           else mret true);
  if negb grown then mret (false, data, size) else
  ctx ← getctx;
  let audio := _tmpData ctx in
  chunk ← lift (match data with Some p => Ret p | None => Fault end);
  on_heap (Mem_Copy audio chunk src_size);;
  on_heap (ApplyVolume_at audio (src_size / 2) (volume ctx));;
  mret (true, Some audio, src_size).

(** The body of the loop of [Audio_QueueChunk] over the slots. *)
Definition queue_slot (chunk : ptr) (dataSize : Z) (i : Z) : M state (option cc_result) :=
  hdr ← get_header i;
  if negb (has_flag hdr WHDR_DONE) then mret None else
  put_header i {| lpData := chunk; dwBufferLength := dataSize; dwBytesRecorded := 0;
                  dwUser := 0; dwFlags := 0; dwLoops := 1; lpNext := NULL;
                  reserved := 0 |};;
  res ← prepare_header i;
  if negb (res =? 0) then mret (Some res) else
  res ← write_header i;
  if negb (res =? 0) then mret (Some res) else
  mret (Some 0).

Definition Audio_QueueChunk (chunk : ptr) (dataSize : Z) : M state cc_result :=
  '(ok, chunk', dataSize) ← AudioBase_AdjustSound (Some chunk) dataSize;
  if negb ok then mret ERR_OUT_OF_MEMORY else
  chunk ← lift (match chunk' with Some p => Ret p | None => Fault end);
  ctx ← getctx;
  r ← for_range 0 (count ctx) (queue_slot chunk dataSize);
  match r with
  | Some res => mret res
  | None =>
      (* tried to queue data without polling for free buffers first *)
      mret ERR_INVALID_ARGUMENT
  end.

Definition Audio_Play : M state cc_result := mret 0.

(** The body of the loop of [Audio_Poll]; its locals are [(res, count)]. *)
Definition poll_slot (i : Z) (acc : cc_result * Z) : M state (cc_result * Z * bool) :=
  hdr ← get_header i;
  if negb (has_flag hdr WHDR_DONE) then mret ((acc.1, acc.2 + 1), false) else
  if negb (has_flag hdr WHDR_PREPARED) then mret (acc, false) else
  (* unprepare this WAVEHDR so it can be reused *)
  res ← unprepare_header i;
  mret ((res, acc.2), negb (res =? 0)).

(** The answer pairs the result code with [*inUse]. *)
Definition Audio_Poll : M state (cc_result * Z) :=
  ctx ← getctx;
  for_acc (Z.to_nat (count ctx)) 0 (count ctx) poll_slot (0, 0).

Definition Audio_FastPlay (ctx : AudioContext) (data : AudioData.t) : bool :=
  let channels' := AudioData.channels data in
  let sampleRate' := Audio_AdjustSampleRate (AudioData.sampleRate data) (AudioData.rate data) in
  (channels ctx =? 0)
  || ((channels ctx =? channels') && (sampleRate ctx =? sampleRate')).

(** The scratch buffer can take a chunk of [size] bytes: it is large enough
    already, or it has to grow and the allocator grants the request (a
    scratch buffer that moves must not be the block the chunk lies in). *)
Definition scratch_available (ctx : AudioContext) (w : heap * D) (chunk : ptr) (size : Z)
    : Prop :=
  (size ≤ _tmpSize ctx ∧ ∃ old, load w.1 (_tmpData ctx) size = Ret old)
  ∨ (_tmpSize ctx < size ∧ (mem_grant size w.2).1 = true ∧
     match _tmpData ctx with
     | None => True
     | Some a =>
         ofs a = 0 ∧ is_Some (w.1 !! blk a) ∧ ∀ c, chunk = Some c → blk c ≠ blk a
     end).

(** The contexts a caller can hold after [Audio_Init(ctx, n)] with
    [0 <= n], followed by any number of QueueChunk and Poll calls, whatever
    they answered, and of blocks finished by the driver in between. *)
Inductive configured (n : Z) : AudioContext → Prop :=
| configured_init c w c' w' :
    0 ≤ n →
    Audio_Init n (c, w) = Ret (0, (c', w')) →
    configured n c'
| configured_queue c w chunk size res c' w' :
    configured n c →
    Audio_QueueChunk chunk size (c, w) = Ret (res, (c', w')) →
    configured n c'
| configured_poll c w r c' w' :
    configured n c →
    Audio_Poll (c, w) = Ret (r, (c', w')) →
    configured n c'
| configured_finish c w i c' w' :
    configured n c →
    driver_finishes i (c, w) = Ret (tt, (c', w')) →
    configured n c'.

End Backend.

(** The slots of a context: free when the driver has marked the header
    done, in flight otherwise. *)
Definition free_slots (ctx : AudioContext) : Z :=
  count_if (λ h, has_flag h WHDR_DONE) (take (Z.to_nat (count ctx)) (headers ctx)).

Definition in_flight_slots (ctx : AudioContext) : Z :=
  count_if (λ h, negb (has_flag h WHDR_DONE)) (take (Z.to_nat (count ctx)) (headers ctx)).

(** What the operations on headers leave alone: every field of the
    context but [headers]. *)
Definition hdr_frame (c c' : AudioContext) : Prop :=
  handle c' = handle c ∧ count c' = count c ∧
  channels c' = channels c ∧ sampleRate c' = sampleRate c ∧
  volume c' = volume c ∧ _tmpSize c' = _tmpSize c ∧
  _tmpData c' = _tmpData c.

(** What the volume adjustment leaves alone: every field of the context
    but the scratch buffer's. *)
Definition tmp_frame (c c' : AudioContext) : Prop :=
  handle c' = handle c ∧ headers c' = headers c ∧ count c' = count c ∧
  channels c' = channels c ∧ sampleRate c' = sampleRate c ∧
  volume c' = volume c.

(** A context as [Audio_Init] leaves it at most: the header array has
    AUDIO_MAX_BUFFERS elements, [count] of them in use. *)
Definition wf (c : AudioContext) : Prop :=
  length (headers c) = Z.to_nat AUDIO_MAX_BUFFERS ∧ 0 ≤ count c ≤ AUDIO_MAX_BUFFERS.

(** The WHDR_DONE bit of every header, in order. *)
Definition done_flags (c : AudioContext) : list bool :=
  (λ h, has_flag h WHDR_DONE) <$> headers c.

(** The scripted winmm.dll: every MMRESULT is the next answer, an opened
    device gets the handle 0x77, one output device is present. *)
#[global] Instance script_driver : Driver script := {|
  waveOutOpen := λ _ _ _ _ _ d, (((pop d).1, if (pop d).1 =? 0 then 0x77 else 0), (pop d).2);
  waveOutClose := λ _ d, pop d;
  waveOutPrepareHeader := λ _ _ d, pop d;
  waveOutUnprepareHeader := λ _ _ d, pop d;
  waveOutWrite := λ _ _ d, pop d;
  waveOutReset := λ _ d, pop d;
  waveOutGetNumDevs := λ d, (1, d)
|}.


Section Teardown.
Context {D : Type} `{Allocator D} `{Driver D}.

#[local] Abbreviation state := (@state D).

(** Modelled from the WinMM documentation (src/ has the call only):
    waveOutReset stops playback and hands every pending block back to the
    application marked done.  Its MMRESULT is dropped by the caller. *)
Definition reset_slot (i : Z) : M state (option unit) :=
  hdr ← get_header i;
  (if has_flag hdr WHDR_INQUEUE then driver_finishes i else mret tt);;
  mret None.

Definition Audio_Stop : M state unit :=
  ctx ← getctx;
  call_env (waveOutReset (handle ctx));;
  for_range 0 (Z.of_nat (length (headers ctx))) reset_slot;;
  mret tt.

(** Common backend code (AUDIO_COMMON_VOLUME), compiled against this
    backend's context. *)
Definition AudioBase_Clear : M state unit :=
  setctx (set_count 0);;
  setctx (set_channels 0);;
  setctx (set_sampleRate 0);;
  ctx ← getctx;
  on_heap (Mem_Free (_tmpData ctx));;
  setctx (set__tmpData NULL);;
  setctx (set__tmpSize 0).

Definition Audio_Close : M state unit :=
  ctx ← getctx;
  (if negb (handle ctx =? 0) then
     Audio_Stop;;
     Audio_Poll;; (* unprepare buffers *)
     Audio_Reset;;
     mret tt
   else mret tt);;
  AudioBase_Clear.

End Teardown.

(** The scratch buffer of a context is NULL or the start of a live block,
    as [AudioBase_AdjustSound] leaves it. *)
Definition scratch_live (c : AudioContext) (h : heap) : Prop :=
  match _tmpData c with
  | None => True
  | Some a => ofs a = 0 ∧ is_Some (h !! blk a)
  end.

(** A header [Audio_Poll] has nothing left to do with: in flight, or done
    and no longer prepared. *)
Definition settled (h : WAVEHDR) : Prop :=
  has_flag h WHDR_DONE = true → has_flag h WHDR_PREPARED = false.

End WinMM.

(** * OpenSL ES backend *)
Module OpenSLES.

(** Constants of the OpenSL ES headers the C file includes.  The interface
    ids are symbols the C file resolves when it loads the library
    ([_SL_IID_PLAY], ...); the numbers 1 to 4 only tell them apart. *)
Definition SL_BOOLEAN_FALSE            : Z := 0.
Definition SL_DATAFORMAT_PCM           : Z := 2.
Definition SL_PCMSAMPLEFORMAT_FIXED_16 : Z := 16.
Definition SL_BYTEORDER_LITTLEENDIAN   : Z := 2.
Definition SL_MILLIBEL_MIN             : Z := -32768.
Definition SL_IID_PLAY         : Z := 1.
Definition SL_IID_BUFFERQUEUE  : Z := 2.
Definition SL_IID_PLAYBACKRATE : Z := 3.
Definition SL_IID_VOLUME       : Z := 4.

Record SLDataFormat_PCM := {
  formatType : Z;
  numChannels : Z;
  samplesPerSec : Z;
  bitsPerSample : Z;
  containerSize : Z;
  channelMask : Z;
  endianness : Z
}.

(** The engine and the objects it hands out.  Objects and interfaces are
    handles, 0 for NULL; a method that writes through a pointer argument
    gives the written value back.  [SetRate] takes an SLpermille, a 16-bit
    integer.  [log10_millibel volume] is
    [2000 * Log10(volume / 100.0f)] converted to SLmillibel: floating
    point, left to the environment. *)
Class Driver (D : Type) := {
  CreateAudioPlayer : SLDataFormat_PCM → Z → D → (Z * Z) * D;
  Realize : Z → Z → D → Z * D;
  GetInterface : Z → Z → D → (Z * Z) * D;
  Destroy : Z → D → D;
  SetRate : Z → Z → D → Z * D;
  SetVolumeLevel : Z → Z → D → Z * D;
  log10_millibel : Z → Z
}.

Record AudioContext := {
  count : Z;
  volume : Z;
  channels : Z;
  sampleRate : Z;
  playerObject : Z;
  playerPlayer : Z;
  playerQueue : Z;
  playerRate : Z;
  playerVolume : Z
}.

Definition set_count (v : Z) (c : AudioContext) : AudioContext :=
  {| count := v; volume := volume c; channels := channels c; sampleRate := sampleRate c;
     playerObject := playerObject c; playerPlayer := playerPlayer c;
     playerQueue := playerQueue c; playerRate := playerRate c;
     playerVolume := playerVolume c |}.
Definition set_volume (v : Z) (c : AudioContext) : AudioContext :=
  {| count := count c; volume := v; channels := channels c; sampleRate := sampleRate c;
     playerObject := playerObject c; playerPlayer := playerPlayer c;
     playerQueue := playerQueue c; playerRate := playerRate c;
     playerVolume := playerVolume c |}.
Definition set_channels (v : Z) (c : AudioContext) : AudioContext :=
  {| count := count c; volume := volume c; channels := v; sampleRate := sampleRate c;
     playerObject := playerObject c; playerPlayer := playerPlayer c;
     playerQueue := playerQueue c; playerRate := playerRate c;
     playerVolume := playerVolume c |}.
Definition set_sampleRate (v : Z) (c : AudioContext) : AudioContext :=
  {| count := count c; volume := volume c; channels := channels c; sampleRate := v;
     playerObject := playerObject c; playerPlayer := playerPlayer c;
     playerQueue := playerQueue c; playerRate := playerRate c;
     playerVolume := playerVolume c |}.
Definition set_playerObject (v : Z) (c : AudioContext) : AudioContext :=
  {| count := count c; volume := volume c; channels := channels c; sampleRate := sampleRate c;
     playerObject := v; playerPlayer := playerPlayer c;
     playerQueue := playerQueue c; playerRate := playerRate c;
     playerVolume := playerVolume c |}.
Definition set_playerPlayer (v : Z) (c : AudioContext) : AudioContext :=
  {| count := count c; volume := volume c; channels := channels c; sampleRate := sampleRate c;
     playerObject := playerObject c; playerPlayer := v;
     playerQueue := playerQueue c; playerRate := playerRate c;
     playerVolume := playerVolume c |}.
Definition set_playerQueue (v : Z) (c : AudioContext) : AudioContext :=
  {| count := count c; volume := volume c; channels := channels c; sampleRate := sampleRate c;
     playerObject := playerObject c; playerPlayer := playerPlayer c;
     playerQueue := v; playerRate := playerRate c;
     playerVolume := playerVolume c |}.
Definition set_playerRate (v : Z) (c : AudioContext) : AudioContext :=
  {| count := count c; volume := volume c; channels := channels c; sampleRate := sampleRate c;
     playerObject := playerObject c; playerPlayer := playerPlayer c;
     playerQueue := playerQueue c; playerRate := v;
     playerVolume := playerVolume c |}.
Definition set_playerVolume (v : Z) (c : AudioContext) : AudioContext :=
  {| count := count c; volume := volume c; channels := channels c; sampleRate := sampleRate c;
     playerObject := playerObject c; playerPlayer := playerPlayer c;
     playerQueue := playerQueue c; playerRate := playerRate c;
     playerVolume := v |}.

Section Backend.
Context {D : Type} `{Driver D}.

Definition state : Type := AudioContext * D.

(** A method called through the interface or object [itf]: through NULL it
    is undefined. *)
Definition via {A} (itf : Z) (f : D → A * D) : M state A :=
  if itf =? 0 then lift Fault else call f.

Definition Audio_Init (n_buffers : Z) : M state cc_result :=
  setctx (set_count n_buffers);;
  setctx (set_volume 100);;
  mret 0.

Definition Audio_Reset : M state unit :=
  ctx ← getctx;
  let playerObject' := playerObject ctx in
  if playerObject' =? 0 then mret tt else
  call_ (Destroy playerObject');;
  setctx (set_playerObject 0);;
  setctx (set_playerPlayer 0);;
  setctx (set_playerQueue 0);;
  setctx (set_playerRate 0);;
  setctx (set_playerVolume 0).

Definition UpdateVolume : M state unit :=
  ctx ← getctx;
  (* Object doesn't exist until Audio_SetFormat is called *)
  if playerVolume ctx =? 0 then mret tt else
  (* log of 0 is undefined *)
  let attenuation :=
    if volume ctx =? 0 then SL_MILLIBEL_MIN else log10_millibel (volume ctx) in
  call (SetVolumeLevel (playerVolume ctx) attenuation);;
  mret tt.

Definition RecreatePlayer (channels' sampleRate' : Z) : M state cc_result :=
  setctx (set_channels channels');;
  setctx (set_sampleRate sampleRate');;
  Audio_Reset;;
  ctx ← getctx;
  let fmt := {| formatType    := SL_DATAFORMAT_PCM;
                numChannels   := to_uint32 channels';
                samplesPerSec := to_uint32 (sampleRate' * 1000);
                bitsPerSample := SL_PCMSAMPLEFORMAT_FIXED_16;
                containerSize := SL_PCMSAMPLEFORMAT_FIXED_16;
                channelMask   := 0;
                endianness    := SL_BYTEORDER_LITTLEENDIAN |} in
  '(res, playerObject') ← call (CreateAudioPlayer fmt (to_uint32 (count ctx)));
  setctx (set_playerObject playerObject');;
  if negb (res =? 0) then mret res else
  res ← via playerObject' (Realize playerObject' SL_BOOLEAN_FALSE);
  if negb (res =? 0) then mret res else
  '(res, itf) ← via playerObject' (GetInterface playerObject' SL_IID_PLAY);
  setctx (set_playerPlayer itf);;
  if negb (res =? 0) then mret res else
  '(res, itf) ← via playerObject' (GetInterface playerObject' SL_IID_BUFFERQUEUE);
  setctx (set_playerQueue itf);;
  if negb (res =? 0) then mret res else
  '(res, itf) ← via playerObject' (GetInterface playerObject' SL_IID_PLAYBACKRATE);
  setctx (set_playerRate itf);;
  if negb (res =? 0) then mret res else
  '(res, itf) ← via playerObject' (GetInterface playerObject' SL_IID_VOLUME);
  setctx (set_playerVolume itf);;
  if negb (res =? 0) then mret res else
  UpdateVolume;;
  mret 0.

Definition Audio_SetFormat (channels' sampleRate' playbackRate : Z) : M state cc_result :=
  ctx ← getctx;
  res ← (if negb (channels ctx =? channels') || negb (sampleRate ctx =? sampleRate')
         then RecreatePlayer channels' sampleRate'
         else mret 0);
  if negb (res =? 0) then mret res else
  (* rate is in milli, so 1000 = normal rate *)
  ctx ← getctx;
  via (playerRate ctx) (SetRate (playerRate ctx) (to_int16 (to_int32 (playbackRate * 10)))).

Definition Audio_SetVolume (volume' : Z) : M state unit :=
  setctx (set_volume volume');;
  UpdateVolume.

Definition Audio_FastPlay (ctx : AudioContext) (data : AudioData.t) : bool :=
  (channels ctx =? 0)
  || ((channels ctx =? AudioData.channels data)
      && (sampleRate ctx =? AudioData.sampleRate data)).

End Backend.

(** The scripted OpenSL ES engine: every SLresult is the next answer; a
    created player is object 0x50, its interfaces are 0x50 plus the
    interface id. *)
#[global] Instance script_driver : Driver script := {|
  CreateAudioPlayer := λ _ _ d, (((pop d).1, if (pop d).1 =? 0 then 0x50 else 0), (pop d).2);
  Realize := λ _ _ d, pop d;
  GetInterface := λ obj iid d, (((pop d).1, if (pop d).1 =? 0 then obj + iid else 0), (pop d).2);
  Destroy := λ _ d, d;
  SetRate := λ _ _ d, pop d;
  SetVolumeLevel := λ _ _ d, pop d;
  log10_millibel := λ _, 0
|}.

End OpenSLES.

(** * GC/Wii backend *)
Module GCWii.

Definition Audio_AllocChunks `{Allocator D} (size numChunks : Z) (w : heap * D)
    : cc_result * list ptr * (heap * D) :=
  (* round up to nearest multiple of 0x20 *)
  let size := Z.land (to_uint32 (size + 0x1F)) (to_uint32 (Z.lnot 0x1F)) in
  let '(dst, w') := memalign 0x20 size w in
  match dst with
  | None => (ERR_OUT_OF_MEMORY, [], w')
  | Some _ => (0, map (λ i, ptr_add dst (to_uint32 (size * i))) (seqZ 0 numChunks), w')
  end.

Definition Audio_FreeChunks (chunks : list ptr) (numChunks : Z) (h : heap) : outcome heap :=
  match chunks with
  | c :: _ => Mem_Free c h
  | [] => Fault
  end.


(** Constants of asndlib.h, which the C file includes. *)
Definition SND_OK             : Z := 0.
Definition SND_WORKING        : Z := 1.
Definition VOICE_MONO_16BIT   : Z := 1.
Definition VOICE_STEREO_16BIT : Z := 3.

(** [struct AudioBuffer]; [available] is an [int] holding 0 or 1. *)
Record AudioBuffer := {
  available : Z;
  size : Z;
  samples : ptr
}.

Record AudioContext := {
  chanID : Z;
  count : Z;
  bufHead : Z;
  bufs : list AudioBuffer;
  channels : Z;
  sampleRate : Z;
  volume : Z;
  makeAvailable : bool
}.

Definition set_available (v : Z) (b : AudioBuffer) : AudioBuffer :=
  {| available := v; size := size b; samples := samples b |}.

Definition set_chanID (v : Z) (c : AudioContext) : AudioContext :=
  {| chanID := v; count := count c; bufHead := bufHead c; bufs := bufs c;
     channels := channels c; sampleRate := sampleRate c; volume := volume c;
     makeAvailable := makeAvailable c |}.
Definition set_count (v : Z) (c : AudioContext) : AudioContext :=
  {| chanID := chanID c; count := v; bufHead := bufHead c; bufs := bufs c;
     channels := channels c; sampleRate := sampleRate c; volume := volume c;
     makeAvailable := makeAvailable c |}.
Definition set_bufHead (v : Z) (c : AudioContext) : AudioContext :=
  {| chanID := chanID c; count := count c; bufHead := v; bufs := bufs c;
     channels := channels c; sampleRate := sampleRate c; volume := volume c;
     makeAvailable := makeAvailable c |}.
Definition set_bufs (v : list AudioBuffer) (c : AudioContext) : AudioContext :=
  {| chanID := chanID c; count := count c; bufHead := bufHead c; bufs := v;
     channels := channels c; sampleRate := sampleRate c; volume := volume c;
     makeAvailable := makeAvailable c |}.
Definition set_channels (v : Z) (c : AudioContext) : AudioContext :=
  {| chanID := chanID c; count := count c; bufHead := bufHead c; bufs := bufs c;
     channels := v; sampleRate := sampleRate c; volume := volume c;
     makeAvailable := makeAvailable c |}.
Definition set_sampleRate (v : Z) (c : AudioContext) : AudioContext :=
  {| chanID := chanID c; count := count c; bufHead := bufHead c; bufs := bufs c;
     channels := channels c; sampleRate := v; volume := volume c;
     makeAvailable := makeAvailable c |}.
Definition set_volume (v : Z) (c : AudioContext) : AudioContext :=
  {| chanID := chanID c; count := count c; bufHead := bufHead c; bufs := bufs c;
     channels := channels c; sampleRate := sampleRate c; volume := v;
     makeAvailable := makeAvailable c |}.
Definition set_makeAvailable (v : bool) (c : AudioContext) : AudioContext :=
  {| chanID := chanID c; count := count c; bufHead := bufHead c; bufs := bufs c;
     channels := channels c; sampleRate := sampleRate c; volume := volume c;
     makeAvailable := v |}.

(** [Mem_Set(ctx->bufs, 0, sizeof(ctx->bufs))] leaves every element so. *)
Definition buf_zero : AudioBuffer := {| available := 0; size := 0; samples := NULL |}.

(** The ASND library and what else the backend takes from the platform.
    [ASND_SetVoice] receives, for its callback argument, whether
    [MusicCallback] was handed over.  Blocks carry no numeric address:
    [address] is the platform's, read by the alignment test only.
    [volume_255 volume] is [(volume / 100.0f) * 255] converted to [int]:
    floating point, left to the environment.  [Platform_Log1] receives the
    value the message prints. *)
Class Driver (D : Type) := {
  ASND_StatusVoice : Z → D → Z * D;
  ASND_AddVoice : Z → ptr → Z → D → Z * D;
  ASND_StopVoice : Z → D → Z * D;
  ASND_SetVoice : Z → Z → Z → Z → ptr → Z → Z → Z → bool → D → Z * D;
  ASND_GetFirstUnusedVoice : D → Z * D;
  Platform_Log1 : Z → D → D;
  address : ptr → Z;
  volume_255 : Z → Z
}.

Section Backend.
Context {D : Type} `{Driver D}.

Definition state : Type := AudioContext * D.

(** [ctx->bufs[i].available = true;] *)
Definition mark_available (i : Z) : M state unit :=
  ctx ← getctx;
  buf ← lift (arr_get (bufs ctx) i);
  bs ← lift (arr_set (bufs ctx) i (set_available 1 buf));
  setctx (set_bufs bs).

Definition init_slot (i : Z) : M state (option unit) :=
  mark_available i;;
  mret None.

Definition Audio_Init (buffers : Z) : M state cc_result :=
  setctx (set_chanID (-1));;
  setctx (set_count buffers);;
  setctx (set_volume 255);;
  setctx (set_bufHead 0);;
  setctx (set_makeAvailable false);;
  setctx (set_bufs (replicate (Z.to_nat AUDIO_MAX_BUFFERS) buf_zero));;
  for_range 0 buffers init_slot;;
  mret 0.

Definition Audio_Close : M state unit :=
  ctx ← getctx;
  (if negb (chanID ctx =? -1)
   then call (ASND_StopVoice (chanID ctx));; mret tt
   else mret tt);;
  setctx (set_chanID (-1));;
  setctx (set_count 0).

Definition Audio_SetFormat (channels' sampleRate' playbackRate : Z) : M state cc_result :=
  let sampleRate' := Audio_AdjustSampleRate sampleRate' playbackRate in
  setctx (set_channels channels');;
  setctx (set_sampleRate sampleRate');;
  voice ← call ASND_GetFirstUnusedVoice;
  setctx (set_chanID voice);;
  mret 0.

Definition Audio_SetVolume (volume' : Z) : M state unit :=
  setctx (set_volume (volume_255 volume')).

(** The body of the loop of [Audio_QueueChunk] over the buffers. *)
Definition queue_slot (chunk : ptr) (dataSize : Z) (i : Z) : M state (option cc_result) :=
  ctx ← getctx;
  buf ← lift (arr_get (bufs ctx) i);
  if available buf =? 0 then mret None else
  bs ← lift (arr_set (bufs ctx) i
               {| available := 0; size := to_int32 dataSize; samples := chunk |});
  setctx (set_bufs bs);;
  mret (Some 0).

Definition Audio_QueueChunk (chunk : ptr) (dataSize : Z) : M state cc_result :=
  (* Audio buffers must be aligned and padded to a multiple of 32 bytes *)
  (if negb (Z.land (address chunk) 0x1F =? 0)
   then call_ (Platform_Log1 (address chunk))
   else mret tt);;
  ctx ← getctx;
  r ← for_range 0 (count ctx) (queue_slot chunk dataSize);
  match r with
  | Some res => mret res
  | None =>
      (* tried to queue data without polling for free buffers first *)
      mret ERR_INVALID_ARGUMENT
  end.

Definition Audio_Play : M state cc_result :=
  ctx ← getctx;
  let format := if channels ctx =? 2 then VOICE_STEREO_16BIT else VOICE_MONO_16BIT in
  buf ← lift (arr_get (bufs ctx) 0);
  call (ASND_SetVoice (chanID ctx) format (sampleRate ctx) 0 (samples buf) (size buf)
          (volume ctx) (volume ctx) (count ctx >? 1));;
  (if count ctx =? 1 then mark_available 0 else mret tt);;
  mret 0.

(** The body of the loop of [Audio_Poll]; its local is [count]. *)
Definition poll_slot (i : Z) (n : Z) : M state (Z * bool) :=
  ctx ← getctx;
  buf ← lift (arr_get (bufs ctx) i);
  mret (if available buf =? 0 then n + 1 else n, false).

(** The answer pairs the result code with [*inUse]. *)
Definition Audio_Poll : M state (cc_result * Z) :=
  ctx ← getctx;
  n ← for_acc (Z.to_nat (count ctx)) 0 (count ctx) poll_slot 0;
  mret (0, n).

Definition Audio_FastPlay (ctx : AudioContext) (data : AudioData.t) : bool := true.

(** A caller queueing the chunks of a list one after the other; the answer
    lists the result codes. *)
Fixpoint queue_all (chunks : list (ptr * Z)) : M state (list cc_result) :=
  match chunks with
  | [] => mret []
  | (chunk, dataSize) :: rest =>
      res ← Audio_QueueChunk chunk dataSize;
      more ← queue_all rest;
      mret (res :: more)
  end.

(** The driver once [Audio_QueueChunk] has tested the alignment of the
    chunk, and logged it when it is not a multiple of 32. *)
Definition logged (chunk : ptr) (d : D) : D :=
  if negb (Z.land (address chunk) 0x1F =? 0) then Platform_Log1 (address chunk) d else d.

(** [MusicCallback(voice)], with [music_ctx] as the context of the state.
    [%] is C's remainder; by zero it is undefined. *)
Definition MusicCallback (voice : Z) : M state unit :=
  ctx ← getctx;
  (if count ctx =? 0 then lift Fault else mret tt);;
  let next := Z.rem (bufHead ctx + 1) (count ctx) in
  status ← call (ASND_StatusVoice voice);
  if negb (status =? SND_WORKING) then mret tt else
  nextBuf ← lift (arr_get (bufs ctx) next);
  res ← call (ASND_AddVoice voice (samples nextBuf) (size nextBuf));
  (if res =? SND_OK then
     setctx (set_bufHead next);;
     (if next =? 2 then setctx (set_makeAvailable true) else mret tt);;
     ctx ← getctx;
     if makeAvailable ctx then
       let prev := bufHead ctx - 2 in
       let prev := if prev <? 0 then prev + 4 else prev in
       mark_available prev
     else mret tt
   else mret tt);;
  '(_, inUse) ← Audio_Poll;
  if inUse =? 0 then
    (* music has finished, stop the voice so this function isn't called anymore *)
    ctx ← getctx;
    call (ASND_StopVoice (chanID ctx));; mret tt
  else mret tt.

End Backend.

(** The buffers of a context the next chunk can go to, and the others. *)
Definition available_slots (ctx : AudioContext) : Z :=
  count_if (λ b, negb (available b =? 0)) (take (Z.to_nat (count ctx)) (bufs ctx)).

Definition in_use_slots (ctx : AudioContext) : Z :=
  count_if (λ b, available b =? 0) (take (Z.to_nat (count ctx)) (bufs ctx)).

(** A context as [Audio_Init] leaves it at most. *)
Definition wf (c : AudioContext) : Prop :=
  length (bufs c) = Z.to_nat AUDIO_MAX_BUFFERS ∧ 0 ≤ count c ≤ AUDIO_MAX_BUFFERS.

(** The music context while it plays: at least one buffer, and the head
    among the buffers in use. *)
Definition wf_music (c : AudioContext) : Prop :=
  length (bufs c) = Z.to_nat AUDIO_MAX_BUFFERS ∧ 1 ≤ count c ≤ AUDIO_MAX_BUFFERS ∧
  0 ≤ bufHead c < count c.

(** What an operation on the buffers leaves alone. *)
Definition bufs_frame (c c' : AudioContext) : Prop :=
  chanID c' = chanID c ∧ count c' = count c ∧ channels c' = channels c ∧
  sampleRate c' = sampleRate c ∧ volume c' = volume c ∧
  length (bufs c') = length (bufs c).

(** The scripted ASND: every value given back is the next answer; the
    address of a pointer is its offset. *)
#[global] Instance script_driver : Driver script := {|
  ASND_StatusVoice := λ _ d, pop d;
  ASND_AddVoice := λ _ _ _ d, pop d;
  ASND_StopVoice := λ _ d, pop d;
  ASND_SetVoice := λ _ _ _ _ _ _ _ _ _ d, pop d;
  ASND_GetFirstUnusedVoice := pop;
  Platform_Log1 := λ _ d, d;
  address := λ p, match p with Some a => ofs a | None => 0 end;
  volume_255 := λ v, (v * 255) / 100
|}.

End GCWii.

(** * Dreamcast backend *)
Module Dreamcast.

Definition Audio_AllocChunks `{Allocator D} (size numChunks : Z) (w : heap * D)
    : cc_result * list ptr * (heap * D) :=
  (* round up to nearest multiple of 32 *)
  let size := Z.land (to_uint32 (size + 0x1F)) (to_uint32 (Z.lnot 0x1F)) in
  let '(dst, w') := memalign 32 (to_uint32 (size * numChunks)) w in
  match dst with
  | None => (ERR_OUT_OF_MEMORY, [], w')
  | Some _ => (0, map (λ i, ptr_add dst (to_uint32 (size * i))) (seqZ 0 numChunks), w')
  end.


(** Constants of the KallistiOS headers (kos.h), which the C file
    includes. *)
Definition SND_STREAM_INVALID    : Z := -1.
Definition SND_STREAM_BUFFER_MAX : Z := 0x10000.

(** [struct AudioBuffer]; [available] is an [int] holding 0 or 1. *)
Record AudioBuffer := {
  available : Z;
  bytesLeft : Z;
  samples : ptr
}.

Record AudioContext := {
  bufHead : Z;
  channels : Z;
  hnd : Z;
  bufs : list AudioBuffer;
  count : Z;
  sampleRate : Z
}.

Definition set_available (v : Z) (b : AudioBuffer) : AudioBuffer :=
  {| available := v; bytesLeft := bytesLeft b; samples := samples b |}.

Definition set_bufHead (v : Z) (c : AudioContext) : AudioContext :=
  {| bufHead := v; channels := channels c; hnd := hnd c; bufs := bufs c;
     count := count c; sampleRate := sampleRate c |}.
Definition set_channels (v : Z) (c : AudioContext) : AudioContext :=
  {| bufHead := bufHead c; channels := v; hnd := hnd c; bufs := bufs c;
     count := count c; sampleRate := sampleRate c |}.
Definition set_hnd (v : Z) (c : AudioContext) : AudioContext :=
  {| bufHead := bufHead c; channels := channels c; hnd := v; bufs := bufs c;
     count := count c; sampleRate := sampleRate c |}.
Definition set_bufs (v : list AudioBuffer) (c : AudioContext) : AudioContext :=
  {| bufHead := bufHead c; channels := channels c; hnd := hnd c; bufs := v;
     count := count c; sampleRate := sampleRate c |}.
Definition set_count (v : Z) (c : AudioContext) : AudioContext :=
  {| bufHead := bufHead c; channels := channels c; hnd := hnd c; bufs := bufs c;
     count := v; sampleRate := sampleRate c |}.
Definition set_sampleRate (v : Z) (c : AudioContext) : AudioContext :=
  {| bufHead := bufHead c; channels := channels c; hnd := hnd c; bufs := bufs c;
     count := count c; sampleRate := v |}.

(** [Mem_Set(ctx->bufs, 0, sizeof(ctx->bufs))] leaves every element so. *)
Definition buf_zero : AudioBuffer := {| available := 0; bytesLeft := 0; samples := NULL |}.

(** The sound stream API of KallistiOS.  [snd_stream_alloc] receives the
    buffer size (its callback is [AudioCallback]); [snd_stream_start]
    receives whether the stream is stereo. *)
Class Driver (D : Type) := {
  snd_stream_alloc : Z → D → Z * D;
  snd_stream_set_userdata : Z → D → D;
  snd_stream_stop : Z → D → D;
  snd_stream_destroy : Z → D → D;
  snd_stream_volume : Z → Z → D → D;
  snd_stream_start : Z → Z → bool → D → D
}.

Section Backend.
Context {D : Type} `{Driver D}.

Definition state : Type := AudioContext * D.

(** [AudioCallback(hnd, smp_req, smp_recv)], the context being the one
    the stream holds as its user data.  The answer pairs the pointer
    returned with [*smp_recv].  [%] is C's remainder; by zero it is
    undefined. *)
Definition AudioCallback (smp_req : Z) : M state (ptr * Z) :=
  ctx ← getctx;
  buf ← lift (arr_get (bufs ctx) (bufHead ctx));
  let samples' := Z.min (bytesLeft buf) smp_req in
  let ptr' := samples buf in
  let buf := {| available := available buf;
                bytesLeft := bytesLeft buf - samples';
                samples := ptr_add (samples buf) samples' |} in
  if bytesLeft buf =? 0 then
    (if count ctx =? 0 then lift Fault else mret tt);;
    setctx (set_bufHead (Z.rem (bufHead ctx + 1) (count ctx)));;
    bs ← lift (arr_set (bufs ctx) (bufHead ctx)
                 {| available := 1; bytesLeft := 0; samples := NULL |});
    setctx (set_bufs bs);;
    (* special case to fix sounds looping *)
    mret (ptr', if (samples' =? 0) && bool_decide (ptr' = NULL) then smp_req else samples')
  else
    bs ← lift (arr_set (bufs ctx) (bufHead ctx) buf);
    setctx (set_bufs bs);;
    mret (ptr', samples').

(** [ctx->bufs[i].available = true;] *)
Definition init_slot (i : Z) : M state (option unit) :=
  ctx ← getctx;
  buf ← lift (arr_get (bufs ctx) i);
  bs ← lift (arr_set (bufs ctx) i (set_available 1 buf));
  setctx (set_bufs bs);;
  mret None.

Definition Audio_Init (buffers : Z) : M state cc_result :=
  h ← call (snd_stream_alloc SND_STREAM_BUFFER_MAX);
  setctx (set_hnd h);;
  if h =? SND_STREAM_INVALID then mret ERR_NOT_SUPPORTED else
  call_ (snd_stream_set_userdata h);;
  setctx (set_bufs (replicate (Z.to_nat AUDIO_MAX_BUFFERS) buf_zero));;
  for_range 0 buffers init_slot;;
  setctx (set_count buffers);;
  setctx (set_bufHead 0);;
  mret 0.

Definition Audio_Close : M state unit :=
  ctx ← getctx;
  (if negb (count ctx =? 0)
   then call_ (snd_stream_stop (hnd ctx));; call_ (snd_stream_destroy (hnd ctx))
   else mret tt);;
  setctx (set_hnd SND_STREAM_INVALID);;
  setctx (set_count 0).

Definition Audio_SetFormat (channels' sampleRate' playbackRate : Z) : M state cc_result :=
  let sampleRate' := Audio_AdjustSampleRate sampleRate' playbackRate in
  setctx (set_channels channels');;
  setctx (set_sampleRate sampleRate');;
  mret 0.

Definition Audio_SetVolume (volume : Z) : M state unit :=
  ctx ← getctx;
  call_ (snd_stream_volume (hnd ctx) volume).

(** The body of the loop of [Audio_QueueChunk] over the buffers. *)
Definition queue_slot (chunk : ptr) (dataSize : Z) (i : Z) : M state (option cc_result) :=
  ctx ← getctx;
  buf ← lift (arr_get (bufs ctx) i);
  if available buf =? 0 then mret None else
  bs ← lift (arr_set (bufs ctx) i
               {| available := 0; bytesLeft := to_int32 dataSize; samples := chunk |});
  setctx (set_bufs bs);;
  mret (Some 0).

Definition Audio_QueueChunk (chunk : ptr) (dataSize : Z) : M state cc_result :=
  ctx ← getctx;
  r ← for_range 0 (count ctx) (queue_slot chunk dataSize);
  match r with
  | Some res => mret res
  | None =>
      (* tried to queue data without polling for free buffers first *)
      mret ERR_INVALID_ARGUMENT
  end.

Definition Audio_Play : M state cc_result :=
  ctx ← getctx;
  call_ (snd_stream_start (hnd ctx) (sampleRate ctx) (channels ctx =? 2));;
  mret 0.

(** The body of the loop of [Audio_Poll]; its local is [count]. *)
Definition poll_slot (i : Z) (n : Z) : M state (Z * bool) :=
  ctx ← getctx;
  buf ← lift (arr_get (bufs ctx) i);
  mret (if available buf =? 0 then n + 1 else n, false).

(** The answer pairs the result code with [*inUse]. *)
Definition Audio_Poll : M state (cc_result * Z) :=
  ctx ← getctx;
  n ← for_acc (Z.to_nat (count ctx)) 0 (count ctx) poll_slot 0;
  mret (0, n).

Definition Audio_FastPlay (ctx : AudioContext) (data : AudioData.t) : bool := true.

(** The stream asking for [smp_req] bytes [k] times in a row; the answer
    lists what each call gave. *)
Fixpoint callbacks (k : nat) (smp_req : Z) : M state (list (ptr * Z)) :=
  match k with
  | O => mret []
  | S k' =>
      piece ← AudioCallback smp_req;
      more ← callbacks k' smp_req;
      mret (piece :: more)
  end.

End Backend.

(** The context once the stream has taken the whole of the buffer at the
    head: the buffer is available again and the head has moved on. *)
Definition released (c : AudioContext) : AudioContext :=
  set_bufs (<[Z.to_nat (bufHead c) := {| available := 1; bytesLeft := 0; samples := NULL |}]>
              (bufs c))
    (set_bufHead (Z.rem (bufHead c + 1) (count c)) c).

(** The pieces of [n] bytes at [p] that a stream asking for [r] bytes at a
    time is to get: piece [j] starts [r * j] bytes in and holds [r] bytes,
    the last one what is left. *)
Definition pieces (p : ptr) (n r : Z) (k : nat) : list (ptr * Z) :=
  (λ j, (ptr_add p (r * j), Z.min (n - r * j) r)) <$> seqZ 0 (Z.of_nat k).

(** A context that streams: 1 to AUDIO_MAX_BUFFERS buffers, the head among
    them. *)
Definition wf (c : AudioContext) : Prop :=
  length (bufs c) = Z.to_nat AUDIO_MAX_BUFFERS ∧ 1 ≤ count c ≤ AUDIO_MAX_BUFFERS ∧
  0 ≤ bufHead c < count c.

(** The scripted stream API: a handle is the next answer. *)
#[global] Instance script_driver : Driver script := {|
  snd_stream_alloc := λ _ d, pop d;
  snd_stream_set_userdata := λ _ d, d;
  snd_stream_stop := λ _ d, d;
  snd_stream_destroy := λ _ d, d;
  snd_stream_volume := λ _ _ d, d;
  snd_stream_start := λ _ _ _ d, d
|}.

End Dreamcast.

(** * The context pool *)
Module Pool.

Definition POOL_MAX_CONTEXTS : Z := 8.

(** The operations every backend defines, as the pool uses them: [C] is the
    backend's [struct AudioContext], [W] everything else the backend
    touches. *)
Class Backend (C W : Type) := {
  count : C → Z;
  Audio_Init : Z → M (C * W) cc_result;
  Audio_SetFormat : Z → Z → Z → M (C * W) cc_result;
  Audio_SetVolume : Z → M (C * W) unit;
  Audio_QueueChunk : ptr → Z → M (C * W) cc_result;
  Audio_Play : M (C * W) cc_result;
  Audio_Poll : M (C * W) (cc_result * Z);
  Audio_FastPlay : C → AudioData.t → bool
}.

(** A record of the backend calls [AudioPool_Play] makes, with the context
    index and what the call answered.  The record is an observer: no
    decision of the code reads it. *)
Inductive call_record :=
| CallInit (i : Z) (res : cc_result)
| CallPoll (i : Z) (res : cc_result) (inUse : Z)
| CallPlayAudio (i : Z) (res : cc_result).

(** Reading the call records. *)
Definition call_res (e : call_record) : cc_result :=
  match e with
  | CallInit _ res | CallPoll _ res _ | CallPlayAudio _ res => res
  end.

Definition call_failed (e : call_record) : bool :=
  match e with
  | CallInit _ res | CallPoll _ res _ => negb (res =? 0)
  | CallPlayAudio _ _ => false
  end.

Definition is_init (e : call_record) : bool :=
  match e with CallInit _ _ => true | _ => false end.

Definition is_poll (e : call_record) : bool :=
  match e with CallPoll _ _ _ => true | _ => false end.

Definition is_play (e : call_record) : bool :=
  match e with CallPlayAudio _ _ => true | _ => false end.

(** A poll that succeeded and reported buffers in use; other records pass. *)
Definition poll_in_use (e : call_record) : bool :=
  match e with
  | CallPoll _ res inUse => (res =? 0) && (inUse >? 0)
  | _ => true
  end.

(** A call after which the scan goes on: it did not fail and played
    nothing. *)
Definition quiet (e : call_record) : bool :=
  negb (call_failed e) && negb (is_play e).

(** The records of a scan of at most [k] contexts that answered [r]
    ([None]: no context was taken), [with_init] telling whether the scan
    initialises unused contexts; [law] stands for [fresh_idle_law]. *)
Record scan_ok (law : Prop) (with_init : bool) (k : Z) (r : option cc_result)
    (new : list call_record) : Prop := {
  so_polls : count_if is_poll new ≤ k;
  so_init : with_init = false → forallb (λ e, negb (is_init e)) new = true;
  so_law : law → existsb is_init new = true →
           existsb (λ e, negb (poll_in_use e)) new || existsb call_failed new = true;
  so_none : r = None → forallb quiet new = true;
  so_some : ∀ res, r = Some res →
            ∃ pre e, new = pre ++ [e] ∧ forallb quiet pre = true ∧ call_res e = res ∧
                     call_failed e
                     || (is_play e && existsb (λ e', negb (poll_in_use e')) pre) = true
}.

Record pool (C W : Type) := {
  context_pool : list C;
  world : W;
  calls : list call_record
}.
Arguments context_pool {C W} p.
Arguments world {C W} p.
Arguments calls {C W} p.

Section Pool.
Context {C W : Type} `{Backend C W}.

(** [ctx = &context_pool[i]] *)
Definition ctx_at (i : Z) : M (pool C W) C :=
  λ s, match arr_get (context_pool s) i with
       | Ret c => Ret (c, s)
       | Fault => Fault
       end.

(** Runs a backend operation on [context_pool[i]]. *)
Definition on_ctx {A} (i : Z) (m : M (C * W) A) : M (pool C W) A :=
  λ s, match arr_get (context_pool s) i with
       | Ret c =>
           match m (c, world s) with
           | Ret (a, (c', w')) =>
               Ret (a, {| context_pool := <[Z.to_nat i := c']> (context_pool s);
                          world := w'; calls := calls s |})
           | Fault => Fault
           end
       | Fault => Fault
       end.

Definition record (e : call_record) : M (pool C W) unit :=
  λ s, Ret (tt, {| context_pool := context_pool s; world := world s;
                   calls := calls s ++ [e] |}).

Definition PlayAudio (data : AudioData.t) : M (C * W) cc_result :=
  Audio_SetVolume (AudioData.volume data);;
  res ← Audio_SetFormat (AudioData.channels data) (AudioData.sampleRate data)
                        (AudioData.rate data);
  if negb (res =? 0) then mret res else
  res ← Audio_QueueChunk (AudioData.data data) (AudioData.size data);
  if negb (res =? 0) then mret res else
  res ← Audio_Play;
  if negb (res =? 0) then mret res else
  mret 0.

Definition pool_Init (i : Z) : M (pool C W) cc_result :=
  res ← on_ctx i (Audio_Init 1);
  record (CallInit i res);;
  mret res.

Definition pool_Poll (i : Z) : M (pool C W) (cc_result * Z) :=
  '(res, inUse) ← on_ctx i Audio_Poll;
  record (CallPoll i res inUse);;
  mret (res, inUse).

Definition pool_PlayAudio (i : Z) (data : AudioData.t) : M (pool C W) cc_result :=
  res ← on_ctx i (PlayAudio data);
  record (CallPlayAudio i res);;
  mret res.

(** Try to play on a context that doesn't need to be recreated *)
Definition pass1_body (data : AudioData.t) (i : Z) : M (pool C W) (option cc_result) :=
  ctx ← ctx_at i;
  res ← (if count ctx =? 0 then pool_Init i else mret 0);
  if negb (res =? 0) then mret (Some res) else
  '(res, inUse) ← pool_Poll i;
  if negb (res =? 0) then mret (Some res) else
  if inUse >? 0 then mret None else
  ctx ← ctx_at i;
  if negb (Audio_FastPlay ctx data) then mret None else
  res ← pool_PlayAudio i data;
  mret (Some res).

(** Try again with all contexts, even if need to recreate one (expensive) *)
Definition pass2_body (data : AudioData.t) (i : Z) : M (pool C W) (option cc_result) :=
  '(res, inUse) ← pool_Poll i;
  if negb (res =? 0) then mret (Some res) else
  if inUse >? 0 then mret None else
  res ← pool_PlayAudio i data;
  mret (Some res).

Definition AudioPool_Play (data : AudioData.t) : M (pool C W) cc_result :=
  r ← for_range 0 POOL_MAX_CONTEXTS (pass1_body data);
  match r with
  | Some res => mret res
  | None =>
      r ← for_range 0 POOL_MAX_CONTEXTS (pass2_body data);
      match r with
      | Some res => mret res
      | None => mret 0
      end
  end.

(** Two properties of a backend that the pool's behaviour under contention
    rests on: a context just initialised with one buffer is not reported in
    use, and polling leaves what [fmt] reads of a context alone. *)
Definition fresh_idle_law : Prop :=
  ∀ c w c' w' res inUse c'' w'',
    Audio_Init 1 (c, w) = Ret (0, (c', w')) →
    Audio_Poll (c', w') = Ret ((res, inUse), (c'', w'')) →
    res = 0 → inUse ≤ 0.

Definition poll_keeps {F} (fmt : C → F) : Prop :=
  ∀ c w r c' w', Audio_Poll (c, w) = Ret (r, (c', w')) → fmt c' = fmt c.

(** What one turn of a scan loop, or a whole scan, has recorded and done
    between the pool states [s] and [s']. *)
Definition scanned {F} (fmt : C → F) (with_init : bool) (k : Z) (s s' : pool C W)
    (r : option cc_result) : Prop :=
  ∃ new, calls s' = calls s ++ new ∧
         scan_ok fresh_idle_law with_init k r new ∧
         (poll_keeps fmt → forallb is_poll new = true →
          fmt <$> context_pool s' = fmt <$> context_pool s).

End Pool.

(** The pool over the OpenAL and the WinMM backend. *)
#[global] Instance OpenAL_backend `{OpenAL.Driver D} : Backend OpenAL.AudioContext D := {|
  count := OpenAL.count;
  Audio_Init := OpenAL.Audio_Init;
  Audio_SetFormat := OpenAL.Audio_SetFormat;
  Audio_SetVolume := OpenAL.Audio_SetVolume;
  Audio_QueueChunk := OpenAL.Audio_QueueChunk;
  Audio_Play := OpenAL.Audio_Play;
  Audio_Poll := OpenAL.Audio_Poll;
  Audio_FastPlay := OpenAL.Audio_FastPlay
|}.

#[global] Instance WinMM_backend `{Allocator D} `{WinMM.Driver D}
    : Backend WinMM.AudioContext (heap * D) := {|
  count := WinMM.count;
  Audio_Init := WinMM.Audio_Init;
  Audio_SetFormat := WinMM.Audio_SetFormat;
  Audio_SetVolume := WinMM.Audio_SetVolume;
  Audio_QueueChunk := WinMM.Audio_QueueChunk;
  Audio_Play := WinMM.Audio_Play;
  Audio_Poll := WinMM.Audio_Poll;
  Audio_FastPlay := WinMM.Audio_FastPlay
|}.

End Pool.

(** * Switch backend: channels and memory pools *)
Module Switch.

(** [struct AudioContext] without [bufs], which the functions modelled
    here leave alone. *)
Record AudioContext := {
  chanID : Z;
  count : Z;
  channels : Z;
  sampleRate : Z
}.

Definition set_chanID (v : Z) (c : AudioContext) : AudioContext :=
  {| chanID := v; count := count c; channels := channels c; sampleRate := sampleRate c |}.
Definition set_count (v : Z) (c : AudioContext) : AudioContext :=
  {| chanID := chanID c; count := v; channels := channels c; sampleRate := sampleRate c |}.

(** The audio driver of libnx, as far as [Audio_Close] uses it. *)
Class Driver (D : Type) := {
  audrvVoiceStop : Z → D → D
}.

(** [1 << i] on [int]: undefined when [i] is negative or the bit is not
    one of the value bits. *)
Definition shl1 (i : Z) : outcome Z :=
  if (0 <=? i) && (i <? 31) then Ret (Z.shiftl 1 i) else Fault.

Section Backend.
Context {D : Type} `{Driver D}.

(** The context, the static [channelIDs] and the driver. *)
Definition state : Type := AudioContext * (Z * D).

Definition get_channelIDs : M state Z := λ s, Ret (s.2.1, s).
Definition set_channelIDs (v : Z) : M state unit := λ s, Ret (tt, (s.1, (v, s.2.2))).
Definition call_driver (f : D → D) : M state unit := λ s, Ret (tt, (s.1, (s.2.1, f s.2.2))).

(** The body of the loop of [Audio_Init]: [Some i] stands for
    [chanID = i; break;]. *)
Definition find_channel (i : Z) : M state (option Z) :=
  channelIDs ← get_channelIDs;
  bit ← lift (shl1 i);
  (* channel in use *)
  if negb (Z.land channelIDs bit =? 0) then mret None else
  mret (Some i).

Definition Audio_Init (buffers : Z) : M state cc_result :=
  r ← for_range 0 24 find_channel;
  let chanID' := default (-1) r in
  if chanID' =? -1 then mret ERR_INVALID_ARGUMENT else
  channelIDs ← get_channelIDs;
  bit ← lift (shl1 chanID');
  set_channelIDs (Z.lor channelIDs bit);;
  setctx (set_count buffers);;
  setctx (set_chanID chanID');;
  mret 0.

Definition Audio_Close : M state unit :=
  ctx ← getctx;
  (if negb (count ctx =? 0) then
     call_driver (audrvVoiceStop (chanID ctx));;
     channelIDs ← get_channelIDs;
     bit ← lift (shl1 (chanID ctx));
     set_channelIDs (Z.land channelIDs (Z.lnot bit))
   else mret tt);;
  setctx (set_count 0).

End Backend.

(** Channel [i] is marked in use in [channelIDs]. *)
Definition in_use (channelIDs i : Z) : bool := Z.testbit channelIDs i.

(** The scripted driver does nothing. *)
#[global] Instance script_driver : Driver script := {|
  audrvVoiceStop := λ _ d, d
|}.

(** ** The memory pools of the chunks *)

(** [struct AudioMemPools] *)
Record AudioMemPools := {
  chunk : ptr;
  mpid : Z
}.

(** [Mem_Set(&audioPools[j], 0, sizeof(struct AudioMemPools))] *)
Definition pool_zero : AudioMemPools := {| chunk := NULL; mpid := 0 |}.

(** [p == q] on pointers *)
Definition ptr_eqb (p q : ptr) : bool :=
  match p, q with
  | None, None => true
  | Some a, Some b => (blk a =? blk b)%nat && (ofs a =? ofs b)
  | _, _ => false
  end.

(** The memory pool entry points of libnx's audio driver:
    [audrvMemPoolAdd] answers the id of the new pool; what the other three
    answer is dropped by the code. *)
Class PoolDriver (D : Type) := {
  audrvMemPoolAdd : ptr → Z → D → Z * D;
  audrvMemPoolAttach : Z → D → D;
  audrvMemPoolDetach : Z → D → D;
  audrvMemPoolRemove : Z → D → D
}.

Section Pools.
Context {D : Type} `{Allocator D} `{PoolDriver D}.

(** The static [audioPools], the heap and the driver. *)
Definition pool_state : Type := list AudioMemPools * (heap * D).

(** The body of the loop of [Audio_AllocChunks] over [audioPools]:
    [Some tt] stands for [break]. *)
Definition record_pool (dst : ptr) (mpid' : Z) (j : Z) : M pool_state (option unit) :=
  pools ← getctx;
  p ← lift (arr_get pools j);
  if negb (ptr_eqb (chunk p) NULL) then mret None else
  pools' ← lift (arr_set pools j {| chunk := dst; mpid := mpid' |});
  setctx (λ _, pools');;
  mret (Some tt).

(** The body of the loop over the chunks; the answer is [chunks[i]]. *)
Definition add_chunk (dst : ptr) (size : Z) (i : Z) : M pool_state ptr :=
  let p := ptr_add dst (to_uint32 (size * i)) in
  mpid' ← call_env (audrvMemPoolAdd p size);
  call_env (λ d, (tt, audrvMemPoolAttach mpid' d));;
  for_range 0 64 (record_pool dst mpid');;
  mret p.

(** [for (i = 0; i < numChunks; i++) chunks[i] = ...], the answers in
    order. *)
Fixpoint chunk_loop (ixs : list Z) (body : Z → M pool_state ptr) : M pool_state (list ptr) :=
  match ixs with
  | [] => mret []
  | i :: ixs' =>
      p ← body i;
      rest ← chunk_loop ixs' body;
      mret (p :: rest)
  end.

(** [aligned_alloc] and [free] of the C library are [memalign] and
    [Mem_Free] here. *)
Definition Audio_AllocChunks (size numChunks : Z) : M pool_state (cc_result * list ptr) :=
  (* round up to nearest multiple of 0x1000 *)
  let size := Z.land (to_uint32 (size + 0xFFF)) (to_uint32 (Z.lnot 0xFFF)) in
  dst ← call_world (λ w, Ret (memalign 0x1000 (to_uint32 (size * numChunks)) w));
  match dst with
  | None => mret (ERR_OUT_OF_MEMORY, [])
  | Some _ =>
      chunks ← chunk_loop (seqZ 0 numChunks) (add_chunk dst size);
      mret (0, chunks)
  end.

(** The body of the inner loop of [Audio_FreeChunks]. *)
Definition release_pool (c0 : ptr) (j : Z) : M pool_state (option unit) :=
  pools ← getctx;
  p ← lift (arr_get pools j);
  if negb (ptr_eqb (chunk p) c0) then mret None else
  call_env (λ d, (tt, audrvMemPoolDetach (mpid p) d));;
  call_env (λ d, (tt, audrvMemPoolRemove (mpid p) d));;
  pools' ← lift (arr_set pools j pool_zero);
  setctx (λ _, pools');;
  mret (Some tt).

(** The body of the outer loop, which has no [break] of its own. *)
Definition release_turn (c0 : ptr) (i : Z) : M pool_state (option unit) :=
  for_range 0 64 (release_pool c0);;
  mret None.

Definition Audio_FreeChunks (chunks : list ptr) (numChunks : Z) : M pool_state unit :=
  c0 ← lift (arr_get chunks 0);
  (* remove memory pool from audren *)
  for_range 0 numChunks (release_turn c0);;
  on_heap (Mem_Free c0).

(** The entries [Audio_AllocChunks] has for the chunks [ixs] of the block
    [dst], with the ids the driver answers, and the driver afterwards. *)
Fixpoint added (dst : ptr) (size : Z) (ixs : list Z) (d : D) : list AudioMemPools * D :=
  match ixs with
  | [] => ([], d)
  | i :: ixs' =>
      let r := audrvMemPoolAdd (ptr_add dst (to_uint32 (size * i))) size d in
      let rest := added dst size ixs' (audrvMemPoolAttach r.1 r.2) in
      ({| chunk := dst; mpid := r.1 |} :: rest.1, rest.2)
  end.

(** [audrvMemPoolDetach] and [audrvMemPoolRemove] on each id in turn. *)
Definition released (ids : list Z) (d : D) : D :=
  foldl (λ d m, audrvMemPoolRemove m (audrvMemPoolDetach m d)) d ids.

End Pools.

Definition is_empty (p : AudioMemPools) : bool := ptr_eqb (chunk p) NULL.

(** The table [pools] once the entries [xs] are written, in order, to its
    empty entries after the first [k]. *)
Fixpoint fill_from (k : nat) (xs : list AudioMemPools) (pools : list AudioMemPools)
    : list AudioMemPools :=
  match pools with
  | [] => []
  | p :: ps =>
      if is_empty p then
        match k, xs with
        | S k', _ => p :: fill_from k' xs ps
        | O, x :: xs' => x :: fill_from O xs' ps
        | O, [] => p :: ps
        end
      else p :: fill_from k xs ps
  end.

(** A table as the code keeps it: 64 entries, the empty ones zeroed, the
    others pointing at blocks that are allocated. *)
Definition pools_ok (pools : list AudioMemPools) (h : heap) : Prop :=
  length pools = 64%nat ∧
  (∀ p, p ∈ pools → is_empty p = true → p = pool_zero) ∧
  (∀ p a, p ∈ pools → chunk p = Some a → is_Some (h !! blk a)).

(** The scripted driver numbers the pools by its answers. *)
#[global] Instance script_pool_driver : PoolDriver script := {|
  audrvMemPoolAdd := λ _ _ d, pop d;
  audrvMemPoolAttach := λ _ d, d;
  audrvMemPoolDetach := λ _ d, d;
  audrvMemPoolRemove := λ _ d, d
|}.


End Switch.

(** * Concrete runs on the scripted environment *)

(** A heap holding one chunk of four 16-bit samples (100, -100, 32767,
    -32768, little endian) in block 0. *)
Definition ex_heap : heap := {[ 0%nat := [100; 0; 156; 255; 255; 127; 0; 128] ]}.
Definition ex_chunk : ptr := Some (Addr 0 0).

Definition ex_data : AudioData.t :=
  {| AudioData.data := ex_chunk; AudioData.size := 8; AudioData.channels := 1;
     AudioData.sampleRate := 44100; AudioData.rate := 100; AudioData.volume := 50 |}.

(** ** WinMM *)

(** A header the driver still plays: prepared and in its queue, not done. *)
Definition winmm_queued_hdr (chunk : ptr) (len : Z) : WinMM.WAVEHDR :=
  {| WinMM.lpData := chunk; WinMM.dwBufferLength := len; WinMM.dwBytesRecorded := 0;
     WinMM.dwUser := 0; WinMM.dwFlags := Z.lor WinMM.WHDR_PREPARED WinMM.WHDR_INQUEUE;
     WinMM.dwLoops := 1; WinMM.lpNext := NULL; WinMM.reserved := 0 |}.

(** A context with one buffer at volume 50, nothing queued yet. *)
Definition winmm_idle_ctx : WinMM.AudioContext :=
  {| WinMM.handle := 0x77;
     WinMM.headers := WinMM.set_dwFlags WinMM.WHDR_DONE WinMM.hdr_zero
                      :: replicate 3 WinMM.hdr_zero;
     WinMM.count := 1; WinMM.channels := 1; WinMM.sampleRate := 44100;
     WinMM.volume := 50; WinMM._tmpSize := 0; WinMM._tmpData := NULL |}.

(** The same context once a chunk of 4 bytes is queued: its only slot is in
    flight, the scratch buffer is block 1 and has 4 bytes. *)
Definition winmm_full_ctx : WinMM.AudioContext :=
  {| WinMM.handle := 0x77;
     WinMM.headers := winmm_queued_hdr (Some (Addr 1 0)) 4 :: replicate 3 WinMM.hdr_zero;
     WinMM.count := 1; WinMM.channels := 1; WinMM.sampleRate := 44100;
     WinMM.volume := 50; WinMM._tmpSize := 4; WinMM._tmpData := Some (Addr 1 0) |}.

Definition winmm_full_heap : heap := <[ 1%nat := [50; 0; 206; 255] ]> ex_heap.

(** A context with one buffer at volume 50 gets a chunk of 4 bytes and
    then, its only slot still in flight, a chunk of 8 bytes.  The answer
    gives both results and the context before and after the second call. *)
Definition winmm_queue_twice
    : outcome ((cc_result * WinMM.AudioContext * cc_result * WinMM.AudioContext)
               * (WinMM.AudioContext * (heap * script))) :=
  (WinMM.Audio_Init 1;;
   WinMM.Audio_SetVolume 50;;
   WinMM.Audio_SetFormat 1 44100 100;;
   r1 ← WinMM.Audio_QueueChunk ex_chunk 4;
   before ← getctx;
   r2 ← WinMM.Audio_QueueChunk ex_chunk 8;
   after ← getctx;
   mret (r1, before, r2, after)) (WinMM.ctx_zero, (ex_heap, [])).

(** A context at full volume whose only buffer is in flight, and one whose
    buffer the driver has finished but refuses to unprepare. *)
Definition winmm_busy_ctx : WinMM.AudioContext :=
  {| WinMM.handle := 0x77;
     WinMM.headers := winmm_queued_hdr ex_chunk 8 :: replicate 3 WinMM.hdr_zero;
     WinMM.count := 1; WinMM.channels := 1; WinMM.sampleRate := 44100;
     WinMM.volume := 100; WinMM._tmpSize := 0; WinMM._tmpData := NULL |}.

Definition winmm_stuck_ctx : WinMM.AudioContext :=
  WinMM.set_headers
    (WinMM.set_dwFlags (Z.lor WinMM.WHDR_DONE WinMM.WHDR_PREPARED) (winmm_queued_hdr ex_chunk 8)
     :: replicate 3 WinMM.hdr_zero) winmm_busy_ctx.

(** ** OpenAL *)

(** The driver's answers during [Audio_Init]: the source is named 7. *)
Definition openal_init_script : script := [0; 7; 0; 0].

(** A context of two buffers as [Audio_Init] leaves it, and with one of the
    buffers queued. *)
Definition openal_ready : OpenAL.AudioContext :=
  {| OpenAL.source := 7; OpenAL.buffers := [101; 102; 0; 0];
     OpenAL.freeIDs := [101; 102; 0; 0]; OpenAL.count := 2; OpenAL.free := 2;
     OpenAL.sampleRate := 0; OpenAL.format := 0 |}.

Definition openal_started : OpenAL.AudioContext :=
  {| OpenAL.source := 7; OpenAL.buffers := [101; 102; 0; 0];
     OpenAL.freeIDs := [101; 102; 0; 0]; OpenAL.count := 2; OpenAL.free := 1;
     OpenAL.sampleRate := 0; OpenAL.format := 0 |}.

(** One chunk is queued, then the driver answers the poll's query with
    AL_INVALID_OPERATION. *)
Definition openal_poll_error
    : outcome ((cc_result * Z * OpenAL.AudioContext) * (OpenAL.AudioContext * script)) :=
  (OpenAL.Audio_Init 2;;
   OpenAL.Audio_QueueChunk ex_chunk 8;;
   '(res, inUse) ← OpenAL.Audio_Poll;
   ctx ← getctx;
   mret (res, inUse, ctx))
    (OpenAL.ctx_zero,
     openal_init_script ++ [0; 0; 0] ++ [0; 0; OpenAL.AL_INVALID_OPERATION]).

(** Two chunks are queued, then the driver reports both buffers processed
    (AL_BUFFERS_PROCESSED is 2) and hands buffer 102 back. *)
Definition openal_two_processed
    : outcome ((cc_result * Z * OpenAL.AudioContext) * (OpenAL.AudioContext * script)) :=
  (OpenAL.Audio_Init 2;;
   OpenAL.Audio_QueueChunk ex_chunk 8;;
   OpenAL.Audio_QueueChunk ex_chunk 8;;
   '(res, inUse) ← OpenAL.Audio_Poll;
   ctx ← getctx;
   mret (res, inUse, ctx))
    (OpenAL.ctx_zero,
     openal_init_script ++ [0; 0; 0] ++ [0; 0; 0] ++ [0; 2; 0; 102; 0]).

Definition openal_after_reclaim : OpenAL.AudioContext :=
  {| OpenAL.source := 7; OpenAL.buffers := [101; 102; 0; 0];
     OpenAL.freeIDs := [102; 102; 0; 0]; OpenAL.count := 2; OpenAL.free := 1;
     OpenAL.sampleRate := 0; OpenAL.format := 0 |}.

(** ** OpenSL ES *)

(** A zero-initialised context ([static struct AudioContext]). *)
Definition opensles_ctx_zero : OpenSLES.AudioContext :=
  {| OpenSLES.count := 0; OpenSLES.volume := 0; OpenSLES.channels := 0;
     OpenSLES.sampleRate := 0; OpenSLES.playerObject := 0; OpenSLES.playerPlayer := 0;
     OpenSLES.playerQueue := 0; OpenSLES.playerRate := 0; OpenSLES.playerVolume := 0 |}.

(** A context with its player created for stereo at 44100 Hz. *)
Definition opensles_playing : OpenSLES.AudioContext :=
  {| OpenSLES.count := 2; OpenSLES.volume := 100; OpenSLES.channels := 2;
     OpenSLES.sampleRate := 44100; OpenSLES.playerObject := 0x50;
     OpenSLES.playerPlayer := 0x51; OpenSLES.playerQueue := 0x52;
     OpenSLES.playerRate := 0x53; OpenSLES.playerVolume := 0x54 |}.

(** The format is set twice to the same values; the engine answers the
    second SetRate with 13. *)
Definition opensles_same_format
    : outcome ((cc_result * OpenSLES.AudioContext * cc_result * OpenSLES.AudioContext)
               * (OpenSLES.AudioContext * script)) :=
  (OpenSLES.Audio_Init 2;;
   r1 ← OpenSLES.Audio_SetFormat 2 44100 100;
   before ← getctx;
   r2 ← OpenSLES.Audio_SetFormat 2 44100 100;
   after ← getctx;
   mret (r1, before, r2, after)) (opensles_ctx_zero, replicate 8 0 ++ [13]).

(** ** The pool *)

(** Eight WinMM contexts, every one busy. *)
Definition busy_pool : Pool.pool WinMM.AudioContext (heap * script) :=
  {| Pool.context_pool := replicate 8 winmm_busy_ctx;
     Pool.world := (ex_heap, []); Pool.calls := [] |}.

Definition busy_polls : list Pool.call_record :=
  (λ i, Pool.CallPoll i 0 1) <$> (seqZ 0 8 ++ seqZ 0 8).

(** The same pool with a stuck third context, the driver answering 5 when
    asked to unprepare its header. *)
Definition failing_pool : Pool.pool WinMM.AudioContext (heap * script) :=
  {| Pool.context_pool := <[2%nat := winmm_stuck_ctx]> (replicate 8 winmm_busy_ctx);
     Pool.world := (ex_heap, [5]); Pool.calls := [] |}.

(** Eight unused OpenAL contexts, the driver answering 5 after it was asked
    for a source. *)
Definition unused_pool : Pool.pool OpenAL.AudioContext script :=
  {| Pool.context_pool := replicate 8 OpenAL.ctx_zero;
     Pool.world := [0; 7; 5]; Pool.calls := [] |}.

(** ** GC/Wii *)

(** A context of two buffers, both taken, and one with the first taken. *)
Definition gcwii_full_ctx : GCWii.AudioContext :=
  {| GCWii.chanID := 3; GCWii.count := 2; GCWii.bufHead := 0;
     GCWii.bufs := [ {| GCWii.available := 0; GCWii.size := 8; GCWii.samples := ex_chunk |};
                     {| GCWii.available := 0; GCWii.size := 8; GCWii.samples := ex_chunk |};
                     GCWii.buf_zero; GCWii.buf_zero ];
     GCWii.channels := 1; GCWii.sampleRate := 44100; GCWii.volume := 255;
     GCWii.makeAvailable := false |}.

Definition gcwii_half_ctx : GCWii.AudioContext :=
  GCWii.set_bufs
    [ {| GCWii.available := 0; GCWii.size := 8; GCWii.samples := ex_chunk |};
      {| GCWii.available := 1; GCWii.size := 0; GCWii.samples := NULL |};
      GCWii.buf_zero; GCWii.buf_zero ] gcwii_full_ctx.

(** A sound context: one buffer, taken by a chunk. *)
Definition gcwii_single_ctx : GCWii.AudioContext :=
  GCWii.set_count 1 gcwii_full_ctx.

(** The music context in the middle of a tune: four buffers, all taken,
    the second one playing. *)
Definition gcwii_music_ctx : GCWii.AudioContext :=
  {| GCWii.chanID := 0; GCWii.count := 4; GCWii.bufHead := 1;
     GCWii.bufs := replicate 4 {| GCWii.available := 0; GCWii.size := 8;
                                  GCWii.samples := ex_chunk |};
     GCWii.channels := 2; GCWii.sampleRate := 44100; GCWii.volume := 255;
     GCWii.makeAvailable := false |}.

(** ** Dreamcast *)

(** A context of two buffers; the second, at the head, holds the 8 bytes
    of the chunk. *)
Definition dreamcast_streaming_ctx : Dreamcast.AudioContext :=
  {| Dreamcast.bufHead := 1; Dreamcast.channels := 1; Dreamcast.hnd := 0;
     Dreamcast.bufs :=
       [ {| Dreamcast.available := 1; Dreamcast.bytesLeft := 0; Dreamcast.samples := NULL |};
         {| Dreamcast.available := 0; Dreamcast.bytesLeft := 8;
            Dreamcast.samples := ex_chunk |};
         Dreamcast.buf_zero; Dreamcast.buf_zero ];
     Dreamcast.count := 2; Dreamcast.sampleRate := 44100 |}.

Definition dreamcast_ctx_zero : Dreamcast.AudioContext :=
  {| Dreamcast.bufHead := 0; Dreamcast.channels := 0; Dreamcast.hnd := 0;
     Dreamcast.bufs := replicate 4 Dreamcast.buf_zero;
     Dreamcast.count := 0; Dreamcast.sampleRate := 0 |}.

(** ** Switch *)

Definition switch_ctx_zero : Switch.AudioContext :=
  {| Switch.chanID := 0; Switch.count := 0; Switch.channels := 0; Switch.sampleRate := 0 |}.


(** A WinMM context of two buffers at full volume: the first in flight,
    the second free. *)
Definition winmm_half_ctx : WinMM.AudioContext :=
  {| WinMM.handle := 0x77;
     WinMM.headers := [winmm_queued_hdr ex_chunk 8;
                       WinMM.set_dwFlags WinMM.WHDR_DONE WinMM.hdr_zero;
                       WinMM.hdr_zero; WinMM.hdr_zero];
     WinMM.count := 2; WinMM.channels := 1; WinMM.sampleRate := 44100;
     WinMM.volume := 100; WinMM._tmpSize := 0; WinMM._tmpData := NULL |}.

(** The request of [ex_data] at full volume. *)
Definition ex_loud_data : AudioData.t :=
  {| AudioData.data := ex_chunk; AudioData.size := 8; AudioData.channels := 1;
     AudioData.sampleRate := 44100; AudioData.rate := 100; AudioData.volume := 100 |}.

(** Eight unused WinMM contexts. *)
Definition fresh_pool : Pool.pool WinMM.AudioContext (heap * script) :=
  {| Pool.context_pool := replicate 8 WinMM.ctx_zero;
     Pool.world := (ex_heap, []); Pool.calls := [] |}.

(** The same pool once [ex_loud_data] is played: the first context was
    initialised, polled and given the chunk. *)
Definition fresh_pool_played : Pool.pool WinMM.AudioContext (heap * script) :=
  {| Pool.context_pool := <[0%nat := winmm_busy_ctx]> (replicate 8 WinMM.ctx_zero);
     Pool.world := (ex_heap, []);
     Pool.calls := [Pool.CallInit 0 0; Pool.CallPoll 0 0 0; Pool.CallPlayAudio 0 0] |}.

(** The Switch pool table as [AudioBackend_Init] leaves it, and a table
    whose 64 entries all belong to the block of [ex_chunk]. *)
Definition switch_pools_zero : list Switch.AudioMemPools := replicate 64 Switch.pool_zero.

Definition switch_pools_full : list Switch.AudioMemPools :=
  replicate 64 {| Switch.chunk := ex_chunk; Switch.mpid := 1 |}.
(** * Proofs *)

(** ** Proof machinery *)

Ltac unfold_m :=
  unfold mbind, mret, M_bind, M_ret, m_bind, m_ret, getctx, setctx, call, call_,
    call_env, call_world, on_heap, lift in *.

Ltac case_eqb :=
  match goal with
  | |- context [?x =? ?y] => destruct (Z.eqb_spec x y); simpl
  end.

(** Splits [(m ≫= k) s = Ret r] into the two runs it is made of. *)
Lemma bind_Ret {St A B} (m : M St A) (k : A → M St B) s b s' :
  (m ≫= k) s = Ret (b, s') →
  ∃ a s1, m s = Ret (a, s1) ∧ k a s1 = Ret (b, s').
Proof.
  unfold mbind, M_bind, m_bind. destruct (m s) as [[a s1]|]; [eauto | done].
Qed.

Lemma for_loop_inv {St R} (P : St → Prop) (body : Z → M St (option R)) :
  (∀ i s r s', P s → body i s = Ret (r, s') → P s') →
  ∀ fuel i lim s r s', P s → for_loop fuel i lim body s = Ret (r, s') → P s'.
Proof.
  intros Hbody. induction fuel as [|fuel IH]; intros i lim s r s' HP; simpl.
  - unfold_m. by intros [= _ <-].
  - destruct (i <? lim).
    + intros (o & s1 & Hb & Hk)%bind_Ret.
      apply (Hbody _ _ _ _ HP) in Hb.
      destruct o; [unfold_m; by injection Hk as _ <- | eauto].
    + unfold_m. by intros [= _ <-].
Qed.

Lemma for_acc_inv {St L} (P : St → Prop) (body : Z → L → M St (L * bool)) :
  (∀ i acc s r s', P s → body i acc s = Ret (r, s') → P s') →
  ∀ fuel i lim acc s r s', P s → for_acc fuel i lim body acc s = Ret (r, s') → P s'.
Proof.
  intros Hbody. induction fuel as [|fuel IH]; intros i lim acc s r s' HP; simpl.
  - unfold_m. by intros [= _ <-].
  - destruct (i <? lim).
    + intros ([acc' brk] & s1 & Hb & Hk)%bind_Ret.
      apply (Hbody _ _ _ _ _ HP) in Hb.
      destruct brk; [unfold_m; by injection Hk as _ <- | eauto].
    + unfold_m. by intros [= _ <-].
Qed.

Lemma to_int32_in_range x : INT_MIN ≤ x ≤ INT_MAX → to_int32 x = x.
Proof.
  unfold INT_MIN, INT_MAX, to_int32. intros Hx.
  rewrite Z.mod_small by lia. lia.
Qed.

Lemma Audio_AdjustSampleRate_in_range sampleRate playbackRate :
  INT_MIN ≤ sampleRate * playbackRate ≤ INT_MAX →
  Audio_AdjustSampleRate sampleRate playbackRate = (sampleRate * playbackRate) ÷ 100.
Proof. intros Hx. unfold Audio_AdjustSampleRate. by rewrite to_int32_in_range. Qed.

(** ** OpenAL *)

Section OpenAL_facts.
Context {D : Type} `{OpenAL.Driver D}.

Lemma openal_queue_no_free (ctx : OpenAL.AudioContext) (d : D) chunk size :
  OpenAL.free ctx = 0 →
  OpenAL.Audio_QueueChunk chunk size (ctx, d) = Ret (ERR_INVALID_ARGUMENT, (ctx, d)).
Proof.
  intros Hfree. unfold OpenAL.Audio_QueueChunk. unfold_m. simpl.
  rewrite Hfree. reflexivity.
Qed.

Lemma openal_setformat (ctx : OpenAL.AudioContext) (d : D) channels sampleRate playbackRate :
  ∃ res ctx',
    OpenAL.Audio_SetFormat channels sampleRate playbackRate (ctx, d) = Ret (res, (ctx', d))
    ∧ OpenAL.sampleRate ctx' = Audio_AdjustSampleRate sampleRate playbackRate
    ∧ (res = 0 ↔ channels = 1 ∨ channels = 2).
Proof.
  unfold OpenAL.Audio_SetFormat. unfold_m. simpl.
  repeat case_eqb; eexists _, _; (split; [reflexivity|]); simpl; (split; [done|]);
    unfold ERR_INVALID_ARGUMENT; split; intros; lia || auto.
Qed.

Lemma openal_poll_no_source (ctx : OpenAL.AudioContext) (d : D) :
  OpenAL.source ctx = 0 → OpenAL.Audio_Poll (ctx, d) = Ret ((0, 0), (ctx, d)).
Proof.
  intros Hs. unfold OpenAL.Audio_Poll. unfold_m. simpl. rewrite Hs. reflexivity.
Qed.

(** What a poll that comes back has done, [processed] being the driver's
    answer to AL_BUFFERS_PROCESSED. *)
Lemma openal_poll_inv (ctx : OpenAL.AudioContext) (d : D) res inUse ctx' d' :
  OpenAL.source ctx ≠ 0 →
  OpenAL.Audio_Poll (ctx, d) = Ret ((res, inUse), (ctx', d')) →
  let processed :=
    (OpenAL.alGetSourcei (OpenAL.source ctx) OpenAL.AL_BUFFERS_PROCESSED
       (OpenAL.alGetError d).2).1 in
  OpenAL.count ctx' = OpenAL.count ctx ∧ OpenAL.source ctx' = OpenAL.source ctx ∧
  (res = 0 →
     OpenAL.free ctx' = OpenAL.free ctx + (if processed >? 0 then 1 else 0)
     ∧ inUse = OpenAL.count ctx - OpenAL.free ctx') ∧
  (res ≠ 0 → inUse = 0 ∧ ctx' = ctx).
Proof.
  intros Hs. unfold OpenAL.Audio_Poll, OpenAL.poll_done. unfold_m. simpl.
  case_eqb; [done|].
  case_eqb.
  2:{ intros [= <- <- <- <-]. repeat split; try done. }
  destruct (_ >? 0) eqn:Hp; simpl.
  - case_eqb.
    2:{ intros [= <- <- <- <-]. repeat split; try done. }
    unfold arr_set. destruct (_ && _) eqn:Hb; simpl; [|done].
    intros [= <- <- <- <-]. simpl. repeat split; try done; lia.
  - intros [= <- <- <- <-]. simpl. repeat split; try done; lia.
Qed.

(** A poll comes back with success when the driver reports no error and,
    if a buffer is handed back, the free list has room for it. *)
Lemma openal_poll_total (ctx : OpenAL.AudioContext) (d : D) :
  OpenAL.source ctx ≠ 0 →
  0 ≤ OpenAL.free ctx < Z.of_nat (length (OpenAL.freeIDs ctx)) →
  (∀ d0 : D, (OpenAL.alGetError d0).1 = 0) →
  ∃ inUse ctx' d', OpenAL.Audio_Poll (ctx, d) = Ret ((0, inUse), (ctx', d')).
Proof.
  intros Hs Hfree Herr. unfold OpenAL.Audio_Poll, OpenAL.poll_done. unfold_m. simpl.
  case_eqb; [done|]. rewrite !Herr. simpl.
  destruct (_ >? 0); simpl; [|eauto].
  rewrite Herr. simpl. unfold arr_set.
  destruct (_ && _) eqn:Hb; simpl; [eauto|].
  apply andb_false_iff in Hb as [?%Z.leb_gt | ?%Z.ltb_ge]; lia.
Qed.

Lemma openal_init_slot_inv n src i (s : OpenAL.AudioContext * D) r s' :
  OpenAL.count s.1 = n ∧ OpenAL.source s.1 = src →
  OpenAL.init_slot i s = Ret (r, s') →
  OpenAL.count s'.1 = n ∧ OpenAL.source s'.1 = src.
Proof.
  intros HP. unfold OpenAL.init_slot. unfold_m. simpl.
  destruct (arr_get _ _); [|done]. destruct (arr_set _ _ _); [|done].
  by intros [= _ <-].
Qed.

Lemma openal_init_inv n (ctx : OpenAL.AudioContext) (d : D) ctx' d' :
  OpenAL.Audio_Init n (ctx, d) = Ret (0, (ctx', d')) →
  OpenAL.count ctx' = n ∧ OpenAL.free ctx' = n.
Proof.
  unfold OpenAL.Audio_Init, for_range. unfold_m. simpl.
  case_eqb; [|intros [= ? _ _]; lia].
  destruct (arr_fill _ _); [|done]. simpl.
  case_eqb; [|intros [= ? _ _]; lia].
  match goal with |- context [for_loop ?f ?i ?l ?b ?s] =>
    destruct (for_loop f i l b s) as [[r s1]|] eqn:Hloop end; [|done].
  intros [= <- <-]. simpl.
  eapply (for_loop_inv (λ s, OpenAL.count s.1 = n ∧ OpenAL.source s.1 = _)) in Hloop;
    [| intros; by eapply openal_init_slot_inv | done].
  tauto.
Qed.

Lemma openal_queue_inv (ctx : OpenAL.AudioContext) (d : D) chunk size res ctx' d' :
  OpenAL.Audio_QueueChunk chunk size (ctx, d) = Ret (res, (ctx', d')) →
  OpenAL.count ctx' = OpenAL.count ctx ∧ OpenAL.source ctx' = OpenAL.source ctx.
Proof.
  unfold OpenAL.Audio_QueueChunk. unfold_m. simpl.
  case_eqb; [by intros [= _ <- _]|].
  destruct (arr_get _ _); [|done]. simpl.
  repeat case_eqb; by intros [= _ <- _].
Qed.

Lemma openal_configured_inv n (ctx : OpenAL.AudioContext) :
  OpenAL.configured n ctx → OpenAL.count ctx = n ∧ OpenAL.source ctx ≠ 0.
Proof.
  induction 1 as [c d c' d' Hinit Hsrc | c d chunk size res c' d' _ [IH1 IH2] Hq
                 | c d [r u] c' d' _ [IH1 IH2] Hp].
  - apply openal_init_inv in Hinit. tauto.
  - apply openal_queue_inv in Hq as [-> ->]. done.
  - apply openal_poll_inv in Hp as (-> & -> & _); done.
Qed.

End OpenAL_facts.

(** ** WinMM *)

Lemma count_if_app {A} (p : A → bool) (l1 l2 : list A) :
  count_if p (l1 ++ l2) = count_if p l1 + count_if p l2.
Proof. induction l1 as [|x l1 IH]; simpl; [done | rewrite IH; lia]. Qed.

Lemma count_if_fmap {A B} (f : A → B) (p : B → bool) (l : list A) :
  count_if p (f <$> l) = count_if (λ x, p (f x)) l.
Proof. induction l as [|x l IH]; [done | rewrite fmap_cons; simpl; by rewrite IH]. Qed.

Lemma count_if_split {A} (p : A → bool) (l : list A) :
  count_if p l + count_if (λ x, negb (p x)) l = Z.of_nat (length l).
Proof. induction l as [|x l IH]; simpl; [done | destruct (p x); simpl; lia]. Qed.

Lemma count_if_nonneg {A} (p : A → bool) (l : list A) : 0 ≤ count_if p l.
Proof. induction l as [|x l IH]; simpl; [done | destruct (p x); lia]. Qed.

Lemma arr_get_Ret {A} (l : list A) i x :
  arr_get l i = Ret x ↔ 0 ≤ i ∧ l !! Z.to_nat i = Some x.
Proof.
  unfold arr_get. destruct (Z.leb_spec 0 i).
  - destruct (l !! Z.to_nat i); split; try intros [= ->]; try intros [_ [= ->]]; auto; done.
  - split; [done | lia].
Qed.

Lemma arr_set_Ret {A} (l : list A) i x l' :
  arr_set l i x = Ret l' ↔ 0 ≤ i < Z.of_nat (length l) ∧ l' = <[Z.to_nat i := x]> l.
Proof.
  unfold arr_set. destruct (Z.leb_spec 0 i), (Z.ltb_spec i (Z.of_nat (length l))); simpl;
    split; try intros [= <-]; try intros [? ->]; auto; try done; lia.
Qed.

Lemma arr_set_in_range {A} (l : list A) i x y :
  arr_get l i = Ret y → arr_set l i x = Ret (<[Z.to_nat i := x]> l).
Proof.
  intros [Hi Hl]%arr_get_Ret. apply arr_set_Ret. split; [|done].
  apply lookup_lt_Some in Hl. lia.
Qed.

Section WinMM_facts.
Context {D : Type} `{Allocator D} `{WinMM.Driver D}.

#[local] Abbreviation st := (WinMM.AudioContext * (heap * D))%type.

Lemma winmm_put_header i hdr (s : st) s' :
  WinMM.put_header i hdr s = Ret (tt, s') →
  0 ≤ i < Z.of_nat (length (WinMM.headers s.1)) ∧
  s' = (WinMM.set_headers (<[Z.to_nat i := hdr]> (WinMM.headers s.1)) s.1, s.2).
Proof.
  unfold WinMM.put_header. unfold_m. simpl.
  destruct (arr_set _ _ _) eqn:Hs; [|done]. apply arr_set_Ret in Hs as [? ->].
  by intros [= <-].
Qed.

Lemma winmm_get_header i (s : st) hdr s' :
  WinMM.get_header i s = Ret (hdr, s') →
  s' = s ∧ 0 ≤ i ∧ WinMM.headers s.1 !! Z.to_nat i = Some hdr.
Proof.
  unfold WinMM.get_header. unfold_m. simpl.
  destruct (arr_get _ _) eqn:Hg; [|done]. apply arr_get_Ret in Hg.
  intros [= <- <-]. tauto.
Qed.

Lemma done_after_unprepare h :
  WinMM.has_flag
    (WinMM.set_dwFlags (Z.land (WinMM.dwFlags h) (Z.lnot WinMM.WHDR_PREPARED)) h)
    WinMM.WHDR_DONE
  = WinMM.has_flag h WinMM.WHDR_DONE.
Proof.
  unfold WinMM.has_flag. simpl. rewrite <- Z.land_assoc.
  by replace (Z.land (Z.lnot WinMM.WHDR_PREPARED) WinMM.WHDR_DONE) with WinMM.WHDR_DONE.
Qed.

Lemma fmap_insert_same {A B} (f : A → B) (l : list A) i x y :
  l !! i = Some x → f y = f x → f <$> <[i := y]> l = f <$> l.
Proof.
  intros Hl Hf. rewrite list_fmap_insert, Hf.
  apply list_insert_id. by rewrite list_lookup_fmap, Hl.
Qed.

Lemma winmm_unprepare_header i (s : st) res s' :
  WinMM.unprepare_header i s = Ret (res, s') →
  WinMM.hdr_frame s.1 s'.1 ∧ s'.2.1 = s.2.1 ∧
  WinMM.done_flags s'.1 = WinMM.done_flags s.1 ∧ (res ≠ 0 → s'.1 = s.1).
Proof.
  unfold WinMM.unprepare_header.
  intros (c & s1 & [= <- <-] & Hk)%bind_Ret.
  apply bind_Ret in Hk as (hdr & s1 & (-> & Hi & Hl)%winmm_get_header & Hk).
  apply bind_Ret in Hk as (r & s1 & [= <- <-] & Hk).
  apply bind_Ret in Hk as ([] & s2 & Hput & [= <- <-]).
  simpl in Hput. destruct (Z.eqb_spec (WinMM.waveOutUnprepareHeader (WinMM.handle s.1) hdr s.2.2).1 0) as [He|He].
  - apply winmm_put_header in Hput as [_ ->]. simpl.
    repeat split; try done.
    unfold WinMM.done_flags. simpl. eapply fmap_insert_same; [done|]. apply done_after_unprepare.
  - injection Hput as <-. simpl. repeat split; done.
Qed.

Lemma hdr_frame_refl c : WinMM.hdr_frame c c.
Proof. by repeat split. Qed.

Lemma hdr_frame_trans c1 c2 c3 :
  WinMM.hdr_frame c1 c2 → WinMM.hdr_frame c2 c3 → WinMM.hdr_frame c1 c3.
Proof. unfold WinMM.hdr_frame. intros ? ?. repeat split; intuition congruence. Qed.

(** Every operation on one header leaves the other fields alone. *)
Ltac header_op :=
  unfold WinMM.queue_slot, WinMM.init_slot, WinMM.driver_finishes, WinMM.prepare_header,
    WinMM.write_header, WinMM.get_header, WinMM.put_header;
  unfold_m; simpl; intros;
  repeat (case_match; simplify_eq/=; try done);
  simplify_eq/=; repeat split; done.

Lemma winmm_queue_slot_frame chunk size i (s : st) r s' :
  WinMM.queue_slot chunk size i s = Ret (r, s') → WinMM.hdr_frame s.1 s'.1.
Proof. header_op. Qed.

Lemma winmm_init_slot_frame i (s : st) r s' :
  WinMM.init_slot i s = Ret (r, s') → WinMM.hdr_frame s.1 s'.1.
Proof. header_op. Qed.

Lemma winmm_finish_frame i (s : st) r s' :
  WinMM.driver_finishes i s = Ret (r, s') → WinMM.hdr_frame s.1 s'.1.
Proof. header_op. Qed.

Lemma winmm_poll_slot i acc (s : st) acc' brk s' :
  WinMM.poll_slot i acc s = Ret ((acc', brk), s') →
  ∃ h, 0 ≤ i ∧ WinMM.headers s.1 !! Z.to_nat i = Some h ∧
    WinMM.hdr_frame s.1 s'.1 ∧ s'.2.1 = s.2.1 ∧
    WinMM.done_flags s'.1 = WinMM.done_flags s.1 ∧
    acc'.2 = acc.2 + (if WinMM.has_flag h WinMM.WHDR_DONE then 0 else 1) ∧
    (brk = true → acc'.1 ≠ 0) ∧ (brk = false → acc.1 = 0 → acc'.1 = 0).
Proof.
  unfold WinMM.poll_slot.
  intros (h & s1 & (-> & Hi & Hl)%winmm_get_header & Hk)%bind_Ret.
  exists h. split; [done|]. split; [done|].
  destruct (WinMM.has_flag h WinMM.WHDR_DONE) eqn:Hdone; simpl in Hk.
  - destruct (WinMM.has_flag h WinMM.WHDR_PREPARED); simpl in Hk.
    + apply bind_Ret in Hk as (res & s2 & Hu & [= <- <- <-]).
      apply winmm_unprepare_header in Hu as (? & ? & ? & ?). simpl.
      split_and!; try done; try lia.
    + injection Hk as <- <- <-. split_and!; try done; try lia.
  - injection Hk as <- <- <-. simpl. split_and!; try done.
Qed.

Lemma winmm_poll_loop lim fuel : ∀ i acc (s : st) r s',
  for_acc fuel i lim WinMM.poll_slot acc s = Ret (r, s') →
  (Z.to_nat (lim - i) ≤ fuel)%nat → 0 ≤ i →
  WinMM.hdr_frame s.1 s'.1 ∧ s'.2.1 = s.2.1 ∧
  WinMM.done_flags s'.1 = WinMM.done_flags s.1 ∧
  (acc.1 = 0 → r.1 = 0 →
     r.2 = acc.2 + count_if negb
             (drop (Z.to_nat i) (take (Z.to_nat lim) (WinMM.done_flags s.1)))
     ∧ (i < lim → lim ≤ Z.of_nat (length (WinMM.headers s.1)))).
Proof.
  assert (Hend : ∀ i (l : list bool), lim ≤ i → 0 ≤ i →
            count_if negb (drop (Z.to_nat i) (take (Z.to_nat lim) l)) = 0).
  { intros i l ? ?. rewrite drop_ge; [done|]. rewrite length_take. lia. }
  induction fuel as [|fuel IH]; intros i acc s r s'; simpl.
  - unfold_m. intros [= <- <-] ? ?. split_and!; try done.
    intros _ _. rewrite Hend by lia. split; lia.
  - destruct (Z.ltb_spec i lim) as [Hlt|Hge].
    2:{ unfold_m. intros [= <- <-] ? ?. split_and!; try done.
        intros _ _. rewrite Hend by lia. split; lia. }
    intros ([acc1 brk] & s1 & Hb & Hk)%bind_Ret Hfuel Hi.
    apply winmm_poll_slot in Hb as (h & _ & Hl & Hf & Hw & Hd & Hcnt & Hbrk & Hcont).
    destruct brk.
    + unfold_m. injection Hk as <- <-. split_and!; try done.
      intros _ ?. by destruct Hbrk.
    + apply IH in Hk as (Hf' & Hw' & Hd' & Hcnt'); [|lia|lia].
      split; [by eapply hdr_frame_trans|]. split; [congruence|]. split; [congruence|].
      intros Hacc Hr. destruct Hcnt' as [Hr2 Hlen]; [auto|done|].
      assert (Hlen' : length (WinMM.headers s1.1) = length (WinMM.headers s.1)).
      { apply (f_equal length) in Hd. unfold WinMM.done_flags in Hd.
        by rewrite !length_fmap in Hd. }
      assert (Hi' : (Z.to_nat i < length (WinMM.headers s.1))%nat)
        by by eapply lookup_lt_Some.
      split; [|intros _; destruct (decide (i + 1 < lim)); lia].
      rewrite Hr2, Hd, Hcnt.
      rewrite (drop_S _ (WinMM.has_flag h WinMM.WHDR_DONE) (Z.to_nat i)).
      * replace (Z.to_nat (i + 1)) with (S (Z.to_nat i)) by lia. simpl.
        destruct (WinMM.has_flag h WinMM.WHDR_DONE); simpl; lia.
      * rewrite lookup_take_lt by lia. unfold WinMM.done_flags.
        by rewrite list_lookup_fmap, Hl.
Qed.

Lemma in_flight_slots_flags (c : WinMM.AudioContext) :
  WinMM.in_flight_slots c
  = count_if negb (take (Z.to_nat (WinMM.count c)) (WinMM.done_flags c)).
Proof.
  unfold WinMM.in_flight_slots, WinMM.done_flags.
  by rewrite <- fmap_take, count_if_fmap.
Qed.

Lemma free_in_flight_slots (c : WinMM.AudioContext) :
  0 ≤ WinMM.count c ≤ Z.of_nat (length (WinMM.headers c)) →
  WinMM.free_slots c + WinMM.in_flight_slots c = WinMM.count c.
Proof.
  intros Hc. unfold WinMM.free_slots, WinMM.in_flight_slots.
  rewrite count_if_split, length_take. lia.
Qed.

(** A poll that comes back leaves every field but the PREPARED bits alone;
    when it succeeds it has counted the slots in flight. *)
Lemma winmm_poll_spec (c : WinMM.AudioContext) (w : heap * D) res inUse c' w' :
  WinMM.Audio_Poll (c, w) = Ret ((res, inUse), (c', w')) →
  WinMM.hdr_frame c c' ∧ w'.1 = w.1 ∧ WinMM.done_flags c' = WinMM.done_flags c ∧
  (res = 0 → 0 ≤ WinMM.count c →
     inUse = WinMM.in_flight_slots c' ∧ WinMM.free_slots c' + inUse = WinMM.count c').
Proof.
  unfold WinMM.Audio_Poll.
  intros (c0 & s1 & [= <- <-] & Hk)%bind_Ret. simpl in Hk.
  apply winmm_poll_loop in Hk as (Hf & Hw & Hd & Hcnt); [|lia|lia]. simpl in *.
  split_and!; try done.
  intros Hres Hcount. destruct Hcnt as [Hr Hlen]; [done..|].
  rewrite Z2Nat.inj_0, drop_0 in Hr. simpl in Hr.
  split.
  - rewrite in_flight_slots_flags.
    destruct Hf as (_ & -> & _). rewrite Hd. simpl. lia.
  - simpl in Hr.
    assert (WinMM.in_flight_slots c' = inUse) as <-.
    { rewrite in_flight_slots_flags. destruct Hf as (_ & -> & _). rewrite Hd. lia. }
    apply free_in_flight_slots.
    assert (Hlen' : length (WinMM.headers c') = length (WinMM.headers c)).
    { apply (f_equal length) in Hd. unfold WinMM.done_flags in Hd.
      by rewrite !length_fmap in Hd. }
    destruct Hf as (_ & -> & _). destruct (decide (0 < WinMM.count c)); lia.
Qed.

Lemma winmm_adjust_frame data size (s : st) ok data' size' s' :
  WinMM.AudioBase_AdjustSound data size s = Ret ((ok, data', size'), s') →
  WinMM.tmp_frame s.1 s'.1 ∧ size' = size ∧ (is_Some data → ok = true ∧ is_Some data').
Proof.
  unfold WinMM.AudioBase_AdjustSound. unfold_m. simpl. intros.
  repeat (case_match; simplify_eq/=; try done);
    split_and!; try done; intros [? [=]].
Qed.

Lemma winmm_adjust_loud data size (s : st) :
  100 ≤ WinMM.volume s.1 →
  WinMM.AudioBase_AdjustSound data size s = Ret ((true, data, size), s).
Proof.
  intros Hv. unfold WinMM.AudioBase_AdjustSound. unfold_m. simpl.
  destruct (Z.geb_spec (WinMM.volume s.1) 100); [by destruct s | lia].
Qed.

Lemma count_if_zero {A} (p : A → bool) (l : list A) i x :
  count_if p l = 0 → l !! i = Some x → p x = false.
Proof.
  revert i. induction l as [|y l IH]; intros i; simpl; [done|].
  pose proof (count_if_nonneg p l). intros Hc.
  destruct i; simpl.
  - intros [= ->]. destruct (p x); [lia | done].
  - apply IH. destruct (p y); lia.
Qed.

Lemma winmm_queue_loop_busy chunk size lim fuel : ∀ i (s : st),
  0 ≤ i →
  (∀ j, i ≤ j < lim →
     ∃ h, WinMM.headers s.1 !! Z.to_nat j = Some h
          ∧ WinMM.has_flag h WinMM.WHDR_DONE = false) →
  for_loop fuel i lim (WinMM.queue_slot chunk size) s = Ret (None, s).
Proof.
  induction fuel as [|fuel IH]; intros i s Hi Hbusy; simpl; [done|].
  destruct (Z.ltb_spec i lim); [|done].
  destruct (Hbusy i) as (h & Hl & Hd); [lia|].
  unfold mbind at 1, M_bind, m_bind.
  assert (WinMM.queue_slot chunk size i s = Ret (None, s)) as ->.
  { unfold WinMM.queue_slot, WinMM.get_header, arr_get. unfold_m. simpl.
    destruct (Z.leb_spec 0 i); [|lia]. rewrite Hl. simpl. by rewrite Hd. }
  apply IH; [lia|]. intros j ?. apply Hbusy. lia.
Qed.

Lemma winmm_no_free_busy (c : WinMM.AudioContext) j :
  WinMM.wf c → WinMM.free_slots c = 0 → 0 ≤ j < WinMM.count c →
  ∃ h, WinMM.headers c !! Z.to_nat j = Some h
       ∧ WinMM.has_flag h WinMM.WHDR_DONE = false.
Proof.
  intros [Hlen Hc] Hfree Hj. unfold AUDIO_MAX_BUFFERS in *.
  destruct (WinMM.headers c !! Z.to_nat j) as [h|] eqn:Hl.
  - exists h. split; [done|].
    eapply (count_if_zero (λ h, WinMM.has_flag h WinMM.WHDR_DONE) _ (Z.to_nat j));
      [exact Hfree|].
    rewrite lookup_take_lt by lia. done.
  - apply lookup_ge_None in Hl. lia.
Qed.

(** Queueing with no free slot, after the volume adjustment has run. *)
Lemma winmm_queue_no_free (c : WinMM.AudioContext) (w : heap * D) chunk size r c1 w1 :
  WinMM.wf c → WinMM.free_slots c = 0 →
  WinMM.AudioBase_AdjustSound (Some chunk) size (c, w) = Ret (r, (c1, w1)) →
  WinMM.Audio_QueueChunk chunk size (c, w) = Ret (ERR_INVALID_ARGUMENT, (c1, w1))
  ∧ WinMM.tmp_frame c c1.
Proof.
  intros Hwf Hfree Hadj. destruct r as [[ok data'] size'].
  pose proof Hadj as (Hf & -> & Hok)%winmm_adjust_frame. simpl in Hf.
  destruct Hok as [-> [p ->]]; [by eexists|].
  split; [|done].
  unfold WinMM.Audio_QueueChunk.
  unfold mbind at 1, M_bind, m_bind. rewrite Hadj. simpl.
  unfold_m. simpl. unfold for_range.
  rewrite winmm_queue_loop_busy; [done|lia|].
  intros j Hj. simpl. destruct Hf as (_ & -> & Hcnt & _).
  rewrite Hcnt in Hj. apply winmm_no_free_busy; [done|done|lia].
Qed.

End WinMM_facts.

(** ** Volume scaling *)

Lemma to_int16_in_range s : is_int16 s → to_int16 s = s.
Proof.
  unfold is_int16, to_int16. intros Hs. rewrite Z.mod_small by lia. lia.
Qed.

Lemma to_int16_is_int16 x : is_int16 (to_int16 x).
Proof.
  unfold is_int16, to_int16.
  pose proof (Z.mod_pos_bound (x + 2 ^ 15) (2 ^ 16)). lia.
Qed.

(** The truncating quotient by 100 of [s * v] stays between 0 and [s]. *)
Lemma quot_scale_bounds s v :
  0 ≤ v ≤ 100 →
  (0 ≤ s → 0 ≤ (s * v) ÷ 100 ≤ s) ∧ (s ≤ 0 → s ≤ (s * v) ÷ 100 ≤ 0).
Proof.
  intros Hv. split; intros Hs.
  - rewrite Z.quot_div_nonneg by nia. split.
    + apply Z.div_pos; nia.
    + apply Z.div_le_upper_bound; nia.
  - replace (s * v) with (- (- s * v)) by lia.
    rewrite Z.quot_opp_l by lia. rewrite Z.quot_div_nonneg by nia.
    assert (0 ≤ (- s * v) / 100 ≤ - s); [|lia]. split.
    + apply Z.div_pos; nia.
    + apply Z.div_le_upper_bound; nia.
Qed.

Lemma scale_sample_exact s v :
  is_int16 s → 0 ≤ v ≤ 100 →
  scale_sample s v = (s * v) ÷ 100 ∧ is_int16 ((s * v) ÷ 100).
Proof.
  intros Hs Hv. unfold is_int16 in *.
  assert (Hq : is_int16 ((s * v) ÷ 100)).
  { unfold is_int16. destruct (quot_scale_bounds s v Hv) as [Hpos Hneg].
    destruct (Z.le_ge_cases 0 s); [specialize (Hpos ltac:(done)) | specialize (Hneg ltac:(done))]; lia. }
  split; [|done]. unfold scale_sample.
  rewrite to_int32_in_range by (unfold INT_MIN, INT_MAX; nia).
  by apply to_int16_in_range.
Qed.

Lemma scale_sample_mute s : scale_sample s 0 = 0.
Proof. unfold scale_sample. by rewrite Z.mul_0_r. Qed.

Lemma scaled_upto_length v n samples : length (scaled_upto v n samples) = length samples.
Proof.
  unfold scaled_upto. rewrite length_app, length_fmap, length_take, length_drop. lia.
Qed.

(** One assignment [samples[k] = samples[k] * volume / 100] extends the
    scaled prefix by one sample. *)
Lemma scale_at_next v n orig p k :
  Z.to_nat (p + k) = n →
  scale_at v (scaled_upto v n orig) p k = scaled_upto v (S n) orig.
Proof.
  intros <-. unfold scale_at, scaled_upto. set (n := Z.to_nat (p + k)).
  destruct (orig !! n) as [s|] eqn:Hs.
  - assert (Hn : (n < length orig)%nat) by by eapply lookup_lt_Some.
    assert (Hlen : length ((λ s, scale_sample s v) <$> take n orig) = n).
    { rewrite length_fmap, length_take. lia. }
    rewrite lookup_app_r by lia. rewrite Hlen, Nat.sub_diag.
    rewrite (drop_S _ _ _ Hs). simpl.
    rewrite insert_app_r_alt by lia. rewrite Hlen, Nat.sub_diag. simpl.
    rewrite (take_S_r _ _ _ Hs), fmap_app. simpl. by rewrite <- app_assoc.
  - apply lookup_ge_None in Hs.
    rewrite lookup_ge_None_2.
    + rewrite !take_ge, !drop_ge by lia. done.
    + rewrite length_app, length_fmap, length_take, length_drop. lia.
Qed.

Lemma land_lnot_7 count : Z.land count (Z.lnot 0x07) = 8 * (count / 8).
Proof.
  rewrite <- Z.ldiff_land. change 7 with (Z.ones 3).
  rewrite Z.ldiff_ones_r by lia.
  rewrite Z.shiftl_mul_pow2, Z.shiftr_div_pow2 by lia. change (2 ^ 3) with 8. lia.
Qed.

Lemma ApplyVolume_unrolled_spec count v orig fuel : ∀ m,
  0 ≤ m →
  ∃ i', ApplyVolume_unrolled fuel (8 * m) (8 * m) count v
          (scaled_upto v (Z.to_nat (8 * m)) orig)
        = (i', i', scaled_upto v (Z.to_nat i') orig)
      ∧ 0 ≤ i' ∧ (i' = 8 * m ∨ i' ≤ count).
Proof.
  induction fuel as [|fuel IH]; intros m Hm; simpl.
  - exists (8 * m). split_and!; [done|lia|by left].
  - rewrite land_lnot_7. destruct (Z.ltb_spec (8 * m) (8 * (count / 8))) as [Hlt|Hge].
    2:{ exists (8 * m). split_and!; [done|lia|by left]. }
    rewrite (scale_at_next v (Z.to_nat (8 * m)) orig (8 * m) 0) by lia.
    rewrite (scale_at_next v (S (Z.to_nat (8 * m))) orig (8 * m) 1) by lia.
    rewrite (scale_at_next v (S (S (Z.to_nat (8 * m)))) orig (8 * m) 2) by lia.
    rewrite (scale_at_next v (S (S (S (Z.to_nat (8 * m))))) orig (8 * m) 3) by lia.
    rewrite (scale_at_next v (S (S (S (S (Z.to_nat (8 * m)))))) orig (8 * m) 4) by lia.
    rewrite (scale_at_next v (S (S (S (S (S (Z.to_nat (8 * m))))))) orig (8 * m) 5) by lia.
    rewrite (scale_at_next v (S (S (S (S (S (S (Z.to_nat (8 * m)))))))) orig (8 * m) 6) by lia.
    rewrite (scale_at_next v (S (S (S (S (S (S (S (Z.to_nat (8 * m))))))))) orig (8 * m) 7) by lia.
    replace (S (S (S (S (S (S (S (S (Z.to_nat (8 * m))))))))))
      with (Z.to_nat (8 * (m + 1))) by lia.
    replace (8 * m + 8) with (8 * (m + 1)) by lia.
    destruct (IH (m + 1)) as (i' & -> & Hi' & Hor); [lia|].
    exists i'. split_and!; [done|done|]. right.
    destruct Hor as [->|?]; [|done].
    pose proof (Z.mul_div_le count 8). lia.
Qed.

Lemma ApplyVolume_rest_spec count v orig fuel : ∀ i,
  0 ≤ i → (Z.to_nat (count - i) ≤ fuel)%nat →
  ApplyVolume_rest fuel i i count v (scaled_upto v (Z.to_nat i) orig)
  = scaled_upto v (Z.to_nat (Z.max i count)) orig.
Proof.
  induction fuel as [|fuel IH]; intros i Hi Hfuel; simpl.
  - by replace (Z.max i count) with i by lia.
  - destruct (Z.ltb_spec i count).
    + rewrite (scale_at_next v (Z.to_nat i) orig i 0) by lia.
      replace (S (Z.to_nat i)) with (Z.to_nat (i + 1)) by lia.
      rewrite IH by lia. f_equal. lia.
    + by replace (Z.max i count) with i by lia.
Qed.

(** The two loops together scale exactly the first [count] samples. *)
Lemma ApplyVolume_spec samples count v :
  ApplyVolume samples count v = scaled_upto v (Z.to_nat count) samples.
Proof.
  unfold ApplyVolume.
  destruct (ApplyVolume_unrolled_spec count v samples (Z.to_nat count) 0)
    as (i' & Hu & Hi' & Hor); [done|].
  change (8 * 0) with 0 in *. change (Z.to_nat 0) with 0%nat in Hu.
  unfold scaled_upto at 1 in Hu. rewrite take_0, drop_0 in Hu. simpl in Hu.
  rewrite Hu. rewrite ApplyVolume_rest_spec by lia.
  destruct (Z.le_gt_cases 0 count).
  - f_equal. lia.
  - assert (i' = 0) as -> by lia.
    unfold scaled_upto. replace (Z.to_nat (0 `max` count)) with 0%nat by lia.
    by replace (Z.to_nat count) with 0%nat by lia.
Qed.

Lemma ApplyVolume_all samples v :
  ApplyVolume samples (Z.of_nat (length samples)) v
  = (λ s, scale_sample s v) <$> samples.
Proof.
  rewrite ApplyVolume_spec, Nat2Z.id. unfold scaled_upto.
  by rewrite take_ge, drop_ge, app_nil_r by lia.
Qed.

(** ** Samples and bytes *)

Lemma list_pair_ind {A} (P : list A → Prop) :
  P [] → (∀ a, P [a]) → (∀ a b l, P l → P (a :: b :: l)) → ∀ l, P l.
Proof.
  intros Hnil Hone Hstep l.
  assert (P l ∧ ∀ a, P (a :: l)) as [? _]; [|done].
  induction l as [|b l [IH1 IH2]]; [by split|].
  split; [apply IH2 | intros a; by apply Hstep].
Qed.

Lemma samples_of_bytes_int16 bytes : Forall is_int16 (samples_of_bytes bytes).
Proof.
  induction bytes as [|a|a b l IH] using list_pair_ind; simpl; try by constructor.
  constructor; [apply to_int16_is_int16 | done].
Qed.

Lemma samples_of_bytes_length bytes :
  Z.of_nat (length (samples_of_bytes bytes)) = Z.of_nat (length bytes) / 2.
Proof.
  induction bytes as [|a|a b l IH] using list_pair_ind; simpl length; try done.
  rewrite !Nat2Z.inj_succ, IH.
  replace (Z.succ (Z.succ (Z.of_nat (length l)))) with (1 * 2 + Z.of_nat (length l)) by lia.
  rewrite Z.div_add_l by lia. lia.
Qed.

(** The odd byte at the end of a buffer belongs to no sample. *)
Lemma samples_of_bytes_even bytes :
  samples_of_bytes (take (Z.to_nat (2 * (Z.of_nat (length bytes) / 2))) bytes)
  = samples_of_bytes bytes.
Proof.
  induction bytes as [|a|a b l IH] using list_pair_ind; try done.
  simpl length. rewrite !Nat2Z.inj_succ.
  replace (Z.succ (Z.succ (Z.of_nat (length l)))) with (1 * 2 + Z.of_nat (length l)) by lia.
  rewrite Z.div_add_l by lia.
  pose proof (Z.div_pos (Z.of_nat (length l)) 2).
  replace (Z.to_nat (2 * (1 + Z.of_nat (length l) / 2)))
    with (S (S (Z.to_nat (2 * (Z.of_nat (length l) / 2))))) by lia.
  simpl. by rewrite IH.
Qed.

Lemma bytes_of_sample_roundtrip s lo hi rest :
  is_int16 s → bytes_of_sample s = [lo; hi] →
  samples_of_bytes (lo :: hi :: rest) = s :: samples_of_bytes rest.
Proof.
  unfold bytes_of_sample, is_int16. intros Hs [= <- <-]. simpl. f_equal.
  rewrite <- (Z.rem_mul_r s 256 256) by lia. change (256 * 256) with (2 ^ 16).
  unfold to_int16.
  destruct (Z.le_gt_cases 0 s).
  - rewrite (Z.mod_small s) by lia. rewrite Z.mod_small by lia. lia.
  - replace s with (s + 2 ^ 16 + (-1) * 2 ^ 16) at 1 by lia.
    rewrite Z.mod_add by lia. rewrite (Z.mod_small (s + 2 ^ 16)) by lia.
    replace (s + 2 ^ 16 + 2 ^ 15) with (s + 2 ^ 15 + 1 * 2 ^ 16) by lia.
    rewrite Z.mod_add by lia. rewrite Z.mod_small by lia. lia.
Qed.

Lemma samples_of_bytes_of_samples samples rest :
  Forall is_int16 samples →
  samples_of_bytes (bytes_of_samples samples ++ rest) = samples ++ samples_of_bytes rest.
Proof.
  induction 1 as [|s samples Hs _ IH]; [done|].
  change (bytes_of_samples (s :: samples) ++ rest)
    with (s mod 256 :: (s / 256) mod 256 :: (bytes_of_samples samples ++ rest)).
  erewrite bytes_of_sample_roundtrip; [|done|done]. simpl. by rewrite IH.
Qed.

Lemma bytes_of_samples_length samples :
  length (bytes_of_samples samples) = (2 * length samples)%nat.
Proof.
  induction samples as [|s samples IH]; [done|]. simpl. rewrite IH. lia.
Qed.

(** ** Memory *)

Lemma in_block_spec bytes o n :
  in_block bytes o n = true ↔ 0 ≤ o ∧ 0 ≤ n ∧ o + n ≤ Z.of_nat (length bytes).
Proof. unfold in_block. rewrite !andb_true_iff, !Z.leb_le. tauto. Qed.

(** What a successful load says about the heap. *)
Lemma load_Ret (h : heap) p n bs :
  load h p n = Ret bs →
  (n = 0 ∧ bs = []) ∨
  (n ≠ 0 ∧ ∃ a bb, p = Some a ∧ h !! blk a = Some bb ∧ in_block bb (ofs a) n = true
               ∧ bs = take (Z.to_nat n) (drop (Z.to_nat (ofs a)) bb)).
Proof.
  unfold load. destruct (Z.eqb_spec n 0); [intros [= <-]; by left|].
  destruct p as [a|]; [|done]. destruct (h !! blk a) as [bb|] eqn:Hb; [|done].
  destruct (in_block bb (ofs a) n) eqn:Hin; [|done].
  intros [= <-]. right. split; [done|]. by exists a, bb.
Qed.

Lemma load_length (h : heap) p n bs :
  load h p n = Ret bs → 0 ≤ n ∧ length bs = Z.to_nat n.
Proof.
  intros [[-> ->]|(? & a & bb & _ & _ & Hin%in_block_spec & ->)]%load_Ret; [done|].
  split; [lia|]. rewrite length_take, length_drop. lia.
Qed.

Lemma load_prefix (h : heap) p n bs k :
  load h p n = Ret bs → 0 ≤ k ≤ n →
  load h p k = Ret (take (Z.to_nat k) bs).
Proof.
  intros [[-> ->]|(? & a & bb & -> & Hb & Hin%in_block_spec & ->)]%load_Ret Hk.
  - by replace k with 0 by lia.
  - unfold load. destruct (Z.eqb_spec k 0) as [->|]; [done|].
    rewrite Hb. rewrite (proj2 (in_block_spec bb (ofs a) k)) by lia.
    rewrite take_take. do 2 f_equal. lia.
Qed.

(** Overwriting the first bytes of a readable region. *)
Lemma store_prefix (h : heap) p n bs new :
  load h p n = Ret bs → (length new ≤ Z.to_nat n)%nat →
  ∃ h', store h p new = Ret h'
      ∧ load h' p n = Ret (new ++ drop (length new) bs).
Proof.
  intros [[-> ->]|(Hn & a & bb & -> & Hb & Hin%in_block_spec & ->)]%load_Ret Hk.
  - destruct new; [|simpl in Hk; lia]. exists h. by split.
  - unfold store. destruct (Nat.eqb_spec (length new) 0) as [Hnew|Hnew].
    { exists h. split; [done|]. destruct new; [|done]. simpl.
      unfold load. destruct (Z.eqb_spec n 0); [done|].
      rewrite Hb, (proj2 (in_block_spec bb (ofs a) n)) by lia. done. }
    rewrite Hb, (proj2 (in_block_spec bb (ofs a) _)) by lia.
    eexists. split; [done|].
    unfold load. destruct (Z.eqb_spec n 0); [done|].
    rewrite lookup_insert_eq.
    set (o := Z.to_nat (ofs a)). set (k := length new).
    assert (Ho : (o + Z.to_nat n ≤ length bb)%nat) by lia.
    rewrite (proj2 (in_block_spec _ (ofs a) n)).
    2:{ rewrite !length_app, length_take, length_drop. lia. }
    f_equal.
    rewrite drop_app_length'; [|rewrite length_take; lia].
    rewrite take_app_ge by lia. f_equal. fold k.
    rewrite skipn_firstn_comm, drop_drop. done.
Qed.

Lemma load_insert_new (h : heap) b x p n bs :
  h !! b = None → load h p n = Ret bs → load (<[b := x]> h) p n = Ret bs.
Proof.
  intros Hb [[-> ->]|(Hn & a & bb & -> & Ha & Hin & ->)]%load_Ret; [done|].
  unfold load. destruct (Z.eqb_spec n 0); [done|].
  rewrite lookup_insert_ne by congruence. by rewrite Ha, Hin.
Qed.

Lemma load_delete_other (h : heap) b p n bs :
  (∀ a, p = Some a → blk a ≠ b) → load h p n = Ret bs →
  load (delete b h) p n = Ret bs.
Proof.
  intros Hb [[-> ->]|(Hn & a & bb & -> & Ha & Hin & ->)]%load_Ret; [done|].
  unfold load. destruct (Z.eqb_spec n 0); [done|].
  rewrite lookup_delete_ne by (intros ?; by eapply Hb). by rewrite Ha, Hin.
Qed.

Lemma load_new_block (h : heap) b bb n :
  0 ≤ n → length bb = Z.to_nat n →
  load (<[b := bb]> h) (Some (Addr b 0)) n = Ret bb.
Proof.
  intros Hn Hlen. unfold load. destruct (Z.eqb_spec n 0) as [->|].
  - by destruct bb.
  - simpl. rewrite lookup_insert_eq.
    rewrite (proj2 (in_block_spec bb 0 n)) by lia.
    change (Z.to_nat 0) with 0%nat. rewrite drop_0, take_ge by lia. done.
Qed.

Lemma fresh_block (h : heap) : h !! fresh (dom h) = None.
Proof. apply not_elem_of_dom, is_fresh. Qed.

(** ** The volume adjustment on the heap *)

Lemma samples_of_bytes_short l : (length l < 2)%nat → samples_of_bytes l = [].
Proof. destruct l as [|a [|b l]]; simpl; [done|done|lia]. Qed.

Lemma copy_and_scale (h : heap) audio chunk size v bytes old :
  load h chunk size = Ret bytes → load h audio size = Ret old →
  ∃ h1 h2 out,
    Mem_Copy audio chunk size h = Ret h1 ∧
    ApplyVolume_at audio (size / 2) v h1 = Ret h2 ∧
    load h2 audio size = Ret out ∧
    samples_of_bytes out = (λ s, scale_sample s v) <$> samples_of_bytes bytes ∧
    drop (Z.to_nat (2 * (size / 2))) out = drop (Z.to_nat (2 * (size / 2))) bytes.
Proof.
  intros Hc Ha.
  destruct (load_length _ _ _ _ Hc) as [Hsize Hlen].
  destruct (load_length _ _ _ _ Ha) as [_ Hold].
  destruct (store_prefix h audio size old bytes Ha) as (h1 & Hst1 & Hl1); [lia|].
  rewrite drop_ge, app_nil_r in Hl1 by lia.
  pose proof (Z.mul_div_le size 2 ltac:(lia)) as Hk.
  pose proof (Z.div_pos size 2 ltac:(lia) ltac:(lia)) as Hk0.
  assert (Hk2 : size < 2 * (size / 2) + 2).
  { pose proof (Z.mod_pos_bound size 2). pose proof (Z.div_mod size 2). lia. }
  assert (Hsz : Z.of_nat (length bytes) = size) by lia.
  set (ss := samples_of_bytes bytes).
  assert (Hss : Z.of_nat (length ss) = size / 2).
  { unfold ss. by rewrite samples_of_bytes_length, Hsz. }
  set (new := bytes_of_samples ((λ s, scale_sample s v) <$> ss)).
  assert (Hnew : length new = Z.to_nat (2 * (size / 2))).
  { unfold new. rewrite bytes_of_samples_length, length_fmap. lia. }
  destruct (store_prefix h1 audio size bytes new Hl1) as (h2 & Hst2 & Hl2); [lia|].
  exists h1, h2, (new ++ drop (length new) bytes). split_and!.
  - unfold Mem_Copy. by rewrite Hc.
  - unfold ApplyVolume_at.
    rewrite (load_prefix h1 audio size bytes (2 * (size / 2)) Hl1) by lia.
    rewrite <- Hsz at 1. rewrite samples_of_bytes_even. fold ss.
    rewrite <- Hss, ApplyVolume_all. done.
  - done.
  - unfold new at 1. rewrite samples_of_bytes_of_samples.
    + rewrite samples_of_bytes_short, app_nil_r; [done|].
      rewrite length_drop, Hnew. lia.
    + apply Forall_fmap, Forall_forall. intros s _. apply to_int16_is_int16.
  - rewrite <- Hnew. by rewrite drop_app_length.
Qed.

Section WinMM_adjust.
Context {D : Type} `{Allocator D} `{WinMM.Driver D}.

Lemma to_uint32_in_range x : 0 ≤ x < 2 ^ 32 → to_uint32 x = x.
Proof. intros. unfold to_uint32. by rewrite Z.mod_small. Qed.

(** With the scratch buffer at hand the adjustment comes back with a scaled
    copy of the chunk. *)
Lemma winmm_adjust_scaled (ctx : WinMM.AudioContext) (w : heap * D) chunk size bytes :
  WinMM.volume ctx < 100 → 0 ≤ size < 2 ^ 32 →
  load w.1 chunk size = Ret bytes →
  WinMM.scratch_available ctx w chunk size →
  ∃ audio ctx' w' out,
    WinMM.AudioBase_AdjustSound (Some chunk) size (ctx, w)
      = Ret ((true, Some audio, size), (ctx', w')) ∧
    WinMM.tmp_frame ctx ctx' ∧
    load w'.1 audio size = Ret out ∧
    samples_of_bytes out
      = (λ s, scale_sample s (WinMM.volume ctx)) <$> samples_of_bytes bytes ∧
    drop (Z.to_nat (2 * (size / 2))) out = drop (Z.to_nat (2 * (size / 2))) bytes.
Proof.
  intros Hv Hsize Hc Hscratch. destruct w as [h d].
  unfold WinMM.scratch_available in Hscratch. simpl in *.
  unfold WinMM.AudioBase_AdjustSound. unfold_m. simpl.
  destruct (Z.geb_spec (WinMM.volume ctx) 100); [lia|].
  destruct Hscratch as [[Hbig [old Hold]] | (Hsmall & Hgrant & Hdata)].
  - destruct (Z.ltb_spec (WinMM._tmpSize ctx) size); [lia|]. simpl.
    destruct (copy_and_scale h (WinMM._tmpData ctx) chunk size (WinMM.volume ctx)
                bytes old Hc Hold) as (h1 & h2 & out & Hm & Hav & Hl & Hs & Hd).
    rewrite Hm. simpl. rewrite Hav. simpl.
    eexists _, _, _, out. split_and!; done.
  - destruct (Z.ltb_spec (WinMM._tmpSize ctx) size); [|lia].
    assert (Hn : to_uint32 size * to_uint32 1 = size).
    { rewrite !to_uint32_in_range by lia. lia. }
    pose proof (fresh_block h) as Hfresh.
    destruct (WinMM._tmpData ctx) as [a|] eqn:Htmp.
    + destruct Hdata as (Hofs & [bb Hbb] & Hne).
      unfold Mem_TryRealloc. simpl. rewrite Hbb, Hofs, Hn. simpl.
      destruct (mem_grant size d) as [ok d'] eqn:Hg. simpl in Hgrant. subst ok. simpl.
      set (b := fresh (dom h)) in *.
      set (blk0 := take (Z.to_nat size) (bb ++ replicate (Z.to_nat size) 0)).
      assert (Hchunk : load (<[b := blk0]> (delete (blk a) h)) chunk size = Ret bytes).
      { apply load_insert_new; [by rewrite lookup_delete_ne by congruence|].
        by apply load_delete_other. }
      assert (Hnew : load (<[b := blk0]> (delete (blk a) h)) (Some (Addr b 0)) size
                     = Ret blk0).
      { apply load_new_block; [lia|]. unfold blk0.
        rewrite length_take, length_app, length_replicate. lia. }
      destruct (copy_and_scale _ _ chunk size (WinMM.volume ctx) bytes _ Hchunk Hnew)
        as (h1 & h2 & out & Hm & Hav & Hl & Hs & Hd).
      rewrite Hm. simpl. rewrite Hav. simpl.
      eexists _, _, _, out. split_and!; done.
    + unfold Mem_TryAlloc. simpl. rewrite Hn.
      destruct (mem_grant size d) as [ok d'] eqn:Hg. simpl in Hgrant. subst ok. simpl.
      set (b := fresh (dom h)) in *.
      assert (Hchunk : load (<[b := replicate (Z.to_nat size) 0]> h) chunk size = Ret bytes)
        by by apply load_insert_new.
      assert (Hnew : load (<[b := replicate (Z.to_nat size) 0]> h) (Some (Addr b 0)) size
                     = Ret (replicate (Z.to_nat size) 0)).
      { apply load_new_block; [lia|]. by rewrite length_replicate. }
      destruct (copy_and_scale _ _ chunk size (WinMM.volume ctx) bytes _ Hchunk Hnew)
        as (h1 & h2 & out & Hm & Hav & Hl & Hs & Hd).
      rewrite Hm. simpl. rewrite Hav. simpl.
      eexists _, _, _, out. split_and!; done.
Qed.

(** When the scratch buffer has to grow and the allocator has nothing to
    give, the NULL it answers is written through. *)
Lemma winmm_adjust_out_of_memory (ctx : WinMM.AudioContext) (h : heap) (d : D) chunk size :
  WinMM.volume ctx < 100 → 0 ≤ WinMM._tmpSize ctx < size →
  (∀ n, (mem_grant n d).1 = false) →
  WinMM.AudioBase_AdjustSound (Some chunk) size (ctx, (h, d)) = Fault.
Proof.
  intros Hv Hsize Hoom.
  assert (Hcopy : ∀ h', Mem_Copy NULL chunk size h' = Fault).
  { intros h'. unfold Mem_Copy. destruct (load h' chunk size) as [bytes|] eqn:Hl; [|done].
    apply load_length in Hl as [_ Hl]. unfold store.
    destruct (Nat.eqb_spec (length bytes) 0); [lia|done]. }
  unfold WinMM.AudioBase_AdjustSound. unfold_m. simpl.
  destruct (Z.geb_spec (WinMM.volume ctx) 100); [lia|].
  destruct (Z.ltb_spec (WinMM._tmpSize ctx) size); [|lia].
  destruct (WinMM._tmpData ctx) as [a|] eqn:Htmp.
  - unfold Mem_TryRealloc. simpl. destruct (h !! blk a); [|done].
    destruct (ofs a =? 0); [|done].
    specialize (Hoom (to_uint32 size * to_uint32 1)).
    destruct (mem_grant _ d) as [ok d']. simpl in Hoom. subst ok. simpl.
    by rewrite Hcopy.
  - unfold Mem_TryAlloc. simpl.
    specialize (Hoom (to_uint32 size * to_uint32 1)).
    destruct (mem_grant _ d) as [ok d']. simpl in Hoom. subst ok. simpl.
    by rewrite Hcopy.
Qed.

End WinMM_adjust.

(** ** The context pool *)

Lemma forallb_existsb_neg {A} (p : A → bool) (l : list A) :
  forallb p l = true → existsb (λ x, negb (p x)) l = false.
Proof.
  induction l as [|x l IH]; simpl; [done|].
  intros [-> ?]%andb_true_iff. simpl. auto.
Qed.

Lemma scan_ok_nil law with_init : Pool.scan_ok law with_init 0 None [].
Proof. constructor; simpl; try done. Qed.

Lemma scan_ok_app law with_init k1 k2 r new1 new2 :
  Pool.scan_ok law with_init k1 None new1 →
  Pool.scan_ok law with_init k2 r new2 →
  Pool.scan_ok law with_init (k1 + k2) r (new1 ++ new2).
Proof.
  intros [Hp1 Hi1 Hl1 Hn1 _] [Hp2 Hi2 Hl2 Hn2 Hs2]. constructor.
  - rewrite count_if_app. lia.
  - intros Hw. rewrite forallb_app, Hi1, Hi2; done.
  - intros Hlaw. rewrite !existsb_app.
    intros [Hx|Hx]%orb_true_iff; [apply Hl1 in Hx | apply Hl2 in Hx]; try done;
      apply orb_true_iff in Hx as [->| ->]; simpl; by rewrite ?orb_true_r.
  - intros Hr. rewrite forallb_app, Hn1, Hn2; done.
  - intros res Hr. destruct (Hs2 res Hr) as (pre & e & -> & Hq & Hres & Ht).
    exists (new1 ++ pre), e. split_and!; [by rewrite app_assoc| |done|].
    + rewrite forallb_app, Hn1, Hq; done.
    + rewrite existsb_app. destruct (Pool.call_failed e); [done|]. simpl in *.
      apply andb_true_iff in Ht as [-> ->]. by rewrite orb_true_r.
Qed.

Lemma scan_ok_more law with_init k k' r new :
  k ≤ k' → Pool.scan_ok law with_init k r new → Pool.scan_ok law with_init k' r new.
Proof. intros Hk [Hp ? ? ? ?]. constructor; try done. lia. Qed.

Section Pool_facts.
Context {C W : Type} `{Pool.Backend C W}.
Context {F : Type} (fmt : C → F).

#[local] Abbreviation law := (Pool.fresh_idle_law (C := C) (W := W)).

#[local] Abbreviation scanned := (Pool.scanned fmt).

Lemma scanned_refl with_init s : scanned with_init 0 s s None.
Proof. exists []. split_and!; [by rewrite app_nil_r|apply scan_ok_nil|done]. Qed.

Lemma scanned_trans with_init k1 k2 s1 s2 s3 r :
  scanned with_init k1 s1 s2 None → scanned with_init k2 s2 s3 r →
  scanned with_init (k1 + k2) s1 s3 r.
Proof.
  intros (new1 & Hc1 & Hs1 & Hf1) (new2 & Hc2 & Hs2 & Hf2).
  exists (new1 ++ new2). split_and!.
  - by rewrite Hc2, Hc1, app_assoc.
  - by apply scan_ok_app.
  - intros Hk. rewrite forallb_app. intros [? ?]%andb_true_iff.
    rewrite Hf2, Hf1; done.
Qed.

Lemma scan_loop with_init (body : Z → M (Pool.pool C W) (option cc_result)) :
  (∀ i s r s', body i s = Ret (r, s') → scanned with_init 1 s s' r) →
  ∀ fuel i lim s r s',
    for_loop fuel i lim body s = Ret (r, s') →
    scanned with_init (Z.of_nat fuel) s s' r.
Proof.
  intros Hbody. induction fuel as [|fuel IH]; intros i lim s r s'; simpl for_loop.
  - unfold_m. intros [= <- <-]. apply scanned_refl.
  - destruct (i <? lim).
    2:{ unfold_m. intros [= <- <-].
        destruct (scanned_refl with_init s) as (new & ? & ? & ?).
        exists new. split_and!; try done. eapply scan_ok_more; [|done]. lia. }
    intros (o & s1 & Hb%Hbody & Hk)%bind_Ret.
    destruct o as [res|].
    + unfold_m. injection Hk as <- <-.
      destruct Hb as (new & ? & ? & ?).
      exists new. split_and!; try done. eapply scan_ok_more; [|done]. lia.
    + apply IH in Hk. replace (Z.of_nat (S fuel)) with (1 + Z.of_nat fuel) by lia.
      by eapply scanned_trans.
Qed.

Lemma ctx_at_Ret i (s : Pool.pool C W) c s' :
  Pool.ctx_at i s = Ret (c, s') → s' = s ∧ arr_get (Pool.context_pool s) i = Ret c.
Proof.
  unfold Pool.ctx_at. destruct (arr_get _ _); [|done]. by intros [= <- <-].
Qed.

Lemma on_ctx_Ret {A} i (m : M (C * W) A) (s : Pool.pool C W) a s' :
  Pool.on_ctx i m s = Ret (a, s') →
  ∃ c c' w', arr_get (Pool.context_pool s) i = Ret c ∧
    m (c, Pool.world s) = Ret (a, (c', w')) ∧
    s' = {| Pool.context_pool := <[Z.to_nat i := c']> (Pool.context_pool s);
            Pool.world := w'; Pool.calls := Pool.calls s |}.
Proof.
  unfold Pool.on_ctx. destruct (arr_get _ _) as [c|]; [|done].
  destruct (m (c, Pool.world s)) as [[a' [c' w']]|] eqn:Hm; [|done].
  intros [= <- <-]. by exists c, c', w'.
Qed.

Lemma pool_Poll_Ret i (s : Pool.pool C W) res inUse s' :
  Pool.pool_Poll i s = Ret ((res, inUse), s') →
  ∃ c c' w', arr_get (Pool.context_pool s) i = Ret c ∧
    Pool.Audio_Poll (c, Pool.world s) = Ret ((res, inUse), (c', w')) ∧
    s' = {| Pool.context_pool := <[Z.to_nat i := c']> (Pool.context_pool s);
            Pool.world := w'; Pool.calls := Pool.calls s ++ [Pool.CallPoll i res inUse] |}.
Proof.
  unfold Pool.pool_Poll.
  intros ([r u] & s1 & (c & c' & w' & Hc & Hm & ->)%on_ctx_Ret & Hk)%bind_Ret.
  unfold Pool.record in Hk. unfold_m. simpl in Hk. injection Hk as <- <- <-.
  by exists c, c', w'.
Qed.

Lemma pool_Init_Ret i (s : Pool.pool C W) res s' :
  Pool.pool_Init i s = Ret (res, s') →
  ∃ c c' w', arr_get (Pool.context_pool s) i = Ret c ∧
    Pool.Audio_Init 1 (c, Pool.world s) = Ret (res, (c', w')) ∧
    s' = {| Pool.context_pool := <[Z.to_nat i := c']> (Pool.context_pool s);
            Pool.world := w'; Pool.calls := Pool.calls s ++ [Pool.CallInit i res] |}.
Proof.
  unfold Pool.pool_Init.
  intros (r & s1 & (c & c' & w' & Hc & Hm & ->)%on_ctx_Ret & Hk)%bind_Ret.
  unfold Pool.record in Hk. unfold_m. simpl in Hk. injection Hk as <- <-.
  by exists c, c', w'.
Qed.

Lemma pool_PlayAudio_Ret i data (s : Pool.pool C W) res s' :
  Pool.pool_PlayAudio i data s = Ret (res, s') →
  Pool.calls s' = Pool.calls s ++ [Pool.CallPlayAudio i res].
Proof.
  unfold Pool.pool_PlayAudio.
  intros (r & s1 & (c & c' & w' & Hc & Hm & ->)%on_ctx_Ret & Hk)%bind_Ret.
  unfold Pool.record in Hk. unfold_m. simpl in Hk. by injection Hk as <- <-.
Qed.

Lemma fmt_after_poll (l : list C) i c c' w r w' :
  arr_get l i = Ret c → Pool.Audio_Poll (c, w) = Ret (r, (c', w')) →
  Pool.poll_keeps fmt → fmt <$> <[Z.to_nat i := c']> l = fmt <$> l.
Proof.
  intros [_ Hl]%arr_get_Ret Hp Hk. eapply fmap_insert_same; [done|]. by eapply Hk.
Qed.

(** After a poll: the scan stops on a failure, goes on when the context is
    in use, else it goes on or plays, as [k] decides. *)
Lemma after_poll with_init i (s s1 s' : Pool.pool C W) res inUse r pre
    (k : M (Pool.pool C W) (option cc_result)) :
  Pool.calls s1 = Pool.calls s ++ pre ++ [Pool.CallPoll i res inUse] →
  (Pool.poll_keeps fmt → forallb Pool.is_poll pre = true →
   fmt <$> Pool.context_pool s1 = fmt <$> Pool.context_pool s) →
  (if negb (res =? 0) then mret (Some res) else
   if inUse >? 0 then mret None else k) s1 = Ret (r, s') →
  (k s1 = Ret (r, s') →
   (r = None ∧ s' = s1) ∨
   ∃ res', r = Some res' ∧ Pool.calls s' = Pool.calls s1 ++ [Pool.CallPlayAudio i res']) →
  (pre = [] ∨ (with_init = true ∧ pre = [Pool.CallInit i 0]
               ∧ (law → res = 0 → inUse ≤ 0))) →
  scanned with_init 1 s s' r.
Proof.
  intros Hc Hf Hk Hplay Hpre.
  assert (Hfmt : ∀ tl, Pool.poll_keeps fmt →
            forallb Pool.is_poll (pre ++ tl) = true →
            fmt <$> Pool.context_pool s1 = fmt <$> Pool.context_pool s).
  { intros tl Hkeep. rewrite forallb_app. intros [? _]%andb_true_iff. auto. }
  destruct (res =? 0) eqn:Hres; simpl in Hk.
  2:{ unfold_m. injection Hk as <- <-.
      exists (pre ++ [Pool.CallPoll i res inUse]). split_and!; [done| |apply Hfmt].
      destruct Hpre as [->|(-> & -> & _)]; constructor; unfold Pool.quiet; simpl;
        rewrite ?Hres; try done; intros ? [= <-];
        [exists [], (Pool.CallPoll i res inUse)
        | exists [Pool.CallInit i 0], (Pool.CallPoll i res inUse)];
        simpl; by rewrite Hres. }
  destruct (inUse >? 0) eqn:Hu; simpl in Hk.
  { unfold_m. injection Hk as <- <-.
    exists (pre ++ [Pool.CallPoll i res inUse]). split_and!; [done| |apply Hfmt].
    destruct Hpre as [->|(-> & -> & Hlaw)]; constructor; unfold Pool.quiet; simpl;
      rewrite ?Hres, ?Hu; try done.
    intros Hl _. apply Z.eqb_eq in Hres. apply Z.gtb_lt in Hu.
    specialize (Hlaw Hl Hres). lia. }
  destruct (Hplay Hk) as [[-> ->]|(res' & -> & Hc')].
  - exists (pre ++ [Pool.CallPoll i res inUse]). split_and!; [done| |apply Hfmt].
    destruct Hpre as [->|(-> & -> & _)]; constructor; unfold Pool.quiet; simpl;
      rewrite ?Hres, ?Hu; done.
  - exists (pre ++ [Pool.CallPoll i res inUse; Pool.CallPlayAudio i res']). split_and!.
    + rewrite Hc', Hc, <- !app_assoc. done.
    + destruct Hpre as [->|(-> & -> & _)]; constructor; unfold Pool.quiet; simpl;
        rewrite ?Hres, ?Hu; try done; intros ? [= <-];
        [exists [Pool.CallPoll i res inUse], (Pool.CallPlayAudio i res')
        | exists [Pool.CallInit i 0; Pool.CallPoll i res inUse], (Pool.CallPlayAudio i res')];
        simpl; by rewrite Hres, Hu.
    + intros _. rewrite forallb_app. simpl. rewrite andb_false_r. done.
Qed.

Lemma play_or_skip i data (s1 : Pool.pool C W) r s' :
  (ctx ← Pool.ctx_at i;
   if negb (Pool.Audio_FastPlay ctx data) then mret None else
   res ← Pool.pool_PlayAudio i data; mret (Some res)) s1 = Ret (r, s') →
  (r = None ∧ s' = s1) ∨
  ∃ res', r = Some res' ∧ Pool.calls s' = Pool.calls s1 ++ [Pool.CallPlayAudio i res'].
Proof.
  intros (c & s0 & (-> & Hc)%ctx_at_Ret & Hk)%bind_Ret.
  destruct (Pool.Audio_FastPlay c data); simpl in Hk.
  - apply bind_Ret in Hk as (res' & s2 & Hplay%pool_PlayAudio_Ret & [= <- <-]). eauto.
  - unfold_m. injection Hk as <- <-. by left.
Qed.

Lemma play_always i data (s1 : Pool.pool C W) r s' :
  (res ← Pool.pool_PlayAudio i data; mret (Some res)) s1 = Ret (r, s') →
  (r = None ∧ s' = s1) ∨
  ∃ res', r = Some res' ∧ Pool.calls s' = Pool.calls s1 ++ [Pool.CallPlayAudio i res'].
Proof.
  intros (res' & s2 & Hplay%pool_PlayAudio_Ret & [= <- <-])%bind_Ret. eauto.
Qed.

Lemma pass2_body_scanned data i (s : Pool.pool C W) r s' :
  Pool.pass2_body data i s = Ret (r, s') → scanned false 1 s s' r.
Proof.
  unfold Pool.pass2_body.
  intros ([res u] & s1 & (c & c' & w' & Hc & Hp & ->)%pool_Poll_Ret & Hk)%bind_Ret.
  eapply (after_poll false i s _ s' res u r []); only 3: exact Hk.
  - done.
  - simpl. intros Hkeep _. by eapply fmt_after_poll.
  - apply play_always.
  - by left.
Qed.

Lemma pass1_body_scanned data i (s : Pool.pool C W) r s' :
  Pool.pass1_body data i s = Ret (r, s') → scanned true 1 s s' r.
Proof.
  unfold Pool.pass1_body.
  intros (c & s0 & (-> & Hc)%ctx_at_Ret & Hk)%bind_Ret.
  apply bind_Ret in Hk as (res0 & s1 & Hinit & Hk).
  destruct (Pool.count c =? 0).
  - apply pool_Init_Ret in Hinit as (c0 & c1 & w1 & Hc0 & Hi & ->).
    destruct (res0 =? 0) eqn:Hres0; simpl in Hk.
    2:{ unfold_m. injection Hk as <- <-. exists [Pool.CallInit i res0]. split_and!; [done| |done].
        constructor; simpl; rewrite ?Hres0; try done.
        intros ? [= <-]. exists [], (Pool.CallInit i res0). simpl. by rewrite Hres0. }
    apply Z.eqb_eq in Hres0 as ->.
    apply bind_Ret in Hk as ([res u] & s2 & (c2 & c3 & w3 & Hc2 & Hp & ->)%pool_Poll_Ret & Hk).
    simpl in Hc2, Hp.
    assert (c2 = c1) as ->.
    { apply arr_get_Ret in Hc2 as [? Hl]. apply arr_get_Ret in Hc0 as [_ Hl0].
      rewrite list_lookup_insert_eq in Hl by by eapply lookup_lt_Some. congruence. }
    eapply (after_poll true i s _ s' res u r [Pool.CallInit i 0]); only 3: exact Hk.
    + simpl. by rewrite <- app_assoc.
    + done.
    + apply play_or_skip.
    + right. split_and!; [done..|]. intros Hlaw ->. by eapply Hlaw.
  - unfold_m. injection Hinit as <- <-. simpl in Hk.
    apply bind_Ret in Hk as ([res u] & s2 & (c2 & c3 & w3 & Hc2 & Hp & ->)%pool_Poll_Ret & Hk).
    eapply (after_poll true i s _ s' res u r []); only 3: exact Hk.
    + done.
    + simpl. intros Hkeep _. by eapply fmt_after_poll.
    + apply play_or_skip.
    + by left.
Qed.

(** The two scans of [AudioPool_Play]. *)
Lemma pool_play_scans data (s s' : Pool.pool C W) res :
  Pool.AudioPool_Play data s = Ret (res, s') →
  ∃ s1 r1, scanned true Pool.POOL_MAX_CONTEXTS s s1 r1 ∧
    ((r1 = Some res ∧ s' = s1) ∨
     (r1 = None ∧ ∃ r2, scanned false Pool.POOL_MAX_CONTEXTS s1 s' r2
                        ∧ res = default 0 r2)).
Proof.
  unfold Pool.AudioPool_Play, for_range.
  intros (r1 & s1 & H1 & Hk)%bind_Ret.
  apply (scan_loop true _ (pass1_body_scanned data)) in H1.
  exists s1, r1. split; [done|].
  destruct r1 as [res1|].
  - unfold_m. injection Hk as <- <-. by left.
  - right. split; [done|].
    apply bind_Ret in Hk as (r2 & s2 & H2 & Hk).
    apply (scan_loop false _ (pass2_body_scanned data)) in H2.
    exists r2. destruct r2; unfold_m; injection Hk as <- <-; by split.
Qed.

End Pool_facts.

Lemma quiet_not_failed l :
  forallb Pool.quiet l = true → existsb Pool.call_failed l = false.
Proof.
  induction l as [|e l IH]; simpl; [done|].
  intros [[->%negb_true_iff _]%andb_true_iff ?]%andb_true_iff. simpl. auto.
Qed.

Lemma quiet_not_play l :
  forallb Pool.quiet l = true → forallb (λ e, negb (Pool.is_play e)) l = true.
Proof.
  induction l as [|e l IH]; simpl; [done|].
  intros [[_ ->]%andb_true_iff ?]%andb_true_iff. simpl. auto.
Qed.

Lemma quiet_polls l :
  forallb Pool.quiet l = true → existsb Pool.is_init l = false →
  forallb Pool.is_poll l = true.
Proof.
  induction l as [|e l IH]; simpl; [done|].
  intros [Hq ?]%andb_true_iff [Hi ?]%orb_false_iff.
  rewrite IH by done. by destruct e.
Qed.

(** In a record that ends with the only call that failed or played, a
    failed call is the last one. *)
Lemma failed_is_last quiet_part last pre e post :
  quiet_part ++ [last] = pre ++ e :: post →
  forallb Pool.quiet quiet_part = true → Pool.call_failed e = true →
  post = [] ∧ e = last ∧ pre = quiet_part.
Proof.
  revert pre. induction quiet_part as [|x p IH]; intros pre; simpl.
  - destruct pre as [|y pre]; simpl; intros [= -> Hp] _ _;
      [by destruct post | by destruct pre].
  - intros Heq [Hx Hq]%andb_true_iff Hfail.
    destruct pre as [|y pre]; simpl in Heq; injection Heq as -> Heq.
    + unfold Pool.quiet in Hx. by rewrite Hfail in Hx.
    + destruct (IH pre Heq Hq Hfail) as (-> & -> & ->). done.
Qed.

(** ** The laws of the pool on the two backends *)

Section Backend_laws.
Context {D : Type}.

Lemma openal_fresh_idle `{OpenAL.Driver D} :
  Pool.fresh_idle_law (C := OpenAL.AudioContext) (W := D).
Proof.
  intros c w c' w' res inUse c'' w'' Hinit Hpoll ->.
  change (OpenAL.Audio_Init 1 (c, w) = Ret (0, (c', w'))) in Hinit.
  change (OpenAL.Audio_Poll (c', w') = Ret ((0, inUse), (c'', w''))) in Hpoll.
  apply openal_init_inv in Hinit as [Hcount Hfree].
  destruct (decide (OpenAL.source c' = 0)) as [Hs|Hs].
  - rewrite openal_poll_no_source in Hpoll by done. by injection Hpoll as <- _ _.
  - apply openal_poll_inv in Hpoll as (_ & _ & Hok & _); [|done].
    destruct Hok as [Hf ->]; [done|]. destruct (_ >? 0); lia.
Qed.

Lemma openal_poll_keeps `{OpenAL.Driver D} :
  Pool.poll_keeps (C := OpenAL.AudioContext) (W := D)
    (λ c, (OpenAL.format c, OpenAL.sampleRate c)).
Proof.
  intros c w r c' w'. simpl.
  unfold OpenAL.Audio_Poll, OpenAL.poll_done. unfold_m. simpl. intros.
  repeat (case_match; simplify_eq/=; try done).
Qed.

Lemma winmm_init_inv `{Allocator D} `{WinMM.Driver D} n
    (c : WinMM.AudioContext) (w : heap * D) res c' w' :
  WinMM.Audio_Init n (c, w) = Ret (res, (c', w')) →
  res = 0 ∧ WinMM.count c' = n ∧ WinMM.volume c' = 100.
Proof.
  unfold WinMM.Audio_Init.
  intros (r & s1 & _ & Hk)%bind_Ret. unfold_m. by injection Hk as <- <- <-.
Qed.

Lemma winmm_fresh_idle `{Allocator D} `{WinMM.Driver D} :
  Pool.fresh_idle_law (C := WinMM.AudioContext) (W := heap * D).
Proof.
  intros c w c' w' res inUse c'' w'' Hinit Hpoll ->. simpl in Hinit, Hpoll.
  assert (Hhd : ∃ h hs, WinMM.headers c' = h :: hs
                        ∧ WinMM.has_flag h WinMM.WHDR_DONE = true
                        ∧ WinMM.count c' = 1).
  { revert Hinit. unfold WinMM.Audio_Init, for_range.
    change (Z.to_nat (1 - 0)) with 1%nat. simpl.
    unfold WinMM.init_slot, WinMM.get_header, WinMM.put_header, arr_get, arr_set.
    unfold_m. destruct c as [? [|h hs] ? ? ? ? ? ?]; simpl; [done|].
    intros [= <- <-]. simpl. by eexists _, _. }
  destruct Hhd as (h & hs & Hhs & Hdone & Hcnt).
  apply winmm_poll_spec in Hpoll as (Hf & _ & Hd & Hok).
  destruct Hok as [-> _]; [done|lia|].
  rewrite in_flight_slots_flags, Hd. destruct Hf as (_ & -> & _).
  rewrite Hcnt. unfold WinMM.done_flags. rewrite Hhs. simpl.
  change (Z.to_nat 1) with 1%nat. simpl. rewrite Hdone. done.
Qed.

Lemma winmm_poll_keeps `{Allocator D} `{WinMM.Driver D} :
  Pool.poll_keeps (C := WinMM.AudioContext) (W := heap * D)
    (λ c, (WinMM.channels c, WinMM.sampleRate c, WinMM.volume c)).
Proof.
  intros c w [res u] c' w' Hpoll. simpl in Hpoll.
  apply winmm_poll_spec in Hpoll as ((_ & _ & -> & -> & -> & _) & _). done.
Qed.

End Backend_laws.

(** ** What the pool does when every context is busy *)

Section Pool_busy.
Context {C W : Type} `{Pool.Backend C W}.
Context {F : Type} (fmt : C → F).

Lemma pool_all_busy data (s s' : Pool.pool C W) res new :
  Pool.fresh_idle_law (C := C) (W := W) → Pool.poll_keeps fmt →
  Pool.AudioPool_Play data s = Ret (res, s') →
  Pool.calls s' = Pool.calls s ++ new →
  count_if Pool.is_poll new = 2 * Pool.POOL_MAX_CONTEXTS →
  forallb Pool.poll_in_use new = true →
  res = 0 ∧ forallb Pool.is_poll new = true ∧
  fmt <$> Pool.context_pool s' = fmt <$> Pool.context_pool s.
Proof.
  intros Hlaw Hkeep Hplay Hnew Hcount Hbusy.
  destruct (pool_play_scans fmt data s s' res Hplay)
    as (s1 & r1 & (new1 & Hc1 & Hs1 & Hf1) & Hrest).
  destruct Hrest as [[-> ->] | (-> & r2 & (new2 & Hc2 & Hs2 & Hf2) & ->)].
  { rewrite Hc1 in Hnew. apply app_inv_head in Hnew as <-.
    pose proof (Pool.so_polls _ _ _ _ _ Hs1). unfold Pool.POOL_MAX_CONTEXTS in *. lia. }
  rewrite Hc2, Hc1, <- app_assoc in Hnew. apply app_inv_head in Hnew as <-.
  rewrite forallb_app in Hbusy. apply andb_true_iff in Hbusy as [Hb1 Hb2].
  pose proof (Pool.so_none _ _ _ _ _ Hs1 eq_refl) as Hq1.
  assert (Hp1 : forallb Pool.is_poll new1 = true).
  { apply quiet_polls; [done|].
    destruct (existsb Pool.is_init new1) eqn:Hi; [|done].
    pose proof (Pool.so_law _ _ _ _ _ Hs1 Hlaw Hi) as Hx.
    rewrite forallb_existsb_neg, quiet_not_failed in Hx; done. }
  destruct r2 as [res2|]; simpl.
  { destruct (Pool.so_some _ _ _ _ _ Hs2 res2 eq_refl) as (pre & e & -> & Hq & Hr & Ht).
    pose proof (Pool.so_init _ _ _ _ _ Hs2 eq_refl) as Hi.
    rewrite forallb_app in Hb2, Hi. simpl in Hb2, Hi.
    apply andb_true_iff in Hb2 as [Hb2 [He _]%andb_true_iff].
    apply andb_true_iff in Hi as [_ [Hi _]%andb_true_iff].
    rewrite forallb_existsb_neg in Ht by done.
    destruct e; simpl in *; try done.
    rewrite orb_false_r in Ht.
    apply negb_true_iff in Ht. by rewrite Ht in He. }
  pose proof (Pool.so_none _ _ _ _ _ Hs2 eq_refl) as Hq2.
  assert (Hp2 : forallb Pool.is_poll new2 = true).
  { apply quiet_polls; [done|].
    pose proof (Pool.so_init _ _ _ _ _ Hs2 eq_refl) as Hi.
    clear -Hi. induction new2 as [|e l IH]; simpl in *; [done|].
    apply andb_true_iff in Hi as [->%negb_true_iff ?]. simpl. auto. }
  split_and!; [done| |].
  - by rewrite forallb_app, Hp1, Hp2.
  - rewrite Hf2, Hf1; done.
Qed.

(** A failed call is the last call of [AudioPool_Play], which answers its
    code having played nothing. *)
Lemma pool_error_stops data (s s' : Pool.pool C W) res pre e post :
  Pool.AudioPool_Play data s = Ret (res, s') →
  Pool.calls s' = Pool.calls s ++ pre ++ e :: post →
  Pool.call_failed e = true →
  post = [] ∧ res = Pool.call_res e ∧ forallb (λ e', negb (Pool.is_play e')) pre = true.
Proof.
  intros Hplay Hnew Hfail.
  destruct (pool_play_scans fmt data s s' res Hplay)
    as (s1 & r1 & (new1 & Hc1 & Hs1 & _) & Hrest).
  destruct Hrest as [[-> ->] | (-> & r2 & (new2 & Hc2 & Hs2 & _) & ->)].
  - rewrite Hc1 in Hnew. apply app_inv_head in Hnew.
    destruct (Pool.so_some _ _ _ _ _ Hs1 res eq_refl) as (p & e1 & -> & Hq & Hr & _).
    destruct (failed_is_last _ _ _ _ _ Hnew Hq Hfail) as (-> & -> & ->).
    split_and!; [done|done|by apply quiet_not_play].
  - rewrite Hc2, Hc1, <- app_assoc in Hnew. apply app_inv_head in Hnew.
    pose proof (Pool.so_none _ _ _ _ _ Hs1 eq_refl) as Hq1.
    destruct r2 as [res2|]; simpl.
    + destruct (Pool.so_some _ _ _ _ _ Hs2 res2 eq_refl) as (p & e2 & -> & Hq & Hr & _).
      rewrite app_assoc in Hnew.
      assert (Hq' : forallb Pool.quiet (new1 ++ p) = true)
        by by rewrite forallb_app, Hq1, Hq.
      destruct (failed_is_last _ _ _ _ _ Hnew Hq' Hfail) as (-> & -> & ->).
      split_and!; [done|done|by apply quiet_not_play].
    + pose proof (Pool.so_none _ _ _ _ _ Hs2 eq_refl) as Hq2.
      assert (Hq' : forallb Pool.quiet (pre ++ e :: post) = true)
        by by rewrite <- Hnew, forallb_app, Hq1, Hq2.
      rewrite forallb_app in Hq'. simpl in Hq'.
      apply andb_true_iff in Hq' as [_ [Hq' _]%andb_true_iff].
      unfold Pool.quiet in Hq'. by rewrite Hfail in Hq'.
Qed.

End Pool_busy.

(** ** Configured contexts keep the count they were initialised with *)

Section Configured.
Context {D : Type} `{Allocator D} `{WinMM.Driver D}.

Lemma winmm_queue_count (c : WinMM.AudioContext) (w : heap * D) chunk size res c' w' :
  WinMM.Audio_QueueChunk chunk size (c, w) = Ret (res, (c', w')) →
  WinMM.count c' = WinMM.count c.
Proof.
  unfold WinMM.Audio_QueueChunk.
  intros ([[ok data'] size'] & [c1 w1] & Hadj & Hk)%bind_Ret.
  apply winmm_adjust_frame in Hadj as ((_ & _ & Hcnt & _) & _ & _). simpl in Hcnt.
  destruct ok; simpl in Hk; [|unfold_m; by simplify_eq].
  apply bind_Ret in Hk as (p & s2 & Hl & Hk).
  unfold lift in Hl. destruct data'; [|done]. injection Hl as <- <-.
  apply bind_Ret in Hk as (c2 & s3 & [= <- <-] & Hk).
  apply bind_Ret in Hk as (r & s4 & Hloop & Hk). simpl in Hloop.
  eapply (for_loop_inv (λ s, WinMM.count s.1 = WinMM.count c)) in Hloop; [| |done].
  - destruct r; unfold_m; by simplify_eq.
  - intros i s r0 s0 HP (_ & Hc & _)%winmm_queue_slot_frame. congruence.
Qed.

Lemma winmm_configured_inv n (c : WinMM.AudioContext) :
  WinMM.configured n c → WinMM.count c = n ∧ 0 ≤ n.
Proof.
  induction 1 as [c w c' w' Hn Hinit | c w chunk size res c' w' _ [IH1 IH2] Hq
                 | c w [r u] c' w' _ [IH1 IH2] Hp | c w i c' w' _ [IH1 IH2] Hf].
  - apply winmm_init_inv in Hinit as (_ & ? & _). done.
  - apply winmm_queue_count in Hq. split; [congruence|done].
  - apply winmm_poll_spec in Hp as ((_ & Hc & _) & _). split; [congruence|done].
  - apply winmm_finish_frame in Hf as (_ & Hc & _). simpl in Hc. split; [congruence|done].
Qed.

Lemma winmm_setformat_same (c : WinMM.AudioContext) (w : heap * D)
    channels sampleRate playbackRate :
  WinMM.channels c = channels →
  WinMM.sampleRate c = Audio_AdjustSampleRate sampleRate playbackRate →
  WinMM.Audio_SetFormat channels sampleRate playbackRate (c, w) = Ret (0, (c, w)).
Proof.
  intros Hc Hs. unfold WinMM.Audio_SetFormat. unfold_m. simpl.
  by rewrite Hc, Hs, !Z.eqb_refl.
Qed.

End Configured.

Lemma opensles_setformat_same `{OpenSLES.Driver D} (c : OpenSLES.AudioContext) (d : D)
    channels sampleRate playbackRate :
  OpenSLES.channels c = channels → OpenSLES.sampleRate c = sampleRate →
  OpenSLES.playerRate c ≠ 0 →
  let rate := to_int16 (to_int32 (playbackRate * 10)) in
  OpenSLES.Audio_SetFormat channels sampleRate playbackRate (c, d)
  = Ret ((OpenSLES.SetRate (OpenSLES.playerRate c) rate d).1,
         (c, (OpenSLES.SetRate (OpenSLES.playerRate c) rate d).2)).
Proof.
  intros Hc Hs Hr. unfold OpenSLES.Audio_SetFormat, OpenSLES.via. unfold_m. simpl.
  rewrite Hc, Hs, !Z.eqb_refl. simpl.
  destruct (Z.eqb_spec (OpenSLES.playerRate c) 0); done.
Qed.

(** ** Chunk allocation *)

Lemma map_fmap {A B} (f : A → B) (l : list A) : map f l = f <$> l.
Proof. induction l as [|x l IH]; [done|]. rewrite fmap_cons. simpl. by f_equal. Qed.

Section Chunks.
Context {D : Type} `{Allocator D}.

Lemma Mem_TryAlloc_granted numElems elemSize (w : heap * D) :
  (mem_grant (to_uint32 numElems * to_uint32 elemSize) w.2).1 = true →
  let b := fresh (dom w.1) in
  let n := to_uint32 numElems * to_uint32 elemSize in
  Mem_TryAlloc numElems elemSize w
  = (Some (Addr b 0), (<[b := replicate (Z.to_nat n) 0]> w.1, (mem_grant n w.2).2))
  ∧ w.1 !! b = None.
Proof.
  intros Hg. unfold Mem_TryAlloc. simpl.
  destruct (mem_grant _ w.2) as [ok d']. simpl in Hg. subst ok.
  split; [done|apply fresh_block].
Qed.

Lemma Mem_TryAlloc_denied numElems elemSize (w : heap * D) :
  (mem_grant (to_uint32 numElems * to_uint32 elemSize) w.2).1 = false →
  (Mem_TryAlloc numElems elemSize w).1 = NULL ∧ (Mem_TryAlloc numElems elemSize w).2.1 = w.1.
Proof.
  intros Hg. unfold Mem_TryAlloc.
  destruct (mem_grant _ w.2) as [ok d']. simpl in Hg. by subst ok.
Qed.

(** The common allocator hands out [numChunks] pointers [size] bytes apart,
    all inside one new block of [numChunks * size] bytes, and releasing the
    first of them gives the heap back. *)
Lemma AudioBase_AllocChunks_spec size numChunks (w : heap * D) :
  0 < size → 0 < numChunks → size * numChunks ≤ INT_MAX →
  (mem_grant (numChunks * size) w.2).1 = true →
  ∃ b w',
    AudioBase_AllocChunks size numChunks w
    = (0, (λ i, Some (Addr b (size * i))) <$> seqZ 0 numChunks, w') ∧
    w.1 !! b = None ∧
    w'.1 = <[b := replicate (Z.to_nat (numChunks * size)) 0]> w.1 ∧
    (∀ i, 0 ≤ i < numChunks →
       ∃ bytes, load w'.1 (Some (Addr b (size * i))) size = Ret bytes) ∧
    AudioBase_FreeChunks ((λ i, Some (Addr b (size * i))) <$> seqZ 0 numChunks)
      numChunks w'.1 = Ret w.1.
Proof.
  intros Hsize Hnum Hmax Hg. unfold INT_MAX in Hmax.
  assert (Hn : to_uint32 numChunks * to_uint32 size = numChunks * size).
  { rewrite !to_uint32_in_range by nia. done. }
  destruct (Mem_TryAlloc_granted numChunks size w) as [Ha Hfresh]; [by rewrite Hn|].
  rewrite Hn in Ha. set (b := fresh (dom w.1)) in *.
  eexists b, _. unfold AudioBase_AllocChunks. rewrite Ha. split_and!; [|done| | |].
  - rewrite map_fmap. f_equal. f_equal. apply list_fmap_ext.
    intros k i [-> ?]%lookup_seqZ. simpl.
    rewrite to_int32_in_range; [done|unfold INT_MIN, INT_MAX; nia].
  - done.
  - intros i Hi. simpl. unfold load.
    destruct (Z.eqb_spec size 0); [lia|]. simpl. rewrite lookup_insert_eq.
    rewrite (proj2 (in_block_spec _ _ _)); [eauto|].
    rewrite length_replicate. nia.
  - simpl. destruct (seqZ 0 numChunks) as [|z zs] eqn:Hseq.
    { apply (f_equal length) in Hseq. rewrite length_seqZ in Hseq. simpl in Hseq. lia. }
    assert (z = 0) as ->.
    { assert (seqZ 0 numChunks !! 0%nat = Some z) as [? _]%lookup_seqZ by by rewrite Hseq.
      lia. }
    rewrite fmap_cons. simpl. rewrite lookup_insert_eq, Z.mul_0_r. simpl.
    by rewrite delete_insert_id.
Qed.

Lemma AudioBase_AllocChunks_out_of_memory size numChunks (w : heap * D) :
  (mem_grant (to_uint32 numChunks * to_uint32 size) w.2).1 = false →
  (AudioBase_AllocChunks size numChunks w).1 = (ERR_OUT_OF_MEMORY, []).
Proof.
  intros Hg. unfold AudioBase_AllocChunks, Mem_TryAlloc. simpl.
  destruct (mem_grant _ w.2) as [ok d']. simpl in Hg. by subst ok.
Qed.

Lemma round_up_32 size :
  0 ≤ size < 2 ^ 32 - 31 →
  Z.land (to_uint32 (size + 0x1F)) (to_uint32 (Z.lnot 0x1F)) = 32 * ((size + 31) / 32).
Proof.
  intros Hs. rewrite to_uint32_in_range by lia.
  change (to_uint32 (Z.lnot 31)) with (Z.land (Z.ones 32) (Z.lnot (Z.ones 5))).
  rewrite Z.land_assoc, Z.land_ones by lia. rewrite Z.mod_small by lia.
  rewrite <- Z.ldiff_land, Z.ldiff_ones_r by lia.
  rewrite Z.shiftl_mul_pow2, Z.shiftr_div_pow2 by lia. change (2 ^ 5) with 32. lia.
Qed.

(** The GC/Wii allocator asks for the rounded size of one chunk only: the
    second pointer it hands out already lies past the end of the block. *)
Lemma gcwii_alloc_chunks_one_block size numChunks (w : heap * D) :
  0 < size ≤ INT_MAX → 2 ≤ numChunks →
  let rounded := 32 * ((size + 31) / 32) in
  (mem_grant rounded w.2).1 = true →
  ∃ b chunks w' block,
    GCWii.Audio_AllocChunks size numChunks w = (0, chunks, w') ∧
    chunks !! 0%nat = Some (Some (Addr b 0)) ∧
    chunks !! 1%nat = Some (Some (Addr b rounded)) ∧
    w'.1 !! b = Some block ∧ Z.of_nat (length block) = rounded ∧
    load w'.1 (Some (Addr b rounded)) 1 = Fault.
Proof.
  intros Hsize Hnum rounded Hg. unfold INT_MAX in Hsize.
  assert (Hr : 0 < rounded < 2 ^ 32).
  { unfold rounded. pose proof (Z.mul_div_le (size + 31) 32).
    pose proof (Z.div_str_pos (size + 31) 32). lia. }
  unfold GCWii.Audio_AllocChunks, memalign. rewrite round_up_32 by lia. fold rounded.
  assert (Hn : to_uint32 1 * to_uint32 rounded = rounded).
  { rewrite !to_uint32_in_range by lia. lia. }
  destruct (Mem_TryAlloc_granted 1 rounded w) as [Ha Hfresh]; [by rewrite Hn|].
  rewrite Hn in Ha. rewrite Ha. set (b := fresh (dom w.1)) in *.
  rewrite map_fmap.
  eexists b, _, _, _. split_and!; [done| | | | |].
  - rewrite list_lookup_fmap, (lookup_seqZ_lt _ _ 0) by lia. simpl.
    by rewrite Z.mul_0_r, Z.add_0_r.
  - rewrite list_lookup_fmap, (lookup_seqZ_lt _ _ 1) by lia. simpl.
    rewrite Z.mul_1_r, to_uint32_in_range by lia. done.
  - simpl. apply lookup_insert_eq.
  - rewrite length_replicate. lia.
  - unfold load. simpl. rewrite lookup_insert_eq. unfold in_block.
    rewrite length_replicate.
    destruct (Z.leb_spec (rounded + 1) (Z.of_nat (Z.to_nat rounded))); [lia|].
    by rewrite andb_false_r.
Qed.

(** The Dreamcast variant of the same function asks for all chunks. *)
Lemma dreamcast_alloc_chunks_block size numChunks (w : heap * D) :
  0 < size ≤ INT_MAX → 0 < numChunks →
  let rounded := 32 * ((size + 31) / 32) in
  rounded * numChunks < 2 ^ 32 →
  (mem_grant (rounded * numChunks) w.2).1 = true →
  ∃ b chunks w' block,
    Dreamcast.Audio_AllocChunks size numChunks w = (0, chunks, w') ∧
    w'.1 !! b = Some block ∧
    Z.of_nat (length block) = rounded * numChunks.
Proof.
  intros Hsize Hnum rounded Hmax Hg. unfold INT_MAX in Hsize.
  assert (Hr : 0 < rounded < 2 ^ 32).
  { unfold rounded. pose proof (Z.mul_div_le (size + 31) 32).
    pose proof (Z.div_str_pos (size + 31) 32). lia. }
  unfold Dreamcast.Audio_AllocChunks, memalign. rewrite round_up_32 by lia. fold rounded.
  assert (Hn : to_uint32 1 * to_uint32 (to_uint32 (rounded * numChunks))
               = rounded * numChunks).
  { rewrite !to_uint32_in_range; rewrite ?to_uint32_in_range; nia. }
  destruct (Mem_TryAlloc_granted 1 (to_uint32 (rounded * numChunks)) w) as [Ha Hfresh];
    [by rewrite Hn|].
  rewrite Hn in Ha. rewrite Ha.
  eexists _, _, _, _. split_and!; [done|apply lookup_insert_eq|].
  rewrite length_replicate. nia.
Qed.

End Chunks.

(** ** Repeating a call *)

Lemma openal_poll_returns `{OpenAL.Driver D} (ctx : OpenAL.AudioContext) (d : D) :
  0 ≤ OpenAL.free ctx < Z.of_nat (length (OpenAL.freeIDs ctx)) →
  ∃ r ctx' d', OpenAL.Audio_Poll (ctx, d) = Ret (r, (ctx', d')).
Proof.
  intros Hfree. unfold OpenAL.Audio_Poll, OpenAL.poll_done, arr_set. unfold_m. simpl.
  assert (Hb : (0 <=? OpenAL.free ctx) && (OpenAL.free ctx <? Z.of_nat (length (OpenAL.freeIDs ctx)))
               = true) by (apply andb_true_iff; split; [apply Z.leb_le|apply Z.ltb_lt]; lia).
  rewrite Hb. repeat (case_match; simpl); eauto.
Qed.

Lemma winmm_setformat_twice `{Allocator D} `{WinMM.Driver D}
    (ctx : WinMM.AudioContext) (w : heap * D) channels sampleRate playbackRate res ctx' w' :
  WinMM.Audio_SetFormat channels sampleRate playbackRate (ctx, w) = Ret (res, (ctx', w')) →
  WinMM.Audio_SetFormat channels sampleRate playbackRate (ctx', w') = Ret (0, (ctx', w')).
Proof.
  intros Hfirst. apply winmm_setformat_same; revert Hfirst;
    unfold WinMM.Audio_SetFormat, WinMM.Audio_Reset; unfold_m; simpl; intros;
    repeat (case_match; simplify_eq/=; try done);
    match goal with
    | Hb : _ && _ = true |- _ => apply andb_true_iff in Hb as [?%Z.eqb_eq ?%Z.eqb_eq]; done
    end.
Qed.

Lemma opensles_setformat_twice `{OpenSLES.Driver D}
    (ctx : OpenSLES.AudioContext) (d : D) channels sampleRate playbackRate ctx' d' :
  OpenSLES.Audio_SetFormat channels sampleRate playbackRate (ctx, d) = Ret (0, (ctx', d')) →
  OpenSLES.channels ctx' = channels ∧ OpenSLES.sampleRate ctx' = sampleRate ∧
  OpenSLES.playerRate ctx' ≠ 0.
Proof.
  unfold OpenSLES.Audio_SetFormat.
  intros (c0 & s0 & [= <- <-] & Hk)%bind_Ret.
  apply bind_Ret in Hk as (res & [c1 d1] & Hre & Hk).
  destruct (Z.eqb_spec res 0) as [->|]; simpl in Hk; [|unfold_m; by simplify_eq].
  apply bind_Ret in Hk as (c2 & s2 & [= <- <-] & Hk). simpl in Hk.
  unfold OpenSLES.via in Hk.
  destruct (Z.eqb_spec (OpenSLES.playerRate c1) 0) as [|Hrate]; [done|].
  unfold call in Hk. injection Hk as _ <- _.
  split_and!; [| |done].
  all: revert Hre; destruct (Z.eqb_spec (OpenSLES.channels ctx) channels),
         (Z.eqb_spec (OpenSLES.sampleRate ctx) sampleRate); simpl;
       try (unfold_m; intros; by simplify_eq).
  all: unfold OpenSLES.RecreatePlayer, OpenSLES.Audio_Reset, OpenSLES.UpdateVolume,
         OpenSLES.via; unfold_m; simpl; intros;
       repeat (case_match; simplify_eq/=; try done).
Qed.

(** ** The concrete runs *)

Lemma openal_started_configured : OpenAL.configured (D := script) 2 openal_started.
Proof.
  apply (OpenAL.configured_queue (D := script) 2 openal_ready [] ex_chunk 8 0
           openal_started []).
  - apply (OpenAL.configured_init (D := script) 2 OpenAL.ctx_zero openal_init_script
             openal_ready []).
    + vm_compute. reflexivity.
    + done.
  - vm_compute. reflexivity.
Qed.

Lemma winmm_full_ctx_wf : WinMM.wf winmm_full_ctx.
Proof. split; [done|]. unfold AUDIO_MAX_BUFFERS. simpl. lia. Qed.

(** * The claims *)

(** C1 (amended).  With no free slot, [Audio_QueueChunk] answers
    ERR_INVALID_ARGUMENT.  On OpenAL the context and the driver are left as
    they were.  On WinMM the slots, the count and the format are left as they
    were; at volume 100 or more nothing changes at all, below that the chunk
    has already been copied to the scratch buffer, whose fields
    ([_tmpData], [_tmpSize]) change when it had to grow. *)
Theorem queue_chunk_without_free_slot :
  (∀ (D : Type) (HD : OpenAL.Driver D) (ctx : OpenAL.AudioContext) (d : D) chunk size,
     OpenAL.free ctx = 0 →
     OpenAL.Audio_QueueChunk chunk size (ctx, d) = Ret (ERR_INVALID_ARGUMENT, (ctx, d)))
  ∧
  (∀ (D : Type) (HA : Allocator D) (HW : WinMM.Driver D)
     (ctx : WinMM.AudioContext) (w : heap * D) chunk size,
     WinMM.wf ctx → WinMM.free_slots ctx = 0 →
     (100 ≤ WinMM.volume ctx →
        WinMM.Audio_QueueChunk chunk size (ctx, w) = Ret (ERR_INVALID_ARGUMENT, (ctx, w)))
     ∧ (∀ bytes, WinMM.volume ctx < 100 → 0 ≤ size < 2 ^ 32 →
          load w.1 chunk size = Ret bytes → WinMM.scratch_available ctx w chunk size →
          ∃ ctx' w',
            WinMM.Audio_QueueChunk chunk size (ctx, w)
              = Ret (ERR_INVALID_ARGUMENT, (ctx', w'))
            ∧ WinMM.tmp_frame ctx ctx')
     ∧ (∀ res ctx' w',
          WinMM.Audio_QueueChunk chunk size (ctx, w) = Ret (res, (ctx', w')) →
          res = ERR_INVALID_ARGUMENT ∧ WinMM.tmp_frame ctx ctx')).
Proof.
  split.
  - intros. by apply openal_queue_no_free.
  - intros D HA HW ctx w chunk size Hwf Hfree. split_and!.
    + intros Hvol.
      eapply winmm_queue_no_free; [done..|]. by apply winmm_adjust_loud.
    + intros bytes Hvol Hsize Hload Hscratch.
      destruct (winmm_adjust_scaled ctx w chunk size bytes)
        as (audio & ctx' & w' & out & Hadj & _); [done..|].
      exists ctx', w'. eapply winmm_queue_no_free; done.
    + intros res ctx' w' Hq.
      pose proof Hq as Hq'. unfold WinMM.Audio_QueueChunk in Hq'.
      apply bind_Ret in Hq' as (r & [c1 w1] & Hadj & _).
      destruct (winmm_queue_no_free ctx w chunk size r c1 w1) as [Hq1 Hframe]; [done..|].
      rewrite Hq1 in Hq. by simplify_eq.
Qed.

Lemma queue_chunk_without_free_slot_witness :
  ∃ ctx' w',
    WinMM.Audio_QueueChunk ex_chunk 8 (winmm_full_ctx, (winmm_full_heap, ([] : script)))
      = Ret (ERR_INVALID_ARGUMENT, (ctx', w'))
    ∧ WinMM.tmp_frame winmm_full_ctx ctx'.
Proof.
  destruct queue_chunk_without_free_slot as [_ Hwinmm].
  destruct (Hwinmm script _ _ winmm_full_ctx (winmm_full_heap, []) ex_chunk 8
              winmm_full_ctx_wf eq_refl) as (_ & Hquiet & _).
  apply (Hquiet [100; 0; 156; 255; 255; 127; 0; 128]).
  - simpl. lia.
  - lia.
  - reflexivity.
  - right. split_and!; [simpl; lia|reflexivity|].
    simpl. split_and!; [done|by eexists|]. by intros c [= <-].
Defined.

(** C1, the counterexample: the second chunk finds no free slot, the call
    answers ERR_INVALID_ARGUMENT, and the scratch buffer has moved from
    block 1 to block 2 and grown from 4 to 8 bytes. *)
Lemma queue_chunk_no_free_moves_scratch :
  ∃ after w',
    winmm_queue_twice
      = Ret ((0, winmm_full_ctx, ERR_INVALID_ARGUMENT, after), (after, w'))
    ∧ WinMM.free_slots winmm_full_ctx = 0
    ∧ WinMM._tmpSize winmm_full_ctx = 4 ∧ WinMM._tmpSize after = 8
    ∧ WinMM._tmpData winmm_full_ctx = Some (Addr 1 0)
    ∧ WinMM._tmpData after = Some (Addr 2 0).
Proof. eexists _, _. split_and!; [vm_compute; reflexivity|done..]. Qed.

(** C2 (amended).  On a configured context of [n] buffers, every
    [Audio_Poll] that answers success reports [inUse] with
    [free + inUse = n]: [free] is [ctx->free] on OpenAL and the number of
    headers marked done on WinMM. *)
Theorem poll_accounts_for_every_slot :
  (∀ (D : Type) (HD : OpenAL.Driver D) n (ctx : OpenAL.AudioContext) (d : D)
     inUse ctx' d',
     OpenAL.configured n ctx →
     OpenAL.Audio_Poll (ctx, d) = Ret ((0, inUse), (ctx', d')) →
     OpenAL.free ctx' + inUse = n)
  ∧
  (∀ (D : Type) (HA : Allocator D) (HW : WinMM.Driver D) n
     (ctx : WinMM.AudioContext) (w : heap * D) inUse ctx' w',
     WinMM.configured n ctx →
     WinMM.Audio_Poll (ctx, w) = Ret ((0, inUse), (ctx', w')) →
     WinMM.free_slots ctx' + inUse = n ∧ inUse = WinMM.in_flight_slots ctx').
Proof.
  split.
  - intros D HD n ctx d inUse ctx' d' [Hcount Hsrc]%openal_configured_inv Hpoll.
    apply openal_poll_inv in Hpoll as (_ & _ & Hok & _); [|done].
    destruct Hok as [_ ->]; [done|]. lia.
  - intros D HA HW n ctx w inUse ctx' w' [Hcount Hn]%winmm_configured_inv Hpoll.
    apply winmm_poll_spec in Hpoll as ((_ & Hc & _) & _ & _ & Hok).
    destruct Hok as [-> Hsum]; [done|lia|]. split; [|done]. lia.
Qed.

Lemma poll_accounts_for_every_slot_witness :
  ∃ ctx' d',
    OpenAL.Audio_Poll (openal_started, ([] : script)) = Ret ((0, 1), (ctx', d'))
    ∧ OpenAL.free ctx' + 1 = 2.
Proof.
  eexists _, _. split; [reflexivity|].
  apply (proj1 poll_accounts_for_every_slot script _ 2 openal_started [] 1 _ []).
  - apply openal_started_configured.
  - reflexivity.
Defined.

(** C2, the counterexample: one of two buffers is queued and the driver
    answers the poll with an error; the poll reports 0 in use while one
    slot only is free. *)
Lemma poll_error_reports_nothing_in_use :
  openal_poll_error
    = Ret ((OpenAL.AL_INVALID_OPERATION, 0, openal_started), (openal_started, []))
  ∧ OpenAL.configured (D := script) 2 openal_started
  ∧ OpenAL.free openal_started + 0 = 1.
Proof. split_and!; [reflexivity|apply openal_started_configured|done]. Qed.

(** [Audio_Poll] with a source, as a function of the driver's answers:
    [processed] is what it reports for AL_BUFFERS_PROCESSED, [handed] the
    buffer it hands back, [err1] and [err2] the error state after each. *)
Lemma openal_poll_exact `{OpenAL.Driver D} (ctx : OpenAL.AudioContext) (d : D) :
  OpenAL.source ctx ≠ 0 →
  0 ≤ OpenAL.free ctx < Z.of_nat (length (OpenAL.freeIDs ctx)) →
  let processed := OpenAL.alGetSourcei (OpenAL.source ctx) OpenAL.AL_BUFFERS_PROCESSED
                     (OpenAL.alGetError d).2 in
  let err1 := OpenAL.alGetError processed.2 in
  let handed := OpenAL.alSourceUnqueueBuffers (OpenAL.source ctx) err1.2 in
  let err2 := OpenAL.alGetError handed.2 in
  OpenAL.Audio_Poll (ctx, d)
  = if negb (err1.1 =? 0) then Ret ((err1.1, 0), (ctx, err1.2))
    else if processed.1 >? 0 then
      if negb (err2.1 =? 0) then Ret ((err2.1, 0), (ctx, err2.2))
      else Ret ((0, OpenAL.count ctx - (OpenAL.free ctx + 1)),
                (OpenAL.set_free (OpenAL.free ctx + 1)
                   (OpenAL.set_freeIDs
                      (<[Z.to_nat (OpenAL.free ctx) := handed.1]> (OpenAL.freeIDs ctx)) ctx),
                 err2.2))
    else Ret ((0, OpenAL.count ctx - OpenAL.free ctx), (ctx, err1.2)).
Proof.
  intros Hs Hfree processed err1 handed err2.
  unfold OpenAL.Audio_Poll, OpenAL.poll_done, arr_set. unfold_m. simpl.
  destruct (Z.eqb_spec (OpenAL.source ctx) 0); [done|]. simpl.
  fold processed. fold err1.
  destruct (err1.1 =? 0); simpl; [|done].
  destruct (processed.1 >? 0); simpl; [|done].
  fold handed. fold err2.
  destruct (err2.1 =? 0); simpl; [|done].
  destruct (Z.leb_spec 0 (OpenAL.free ctx)); [|lia].
  destruct (Z.ltb_spec (OpenAL.free ctx) (Z.of_nat (length (OpenAL.freeIDs ctx)))); [|lia].
  done.
Qed.

(** What a poll that comes back has done to the free list. *)
Lemma openal_poll_free_list `{OpenAL.Driver D} (ctx : OpenAL.AudioContext) (d : D)
    res inUse ctx' d' :
  OpenAL.source ctx ≠ 0 →
  OpenAL.Audio_Poll (ctx, d) = Ret ((res, inUse), (ctx', d')) →
  let processed := OpenAL.alGetSourcei (OpenAL.source ctx) OpenAL.AL_BUFFERS_PROCESSED
                     (OpenAL.alGetError d).2 in
  let handed := OpenAL.alSourceUnqueueBuffers (OpenAL.source ctx)
                  (OpenAL.alGetError processed.2).2 in
  (res = 0 →
     ctx' = (if processed.1 >? 0
             then OpenAL.set_free (OpenAL.free ctx + 1)
                    (OpenAL.set_freeIDs
                       (<[Z.to_nat (OpenAL.free ctx) := handed.1]> (OpenAL.freeIDs ctx)) ctx)
             else ctx)
     ∧ inUse = OpenAL.count ctx - OpenAL.free ctx')
  ∧ (res ≠ 0 → inUse = 0 ∧ ctx' = ctx).
Proof.
  intros Hs. unfold OpenAL.Audio_Poll, OpenAL.poll_done. unfold_m. simpl.
  case_eqb; [done|].
  case_eqb.
  2:{ intros [= <- <- <- <-]. repeat split; try done. }
  destruct (_ >? 0) eqn:Hp; simpl.
  - case_eqb.
    2:{ intros [= <- <- <- <-]. repeat split; try done. }
    unfold arr_set. destruct (_ && _) eqn:Hb; simpl; [|done].
    intros [= <- <- <- <-]. simpl. repeat split; try done.
  - intros [= <- <- <- <-]. simpl. repeat split; try done.
Qed.

(** C3 (amended).  [Audio_Poll] of OpenAL without a source answers success
    and 0 in use, and changes nothing.  With a source and room in [freeIDs]
    it always answers, and what it answers is given by the driver's answers:
    on an error, the error code, 0 in use and the context as it was; else,
    when the driver reports any buffer processed, it takes back one buffer,
    the one the driver hands over, writes it to [freeIDs[free]] and adds one
    to [free]; else it changes nothing; in both cases it reports
    [count - free].  Whatever is processed, a poll that comes back has taken
    back at most one buffer. *)
Theorem openal_poll_reclaims_at_most_one (D : Type) (HD : OpenAL.Driver D)
    (ctx : OpenAL.AudioContext) (d : D) :
  let processed := OpenAL.alGetSourcei (OpenAL.source ctx) OpenAL.AL_BUFFERS_PROCESSED
                     (OpenAL.alGetError d).2 in
  let err1 := OpenAL.alGetError processed.2 in
  let handed := OpenAL.alSourceUnqueueBuffers (OpenAL.source ctx) err1.2 in
  let err2 := OpenAL.alGetError handed.2 in
  let reclaimed :=
    OpenAL.set_free (OpenAL.free ctx + 1)
      (OpenAL.set_freeIDs
         (<[Z.to_nat (OpenAL.free ctx) := handed.1]> (OpenAL.freeIDs ctx)) ctx) in
  (OpenAL.source ctx = 0 → OpenAL.Audio_Poll (ctx, d) = Ret ((0, 0), (ctx, d)))
  ∧ (OpenAL.source ctx ≠ 0 →
     0 ≤ OpenAL.free ctx < Z.of_nat (length (OpenAL.freeIDs ctx)) →
     OpenAL.Audio_Poll (ctx, d)
     = if negb (err1.1 =? 0) then Ret ((err1.1, 0), (ctx, err1.2))
       else if processed.1 >? 0 then
         if negb (err2.1 =? 0) then Ret ((err2.1, 0), (ctx, err2.2))
         else Ret ((0, OpenAL.count ctx - (OpenAL.free ctx + 1)), (reclaimed, err2.2))
       else Ret ((0, OpenAL.count ctx - OpenAL.free ctx), (ctx, err1.2)))
  ∧ (∀ res inUse ctx' d',
       OpenAL.source ctx ≠ 0 →
       OpenAL.Audio_Poll (ctx, d) = Ret ((res, inUse), (ctx', d')) →
       (res = 0 →
          ctx' = (if processed.1 >? 0 then reclaimed else ctx)
          ∧ OpenAL.free ctx' = OpenAL.free ctx + (if processed.1 >? 0 then 1 else 0)
          ∧ inUse = OpenAL.count ctx - OpenAL.free ctx')
       ∧ (res ≠ 0 → inUse = 0 ∧ ctx' = ctx)).
Proof.
  cbv zeta. split_and!.
  - apply openal_poll_no_source.
  - apply openal_poll_exact.
  - intros res inUse ctx' d' Hsrc Hpoll.
    apply openal_poll_free_list in Hpoll as [Hok Herr]; [|done].
    split; [|done]. intros Hres. destruct (Hok Hres) as [-> ->].
    split_and!; [done| |done]. destruct (_ >? 0); simpl; lia.
Qed.

(** C3, run: one buffer of the context is queued and the driver reports
    two processed and hands buffer 102 back; the poll writes it to
    [freeIDs[1]], [free] becomes 2 and nothing is left in use. *)
Lemma openal_poll_reclaims_at_most_one_witness :
  OpenAL.Audio_Poll (openal_started, ([0; 2; 0; 102; 0] : script))
  = Ret ((0, 0),
         (OpenAL.set_free 2 (OpenAL.set_freeIDs [101; 102; 0; 0] openal_started), [])).
Proof.
  rewrite (proj1 (proj2 (openal_poll_reclaims_at_most_one script _ openal_started
                           [0; 2; 0; 102; 0]))).
  - reflexivity.
  - simpl. lia.
  - simpl. lia.
Defined.

(** C3, the counterexample: both buffers of the context are queued and the
    driver reports both processed; one poll takes back one of them and
    reports the other in use. *)
Lemma poll_leaves_a_processed_buffer :
  openal_two_processed
    = Ret ((0, 1, openal_after_reclaim), (openal_after_reclaim, []))
  ∧ OpenAL.count openal_after_reclaim = 2
  ∧ OpenAL.free openal_after_reclaim = 1.
Proof. split_and!; reflexivity. Qed.

(** C4 (the code departs from it).  Below volume 100, when the scratch
    buffer has to grow and the allocator gives NULL, [Audio_QueueChunk] of
    WinMM does not answer ERR_OUT_OF_MEMORY: the model faults, the C code
    copies the chunk to NULL. *)
Theorem queue_chunk_scratch_alloc_failure (D : Type) (HA : Allocator D) (HW : WinMM.Driver D)
    (ctx : WinMM.AudioContext) (h : heap) (d : D) chunk size :
  WinMM.volume ctx < 100 → 0 ≤ WinMM._tmpSize ctx < size →
  (∀ n, (mem_grant n d).1 = false) →
  WinMM.Audio_QueueChunk chunk size (ctx, (h, d)) = Fault.
Proof.
  intros Hvol Hsize Hdeny. unfold WinMM.Audio_QueueChunk.
  pose proof (winmm_adjust_out_of_memory ctx h d chunk size Hvol Hsize Hdeny) as Hadj.
  unfold mbind, M_bind, m_bind. by rewrite Hadj.
Qed.

Lemma queue_chunk_scratch_alloc_failure_witness :
  WinMM.Audio_QueueChunk ex_chunk 8 (winmm_idle_ctx, (ex_heap, ([1] : script))) = Fault.
Proof.
  apply queue_chunk_scratch_alloc_failure.
  - simpl. lia.
  - simpl. lia.
  - intros n. reflexivity.
Defined.

(** C5.  The volume kernel computes [sample * volume / 100], truncating,
    for every 16-bit sample and volume in 0..100: the quotient is a 16-bit
    value, so the store loses nothing, and it is 0 at volume 0.  At volume
    100 or more [AudioBase_AdjustSound] hands the caller's pointer back and
    touches neither the context nor the heap; below that the scratch buffer
    holds the scaled samples of the chunk. *)
Theorem volume_scaling :
  (∀ samples v,
     Forall is_int16 samples → 0 ≤ v ≤ 100 →
     ApplyVolume samples (Z.of_nat (length samples)) v = (λ s, (s * v) ÷ 100) <$> samples
     ∧ Forall is_int16 (ApplyVolume samples (Z.of_nat (length samples)) v)
     ∧ (v = 0 → Forall (λ s, s = 0) (ApplyVolume samples (Z.of_nat (length samples)) v)))
  ∧
  (∀ (D : Type) (HA : Allocator D) (HW : WinMM.Driver D)
     (ctx : WinMM.AudioContext) (w : heap * D) data size,
     100 ≤ WinMM.volume ctx →
     WinMM.AudioBase_AdjustSound data size (ctx, w) = Ret ((true, data, size), (ctx, w)))
  ∧
  (∀ (D : Type) (HA : Allocator D) (HW : WinMM.Driver D)
     (ctx : WinMM.AudioContext) (w : heap * D) chunk size bytes,
     0 ≤ WinMM.volume ctx < 100 → 0 ≤ size < 2 ^ 32 →
     load w.1 chunk size = Ret bytes →
     WinMM.scratch_available ctx w chunk size →
     ∃ audio ctx' w' out,
       WinMM.AudioBase_AdjustSound (Some chunk) size (ctx, w)
         = Ret ((true, Some audio, size), (ctx', w'))
       ∧ load w'.1 audio size = Ret out
       ∧ samples_of_bytes out
         = (λ s, (s * WinMM.volume ctx) ÷ 100) <$> samples_of_bytes bytes
       ∧ (WinMM.volume ctx = 0 → Forall (λ s, s = 0) (samples_of_bytes out))).
Proof.
  assert (Hexact : ∀ samples v, Forall is_int16 samples → 0 ≤ v ≤ 100 →
            (λ s, scale_sample s v) <$> samples = (λ s, (s * v) ÷ 100) <$> samples).
  { intros samples v Hs Hv. apply list_fmap_ext. intros i s Hi.
    eapply Forall_lookup_1 in Hs; [|done]. by apply scale_sample_exact. }
  assert (Hfit : ∀ samples v, Forall is_int16 samples → 0 ≤ v ≤ 100 →
            Forall is_int16 ((λ s, (s * v) ÷ 100) <$> samples)).
  { intros samples v Hs Hv. apply Forall_fmap. eapply Forall_impl; [done|].
    intros s Hi. simpl. by apply scale_sample_exact. }
  assert (Hmute : ∀ samples : list Z, Forall (λ s, s = 0) ((λ s, (s * 0) ÷ 100) <$> samples)).
  { intros samples. apply Forall_fmap, Forall_true. intros s. simpl.
    by rewrite Z.mul_0_r. }
  split_and!.
  - intros samples v Hs Hv. rewrite ApplyVolume_all, Hexact by done.
    split_and!; [done|by apply Hfit|]. intros ->. apply Hmute.
  - intros. by apply winmm_adjust_loud.
  - intros D HA HW ctx w chunk size bytes Hvol Hsize Hload Hscratch.
    destruct (winmm_adjust_scaled ctx w chunk size bytes)
      as (audio & ctx' & w' & out & Hadj & _ & Hout & Hs & _); [lia|done..|].
    exists audio, ctx', w', out. rewrite Hs, Hexact by (apply samples_of_bytes_int16 || lia).
    split_and!; [done..|]. intros ->. apply Hmute.
Qed.

Lemma volume_scaling_witness :
  ∃ audio ctx' w' out,
    WinMM.AudioBase_AdjustSound (Some ex_chunk) 8 (winmm_idle_ctx, (ex_heap, ([] : script)))
      = Ret ((true, Some audio, 8), (ctx', w'))
    ∧ load w'.1 audio 8 = Ret out
    ∧ samples_of_bytes out = [50; -50; 16383; -16384]
    ∧ (WinMM.volume winmm_idle_ctx = 0 → Forall (λ s, s = 0) (samples_of_bytes out)).
Proof.
  apply (proj2 (proj2 volume_scaling) script _ _ winmm_idle_ctx (ex_heap, []) ex_chunk 8
           [100; 0; 156; 255; 255; 127; 0; 128]).
  - simpl. lia.
  - lia.
  - reflexivity.
  - right. split_and!; [simpl; lia|reflexivity|done].
Defined.

(** ** The pool under contention: what the scans do with busy contexts *)

(** A loop whose every turn falls through. *)
Lemma for_loop_steps {St R} (P : Z → St → Prop) (body : Z → M St (option R)) lim :
  (∀ i s, 0 ≤ i < lim → P i s → ∃ s', body i s = Ret (None, s') ∧ P (i + 1) s') →
  ∀ fuel i s, 0 ≤ i ≤ lim → (Z.to_nat (lim - i) ≤ fuel)%nat → P i s →
    ∃ s', for_loop fuel i lim body s = Ret (None, s') ∧ P lim s'.
Proof.
  intros Hbody. induction fuel as [|fuel IH]; intros i s Hi Hfuel HP; simpl.
  - exists s. split; [done|]. by replace lim with i by lia.
  - destruct (Z.ltb_spec i lim) as [Hlt|Hge].
    + destruct (Hbody i s) as (s1 & Hb & HP1); [lia|done|].
      unfold mbind, M_bind, m_bind. rewrite Hb. apply IH; [lia|lia|done].
    + exists s. split; [done|]. by replace lim with i by lia.
Qed.

Section Pool_contention.
Context {C W : Type} `{Pool.Backend C W}.
Context {F : Type} (fmt : C → F).
Context (busy : C → Prop) (calm : W → Prop).

(** The environment of a pool under contention: a busy context is in use,
    and polling it in a calm world answers 0 with buffers in use and
    leaves it busy and the world calm. *)
#[local] Abbreviation contended :=
  (∀ c w, busy c → calm w →
     Pool.count c ≠ 0 ∧
     ∃ inUse c' w', Pool.Audio_Poll (c, w) = Ret ((0, inUse), (c', w')) ∧
                    0 < inUse ∧ busy c' ∧ calm w').

(** What a scan keeps, and what it has recorded after [k] polls. *)
#[local] Abbreviation scanning s0 k s :=
  (length (Pool.context_pool s) = length (Pool.context_pool s0) ∧
   Forall busy (Pool.context_pool s) ∧ calm (Pool.world s) ∧
   fmt <$> Pool.context_pool s = fmt <$> Pool.context_pool s0 ∧
   ∃ new, Pool.calls s = Pool.calls s0 ++ new ∧
          forallb Pool.is_poll new = true ∧ forallb Pool.poll_in_use new = true ∧
          count_if Pool.is_poll new = k).

Lemma pool_busy_poll i (s0 s : Pool.pool C W) k :
  contended → Pool.poll_keeps fmt →
  0 ≤ i < Z.of_nat (length (Pool.context_pool s)) → scanning s0 k s →
  ∃ c inUse s',
    Pool.context_pool s !! Z.to_nat i = Some c ∧ Pool.count c ≠ 0 ∧
    Pool.pool_Poll i s = Ret ((0, inUse), s') ∧ 0 < inUse ∧ scanning s0 (k + 1) s'.
Proof.
  intros Henv Hkeep Hi (Hlen & Hbusy & Hcalm & Hfmt & new & Hcalls & Hp & Hu & Hk).
  destruct (lookup_lt_is_Some_2 (Pool.context_pool s) (Z.to_nat i)) as [c Hc]; [lia|].
  pose proof (proj1 (Forall_lookup _ _) Hbusy _ _ Hc) as Hbc.
  destruct (Henv c (Pool.world s) Hbc Hcalm) as (Hcount & u & c' & w' & Hpoll & Hpos & Hbc' & Hcw').
  exists c, u. eexists. split; [done|]. split; [done|].
  split.
  { unfold Pool.pool_Poll, Pool.on_ctx, Pool.record, arr_get. unfold_m. simpl.
    destruct (Z.leb_spec 0 i); [|lia]. rewrite Hc. rewrite Hpoll. reflexivity. }
  split; [done|]. simpl. split_and!.
  - by rewrite length_insert.
  - apply Forall_insert; done.
  - done.
  - rewrite <- Hfmt. eapply fmap_insert_same; [done|]. by eapply Hkeep.
  - exists (new ++ [Pool.CallPoll i 0 u]). rewrite Hcalls, <- app_assoc.
    split; [done|]. rewrite !forallb_app, Hp, Hu, count_if_app, Hk. simpl.
    destruct (Z.gtb_spec u 0); [|lia]. split_and!; [done|done|lia].
Qed.

Lemma pool_busy_pass1 data i (s0 s : Pool.pool C W) k :
  contended → Pool.poll_keeps fmt →
  0 ≤ i < Z.of_nat (length (Pool.context_pool s)) → scanning s0 k s →
  ∃ s', Pool.pass1_body data i s = Ret (None, s') ∧ scanning s0 (k + 1) s'.
Proof.
  intros Henv Hkeep Hi Hscan.
  destruct (pool_busy_poll i s0 s k Henv Hkeep Hi Hscan)
    as (c & u & s' & Hc & Hcount & Hpoll & Hpos & Hscan').
  exists s'. split; [|done].
  unfold Pool.pass1_body. unfold mbind at 1, M_bind, m_bind.
  unfold Pool.ctx_at at 1, arr_get. destruct (Z.leb_spec 0 i); [|lia]. rewrite Hc.
  destruct (Z.eqb_spec (Pool.count c) 0); [done|].
  unfold mbind at 1, M_bind, m_bind. unfold mret at 1, M_ret, m_ret. simpl.
  unfold mbind at 1, M_bind, m_bind. rewrite Hpoll. simpl.
  destruct (Z.gtb_spec u 0); [done|lia].
Qed.

Lemma pool_busy_pass2 data i (s0 s : Pool.pool C W) k :
  contended → Pool.poll_keeps fmt →
  0 ≤ i < Z.of_nat (length (Pool.context_pool s)) → scanning s0 k s →
  ∃ s', Pool.pass2_body data i s = Ret (None, s') ∧ scanning s0 (k + 1) s'.
Proof.
  intros Henv Hkeep Hi Hscan.
  destruct (pool_busy_poll i s0 s k Henv Hkeep Hi Hscan)
    as (c & u & s' & Hc & Hcount & Hpoll & Hpos & Hscan').
  exists s'. split; [|done].
  unfold Pool.pass2_body. unfold mbind at 1, M_bind, m_bind. rewrite Hpoll. simpl.
  destruct (Z.gtb_spec u 0); [done|lia].
Qed.

(** With every context busy both scans poll all the contexts and take
    none: the answer is 0 and the polls are all that happened. *)
Lemma pool_contended_drops data (s : Pool.pool C W) :
  Z.of_nat (length (Pool.context_pool s)) = Pool.POOL_MAX_CONTEXTS →
  contended → Pool.poll_keeps fmt →
  Forall busy (Pool.context_pool s) → calm (Pool.world s) →
  ∃ s' new,
    Pool.AudioPool_Play data s = Ret (0, s') ∧
    Pool.calls s' = Pool.calls s ++ new ∧
    forallb Pool.is_poll new = true ∧ forallb Pool.poll_in_use new = true ∧
    count_if Pool.is_poll new = 2 * Pool.POOL_MAX_CONTEXTS ∧
    fmt <$> Pool.context_pool s' = fmt <$> Pool.context_pool s ∧
    Forall busy (Pool.context_pool s') ∧ calm (Pool.world s').
Proof.
  intros Hlen Henv Hkeep Hbusy Hcalm. unfold Pool.POOL_MAX_CONTEXTS in *.
  assert (Hstart : scanning s 0 s).
  { split_and!; try done. exists []. by rewrite app_nil_r. }
  destruct (for_loop_steps (λ i s1, scanning s i s1) (Pool.pass1_body data) 8)
    with (fuel := Z.to_nat (8 - 0)) (i := 0) (s := s) as (s1 & Hrun1 & Hscan1);
    [|lia|lia|done|].
  { intros i s1 Hi Hs1. apply pool_busy_pass1; [done|done| |done].
    destruct Hs1 as (-> & _). lia. }
  destruct (for_loop_steps (λ i s2, scanning s (8 + i) s2) (Pool.pass2_body data) 8)
    with (fuel := Z.to_nat (8 - 0)) (i := 0) (s := s1) as (s2 & Hrun2 & Hscan2);
    [|lia|lia|by rewrite Z.add_0_r|].
  { intros i s2 Hi Hs2. rewrite Z.add_assoc. apply pool_busy_pass2; [done|done| |done].
    destruct Hs2 as (-> & _). lia. }
  destruct Hscan2 as (_ & Hb2 & Hc2 & Hf2 & new & Hcalls & Hp & Hu & Hk).
  exists s2, new. split_and!; try done.
  unfold Pool.AudioPool_Play, for_range. unfold mbind, M_bind, m_bind.
  unfold Pool.POOL_MAX_CONTEXTS. rewrite Hrun1, Hrun2. done.
Qed.

End Pool_contention.



(** C7 (amended).  [Audio_SetFormat] with the format the context already
    has recreates nothing.  On WinMM it answers 0 and touches neither the
    context nor the driver, also right after any call with the same
    arguments.  On OpenSL ES the player stays and the one native call made
    is SetRate, whose result is the answer. *)
Theorem setformat_same_format :
  (∀ (D : Type) (HA : Allocator D) (HW : WinMM.Driver D)
     (ctx : WinMM.AudioContext) (w : heap * D) channels sampleRate playbackRate,
     WinMM.channels ctx = channels →
     WinMM.sampleRate ctx = Audio_AdjustSampleRate sampleRate playbackRate →
     WinMM.Audio_SetFormat channels sampleRate playbackRate (ctx, w) = Ret (0, (ctx, w)))
  ∧
  (∀ (D : Type) (HA : Allocator D) (HW : WinMM.Driver D)
     (ctx : WinMM.AudioContext) (w : heap * D) channels sampleRate playbackRate
     res ctx' w',
     WinMM.Audio_SetFormat channels sampleRate playbackRate (ctx, w) = Ret (res, (ctx', w')) →
     WinMM.Audio_SetFormat channels sampleRate playbackRate (ctx', w') = Ret (0, (ctx', w')))
  ∧
  (∀ (D : Type) (HS : OpenSLES.Driver D)
     (ctx : OpenSLES.AudioContext) (d : D) channels sampleRate playbackRate,
     OpenSLES.channels ctx = channels → OpenSLES.sampleRate ctx = sampleRate →
     OpenSLES.playerRate ctx ≠ 0 →
     let rate := to_int16 (to_int32 (playbackRate * 10)) in
     OpenSLES.Audio_SetFormat channels sampleRate playbackRate (ctx, d)
     = Ret ((OpenSLES.SetRate (OpenSLES.playerRate ctx) rate d).1,
            (ctx, (OpenSLES.SetRate (OpenSLES.playerRate ctx) rate d).2)))
  ∧
  (∀ (D : Type) (HS : OpenSLES.Driver D)
     (ctx : OpenSLES.AudioContext) (d : D) channels sampleRate playbackRate ctx' d',
     OpenSLES.Audio_SetFormat channels sampleRate playbackRate (ctx, d) = Ret (0, (ctx', d')) →
     let rate := to_int16 (to_int32 (playbackRate * 10)) in
     OpenSLES.Audio_SetFormat channels sampleRate playbackRate (ctx', d')
     = Ret ((OpenSLES.SetRate (OpenSLES.playerRate ctx') rate d').1,
            (ctx', (OpenSLES.SetRate (OpenSLES.playerRate ctx') rate d').2))).
Proof.
  split_and!.
  - intros. by apply winmm_setformat_same.
  - intros. by eapply winmm_setformat_twice.
  - intros. by apply opensles_setformat_same.
  - intros D HS ctx d channels sampleRate playbackRate ctx' d'
      (? & ? & ?)%opensles_setformat_twice.
    by apply opensles_setformat_same.
Qed.

Lemma setformat_same_format_witness :
  WinMM.Audio_SetFormat 1 44100 100 (winmm_full_ctx, (winmm_full_heap, ([] : script)))
  = Ret (0, (winmm_full_ctx, (winmm_full_heap, []))).
Proof.
  apply (proj1 setformat_same_format script _ _ winmm_full_ctx (winmm_full_heap, [])
           1 44100 100); reflexivity.
Defined.

(** C7, the counterexample: the format is set twice to the same values on
    OpenSL ES; the second call keeps the player and answers 13, the result
    of its SetRate. *)
Lemma setformat_same_format_can_fail :
  opensles_same_format
    = Ret ((0, opensles_playing, 13, opensles_playing), (opensles_playing, [])).
Proof. reflexivity. Qed.

(** C8.  [Audio_SetFormat] of OpenAL stores
    [sampleRate * playbackRate / 100] (the product within [int], the
    division truncating) as the rate of the context. *)
Theorem setformat_effective_rate (D : Type) (HD : OpenAL.Driver D)
    (ctx : OpenAL.AudioContext) (d : D) channels sampleRate playbackRate :
  INT_MIN ≤ sampleRate * playbackRate ≤ INT_MAX →
  ∃ res ctx',
    OpenAL.Audio_SetFormat channels sampleRate playbackRate (ctx, d) = Ret (res, (ctx', d))
    ∧ OpenAL.sampleRate ctx' = (sampleRate * playbackRate) ÷ 100
    ∧ (res = 0 ↔ channels = 1 ∨ channels = 2).
Proof.
  intros Hrange.
  destruct (openal_setformat ctx d channels sampleRate playbackRate)
    as (res & ctx' & Hset & Hrate & Hres).
  rewrite Audio_AdjustSampleRate_in_range in Hrate by done.
  by exists res, ctx'.
Qed.

Lemma setformat_effective_rate_witness :
  ∃ res ctx',
    OpenAL.Audio_SetFormat 2 22050 150 (OpenAL.ctx_zero, ([] : script)) = Ret (res, (ctx', []))
    ∧ OpenAL.sampleRate ctx' = 33075
    ∧ (res = 0 ↔ 2 = 1 ∨ 2 = 2).
Proof.
  apply (setformat_effective_rate script _ OpenAL.ctx_zero [] 2 22050 150).
  unfold INT_MIN, INT_MAX. lia.
Defined.

(** C9 (the code departs from it).  [Audio_AllocChunks] of the GC/Wii
    backend asks for the rounded size of one chunk: with two chunks or more
    the block it gets is as long as one chunk, and the second pointer
    stands at its end. *)
Theorem gcwii_alloc_chunks_too_small (D : Type) (HA : Allocator D)
    size numChunks (w : heap * D) :
  0 < size ≤ INT_MAX → 2 ≤ numChunks →
  let rounded := 32 * ((size + 31) / 32) in
  (mem_grant rounded w.2).1 = true →
  ∃ b chunks w' block,
    GCWii.Audio_AllocChunks size numChunks w = (0, chunks, w') ∧
    chunks !! 0%nat = Some (Some (Addr b 0)) ∧
    chunks !! 1%nat = Some (Some (Addr b rounded)) ∧
    w'.1 !! b = Some block ∧ Z.of_nat (length block) = rounded ∧
    load w'.1 (Some (Addr b rounded)) 1 = Fault.
Proof. apply gcwii_alloc_chunks_one_block. Qed.

Lemma gcwii_alloc_chunks_too_small_witness :
  ∃ b chunks w' block,
    GCWii.Audio_AllocChunks 100 4 (ex_heap, ([] : script)) = (0, chunks, w') ∧
    chunks !! 0%nat = Some (Some (Addr b 0)) ∧
    chunks !! 1%nat = Some (Some (Addr b 128)) ∧
    w'.1 !! b = Some block ∧ Z.of_nat (length block) = 128 ∧
    load w'.1 (Some (Addr b 128)) 1 = Fault.
Proof.
  apply (gcwii_alloc_chunks_too_small script _ 100 4 (ex_heap, [])).
  - unfold INT_MAX. lia.
  - lia.
  - reflexivity.
Defined.

(** C10.  A failed [Audio_Init] or [Audio_Poll] is the last backend call
    [AudioPool_Play] makes: no context is looked at after it, the answer is
    its result code, and no call before it played or queued anything. *)
Theorem pool_play_stops_at_first_error {C W : Type} (HB : Pool.Backend C W)
    data (s s' : Pool.pool C W) res pre e post :
  Pool.AudioPool_Play data s = Ret (res, s') →
  Pool.calls s' = Pool.calls s ++ pre ++ e :: post →
  Pool.call_failed e = true →
  post = [] ∧ res = Pool.call_res e ∧ forallb (λ e', negb (Pool.is_play e')) pre = true.
Proof. apply (pool_error_stops (λ _, tt)). Qed.

Lemma pool_play_stops_at_first_error_witness :
  ([] : list Pool.call_record) = [] ∧ 5 = Pool.call_res (Pool.CallPoll 2 5 0) ∧
  forallb (λ e', negb (Pool.is_play e')) [Pool.CallPoll 0 0 1; Pool.CallPoll 1 0 1] = true.
Proof.
  apply (pool_play_stops_at_first_error _ ex_data failing_pool
           {| Pool.context_pool := Pool.context_pool failing_pool;
              Pool.world := (ex_heap, []);
              Pool.calls := [Pool.CallPoll 0 0 1; Pool.CallPoll 1 0 1; Pool.CallPoll 2 5 0] |}
           5 [Pool.CallPoll 0 0 1; Pool.CallPoll 1 0 1] (Pool.CallPoll 2 5 0) []).
  - vm_compute. reflexivity.
  - reflexivity.
  - reflexivity.
Defined.

(** A failed lazy [Audio_Init] of the first scan, run: the first context
    is unused, its initialisation answers 5, and that is the one call made. *)
Lemma pool_init_failure_run :
  ∃ s', Pool.AudioPool_Play ex_data unused_pool = Ret (5, s')
        ∧ Pool.calls s' = [Pool.CallInit 0 5].
Proof. eexists. split; [vm_compute; reflexivity|done]. Qed.

(** * Further properties of the code *)

(** ** Loops and counting *)

Lemma for_loop_none {St R} (body : Z → M St (option R)) lim (s : St) :
  ∀ fuel i,
    (∀ j, i ≤ j < lim → body j s = Ret (None, s)) →
    for_loop fuel i lim body s = Ret (None, s).
Proof.
  induction fuel as [|fuel IH]; intros i Hskip; simpl; [done|].
  destruct (Z.ltb_spec i lim); [|done].
  unfold mbind, M_bind, m_bind. rewrite Hskip by lia.
  apply IH. intros j Hj. apply Hskip. lia.
Qed.

Lemma for_loop_first {St R} (body : Z → M St (option R)) lim j (s : St) r s' :
  ∀ fuel i,
    i ≤ j < lim → (Z.to_nat (lim - i) ≤ fuel)%nat →
    (∀ k, i ≤ k < j → body k s = Ret (None, s)) →
    body j s = Ret (Some r, s') →
    for_loop fuel i lim body s = Ret (Some r, s').
Proof.
  induction fuel as [|fuel IH]; intros i Hj Hfuel Hskip Hhit; simpl; [lia|].
  destruct (Z.ltb_spec i lim); [|lia].
  unfold mbind, M_bind, m_bind.
  destruct (decide (i = j)) as [->|Hne].
  - by rewrite Hhit.
  - rewrite Hskip by lia. apply IH; [lia|lia| |done].
    intros k Hk. apply Hskip. lia.
Qed.

(** The first element of a list that satisfies [p], when one does. *)
Lemma count_if_first {A} (p : A → bool) (l : list A) :
  0 < count_if p l →
  ∃ j x, l !! j = Some x ∧ p x = true ∧
         ∀ i y, (i < j)%nat → l !! i = Some y → p y = false.
Proof.
  induction l as [|a l IH]; simpl; [lia|].
  destruct (p a) eqn:Hpa.
  - intros _. exists 0%nat, a. split_and!; [done..|]. intros i y Hi. lia.
  - intros Hpos. destruct IH as (j & x & Hj & Hx & Hmin); [lia|].
    exists (S j), x. split_and!; [done..|].
    intros [|i] y Hi; simpl; [by intros [= <-]|]. apply Hmin. lia.
Qed.

Lemma count_if_insert {A} (p : A → bool) (l : list A) j x y :
  l !! j = Some x →
  count_if p (<[j := y]> l)
  = count_if p l - (if p x then 1 else 0) + (if p y then 1 else 0).
Proof.
  revert j. induction l as [|a l IH]; intros [|j]; simpl; try done.
  - intros [= ->]. lia.
  - intros Hj. rewrite (IH j Hj). lia.
Qed.

Lemma count_if_ext {A} (p q : A → bool) (l : list A) :
  (∀ x, p x = q x) → count_if p l = count_if q l.
Proof. intros Hpq. induction l as [|a l IH]; simpl; [done|]. by rewrite Hpq, IH. Qed.

Lemma count_if_all {A} (p : A → bool) (l : list A) :
  (∀ i x, l !! i = Some x → p x = true) → count_if p l = Z.of_nat (length l).
Proof.
  induction l as [|a l IH]; simpl; intros Hall; [done|].
  rewrite (Hall 0%nat a eq_refl), IH; [lia|]. intros i x. apply (Hall (S i)).
Qed.

Lemma count_if_drop_S {A} (p : A → bool) (l : list A) i x :
  l !! i = Some x →
  count_if p (drop i l) = (if p x then 1 else 0) + count_if p (drop (S i) l).
Proof.
  revert i. induction l as [|a l IH]; intros [|i]; simpl; try done.
  - by intros [= ->].
  - apply IH.
Qed.

(** ** GC/Wii: the buffers of a context *)

Section GCWii_facts.
Context {D : Type} `{GCWii.Driver D}.

#[local] Abbreviation gst := (GCWii.AudioContext * D)%type.

Lemma gcwii_slots_sum (c : GCWii.AudioContext) :
  GCWii.wf c → GCWii.available_slots c + GCWii.in_use_slots c = GCWii.count c.
Proof.
  intros [Hlen Hcount]. unfold GCWii.available_slots, GCWii.in_use_slots.
  rewrite Z.add_comm.
  rewrite (count_if_split (λ b, GCWii.available b =? 0)).
  rewrite length_take, Hlen. unfold AUDIO_MAX_BUFFERS in *. lia.
Qed.

Lemma gcwii_mark_available i (s : gst) :
  0 ≤ i < Z.of_nat (length (GCWii.bufs s.1)) →
  ∃ b, GCWii.bufs s.1 !! Z.to_nat i = Some b ∧
    GCWii.mark_available i s
    = Ret (tt, (GCWii.set_bufs (<[Z.to_nat i := GCWii.set_available 1 b]> (GCWii.bufs s.1)) s.1,
                s.2)).
Proof.
  intros Hi. destruct (lookup_lt_is_Some_2 (GCWii.bufs s.1) (Z.to_nat i)) as [b Hb]; [lia|].
  exists b. split; [done|].
  unfold GCWii.mark_available, arr_get, arr_set. unfold_m. simpl.
  destruct (Z.leb_spec 0 i); [|lia]. rewrite Hb. simpl.
  destruct (Z.ltb_spec i (Z.of_nat (length (GCWii.bufs s.1)))); [|lia]. done.
Qed.

(** [Audio_Poll]'s loop from slot [i] on. *)
Lemma gcwii_poll_loop (ctx : GCWii.AudioContext) (d : D) fuel : ∀ i n,
  0 ≤ i → (Z.to_nat (GCWii.count ctx - i) ≤ fuel)%nat →
  GCWii.count ctx ≤ Z.of_nat (length (GCWii.bufs ctx)) →
  for_acc fuel i (GCWii.count ctx) GCWii.poll_slot n (ctx, d)
  = Ret (n + count_if (λ b, GCWii.available b =? 0)
               (drop (Z.to_nat i) (take (Z.to_nat (GCWii.count ctx)) (GCWii.bufs ctx))),
         (ctx, d)).
Proof.
  induction fuel as [|fuel IH]; intros i n Hi Hfuel Hlen; simpl.
  - unfold_m. rewrite drop_ge by (rewrite length_take; lia). simpl. by rewrite Z.add_0_r.
  - destruct (Z.ltb_spec i (GCWii.count ctx)).
    + destruct (lookup_lt_is_Some_2 (GCWii.bufs ctx) (Z.to_nat i)) as [b Hb]; [lia|].
      unfold mbind, M_bind, m_bind at 1.
      assert (Hslot : GCWii.poll_slot i n (ctx, d)
                = Ret ((if GCWii.available b =? 0 then n + 1 else n, false), (ctx, d))).
      { unfold GCWii.poll_slot, arr_get. unfold_m. simpl.
        destruct (Z.leb_spec 0 i); [|lia]. by rewrite Hb. }
      rewrite Hslot. rewrite IH by lia.
      rewrite (count_if_drop_S _ _ (Z.to_nat i) b)
        by (rewrite lookup_take_lt by lia; done).
      replace (Z.to_nat (i + 1)) with (S (Z.to_nat i)) by lia.
      do 2 f_equal. destruct (GCWii.available b =? 0); lia.
    + unfold_m. rewrite drop_ge by (rewrite length_take; lia). simpl. by rewrite Z.add_0_r.
Qed.

Lemma gcwii_poll (ctx : GCWii.AudioContext) (d : D) :
  0 ≤ GCWii.count ctx ≤ Z.of_nat (length (GCWii.bufs ctx)) →
  GCWii.Audio_Poll (ctx, d) = Ret ((0, GCWii.in_use_slots ctx), (ctx, d)).
Proof.
  intros Hc. unfold GCWii.Audio_Poll.
  unfold mbind, M_bind, m_bind, getctx. simpl.
  rewrite gcwii_poll_loop by lia. simpl. unfold_m.
  by rewrite drop_0.
Qed.

(** A slot that is taken is skipped by the loop of [Audio_QueueChunk]. *)
Lemma gcwii_queue_slot_skip chunk dataSize i (s : gst) b :
  0 ≤ i → GCWii.bufs s.1 !! Z.to_nat i = Some b → GCWii.available b = 0 →
  GCWii.queue_slot chunk dataSize i s = Ret (None, s).
Proof.
  intros Hi Hb Hav. unfold GCWii.queue_slot, arr_get. unfold_m.
  destruct (Z.leb_spec 0 i); [|lia]. rewrite Hb. simpl. rewrite Hav. simpl.
  by destruct s.
Qed.

Lemma gcwii_queue_slot_take chunk dataSize i (s : gst) b :
  0 ≤ i → GCWii.bufs s.1 !! Z.to_nat i = Some b → GCWii.available b ≠ 0 →
  GCWii.queue_slot chunk dataSize i s
  = Ret (Some 0,
         (GCWii.set_bufs
            (<[Z.to_nat i := {| GCWii.available := 0; GCWii.size := to_int32 dataSize;
                                GCWii.samples := chunk |}]> (GCWii.bufs s.1)) s.1,
          s.2)).
Proof.
  intros Hi Hb Hav. unfold GCWii.queue_slot, arr_get, arr_set. unfold_m.
  destruct (Z.leb_spec 0 i); [|lia]. rewrite Hb. simpl.
  destruct (Z.eqb_spec (GCWii.available b) 0); [done|]. simpl.
  apply lookup_lt_Some in Hb.
  destruct (Z.ltb_spec i (Z.of_nat (length (GCWii.bufs s.1)))); [|lia]. done.
Qed.

Lemma gcwii_queue_unfold chunk dataSize (ctx : GCWii.AudioContext) (d : D) :
  GCWii.Audio_QueueChunk chunk dataSize (ctx, d)
  = match for_range 0 (GCWii.count ctx) (GCWii.queue_slot chunk dataSize)
            (ctx, GCWii.logged chunk d) with
    | Ret (Some res, s) => Ret (res, s)
    | Ret (None, s) => Ret (ERR_INVALID_ARGUMENT, s)
    | Fault => Fault
    end.
Proof.
  unfold GCWii.Audio_QueueChunk, GCWii.logged. unfold_m. simpl.
  destruct (negb _); simpl; destruct (for_range _ _ _ _) as [[[r|] s]|]; done.
Qed.

Lemma gcwii_queue_full chunk dataSize (ctx : GCWii.AudioContext) (d : D) :
  GCWii.wf ctx → GCWii.available_slots ctx = 0 →
  GCWii.Audio_QueueChunk chunk dataSize (ctx, d)
  = Ret (ERR_INVALID_ARGUMENT, (ctx, GCWii.logged chunk d)).
Proof.
  intros [Hlen Hcount] Hfull. rewrite gcwii_queue_unfold. unfold for_range.
  rewrite for_loop_none; [done|].
  intros j Hj. unfold AUDIO_MAX_BUFFERS in *.
  destruct (lookup_lt_is_Some_2 (GCWii.bufs ctx) (Z.to_nat j)) as [b Hb]; [lia|].
  apply (gcwii_queue_slot_skip _ _ _ _ b); [lia|done|].
  unfold GCWii.available_slots in Hfull.
  eapply (count_if_zero (λ b, negb (GCWii.available b =? 0)) _ (Z.to_nat j) b) in Hfull;
    [|by rewrite lookup_take_lt by lia].
  simpl in Hfull. apply negb_false_iff in Hfull. by apply Z.eqb_eq.
Qed.

Lemma gcwii_queue_free chunk dataSize (ctx : GCWii.AudioContext) (d : D) :
  GCWii.wf ctx → 0 < GCWii.available_slots ctx →
  ∃ j b,
    0 ≤ j < GCWii.count ctx ∧
    GCWii.bufs ctx !! Z.to_nat j = Some b ∧ GCWii.available b ≠ 0 ∧
    (∀ i b', 0 ≤ i < j → GCWii.bufs ctx !! Z.to_nat i = Some b' → GCWii.available b' = 0) ∧
    GCWii.Audio_QueueChunk chunk dataSize (ctx, d)
    = Ret (0, (GCWii.set_bufs
                 (<[Z.to_nat j := {| GCWii.available := 0; GCWii.size := to_int32 dataSize;
                                     GCWii.samples := chunk |}]> (GCWii.bufs ctx)) ctx,
               GCWii.logged chunk d)).
Proof.
  intros [Hlen Hcount] Hfree. unfold AUDIO_MAX_BUFFERS in *.
  destruct (count_if_first _ _ Hfree) as (j & b & Hj & Hb & Hmin).
  pose proof (lookup_lt_Some _ _ _ Hj) as Hjlt. rewrite length_take in Hjlt.
  rewrite lookup_take_lt in Hj by lia.
  apply negb_true_iff, Z.eqb_neq in Hb.
  assert (Hbefore : ∀ i b', 0 ≤ i < Z.of_nat j →
            GCWii.bufs ctx !! Z.to_nat i = Some b' → GCWii.available b' = 0).
  { intros i b' Hi Hb'. apply Z.eqb_eq, negb_false_iff.
    apply (Hmin (Z.to_nat i) b'); [lia|]. by rewrite lookup_take_lt by lia. }
  exists (Z.of_nat j), b. rewrite Nat2Z.id. split_and!; [lia|lia|done|done|done|].
  rewrite gcwii_queue_unfold. unfold for_range.
  erewrite (for_loop_first _ _ (Z.of_nat j)); [done|lia|lia| |].
  - intros k Hk.
    destruct (lookup_lt_is_Some_2 (GCWii.bufs ctx) (Z.to_nat k)) as [b' Hb']; [lia|].
    apply (gcwii_queue_slot_skip _ _ _ _ b'); [lia|done|]. by eapply Hbefore.
  - rewrite (gcwii_queue_slot_take _ _ _ _ b); simpl; rewrite ?Nat2Z.id; [done|lia|done|done].
Qed.

End GCWii_facts.

Section GCWii_more.
Context {D : Type} `{GCWii.Driver D}.

#[local] Abbreviation gst := (GCWii.AudioContext * D)%type.

Lemma gcwii_in_use_insert (ctx : GCWii.AudioContext) j b b' :
  GCWii.bufs ctx !! j = Some b →
  GCWii.in_use_slots (GCWii.set_bufs (<[j := b']> (GCWii.bufs ctx)) ctx)
  = GCWii.in_use_slots ctx
    + (if (j <? Z.to_nat (GCWii.count ctx))%nat
       then (if GCWii.available b' =? 0 then 1 else 0)
            - (if GCWii.available b =? 0 then 1 else 0)
       else 0).
Proof.
  intros Hb. unfold GCWii.in_use_slots. simpl.
  destruct (Nat.ltb_spec j (Z.to_nat (GCWii.count ctx))).
  - rewrite take_insert_lt by done.
    rewrite (count_if_insert _ _ j b) by (by rewrite lookup_take_lt).
    lia.
  - rewrite take_insert_ge by done. lia.
Qed.

Lemma gcwii_wf_insert (ctx : GCWii.AudioContext) j b' :
  GCWii.wf ctx → GCWii.wf (GCWii.set_bufs (<[j := b']> (GCWii.bufs ctx)) ctx).
Proof. intros [Hlen Hc]. split; simpl; [by rewrite length_insert|done]. Qed.

(** A chunk that finds a free buffer: what the call leaves. *)
Lemma gcwii_queue_free_counts chunk dataSize (ctx : GCWii.AudioContext) (d : D) :
  GCWii.wf ctx → 0 < GCWii.available_slots ctx →
  ∃ ctx',
    GCWii.Audio_QueueChunk chunk dataSize (ctx, d) = Ret (0, (ctx', GCWii.logged chunk d)) ∧
    GCWii.wf ctx' ∧ GCWii.bufs_frame ctx ctx' ∧
    GCWii.in_use_slots ctx' = GCWii.in_use_slots ctx + 1 ∧
    GCWii.available_slots ctx' = GCWii.available_slots ctx - 1.
Proof.
  intros Hwf Hfree.
  destruct (gcwii_queue_free chunk dataSize ctx d Hwf Hfree)
    as (j & b & Hj & Hb & Hav & _ & Hq).
  eexists. split; [exact Hq|].
  assert (Hin : GCWii.in_use_slots
                  (GCWii.set_bufs (<[Z.to_nat j := {| GCWii.available := 0;
                       GCWii.size := to_int32 dataSize; GCWii.samples := chunk |}]>
                     (GCWii.bufs ctx)) ctx) = GCWii.in_use_slots ctx + 1).
  { rewrite (gcwii_in_use_insert _ _ b) by done. simpl.
    destruct (Nat.ltb_spec (Z.to_nat j) (Z.to_nat (GCWii.count ctx))); [|lia].
    destruct (Z.eqb_spec (GCWii.available b) 0); [done|lia]. }
  pose proof (gcwii_wf_insert ctx (Z.to_nat j)
                {| GCWii.available := 0; GCWii.size := to_int32 dataSize;
                   GCWii.samples := chunk |} Hwf) as Hwf'.
  split_and!; [done| |done|].
  - unfold GCWii.bufs_frame. simpl. by rewrite length_insert.
  - pose proof (gcwii_slots_sum _ Hwf). pose proof (gcwii_slots_sum _ Hwf') as Hs'.
    simpl in Hs'. lia.
Qed.

(** [Audio_Init] with at most AUDIO_MAX_BUFFERS buffers. *)
Lemma gcwii_init n (ctx : GCWii.AudioContext) (d : D) :
  0 ≤ n ≤ AUDIO_MAX_BUFFERS →
  ∃ ctx',
    GCWii.Audio_Init n (ctx, d) = Ret (0, (ctx', d)) ∧
    GCWii.wf ctx' ∧ GCWii.count ctx' = n ∧ GCWii.available_slots ctx' = n ∧
    GCWii.chanID ctx' = -1 ∧ GCWii.bufHead ctx' = 0 ∧ GCWii.volume ctx' = 255 ∧
    GCWii.channels ctx' = GCWii.channels ctx ∧ GCWii.sampleRate ctx' = GCWii.sampleRate ctx.
Proof.
  unfold AUDIO_MAX_BUFFERS. intros Hn.
  assert (Hcases : n = 0 ∨ n = 1 ∨ n = 2 ∨ n = 3 ∨ n = 4) by lia.
  destruct Hcases as [->|[->|[->|[->| ->]]]];
    (eexists; split; [reflexivity|]; by split_and!).
Qed.

Lemma gcwii_queue_all chunks : ∀ (ctx : GCWii.AudioContext) (d : D),
  GCWii.wf ctx → Z.of_nat (length chunks) ≤ GCWii.available_slots ctx →
  ∃ ctx' d',
    GCWii.queue_all chunks (ctx, d) = Ret (replicate (length chunks) 0, (ctx', d')) ∧
    GCWii.wf ctx' ∧ GCWii.bufs_frame ctx ctx' ∧
    GCWii.available_slots ctx' = GCWii.available_slots ctx - Z.of_nat (length chunks).
Proof.
  induction chunks as [|[chunk dataSize] chunks IH]; intros ctx d Hwf Hroom; simpl.
  - exists ctx, d. split_and!; [done|done|by repeat split|lia].
  - simpl in Hroom.
    destruct (gcwii_queue_free_counts chunk dataSize ctx d Hwf)
      as (ctx1 & Hq & Hwf1 & Hfr1 & _ & Hav1); [lia|].
    destruct (IH ctx1 (GCWii.logged chunk d) Hwf1) as (ctx2 & d2 & Hall & Hwf2 & Hfr2 & Hav2);
      [lia|].
    exists ctx2, d2. unfold mbind, M_bind, m_bind. rewrite Hq, Hall. unfold_m.
    split_and!; [done|done| |lia].
    unfold GCWii.bufs_frame in *. intuition congruence.
Qed.

End GCWii_more.

(** X1.  GC/Wii [Audio_QueueChunk] on a context whose buffers are all
    taken answers ERR_INVALID_ARGUMENT and leaves the context as it was; the
    one effect is the log line for a chunk that is not aligned. *)
Theorem gcwii_queue_chunk_full (D : Type) (HD : GCWii.Driver D)
    (ctx : GCWii.AudioContext) (d : D) chunk dataSize :
  GCWii.wf ctx → GCWii.available_slots ctx = 0 →
  GCWii.Audio_QueueChunk chunk dataSize (ctx, d)
  = Ret (ERR_INVALID_ARGUMENT, (ctx, GCWii.logged chunk d)).
Proof. intros. by apply gcwii_queue_full. Qed.

Lemma gcwii_queue_chunk_full_witness :
  GCWii.Audio_QueueChunk ex_chunk 8 (gcwii_full_ctx, ([] : script))
  = Ret (ERR_INVALID_ARGUMENT, (gcwii_full_ctx, GCWii.logged ex_chunk [])).
Proof.
  apply gcwii_queue_chunk_full.
  - split; [reflexivity|]. unfold AUDIO_MAX_BUFFERS. simpl. lia.
  - reflexivity.
Defined.

(** X2.  GC/Wii [Audio_QueueChunk] on a context with a free buffer answers
    0 and puts the chunk and its size into the free buffer of lowest index,
    which it marks taken; every other buffer and field stays, so one buffer
    more is in use. *)
Theorem gcwii_queue_chunk_takes_first_free (D : Type) (HD : GCWii.Driver D)
    (ctx : GCWii.AudioContext) (d : D) chunk dataSize :
  GCWii.wf ctx → 0 < GCWii.available_slots ctx →
  ∃ j b,
    0 ≤ j < GCWii.count ctx ∧
    GCWii.bufs ctx !! Z.to_nat j = Some b ∧ GCWii.available b ≠ 0 ∧
    (∀ i b', 0 ≤ i < j → GCWii.bufs ctx !! Z.to_nat i = Some b' → GCWii.available b' = 0) ∧
    let ctx' :=
      GCWii.set_bufs
        (<[Z.to_nat j := {| GCWii.available := 0; GCWii.size := to_int32 dataSize;
                            GCWii.samples := chunk |}]> (GCWii.bufs ctx)) ctx in
    GCWii.Audio_QueueChunk chunk dataSize (ctx, d) = Ret (0, (ctx', GCWii.logged chunk d)) ∧
    GCWii.in_use_slots ctx' = GCWii.in_use_slots ctx + 1 ∧
    GCWii.Audio_Poll (ctx', GCWii.logged chunk d)
    = Ret ((0, GCWii.in_use_slots ctx + 1), (ctx', GCWii.logged chunk d)).
Proof.
  intros Hwf Hfree.
  destruct (gcwii_queue_free chunk dataSize ctx d Hwf Hfree)
    as (j & b & Hj & Hb & Hav & Hmin & Hq).
  destruct (gcwii_queue_free_counts chunk dataSize ctx d Hwf Hfree)
    as (ctx1 & Hq1 & [Hlen1 Hc1] & _ & Hin & _).
  rewrite Hq in Hq1. injection Hq1 as <-.
  exists j, b. cbv zeta. split_and!; [lia|lia|done|done|done|done|done|].
  rewrite gcwii_poll; [by rewrite Hin|].
  rewrite Hlen1. unfold AUDIO_MAX_BUFFERS in *. simpl in *. lia.
Qed.

Lemma gcwii_queue_chunk_takes_first_free_witness :
  ∃ j b,
    0 ≤ j < GCWii.count gcwii_half_ctx ∧
    GCWii.bufs gcwii_half_ctx !! Z.to_nat j = Some b ∧ GCWii.available b ≠ 0 ∧
    (∀ i b', 0 ≤ i < j → GCWii.bufs gcwii_half_ctx !! Z.to_nat i = Some b' →
             GCWii.available b' = 0) ∧
    let ctx' :=
      GCWii.set_bufs
        (<[Z.to_nat j := {| GCWii.available := 0; GCWii.size := to_int32 8;
                            GCWii.samples := ex_chunk |}]> (GCWii.bufs gcwii_half_ctx))
        gcwii_half_ctx in
    GCWii.Audio_QueueChunk ex_chunk 8 (gcwii_half_ctx, ([] : script))
    = Ret (0, (ctx', GCWii.logged ex_chunk [])) ∧
    GCWii.in_use_slots ctx' = GCWii.in_use_slots gcwii_half_ctx + 1 ∧
    GCWii.Audio_Poll (ctx', GCWii.logged ex_chunk ([] : script))
    = Ret ((0, GCWii.in_use_slots gcwii_half_ctx + 1), (ctx', GCWii.logged ex_chunk [])).
Proof.
  apply (gcwii_queue_chunk_takes_first_free script _ gcwii_half_ctx [] ex_chunk 8).
  - split; [reflexivity|]. unfold AUDIO_MAX_BUFFERS. simpl. lia.
  - reflexivity.
Defined.

(** X3.  After GC/Wii [Audio_Init] with [n] buffers exactly [n] chunks can
    be queued: [n] calls in a row answer 0, [Audio_Poll] then reports [n]
    buffers in use, and one more chunk is refused with
    ERR_INVALID_ARGUMENT. *)
Theorem gcwii_init_then_queue (D : Type) (HD : GCWii.Driver D)
    (ctx : GCWii.AudioContext) (d : D) n chunks chunk dataSize :
  0 ≤ n ≤ AUDIO_MAX_BUFFERS → Z.of_nat (length chunks) = n →
  ∃ ctx' d',
    (GCWii.Audio_Init n;;
     queued ← GCWii.queue_all chunks;
     polled ← GCWii.Audio_Poll;
     last ← GCWii.Audio_QueueChunk chunk dataSize;
     mret (queued, polled, last)) (ctx, d)
    = Ret ((replicate (length chunks) 0, (0, n), ERR_INVALID_ARGUMENT), (ctx', d')).
Proof.
  intros Hn Hlen.
  destruct (gcwii_init n ctx d Hn) as (ctx1 & Hinit & Hwf1 & Hc1 & Hav1 & _).
  destruct (gcwii_queue_all chunks ctx1 d Hwf1) as (ctx2 & d2 & Hall & Hwf2 & Hfr2 & Hav2);
    [lia|].
  pose proof (gcwii_slots_sum _ Hwf2) as Hsum.
  destruct Hfr2 as (_ & Hc2 & _).
  assert (Hpoll : GCWii.Audio_Poll (ctx2, d2) = Ret ((0, n), (ctx2, d2))).
  { rewrite gcwii_poll; [do 3 f_equal; lia|].
    destruct Hwf2 as [-> ?]. unfold AUDIO_MAX_BUFFERS in *. lia. }
  exists ctx2, (GCWii.logged chunk d2).
  unfold mbind, M_bind, m_bind. rewrite Hinit, Hall, Hpoll.
  rewrite gcwii_queue_full by (done || lia). done.
Qed.

Lemma gcwii_init_then_queue_witness :
  ∃ ctx' d',
    (GCWii.Audio_Init 2;;
     queued ← GCWii.queue_all [(ex_chunk, 8); (ex_chunk, 4)];
     polled ← GCWii.Audio_Poll;
     last ← GCWii.Audio_QueueChunk ex_chunk 8;
     mret (queued, polled, last)) (gcwii_full_ctx, ([] : script))
    = Ret ((replicate (length [(ex_chunk, 8); (ex_chunk, 4)]) 0, (0, 2), ERR_INVALID_ARGUMENT),
           (ctx', d')).
Proof.
  apply (gcwii_init_then_queue script _ gcwii_full_ctx [] 2 [(ex_chunk, 8); (ex_chunk, 4)]
           ex_chunk 8).
  - unfold AUDIO_MAX_BUFFERS. lia.
  - reflexivity.
Defined.

Section GCWii_play.
Context {D : Type} `{GCWii.Driver D}.

Lemma gcwii_mark_available_spec i (ctx : GCWii.AudioContext) (d : D) :
  0 ≤ i < Z.of_nat (length (GCWii.bufs ctx)) →
  ∃ ctx',
    GCWii.mark_available i (ctx, d) = Ret (tt, (ctx', d)) ∧
    GCWii.bufs_frame ctx ctx' ∧ GCWii.bufHead ctx' = GCWii.bufHead ctx ∧
    GCWii.makeAvailable ctx' = GCWii.makeAvailable ctx ∧
    GCWii.in_use_slots ctx' ≤ GCWii.in_use_slots ctx ∧
    (i < GCWii.count ctx →
     ∃ b, GCWii.bufs ctx' !! Z.to_nat i = Some b ∧ GCWii.available b = 1).
Proof.
  intros Hi. destruct (gcwii_mark_available i (ctx, d) Hi) as (b & Hb & Hm). simpl in *.
  eexists. split; [exact Hm|].
  split_and!; try done.
  - unfold GCWii.bufs_frame. simpl. by rewrite length_insert.
  - rewrite (gcwii_in_use_insert _ _ b) by done. simpl.
    destruct (_ <? _)%nat; destruct (GCWii.available b =? 0); lia.
  - intros _. simpl. eexists. split; [by apply list_lookup_insert_eq; lia|done].
Qed.

(** [Audio_Play] on a context of one buffer, in full. *)
Lemma gcwii_play_single_exact (ctx : GCWii.AudioContext) (d : D) :
  GCWii.wf ctx → GCWii.count ctx = 1 →
  ∃ b, GCWii.bufs ctx !! 0%nat = Some b ∧
    let format := if GCWii.channels ctx =? 2
                  then GCWii.VOICE_STEREO_16BIT else GCWii.VOICE_MONO_16BIT in
    let ctx' := GCWii.set_bufs (<[0%nat := GCWii.set_available 1 b]> (GCWii.bufs ctx)) ctx in
    let d' := (GCWii.ASND_SetVoice (GCWii.chanID ctx) format (GCWii.sampleRate ctx) 0
                 (GCWii.samples b) (GCWii.size b) (GCWii.volume ctx) (GCWii.volume ctx)
                 false d).2 in
    GCWii.Audio_Play (ctx, d) = Ret (0, (ctx', d')) ∧
    GCWii.in_use_slots ctx' = 0.
Proof.
  intros [Hlen Hcount] Hone. unfold AUDIO_MAX_BUFFERS in *.
  destruct (lookup_lt_is_Some_2 (GCWii.bufs ctx) 0) as [b Hb]; [lia|].
  exists b. split; [done|]. cbv zeta. split.
  - unfold GCWii.Audio_Play, GCWii.mark_available, arr_get, arr_set. unfold_m. simpl.
    change (Z.to_nat 0) with 0%nat. rewrite Hb. simpl. rewrite Hone. simpl.
    rewrite Hb. simpl.
    destruct (Z.ltb_spec 0 (Z.of_nat (length (GCWii.bufs ctx)))); [|lia]. done.
  - unfold GCWii.in_use_slots. simpl. rewrite Hone.
    destruct (GCWii.bufs ctx) as [|b0 bs]; [done|]. simpl. done.
Qed.

(** [MusicCallback] on the music context while it plays. *)
Lemma gcwii_music_callback voice (ctx : GCWii.AudioContext) (d : D) :
  GCWii.wf_music ctx →
  ∃ ctx' d',
    GCWii.MusicCallback voice (ctx, d) = Ret (tt, (ctx', d')) ∧
    GCWii.wf_music ctx' ∧ GCWii.bufs_frame ctx ctx' ∧
    (GCWii.bufHead ctx' = GCWii.bufHead ctx
     ∨ GCWii.bufHead ctx' = (GCWii.bufHead ctx + 1) mod GCWii.count ctx) ∧
    GCWii.in_use_slots ctx' ≤ GCWii.in_use_slots ctx.
Proof.
  intros (Hlen & Hcount & Hhead). unfold AUDIO_MAX_BUFFERS in *.
  set (next := Z.rem (GCWii.bufHead ctx + 1) (GCWii.count ctx)).
  assert (Hnext : next = (GCWii.bufHead ctx + 1) mod GCWii.count ctx)
    by (unfold next; apply Z.rem_mod_nonneg; lia).
  assert (Hnb : 0 ≤ next < GCWii.count ctx)
    by (rewrite Hnext; apply Z.mod_pos_bound; lia).
  (* the tail of the function: the poll and the stop *)
  assert (Htail : ∀ (c : GCWii.AudioContext) (d0 : D),
            GCWii.count c ≤ Z.of_nat (length (GCWii.bufs c)) → 0 ≤ GCWii.count c →
            ∃ d1, ('(_, inUse) ← GCWii.Audio_Poll;
                   if inUse =? 0 then
                     ctx0 ← getctx;
                     call (GCWii.ASND_StopVoice (GCWii.chanID ctx0));; mret tt
                   else mret tt) (c, d0) = Ret (tt, (c, d1))).
  { intros c d0 Hc1 Hc0. unfold mbind, M_bind, m_bind.
    rewrite gcwii_poll by lia.
    destruct (GCWii.in_use_slots c =? 0); unfold_m; simpl; by eexists. }
  unfold GCWii.MusicCallback. unfold_m. simpl.
  destruct (Z.eqb_spec (GCWii.count ctx) 0) as [|_]; [lia|]. simpl. fold next.
  destruct (GCWii.ASND_StatusVoice voice d) as [status d1]. simpl.
  destruct (negb (status =? GCWii.SND_WORKING)).
  { exists ctx, d1. split_and!; [done| |by repeat split|by left|lia].
    unfold GCWii.wf_music, AUDIO_MAX_BUFFERS. lia. }
  destruct (lookup_lt_is_Some_2 (GCWii.bufs ctx) (Z.to_nat next)) as [nb Hnbuf]; [lia|].
  unfold arr_get. destruct (Z.leb_spec 0 next); [|lia]. rewrite Hnbuf. simpl.
  destruct (GCWii.ASND_AddVoice voice (GCWii.samples nb) (GCWii.size nb) d1) as [res d2].
  simpl. destruct (res =? GCWii.SND_OK).
  2:{ destruct (Htail ctx d2) as [d3 Ht]; [lia|lia|].
      exists ctx, d3. split_and!; [done| |by repeat split|by left|lia].
      unfold GCWii.wf_music, AUDIO_MAX_BUFFERS. lia. }
  (* the head moves on; [c2] is the context before a buffer is released *)
  assert (Hrelease : ∀ c2 : GCWii.AudioContext,
            GCWii.bufs c2 = GCWii.bufs ctx → GCWii.bufs_frame ctx c2 →
            GCWii.bufHead c2 = next →
            ∃ ctx' d',
              match
                GCWii.mark_available
                  (if next - 2 <? 0 then next - 2 + 4 else next - 2) (c2, d2)
              with
              | Ret (_, s'0) =>
                  match GCWii.Audio_Poll s'0 with
                  | Ret (a4, s'1) =>
                      (let '(_, inUse) := a4 in
                       if inUse =? 0
                       then λ s0 : GCWii.AudioContext * D,
                              Ret ((), (s0.1, (GCWii.ASND_StopVoice (GCWii.chanID s0.1) s0.2).2))
                       else λ s0 : GCWii.AudioContext * D, Ret ((), s0)) s'1
                  | Fault => Fault
                  end
              | Fault => Fault
              end = Ret ((), (ctx', d'))
              ∧ GCWii.wf_music ctx' ∧ GCWii.bufs_frame ctx ctx'
              ∧ (GCWii.bufHead ctx' = GCWii.bufHead ctx
                 ∨ GCWii.bufHead ctx' = (GCWii.bufHead ctx + 1) mod GCWii.count ctx)
              ∧ GCWii.in_use_slots ctx' ≤ GCWii.in_use_slots ctx).
  { intros c2 Hbufs2 Hfr2 Hhead2.
    set (prev := if next - 2 <? 0 then next - 2 + 4 else next - 2).
    assert (Hprev : 0 ≤ prev < 4) by (unfold prev; destruct (Z.ltb_spec (next - 2) 0); lia).
    destruct (gcwii_mark_available_spec prev c2 d2)
      as (c3 & Hmark & Hfr3 & Hhead3 & _ & Hin3 & _); [rewrite Hbufs2; lia|].
    rewrite Hmark.
    destruct Hfr2 as (Hch2 & Hcount2 & Hchan2 & Hsr2 & Hvol2 & Hlen2).
    destruct Hfr3 as (Hch3 & Hcount3 & Hchan3 & Hsr3 & Hvol3 & Hlen3).
    destruct (Htail c3 d2) as [d3 Ht];
      [rewrite Hlen3, Hlen2, Hcount3, Hcount2; lia|rewrite Hcount3, Hcount2; lia|].
    exists c3, d3. split_and!; [done| | |right; congruence|].
    - unfold GCWii.wf_music, AUDIO_MAX_BUFFERS.
      repeat split; rewrite ?Hlen3, ?Hlen2, ?Hcount3, ?Hcount2, ?Hhead3, ?Hhead2; lia.
    - unfold GCWii.bufs_frame. rewrite Hlen3, Hlen2. intuition congruence.
    - assert (GCWii.in_use_slots c2 = GCWii.in_use_slots ctx); [|lia].
      unfold GCWii.in_use_slots. by rewrite Hbufs2, Hcount2. }
  assert (Hkeep : ∀ c2 : GCWii.AudioContext,
            GCWii.bufs c2 = GCWii.bufs ctx → GCWii.bufs_frame ctx c2 →
            GCWii.bufHead c2 = next →
            ∃ ctx' d',
              match GCWii.Audio_Poll (c2, d2) with
              | Ret (a4, s'1) =>
                  (let '(_, inUse) := a4 in
                   if inUse =? 0
                   then λ s0 : GCWii.AudioContext * D,
                          Ret ((), (s0.1, (GCWii.ASND_StopVoice (GCWii.chanID s0.1) s0.2).2))
                   else λ s0 : GCWii.AudioContext * D, Ret ((), s0)) s'1
              | Fault => Fault
              end = Ret ((), (ctx', d'))
              ∧ GCWii.wf_music ctx' ∧ GCWii.bufs_frame ctx ctx'
              ∧ (GCWii.bufHead ctx' = GCWii.bufHead ctx
                 ∨ GCWii.bufHead ctx' = (GCWii.bufHead ctx + 1) mod GCWii.count ctx)
              ∧ GCWii.in_use_slots ctx' ≤ GCWii.in_use_slots ctx).
  { intros c2 Hbufs2 Hfr2 Hhead2.
    pose proof Hfr2 as (Hch2 & Hcount2 & Hchan2 & Hsr2 & Hvol2 & Hlen2).
    destruct (Htail c2 d2) as [d3 Ht]; [rewrite Hlen2, Hcount2; lia|rewrite Hcount2; lia|].
    exists c2, d3. split_and!; [done| |done|right; congruence|].
    - unfold GCWii.wf_music, AUDIO_MAX_BUFFERS.
      repeat split; rewrite ?Hlen2, ?Hcount2, ?Hhead2; lia.
    - unfold GCWii.in_use_slots. rewrite Hbufs2, Hcount2. lia. }
  destruct (next =? 2); simpl.
  - apply Hrelease; [done|by repeat split|done].
  - destruct (GCWii.makeAvailable ctx); simpl.
    + apply Hrelease; [done|by repeat split|done].
    + apply Hkeep; [done|by repeat split|done].
Qed.

End GCWii_play.

(** X4.  GC/Wii [Audio_Play] on a context of one buffer hands the buffer
    to the voice and marks it available at once: it makes the one call
    ASND_SetVoice, with the context's voice, format, rate and volume, the
    samples and size of buffer 0 and no callback, sets [available] of
    buffer 0 and changes nothing else of the context, and answers 0; an
    [Audio_Poll] right after it reports nothing in use. *)
Theorem gcwii_play_releases_single_buffer (D : Type) (HD : GCWii.Driver D)
    (ctx : GCWii.AudioContext) (d : D) :
  GCWii.wf ctx → GCWii.count ctx = 1 →
  ∃ b, GCWii.bufs ctx !! 0%nat = Some b ∧
    let format := if GCWii.channels ctx =? 2
                  then GCWii.VOICE_STEREO_16BIT else GCWii.VOICE_MONO_16BIT in
    let ctx' := GCWii.set_bufs (<[0%nat := GCWii.set_available 1 b]> (GCWii.bufs ctx)) ctx in
    let d' := (GCWii.ASND_SetVoice (GCWii.chanID ctx) format (GCWii.sampleRate ctx) 0
                 (GCWii.samples b) (GCWii.size b) (GCWii.volume ctx) (GCWii.volume ctx)
                 false d).2 in
    GCWii.Audio_Play (ctx, d) = Ret (0, (ctx', d')) ∧
    GCWii.Audio_Poll (ctx', d') = Ret ((0, 0), (ctx', d')).
Proof.
  intros Hwf Hone.
  destruct (gcwii_play_single_exact ctx d Hwf Hone) as (b & Hb & Hplay & Hin).
  exists b. split; [done|]. cbv zeta. split; [done|].
  destruct Hwf as [Hlen Hcount].
  rewrite gcwii_poll; [by rewrite Hin|].
  simpl. rewrite length_insert, Hlen. unfold AUDIO_MAX_BUFFERS in *. lia.
Qed.

Lemma gcwii_play_releases_single_buffer_witness :
  ∃ b, GCWii.bufs gcwii_single_ctx !! 0%nat = Some b ∧
    let format := if GCWii.channels gcwii_single_ctx =? 2
                  then GCWii.VOICE_STEREO_16BIT else GCWii.VOICE_MONO_16BIT in
    let ctx' := GCWii.set_bufs (<[0%nat := GCWii.set_available 1 b]>
                                  (GCWii.bufs gcwii_single_ctx)) gcwii_single_ctx in
    let d' := (GCWii.ASND_SetVoice (GCWii.chanID gcwii_single_ctx) format
                 (GCWii.sampleRate gcwii_single_ctx) 0
                 (GCWii.samples b) (GCWii.size b) (GCWii.volume gcwii_single_ctx)
                 (GCWii.volume gcwii_single_ctx) false ([] : script)).2 in
    GCWii.Audio_Play (gcwii_single_ctx, ([] : script)) = Ret (0, (ctx', d')) ∧
    GCWii.Audio_Poll (ctx', d') = Ret ((0, 0), (ctx', d')).
Proof.
  apply gcwii_play_releases_single_buffer.
  - split; [reflexivity|]. unfold AUDIO_MAX_BUFFERS. simpl. lia.
  - reflexivity.
Defined.

(** X5.  GC/Wii [MusicCallback] on a music context with 1 to 4 buffers and
    its head among them never reads or writes outside the buffer array and
    never divides by zero: it returns, the head stays or moves to the next
    buffer (modulo the count), the count and the format stay, and no
    buffer is taken. *)
Theorem gcwii_music_callback_keeps_head_in_range (D : Type) (HD : GCWii.Driver D)
    voice (ctx : GCWii.AudioContext) (d : D) :
  GCWii.wf_music ctx →
  ∃ ctx' d',
    GCWii.MusicCallback voice (ctx, d) = Ret (tt, (ctx', d')) ∧
    GCWii.wf_music ctx' ∧ GCWii.bufs_frame ctx ctx' ∧
    (GCWii.bufHead ctx' = GCWii.bufHead ctx
     ∨ GCWii.bufHead ctx' = (GCWii.bufHead ctx + 1) mod GCWii.count ctx) ∧
    GCWii.in_use_slots ctx' ≤ GCWii.in_use_slots ctx.
Proof. apply gcwii_music_callback. Qed.

Lemma gcwii_music_callback_keeps_head_in_range_witness :
  ∃ ctx' d',
    GCWii.MusicCallback 0 (gcwii_music_ctx, ([1; 0] : script)) = Ret (tt, (ctx', d')) ∧
    GCWii.wf_music ctx' ∧ GCWii.bufs_frame gcwii_music_ctx ctx' ∧
    (GCWii.bufHead ctx' = GCWii.bufHead gcwii_music_ctx
     ∨ GCWii.bufHead ctx'
       = (GCWii.bufHead gcwii_music_ctx + 1) mod GCWii.count gcwii_music_ctx) ∧
    GCWii.in_use_slots ctx' ≤ GCWii.in_use_slots gcwii_music_ctx.
Proof.
  apply gcwii_music_callback_keeps_head_in_range.
  unfold GCWii.wf_music, AUDIO_MAX_BUFFERS. simpl. lia.
Defined.

(** ** Dreamcast: the stream callback *)

Lemma ptr_add_0 p : ptr_add p 0 = p.
Proof. destruct p as [[b o]|]; simpl; [by rewrite Z.add_0_r|done]. Qed.

Lemma ptr_add_add p n m : ptr_add (ptr_add p n) m = ptr_add p (n + m).
Proof. destruct p as [[b o]|]; simpl; [by rewrite Z.add_assoc|done]. Qed.

Lemma pieces_S p n r k :
  Dreamcast.pieces p n r (S k)
  = (p, Z.min n r) :: Dreamcast.pieces (ptr_add p r) (n - r) r k.
Proof.
  unfold Dreamcast.pieces.
  rewrite seqZ_cons by lia. rewrite fmap_cons.
  rewrite Z.mul_0_r, ptr_add_0, Z.sub_0_r. f_equal.
  replace (Z.pred (Z.of_nat (S k))) with (Z.of_nat k) by lia.
  change (Z.succ 0) with (1 + 0). rewrite <- fmap_add_seqZ, <- list_fmap_compose.
  apply list_fmap_ext. intros i j _. simpl.
  rewrite ptr_add_add. do 2 f_equal; lia.
Qed.

(** The lengths of the pieces add up to the length of the chunk. *)
Lemma pieces_total r : 0 < r → ∀ k p n,
  0 < n → Z.of_nat k = (n + r - 1) / r →
  foldr Z.add 0 ((Dreamcast.pieces p n r k).*2) = n.
Proof.
  intros Hr. induction k as [|k IH]; intros p n Hn Hk.
  - pose proof (Z.div_str_pos (n + r - 1) r). lia.
  - rewrite pieces_S, fmap_cons. simpl.
    replace (n + r - 1) with (n - 1 + 1 * r) in Hk by lia.
    rewrite Z.div_add in Hk by lia.
    destruct (Z.le_gt_cases n r) as [Hle|Hgt].
    + assert ((n - 1) / r = 0) by (apply Z.div_small; lia).
      assert (k = 0%nat) as -> by lia. simpl. lia.
    + rewrite IH; [lia|lia|]. replace (n - r + r - 1) with (n - 1) by lia. lia.
Qed.

Section Dreamcast_facts.
Context {D : Type} `{Dreamcast.Driver D}.

Lemma dreamcast_callback_part (c : Dreamcast.AudioContext) (d : D) b r :
  Dreamcast.wf c → Dreamcast.bufs c !! Z.to_nat (Dreamcast.bufHead c) = Some b →
  0 < r < Dreamcast.bytesLeft b →
  Dreamcast.AudioCallback r (c, d)
  = Ret ((Dreamcast.samples b, r),
         (Dreamcast.set_bufs
            (<[Z.to_nat (Dreamcast.bufHead c) :=
                 {| Dreamcast.available := Dreamcast.available b;
                    Dreamcast.bytesLeft := Dreamcast.bytesLeft b - r;
                    Dreamcast.samples := ptr_add (Dreamcast.samples b) r |}]>
               (Dreamcast.bufs c)) c, d)).
Proof.
  intros (Hlen & Hcount & Hhead) Hb Hr.
  unfold Dreamcast.AudioCallback, arr_get, arr_set. unfold_m. simpl.
  destruct (Z.leb_spec 0 (Dreamcast.bufHead c)); [|lia]. rewrite Hb. simpl.
  rewrite Z.min_r by lia.
  destruct (Z.eqb_spec (Dreamcast.bytesLeft b - r) 0); [lia|]. simpl.
  apply lookup_lt_Some in Hb.
  destruct (Z.ltb_spec (Dreamcast.bufHead c) (Z.of_nat (length (Dreamcast.bufs c)))); [|lia].
  done.
Qed.

Lemma dreamcast_callback_last (c : Dreamcast.AudioContext) (d : D) b r :
  Dreamcast.wf c → Dreamcast.bufs c !! Z.to_nat (Dreamcast.bufHead c) = Some b →
  0 < Dreamcast.bytesLeft b ≤ r →
  Dreamcast.AudioCallback r (c, d)
  = Ret ((Dreamcast.samples b, Dreamcast.bytesLeft b), (Dreamcast.released c, d)).
Proof.
  intros (Hlen & Hcount & Hhead) Hb Hr.
  unfold Dreamcast.AudioCallback, arr_get, arr_set. unfold_m. simpl.
  destruct (Z.leb_spec 0 (Dreamcast.bufHead c)); [|lia]. rewrite Hb. simpl.
  rewrite Z.min_l by lia. rewrite Z.sub_diag. simpl.
  destruct (Z.eqb_spec (Dreamcast.count c) 0); [lia|]. simpl.
  apply lookup_lt_Some in Hb.
  destruct (Z.ltb_spec (Dreamcast.bufHead c) (Z.of_nat (length (Dreamcast.bufs c)))); [|lia].
  simpl. destruct (Z.eqb_spec (Dreamcast.bytesLeft b) 0); [lia|]. done.
Qed.

(** With nothing queued at the head the callback gives NULL and tells the
    stream it got all it asked for. *)
Lemma dreamcast_callback_empty (c : Dreamcast.AudioContext) (d : D) b r :
  Dreamcast.wf c → Dreamcast.bufs c !! Z.to_nat (Dreamcast.bufHead c) = Some b →
  Dreamcast.bytesLeft b = 0 → Dreamcast.samples b = NULL → 0 ≤ r →
  Dreamcast.AudioCallback r (c, d) = Ret ((NULL, r), (Dreamcast.released c, d)).
Proof.
  intros (Hlen & Hcount & Hhead) Hb Hzero Hnull Hr.
  unfold Dreamcast.AudioCallback, arr_get, arr_set. unfold_m. simpl.
  destruct (Z.leb_spec 0 (Dreamcast.bufHead c)); [|lia]. rewrite Hb. simpl.
  rewrite Hzero, Hnull. rewrite Z.min_l by lia. simpl.
  destruct (Z.eqb_spec (Dreamcast.count c) 0); [lia|]. simpl.
  apply lookup_lt_Some in Hb.
  destruct (Z.ltb_spec (Dreamcast.bufHead c) (Z.of_nat (length (Dreamcast.bufs c)))); [|lia].
  done.
Qed.

Lemma dreamcast_drain r : 0 < r → ∀ k (c : Dreamcast.AudioContext) (d : D) b,
  Dreamcast.wf c → Dreamcast.bufs c !! Z.to_nat (Dreamcast.bufHead c) = Some b →
  0 < Dreamcast.bytesLeft b → Z.of_nat k = (Dreamcast.bytesLeft b + r - 1) / r →
  Dreamcast.callbacks k r (c, d)
  = Ret (Dreamcast.pieces (Dreamcast.samples b) (Dreamcast.bytesLeft b) r k,
         (Dreamcast.released c, d)).
Proof.
  intros Hr. induction k as [|k IH]; intros c d b Hwf Hb Hn Hk.
  - pose proof (Z.div_str_pos (Dreamcast.bytesLeft b + r - 1) r). lia.
  - rewrite pieces_S. simpl. unfold mbind, M_bind, m_bind.
    replace (Dreamcast.bytesLeft b + r - 1) with (Dreamcast.bytesLeft b - 1 + 1 * r) in Hk
      by lia.
    rewrite Z.div_add in Hk by lia.
    destruct (Z.le_gt_cases (Dreamcast.bytesLeft b) r) as [Hle|Hgt].
    + assert ((Dreamcast.bytesLeft b - 1) / r = 0) by (apply Z.div_small; lia).
      assert (k = 0%nat) as -> by lia.
      rewrite (dreamcast_callback_last c d b) by (done || lia). simpl. unfold_m.
      by rewrite Z.min_l by lia.
    + rewrite (dreamcast_callback_part c d b) by (done || lia).
      set (b1 := {| Dreamcast.available := Dreamcast.available b;
                    Dreamcast.bytesLeft := Dreamcast.bytesLeft b - r;
                    Dreamcast.samples := ptr_add (Dreamcast.samples b) r |}).
      set (c1 := Dreamcast.set_bufs _ c).
      assert (Hb1 : Dreamcast.bufs c1 !! Z.to_nat (Dreamcast.bufHead c1) = Some b1).
      { unfold c1. simpl. apply list_lookup_insert_eq. by eapply lookup_lt_Some. }
      assert (Hwf1 : Dreamcast.wf c1).
      { destruct Hwf as (? & ? & ?). unfold c1. repeat split; simpl; rewrite ?length_insert; lia. }
      rewrite (IH c1 d b1 Hwf1 Hb1); simpl; [|lia|].
      2:{ replace (Dreamcast.bytesLeft b - r + r - 1) with (Dreamcast.bytesLeft b - 1) by lia.
          lia. }
      unfold_m. rewrite Z.min_r by lia. do 3 f_equal.
      unfold Dreamcast.released, c1. simpl. by rewrite list_insert_insert_eq.
Qed.

End Dreamcast_facts.

(** X6.  The Dreamcast stream callback hands a queued buffer to the
    stream in order and in full: asking [r] bytes at a time, call [j]
    returns the address [r * j] bytes into the chunk with [r] bytes, the
    last call what is left; the lengths add up to the bytes queued.  After
    the last call the buffer is available again, its pointer is NULL and the
    head has moved to the next buffer, modulo the count. *)
Theorem dreamcast_callback_streams_buffer (D : Type) (HD : Dreamcast.Driver D)
    (ctx : Dreamcast.AudioContext) (d : D) b r k :
  Dreamcast.wf ctx →
  Dreamcast.bufs ctx !! Z.to_nat (Dreamcast.bufHead ctx) = Some b →
  0 < Dreamcast.bytesLeft b → 0 < r →
  Z.of_nat k = (Dreamcast.bytesLeft b + r - 1) / r →
  Dreamcast.callbacks k r (ctx, d)
  = Ret (Dreamcast.pieces (Dreamcast.samples b) (Dreamcast.bytesLeft b) r k,
         (Dreamcast.released ctx, d))
  ∧ foldr Z.add 0 ((Dreamcast.pieces (Dreamcast.samples b) (Dreamcast.bytesLeft b) r k).*2)
    = Dreamcast.bytesLeft b.
Proof.
  intros Hwf Hb Hn Hr Hk. split.
  - by apply dreamcast_drain.
  - by apply pieces_total.
Qed.

Lemma dreamcast_callback_streams_buffer_witness :
  Dreamcast.callbacks 3 3 (dreamcast_streaming_ctx, ([] : script))
  = Ret (Dreamcast.pieces ex_chunk 8 3 3, (Dreamcast.released dreamcast_streaming_ctx, []))
  ∧ foldr Z.add 0 ((Dreamcast.pieces ex_chunk 8 3 3).*2) = 8.
Proof.
  apply (dreamcast_callback_streams_buffer script _ dreamcast_streaming_ctx []
           {| Dreamcast.available := 0; Dreamcast.bytesLeft := 8;
              Dreamcast.samples := ex_chunk |} 3 3).
  - unfold Dreamcast.wf, AUDIO_MAX_BUFFERS. simpl. lia.
  - reflexivity.
  - simpl. lia.
  - lia.
  - reflexivity.
Defined.

(** X7.  A sound on the Dreamcast, from end to end: on a context
    initialised with one buffer a chunk of [n] bytes is accepted and
    [Audio_Poll] reports 1 in use; the stream, asking [r] bytes at a time,
    gets the chunk in consecutive pieces; [Audio_Poll] then reports nothing
    in use. *)
Theorem dreamcast_sound_is_streamed (D : Type) (HD : Dreamcast.Driver D)
    (ctx : Dreamcast.AudioContext) (d : D) chunk n r k :
  (Dreamcast.snd_stream_alloc Dreamcast.SND_STREAM_BUFFER_MAX d).1
    ≠ Dreamcast.SND_STREAM_INVALID →
  0 < n ≤ INT_MAX → 0 < r → Z.of_nat k = (n + r - 1) / r →
  ∃ ctx' d',
    (Dreamcast.Audio_Init 1;;
     queued ← Dreamcast.Audio_QueueChunk chunk n;
     before ← Dreamcast.Audio_Poll;
     got ← Dreamcast.callbacks k r;
     after ← Dreamcast.Audio_Poll;
     mret (queued, before, got, after)) (ctx, d)
    = Ret ((0, (0, 1), Dreamcast.pieces chunk n r k, (0, 0)), (ctx', d')).
Proof.
  intros Halloc Hn Hr Hk.
  destruct (Dreamcast.snd_stream_alloc Dreamcast.SND_STREAM_BUFFER_MAX d) as [h d1] eqn:Ha.
  simpl in Halloc.
  set (taken := {| Dreamcast.available := 0; Dreamcast.bytesLeft := n;
                   Dreamcast.samples := chunk |}).
  set (c2 := {| Dreamcast.bufHead := 0; Dreamcast.channels := Dreamcast.channels ctx;
                Dreamcast.hnd := h;
                Dreamcast.bufs := [taken; Dreamcast.buf_zero; Dreamcast.buf_zero;
                                   Dreamcast.buf_zero];
                Dreamcast.count := 1; Dreamcast.sampleRate := Dreamcast.sampleRate ctx |}).
  set (d2 := Dreamcast.snd_stream_set_userdata h d1).
  assert (Hstart : (Dreamcast.Audio_Init 1;;
                    queued ← Dreamcast.Audio_QueueChunk chunk n;
                    before ← Dreamcast.Audio_Poll;
                    mret (queued, before)) (ctx, d) = Ret ((0, (0, 1)), (c2, d2))).
  { unfold Dreamcast.Audio_Init, Dreamcast.Audio_QueueChunk, Dreamcast.Audio_Poll, for_range.
    unfold_m. simpl. rewrite Ha. simpl.
    destruct (Z.eqb_spec h Dreamcast.SND_STREAM_INVALID); [done|]. simpl.
    rewrite to_int32_in_range by (unfold INT_MIN, INT_MAX in *; lia). done. }
  assert (Hwf2 : Dreamcast.wf c2) by (unfold Dreamcast.wf, AUDIO_MAX_BUFFERS; simpl; lia).
  pose proof (dreamcast_drain r Hr k c2 d2 taken Hwf2 eq_refl) as Hdrain.
  simpl in Hdrain. specialize (Hdrain (proj1 Hn) Hk).
  exists (Dreamcast.released c2), d2.
  revert Hstart. unfold mbind, M_bind, m_bind.
  destruct (Dreamcast.Audio_Init 1 (ctx, d)) as [[r0 s0]|]; [|done].
  destruct (Dreamcast.Audio_QueueChunk chunk n s0) as [[q s1]|]; [|done].
  destruct (Dreamcast.Audio_Poll s1) as [[p s2]|]; [|done].
  unfold_m. intros [= -> -> ->]. rewrite Hdrain. done.
Qed.

Lemma dreamcast_sound_is_streamed_witness :
  ∃ ctx' d',
    (Dreamcast.Audio_Init 1;;
     queued ← Dreamcast.Audio_QueueChunk ex_chunk 8;
     before ← Dreamcast.Audio_Poll;
     got ← Dreamcast.callbacks 3 3;
     after ← Dreamcast.Audio_Poll;
     mret (queued, before, got, after)) (dreamcast_ctx_zero, ([5] : script))
    = Ret ((0, (0, 1), Dreamcast.pieces ex_chunk 8 3 3, (0, 0)), (ctx', d')).
Proof.
  apply (dreamcast_sound_is_streamed script _ dreamcast_ctx_zero [5] ex_chunk 8 3 3).
  - simpl. unfold Dreamcast.SND_STREAM_INVALID. lia.
  - unfold INT_MAX. lia.
  - lia.
  - reflexivity.
Defined.

(** ** Switch: the channels *)

Lemma land_bit_testbit ids i :
  0 ≤ i → (Z.land ids (Z.shiftl 1 i) =? 0) = negb (Z.testbit ids i).
Proof.
  intros Hi. rewrite Z.shiftl_1_l.
  destruct (Z.testbit ids i) eqn:Hb; simpl.
  - apply Z.eqb_neq. intros Hz.
    apply (f_equal (λ x, Z.testbit x i)) in Hz.
    rewrite Z.land_spec, Hb, Z.pow2_bits_true, Z.bits_0 in Hz by lia. done.
  - apply Z.eqb_eq, Z.bits_inj'. intros k Hk.
    rewrite Z.land_spec, Z.bits_0, Z.pow2_bits_eqb by lia.
    destruct (Z.eqb_spec i k) as [->|]; [by rewrite Hb|by rewrite andb_false_r].
Qed.

Section Switch_facts.
Context {D : Type} `{Switch.Driver D}.

#[local] Abbreviation sst := (Switch.AudioContext * (Z * D))%type.

Lemma switch_find_channel i (s : sst) :
  0 ≤ i < 24 →
  Switch.find_channel i s = Ret (if Switch.in_use s.2.1 i then None else Some i, s).
Proof.
  intros Hi. unfold Switch.find_channel, Switch.get_channelIDs, Switch.shl1. unfold_m. simpl.
  destruct (Z.leb_spec 0 i); [|lia]. destruct (Z.ltb_spec i 31); [|lia]. simpl.
  rewrite land_bit_testbit by lia. unfold Switch.in_use.
  destruct (Z.testbit s.2.1 i); simpl; by destruct s.
Qed.

(** [Audio_Init] when channel [j] is free and every channel below it is in
    use. *)
Lemma switch_init_lowest buffers (ctx : Switch.AudioContext) ids (d : D) j :
  0 ≤ j < 24 → Switch.in_use ids j = false →
  (∀ i, 0 ≤ i < j → Switch.in_use ids i = true) →
  Switch.Audio_Init buffers (ctx, (ids, d))
  = Ret (0, (Switch.set_chanID j (Switch.set_count buffers ctx),
             (Z.lor ids (Z.shiftl 1 j), d))).
Proof.
  intros Hj Hfree Hbelow. unfold Switch.Audio_Init, for_range.
  unfold mbind, M_bind, m_bind.
  rewrite (for_loop_first _ _ j _ j (ctx, (ids, d))); [|lia|simpl; lia| |].
  - simpl. destruct (Z.eqb_spec j (-1)); [lia|].
    unfold Switch.get_channelIDs, Switch.shl1. unfold_m. simpl.
    destruct (Z.leb_spec 0 j); [|lia]. destruct (Z.ltb_spec j 31); [|lia]. done.
  - intros k Hk. rewrite switch_find_channel by lia. simpl. by rewrite Hbelow by lia.
  - rewrite switch_find_channel by lia. simpl. by rewrite Hfree.
Qed.

Lemma switch_init_none buffers (ctx : Switch.AudioContext) ids (d : D) :
  (∀ i, 0 ≤ i < 24 → Switch.in_use ids i = true) →
  Switch.Audio_Init buffers (ctx, (ids, d)) = Ret (ERR_INVALID_ARGUMENT, (ctx, (ids, d))).
Proof.
  intros Hall. unfold Switch.Audio_Init, for_range.
  unfold mbind, M_bind, m_bind.
  rewrite for_loop_none; [done|].
  intros k Hk. rewrite switch_find_channel by lia. simpl. by rewrite Hall by lia.
Qed.

(** Every channel below [n] is in use, or there is a lowest free one. *)
Lemma switch_lowest_free ids (n : nat) :
  (∀ i, 0 ≤ i < Z.of_nat n → Switch.in_use ids i = true)
  ∨ ∃ j, 0 ≤ j < Z.of_nat n ∧ Switch.in_use ids j = false ∧
         ∀ i, 0 ≤ i < j → Switch.in_use ids i = true.
Proof.
  induction n as [|n [Hall|(j & Hj & Hfree & Hbelow)]].
  - left. lia.
  - destruct (Switch.in_use ids (Z.of_nat n)) eqn:Hn.
    + left. intros i Hi. destruct (decide (i = Z.of_nat n)) as [->|]; [done|].
      apply Hall. lia.
    + right. exists (Z.of_nat n). split_and!; [lia|lia|done|done].
  - right. exists j. split_and!; [lia|lia|done|done].
Qed.

End Switch_facts.

Lemma lor_bit_in_use ids j i :
  0 ≤ j → 0 ≤ i →
  Switch.in_use (Z.lor ids (Z.shiftl 1 j)) i = Switch.in_use ids i || bool_decide (i = j).
Proof.
  intros Hj Hi. unfold Switch.in_use.
  rewrite Z.lor_spec, Z.shiftl_1_l, Z.pow2_bits_eqb by lia.
  f_equal. destruct (Z.eqb_spec j i); by case_bool_decide; try lia.
Qed.

Lemma land_lnot_bit_restores ids j :
  0 ≤ j → Switch.in_use ids j = false →
  Z.land (Z.lor ids (Z.shiftl 1 j)) (Z.lnot (Z.shiftl 1 j)) = ids.
Proof.
  intros Hj Hfree. unfold Switch.in_use in Hfree. apply Z.bits_inj'. intros k Hk.
  rewrite Z.land_spec, Z.lor_spec, Z.lnot_spec, Z.shiftl_1_l, Z.pow2_bits_eqb by lia.
  destruct (Z.eqb_spec j k) as [->|]; simpl.
  - by rewrite Hfree.
  - by rewrite orb_false_r, andb_true_r.
Qed.

(** What [Audio_Init] does, by whether a channel is free. *)
Lemma switch_init_cases (D : Type) (HD : Switch.Driver D)
    buffers (ctx : Switch.AudioContext) ids (d : D) :
  ((∀ i, 0 ≤ i < 24 → Switch.in_use ids i = true) ∧
   Switch.Audio_Init buffers (ctx, (ids, d)) = Ret (ERR_INVALID_ARGUMENT, (ctx, (ids, d))))
  ∨ ∃ j ids',
      0 ≤ j < 24 ∧ Switch.in_use ids j = false ∧
      (∀ i, 0 ≤ i < j → Switch.in_use ids i = true) ∧
      Switch.Audio_Init buffers (ctx, (ids, d))
      = Ret (0, (Switch.set_chanID j (Switch.set_count buffers ctx), (ids', d))) ∧
      Switch.in_use ids' j = true ∧
      ∀ i, 0 ≤ i → i ≠ j → Switch.in_use ids' i = Switch.in_use ids i.
Proof.
  destruct (switch_lowest_free ids 24) as [Hall|(j & Hj & Hfree & Hbelow)].
  - left. split; [done|]. by apply switch_init_none.
  - right. exists j, (Z.lor ids (Z.shiftl 1 j)).
    split_and!; [lia|lia|done|done|by apply switch_init_lowest| |].
    + rewrite lor_bit_in_use by lia. rewrite bool_decide_eq_true_2 by done.
      by rewrite orb_true_r.
    + intros i Hi Hne. rewrite lor_bit_in_use by lia.
      rewrite bool_decide_eq_false_2 by done. by rewrite orb_false_r.
Qed.

(** X8.  Switch [Audio_Init] takes the free channel of lowest number among
    the 24: it marks that channel in [channelIDs], leaves the marks of all
    other channels, stores the channel and the buffer count in the context
    and answers 0.  With all 24 channels in use it answers
    ERR_INVALID_ARGUMENT and changes nothing. *)
Theorem switch_init_takes_lowest_free_channel (D : Type) (HD : Switch.Driver D)
    buffers (ctx : Switch.AudioContext) ids (d : D) :
  ((∀ i, 0 ≤ i < 24 → Switch.in_use ids i = true) ∧
   Switch.Audio_Init buffers (ctx, (ids, d)) = Ret (ERR_INVALID_ARGUMENT, (ctx, (ids, d))))
  ∨ ∃ j ids',
      0 ≤ j < 24 ∧ Switch.in_use ids j = false ∧
      (∀ i, 0 ≤ i < j → Switch.in_use ids i = true) ∧
      Switch.Audio_Init buffers (ctx, (ids, d))
      = Ret (0, (Switch.set_chanID j (Switch.set_count buffers ctx), (ids', d))) ∧
      Switch.in_use ids' j = true ∧
      ∀ i, 0 ≤ i → i ≠ j → Switch.in_use ids' i = Switch.in_use ids i.
Proof. exact (switch_init_cases D HD buffers ctx ids d). Qed.

(** X9.  Two Switch contexts initialised one after the other never share a
    channel: when a channel is free the first [Audio_Init] gets the lowest
    free one, and the second is refused with ERR_INVALID_ARGUMENT or gets a
    channel of higher number. *)
Theorem switch_second_init_gets_another_channel (D : Type) (HD : Switch.Driver D)
    buffers1 buffers2 (ctx1 ctx2 : Switch.AudioContext) ids (d : D) i :
  0 ≤ i < 24 → Switch.in_use ids i = false →
  ∃ j ids',
    0 ≤ j < 24 ∧
    Switch.Audio_Init buffers1 (ctx1, (ids, d))
    = Ret (0, (Switch.set_chanID j (Switch.set_count buffers1 ctx1), (ids', d))) ∧
    (Switch.Audio_Init buffers2 (ctx2, (ids', d))
     = Ret (ERR_INVALID_ARGUMENT, (ctx2, (ids', d)))
     ∨ ∃ j2 ids'',
         j < j2 < 24 ∧
         Switch.Audio_Init buffers2 (ctx2, (ids', d))
         = Ret (0, (Switch.set_chanID j2 (Switch.set_count buffers2 ctx2), (ids'', d)))).
Proof.
  intros Hi Hfree.
  destruct (switch_init_cases D HD buffers1 ctx1 ids d)
    as [[Hall _]|(j & ids' & Hj & Hjf & Hbelow & Hinit & Hmark & Hrest)].
  { rewrite Hall in Hfree by done. done. }
  exists j, ids'. split_and!; [lia|lia|done|].
  destruct (switch_init_cases D HD buffers2 ctx2 ids' d)
    as [[_ Hno]|(j2 & ids'' & Hj2 & Hj2f & Hbelow2 & Hinit2 & _)].
  - by left.
  - right. exists j2, ids''. split; [|done].
    assert (j2 ≠ j) by (intros ->; by rewrite Hmark in Hj2f).
    destruct (Z.lt_trichotomy j2 j) as [Hlt|[?|?]]; [|done|lia].
    rewrite Hrest in Hj2f by lia. rewrite Hbelow in Hj2f by lia. done.
Qed.

Lemma switch_second_init_gets_another_channel_witness :
  ∃ j ids',
    0 ≤ j < 24 ∧
    Switch.Audio_Init 1 (switch_ctx_zero, (5, ([] : script)))
    = Ret (0, (Switch.set_chanID j (Switch.set_count 1 switch_ctx_zero), (ids', []))) ∧
    (Switch.Audio_Init 4 (switch_ctx_zero, (ids', ([] : script)))
     = Ret (ERR_INVALID_ARGUMENT, (switch_ctx_zero, (ids', [])))
     ∨ ∃ j2 ids'',
         j < j2 < 24 ∧
         Switch.Audio_Init 4 (switch_ctx_zero, (ids', ([] : script)))
         = Ret (0, (Switch.set_chanID j2 (Switch.set_count 4 switch_ctx_zero), (ids'', [])))).
Proof.
  apply (switch_second_init_gets_another_channel script _ 1 4 switch_ctx_zero switch_ctx_zero
           5 [] 1).
  - lia.
  - reflexivity.
Defined.

(** X10.  Switch [Audio_Close] gives the channel back only when the
    context has buffers: after [Audio_Init] with a buffer count other than
    0, [Audio_Close] stops the voice and leaves [channelIDs] as it was
    before the [Audio_Init]; after [Audio_Init] with 0 buffers the channel
    stays marked in use. *)
Theorem switch_init_close (D : Type) (HD : Switch.Driver D)
    buffers (ctx : Switch.AudioContext) ids (d : D) j :
  0 ≤ j < 24 → Switch.in_use ids j = false →
  (∀ i, 0 ≤ i < j → Switch.in_use ids i = true) →
  (Switch.Audio_Init buffers;; Switch.Audio_Close) (ctx, (ids, d))
  = Ret (tt, (Switch.set_count 0 (Switch.set_chanID j (Switch.set_count buffers ctx)),
              if buffers =? 0
              then (Z.lor ids (Z.shiftl 1 j), d)
              else (ids, Switch.audrvVoiceStop j d))).
Proof.
  intros Hj Hfree Hbelow. unfold mbind, M_bind, m_bind.
  rewrite (switch_init_lowest buffers ctx ids d j) by done.
  unfold Switch.Audio_Close, Switch.call_driver, Switch.get_channelIDs,
    Switch.set_channelIDs, Switch.shl1.
  unfold_m. simpl. destruct (Z.eqb_spec buffers 0); simpl; [done|].
  destruct (Z.leb_spec 0 j); [|lia]. destruct (Z.ltb_spec j 31); [|lia]. simpl.
  by rewrite land_lnot_bit_restores by (done || lia).
Qed.

Lemma switch_init_close_witness :
  (Switch.Audio_Init 1;; Switch.Audio_Close) (switch_ctx_zero, (5, ([] : script)))
  = Ret (tt, (Switch.set_count 0 (Switch.set_chanID 1 (Switch.set_count 1 switch_ctx_zero)),
              if 1 =? 0
              then (Z.lor 5 (Z.shiftl 1 1), [])
              else (5, Switch.audrvVoiceStop 1 []))).
Proof.
  apply (switch_init_close script _ 1 switch_ctx_zero 5 [] 1).
  - lia.
  - reflexivity.
  - intros i Hi. assert (i = 0) as -> by lia. reflexivity.
Defined.

(** ** Common backend code: chunks, volume and the scratch buffer *)

(** X11.  [AudioBase_AllocChunks] asks for one block of
    [numChunks * size] bytes.  When the allocator grants it the call
    answers 0 with [numChunks] pointers into the new block, [size] bytes
    apart from its start, each with [size] bytes to read, and
    [AudioBase_FreeChunks] on them gives the heap back as it was.  When the
    allocator refuses the call answers ERR_OUT_OF_MEMORY, gives no pointer
    and leaves the heap alone. *)
Theorem audiobase_alloc_chunks_one_block (D : Type) (HA : Allocator D)
    size numChunks (w : heap * D) :
  0 < size → 0 < numChunks → size * numChunks ≤ INT_MAX →
  ((mem_grant (numChunks * size) w.2).1 = true →
   ∃ b w',
     AudioBase_AllocChunks size numChunks w
     = (0, (λ i, Some (Addr b (size * i))) <$> seqZ 0 numChunks, w') ∧
     w.1 !! b = None ∧
     w'.1 = <[b := replicate (Z.to_nat (numChunks * size)) 0]> w.1 ∧
     (∀ i, 0 ≤ i < numChunks →
        ∃ bytes, load w'.1 (Some (Addr b (size * i))) size = Ret bytes) ∧
     AudioBase_FreeChunks ((λ i, Some (Addr b (size * i))) <$> seqZ 0 numChunks)
       numChunks w'.1 = Ret w.1)
  ∧
  ((mem_grant (numChunks * size) w.2).1 = false →
   (AudioBase_AllocChunks size numChunks w).1 = (ERR_OUT_OF_MEMORY, []) ∧
   (AudioBase_AllocChunks size numChunks w).2.1 = w.1).
Proof.
  intros Hsize Hnum Hmax. split.
  - intros Hg. by apply AudioBase_AllocChunks_spec.
  - intros Hg. unfold INT_MAX in Hmax.
    assert (Hn : to_uint32 numChunks * to_uint32 size = numChunks * size).
    { rewrite !to_uint32_in_range by nia. done. }
    split.
    + apply AudioBase_AllocChunks_out_of_memory. by rewrite Hn.
    + unfold AudioBase_AllocChunks, Mem_TryAlloc. simpl. rewrite Hn.
      destruct (mem_grant _ w.2) as [ok d']. simpl in Hg. by subst ok.
Qed.

Lemma audiobase_alloc_chunks_one_block_witness :
  (∃ b w',
     AudioBase_AllocChunks 100 4 (ex_heap, ([] : script))
     = (0, (λ i, Some (Addr b (100 * i))) <$> seqZ 0 4, w') ∧
     (ex_heap, ([] : script)).1 !! b = None ∧
     w'.1 = <[b := replicate (Z.to_nat (4 * 100)) 0]> (ex_heap, ([] : script)).1 ∧
     (∀ i, 0 ≤ i < 4 →
        ∃ bytes, load w'.1 (Some (Addr b (100 * i))) 100 = Ret bytes) ∧
     AudioBase_FreeChunks ((λ i, Some (Addr b (100 * i))) <$> seqZ 0 4) 4 w'.1
     = Ret (ex_heap, ([] : script)).1)
  ∧
  ((AudioBase_AllocChunks 100 4 (ex_heap, ([1] : script))).1 = (ERR_OUT_OF_MEMORY, []) ∧
   (AudioBase_AllocChunks 100 4 (ex_heap, ([1] : script))).2.1
   = (ex_heap, ([1] : script)).1).
Proof.
  split.
  - apply (audiobase_alloc_chunks_one_block script _ 100 4 (ex_heap, []));
      [lia|lia|unfold INT_MAX; lia|reflexivity].
  - apply (audiobase_alloc_chunks_one_block script _ 100 4 (ex_heap, [1]));
      [lia|lia|unfold INT_MAX; lia|reflexivity].
Defined.

(** X12.  Dreamcast [Audio_AllocChunks] rounds the size up to a multiple
    of 32 and asks for [numChunks] times that: the pointers it gives are the
    rounded size apart and each has the rounded size to read inside the one
    block. *)
Theorem dreamcast_alloc_chunks_inside_block (D : Type) (HA : Allocator D)
    size numChunks (w : heap * D) :
  0 < size ≤ INT_MAX → 0 < numChunks →
  let rounded := 32 * ((size + 31) / 32) in
  rounded * numChunks < 2 ^ 32 →
  (mem_grant (rounded * numChunks) w.2).1 = true →
  ∃ b w',
    Dreamcast.Audio_AllocChunks size numChunks w
    = (0, (λ i, Some (Addr b (rounded * i))) <$> seqZ 0 numChunks, w') ∧
    size ≤ rounded < size + 32 ∧
    (∀ i, 0 ≤ i < numChunks →
       ∃ bytes, load w'.1 (Some (Addr b (rounded * i))) rounded = Ret bytes).
Proof.
  intros Hsize Hnum rounded Hmax Hg. unfold INT_MAX in Hsize.
  assert (Hr : size ≤ rounded < size + 32).
  { unfold rounded. pose proof (Z.mod_pos_bound (size + 31) 32).
    pose proof (Z.div_mod (size + 31) 32). lia. }
  unfold Dreamcast.Audio_AllocChunks, memalign. rewrite round_up_32 by lia. fold rounded.
  assert (Hn : to_uint32 1 * to_uint32 (to_uint32 (rounded * numChunks))
               = rounded * numChunks).
  { rewrite !to_uint32_in_range; rewrite ?to_uint32_in_range; nia. }
  destruct (Mem_TryAlloc_granted 1 (to_uint32 (rounded * numChunks)) w) as [Ha Hfresh];
    [by rewrite Hn|].
  rewrite Hn in Ha. rewrite Ha. rewrite map_fmap.
  eexists _, _. split_and!; [|lia|lia|].
  - f_equal. f_equal. apply list_fmap_ext. intros k i [-> ?]%lookup_seqZ. simpl.
    rewrite to_uint32_in_range by nia. done.
  - intros i Hi. simpl. unfold load.
    destruct (Z.eqb_spec rounded 0); [lia|]. simpl. rewrite lookup_insert_eq.
    rewrite (proj2 (in_block_spec _ _ _)); [eauto|].
    rewrite length_replicate. nia.
Qed.

Lemma dreamcast_alloc_chunks_inside_block_witness :
  ∃ b w',
    Dreamcast.Audio_AllocChunks 100 4 (ex_heap, ([] : script))
    = (0, (λ i, Some (Addr b (128 * i))) <$> seqZ 0 4, w') ∧
    100 ≤ 128 < 100 + 32 ∧
    (∀ i, 0 ≤ i < 4 → ∃ bytes, load w'.1 (Some (Addr b (128 * i))) 128 = Ret bytes).
Proof.
  apply (dreamcast_alloc_chunks_inside_block script _ 100 4 (ex_heap, [])).
  - unfold INT_MAX. lia.
  - lia.
  - reflexivity.
  - reflexivity.
Defined.

(** X13.  [ApplyVolume] scales the first [count] samples of the array and
    no other: the loop that takes eight samples a turn and the loop for
    the rest cover exactly the samples before [count], whatever [count] is
    modulo 8, and the array keeps its length. *)
Theorem applyvolume_scales_first_count samples count volume :
  count ≤ Z.of_nat (length samples) →
  ApplyVolume samples count volume
  = ((λ s, scale_sample s volume) <$> take (Z.to_nat count) samples)
    ++ drop (Z.to_nat count) samples
  ∧ length (ApplyVolume samples count volume) = length samples.
Proof.
  intros _. rewrite ApplyVolume_spec. split; [done|]. apply scaled_upto_length.
Qed.

Lemma applyvolume_scales_first_count_witness :
  ApplyVolume [100; -100; 32767; -32768; 5; 6; 7; 8; 9; 10; 11] 10 50
  = ((λ s, scale_sample s 50) <$> take (Z.to_nat 10)
       [100; -100; 32767; -32768; 5; 6; 7; 8; 9; 10; 11])
    ++ drop (Z.to_nat 10) [100; -100; 32767; -32768; 5; 6; 7; 8; 9; 10; 11]
  ∧ length (ApplyVolume [100; -100; 32767; -32768; 5; 6; 7; 8; 9; 10; 11] 10 50)
    = length [100; -100; 32767; -32768; 5; 6; 7; 8; 9; 10; 11].
Proof. apply applyvolume_scales_first_count. simpl. lia. Defined.

Lemma store_other (h : heap) p bs h' b :
  store h p bs = Ret h' → (∀ a, p = Some a → b ≠ blk a) → h' !! b = h !! b.
Proof.
  unfold store. intros Hst Hne.
  destruct (length bs =? 0)%nat; [by injection Hst as <-|].
  destruct p as [a|]; [|done]. destruct (h !! blk a); [|done].
  destruct (in_block _ _ _); [|done]. injection Hst as <-.
  rewrite lookup_insert_ne; [done|]. intros Heq. by apply (Hne a).
Qed.

Lemma Mem_Copy_other (h : heap) dst src n h' b :
  Mem_Copy dst src n h = Ret h' → (∀ a, dst = Some a → b ≠ blk a) → h' !! b = h !! b.
Proof.
  unfold Mem_Copy. destruct (load h src n); [|done]. apply store_other.
Qed.

Lemma ApplyVolume_at_other (h : heap) audio count v h' b :
  ApplyVolume_at audio count v h = Ret h' → (∀ a, audio = Some a → b ≠ blk a) →
  h' !! b = h !! b.
Proof.
  unfold ApplyVolume_at. destruct (load h audio (2 * count)); [|done]. apply store_other.
Qed.

Section WinMM_scratch.
Context {D : Type} `{Allocator D} `{WinMM.Driver D}.

(** The copy and the scaling write to the block of [audio] only. *)
Lemma copy_scale_other (h : heap) audio chunk size v h1 h2 b :
  Mem_Copy audio chunk size h = Ret h1 → ApplyVolume_at audio (size / 2) v h1 = Ret h2 →
  (∀ a, audio = Some a → b ≠ blk a) → h2 !! b = h !! b.
Proof.
  intros Hm Ha Hne.
  rewrite (ApplyVolume_at_other _ _ _ _ _ _ Ha Hne). by eapply Mem_Copy_other.
Qed.

Lemma winmm_adjust_other data size (ctx : WinMM.AudioContext) (w : heap * D) r ctx' w' b :
  WinMM.AudioBase_AdjustSound data size (ctx, w) = Ret (r, (ctx', w')) →
  b ≠ fresh (dom w.1) → (∀ a, WinMM._tmpData ctx = Some a → b ≠ blk a) →
  w'.1 !! b = w.1 !! b.
Proof.
  destruct w as [h d]. unfold WinMM.AudioBase_AdjustSound, Mem_TryRealloc, Mem_TryAlloc.
  unfold_m. simpl. intros Hadj Hfresh Hold.
  repeat (case_match; simplify_eq/=; try done).
  all: try (erewrite copy_scale_other; [| eassumption | eassumption |]).
  all: try (rewrite lookup_insert_ne by done).
  all: try (rewrite lookup_delete_ne by (intros ->; by eapply Hold)).
  all: try done.
  all: try (intros ? [= <-]; simpl; done).
  all: try (intros ? [= <-]; by eapply Hold).
  all: apply lookup_delete_ne; intros Heq; by eapply (Hold _ eq_refl).
Qed.

Lemma winmm_adjust_scratch_size chunk size (ctx : WinMM.AudioContext) (w : heap * D)
    r ctx' w' :
  WinMM.AudioBase_AdjustSound (Some chunk) size (ctx, w) = Ret (r, (ctx', w')) →
  WinMM.volume ctx < 100 →
  WinMM._tmpSize ctx' = Z.max (WinMM._tmpSize ctx) size ∧
  (size ≤ WinMM._tmpSize ctx → WinMM._tmpData ctx' = WinMM._tmpData ctx ∧ w'.2 = w.2).
Proof.
  destruct w as [h d]. unfold WinMM.AudioBase_AdjustSound, Mem_TryRealloc, Mem_TryAlloc.
  unfold_m. simpl. intros Hadj Hvol.
  repeat (case_match; simplify_eq/=; try done).
  all: repeat match goal with
       | Hc : (_ >=? _) = _ |- _ => apply Z.geb_le in Hc || (rewrite Z.geb_leb in Hc; apply Z.leb_gt in Hc)
       | Hc : (_ <? _) = true |- _ => apply Z.ltb_lt in Hc
       | Hc : (_ <? _) = false |- _ => apply Z.ltb_ge in Hc
       end.
  all: split; [lia|]; intros; try lia; done.
Qed.

End WinMM_scratch.

(** X14.  The scratch buffer of [AudioBase_AdjustSound] only grows: after
    a call below volume 100 that returns, [_tmpSize] is the larger of its
    old value and the size of the chunk; a chunk that fits is adjusted in
    the buffer already there, without a call of the allocator. *)
Theorem adjust_sound_scratch_only_grows (D : Type) (HA : Allocator D) (HW : WinMM.Driver D)
    (ctx : WinMM.AudioContext) (w : heap * D) chunk size r ctx' w' :
  WinMM.volume ctx < 100 →
  WinMM.AudioBase_AdjustSound (Some chunk) size (ctx, w) = Ret (r, (ctx', w')) →
  WinMM._tmpSize ctx' = Z.max (WinMM._tmpSize ctx) size ∧
  (size ≤ WinMM._tmpSize ctx → WinMM._tmpData ctx' = WinMM._tmpData ctx ∧ w'.2 = w.2).
Proof. intros Hvol Hadj. by eapply winmm_adjust_scratch_size. Qed.

Lemma adjust_sound_scratch_only_grows_witness :
  WinMM._tmpSize winmm_full_ctx = Z.max (WinMM._tmpSize winmm_full_ctx) 4 ∧
  (4 ≤ WinMM._tmpSize winmm_full_ctx →
   WinMM._tmpData winmm_full_ctx = WinMM._tmpData winmm_full_ctx ∧
   (winmm_full_heap, ([] : script)).2 = (winmm_full_heap, ([] : script)).2).
Proof.
  apply (adjust_sound_scratch_only_grows script _ _ winmm_full_ctx (winmm_full_heap, [])
           ex_chunk 4 (true, Some (Some (Addr 1 0)), 4) winmm_full_ctx (winmm_full_heap, [])).
  - simpl. lia.
  - vm_compute. reflexivity.
Defined.

(** X15.  [AudioBase_AdjustSound] writes to its scratch buffer and to
    nothing else: bytes that could be read before the call from a block
    other than the scratch buffer's read the same after it.  The chunk of
    the caller is such a block, so scaling never alters the samples it is
    given. *)
Theorem adjust_sound_writes_scratch_only (D : Type) (HA : Allocator D) (HW : WinMM.Driver D)
    (ctx : WinMM.AudioContext) (w : heap * D) data size r ctx' w' q n out :
  WinMM.AudioBase_AdjustSound data size (ctx, w) = Ret (r, (ctx', w')) →
  load w.1 q n = Ret out →
  (∀ a c, WinMM._tmpData ctx = Some a → q = Some c → blk c ≠ blk a) →
  load w'.1 q n = Ret out.
Proof.
  intros Hadj Hload Hne.
  destruct (load_Ret _ _ _ _ Hload) as [[-> ->]|(Hn & c & bb & -> & Hbb & Hin & ->)].
  { unfold load. by rewrite Z.eqb_refl. }
  assert (Hsame : w'.1 !! blk c = w.1 !! blk c).
  { eapply winmm_adjust_other; [exact Hadj| |].
    - intros Heq. pose proof (fresh_block w.1) as Hf. rewrite <- Heq, Hbb in Hf. done.
    - intros a Ha. by eapply Hne. }
  unfold load. destruct (Z.eqb_spec n 0); [done|]. simpl. by rewrite Hsame, Hbb, Hin.
Qed.

Lemma adjust_sound_writes_scratch_only_witness :
  ∃ r ctx' w',
    WinMM.AudioBase_AdjustSound (Some ex_chunk) 8
      (winmm_full_ctx, (winmm_full_heap, ([] : script))) = Ret (r, (ctx', w'))
    ∧ load w'.1 ex_chunk 8 = Ret [100; 0; 156; 255; 255; 127; 0; 128].
Proof.
  eexists _, _, _. split; [vm_compute; reflexivity|].
  eapply (adjust_sound_writes_scratch_only script _ _ winmm_full_ctx
            (winmm_full_heap, []) (Some ex_chunk) 8).
  - vm_compute. reflexivity.
  - reflexivity.
  - intros a c [= <-] [= <-]. simpl. lia.
Defined.
(** ** WinMM: the headers of a context *)

Section WinMM_slots.
Context {D : Type} `{Allocator D} `{WinMM.Driver D}.

#[local] Abbreviation wst := (WinMM.AudioContext * (heap * D))%type.

Lemma winmm_get_header_at i h (s : wst) :
  0 ≤ i → WinMM.headers s.1 !! Z.to_nat i = Some h →
  WinMM.get_header i s = Ret (h, s).
Proof.
  intros Hi Hl. unfold WinMM.get_header, arr_get. unfold_m. simpl.
  destruct (Z.leb_spec 0 i); [|lia]. by rewrite Hl.
Qed.

Lemma winmm_put_header_at i hdr (s : wst) :
  0 ≤ i < Z.of_nat (length (WinMM.headers s.1)) →
  WinMM.put_header i hdr s
  = Ret (tt, (WinMM.set_headers (<[Z.to_nat i := hdr]> (WinMM.headers s.1)) s.1, s.2)).
Proof.
  intros Hi. unfold WinMM.put_header, arr_set. unfold_m. simpl.
  destruct (Z.leb_spec 0 i); [|lia].
  destruct (Z.ltb_spec i (Z.of_nat (length (WinMM.headers s.1)))); [|lia]. done.
Qed.

Lemma winmm_init_loop fuel : ∀ i lim (s : wst),
  0 ≤ i → lim ≤ Z.of_nat (length (WinMM.headers s.1)) →
  (Z.to_nat (lim - i) ≤ fuel)%nat →
  ∃ hs,
    for_loop fuel i lim WinMM.init_slot s = Ret (None, (WinMM.set_headers hs s.1, s.2)) ∧
    length hs = length (WinMM.headers s.1) ∧
    (∀ k, (Z.of_nat k < i ∨ lim ≤ Z.of_nat k) → hs !! k = WinMM.headers s.1 !! k) ∧
    (∀ k h, i ≤ Z.of_nat k < lim → hs !! k = Some h → WinMM.dwFlags h = WinMM.WHDR_DONE).
Proof.
  induction fuel as [|fuel IH]; intros i lim [c w] Hi Hlim Hfuel; simpl in *.
  - exists (WinMM.headers c). destruct c. split_and!; [done|done|done|]. intros; lia.
  - destruct (Z.ltb_spec i lim) as [Hlt|Hge].
    + destruct (lookup_lt_is_Some_2 (WinMM.headers c) (Z.to_nat i)) as [h Hh]; [lia|].
      unfold mbind at 1, M_bind, m_bind.
      assert (WinMM.init_slot i (c, w)
              = Ret (None, (WinMM.set_headers
                              (<[Z.to_nat i := WinMM.set_dwFlags WinMM.WHDR_DONE h]>
                                 (WinMM.headers c)) c, w))) as ->.
      { unfold WinMM.init_slot. unfold mbind, M_bind, m_bind.
        rewrite (winmm_get_header_at i h) by done.
        rewrite winmm_put_header_at by (simpl; lia). done. }
      destruct (IH (i + 1) lim
                  (WinMM.set_headers
                     (<[Z.to_nat i := WinMM.set_dwFlags WinMM.WHDR_DONE h]>
                        (WinMM.headers c)) c, w)) as (hs & Hrun & Hlen & Hout & Hin);
        [lia|simpl; rewrite length_insert; lia|lia|].
      simpl in *. rewrite length_insert in Hlen.
      exists hs. split_and!; [done|done| |].
      * intros k Hk. rewrite Hout by lia. apply list_lookup_insert_ne. lia.
      * intros k h' Hk Hl. destruct (decide (Z.of_nat k = i)) as [<-|Hne].
        -- rewrite Hout in Hl by lia. rewrite Nat2Z.id in Hl.
           rewrite list_lookup_insert_eq in Hl by (apply lookup_lt_is_Some; rewrite Nat2Z.id in Hh; eauto).
           by injection Hl as <-.
        -- apply (Hin k); [lia|done].
    + exists (WinMM.headers c). destruct c. split_and!; [done|done|done|]. intros; lia.
Qed.

Lemma winmm_init_slot_at i h (s : wst) :
  0 ≤ i → WinMM.headers s.1 !! Z.to_nat i = Some h →
  WinMM.init_slot i s
  = Ret (None, (WinMM.set_headers
                  (<[Z.to_nat i := WinMM.set_dwFlags WinMM.WHDR_DONE h]> (WinMM.headers s.1))
                  s.1, s.2)).
Proof.
  intros Hi Hh. unfold WinMM.init_slot. unfold mbind, M_bind, m_bind.
  rewrite (winmm_get_header_at i h) by done.
  rewrite winmm_put_header_at; [done|].
  apply lookup_lt_Some in Hh. lia.
Qed.

(** More buffers than the array has headers: the loop of [Audio_Init]
    writes past the end of [ctx->headers]. *)
Lemma winmm_init_overrun fuel : ∀ i lim (s : wst),
  0 ≤ i ≤ Z.of_nat (length (WinMM.headers s.1)) →
  Z.of_nat (length (WinMM.headers s.1)) < lim →
  (Z.to_nat (lim - i) ≤ fuel)%nat →
  for_loop fuel i lim WinMM.init_slot s = Fault.
Proof.
  induction fuel as [|fuel IH]; intros i lim [c w] Hi Hlim Hfuel; simpl in *; [lia|].
  destruct (Z.ltb_spec i lim) as [Hlt|Hge]; [|lia].
  unfold mbind at 1, M_bind, m_bind.
  destruct (WinMM.headers c !! Z.to_nat i) as [h|] eqn:Hh.
  - rewrite (winmm_init_slot_at i h) by (done || lia).
    apply lookup_lt_Some in Hh.
    apply IH; simpl; rewrite ?length_insert; lia.
  - unfold WinMM.init_slot, WinMM.get_header, arr_get. unfold_m. simpl.
    destruct (Z.leb_spec 0 i); [|lia]. by rewrite Hh.
Qed.

(** [Audio_Poll]'s loop over headers that are done and not prepared. *)
Lemma winmm_poll_idle_loop lim fuel : ∀ i acc (s : wst),
  0 ≤ i →
  (∀ k h, i ≤ Z.of_nat k < lim → WinMM.headers s.1 !! k = Some h →
     WinMM.has_flag h WinMM.WHDR_DONE = true ∧ WinMM.has_flag h WinMM.WHDR_PREPARED = false) →
  lim ≤ Z.of_nat (length (WinMM.headers s.1)) →
  for_acc fuel i lim WinMM.poll_slot acc s = Ret (acc, s).
Proof.
  induction fuel as [|fuel IH]; intros i acc s Hi Hidle Hlim; simpl; [done|].
  destruct (Z.ltb_spec i lim) as [Hlt|Hge]; [|done].
  destruct (lookup_lt_is_Some_2 (WinMM.headers s.1) (Z.to_nat i)) as [h Hh]; [lia|].
  destruct (Hidle (Z.to_nat i) h) as [Hd Hp]; [lia|done|].
  unfold mbind at 1, M_bind, m_bind.
  assert (WinMM.poll_slot i acc s = Ret ((acc, false), s)) as ->.
  { unfold WinMM.poll_slot. unfold mbind, M_bind, m_bind.
    rewrite (winmm_get_header_at i h) by done. by rewrite Hd, Hp. }
  apply IH; [lia| |done]. intros k h' Hk. apply Hidle. lia.
Qed.

Lemma winmm_done_only h :
  WinMM.dwFlags h = WinMM.WHDR_DONE →
  WinMM.has_flag h WinMM.WHDR_DONE = true ∧ WinMM.has_flag h WinMM.WHDR_PREPARED = false.
Proof. unfold WinMM.has_flag. by intros ->. Qed.

Lemma winmm_init (c : WinMM.AudioContext) (w : heap * D) n :
  length (WinMM.headers c) = Z.to_nat AUDIO_MAX_BUFFERS → 0 ≤ n ≤ AUDIO_MAX_BUFFERS →
  ∃ hs,
    let c' := WinMM.set_volume 100 (WinMM.set_count n (WinMM.set_headers hs c)) in
    WinMM.Audio_Init n (c, w) = Ret (0, (c', w)) ∧
    WinMM.wf c' ∧ WinMM.free_slots c' = n ∧
    WinMM.Audio_Poll (c', w) = Ret ((0, 0), (c', w)) ∧
    (∀ k h, Z.of_nat k < n → hs !! k = Some h → WinMM.dwFlags h = WinMM.WHDR_DONE) ∧
    drop (Z.to_nat n) hs = drop (Z.to_nat n) (WinMM.headers c).
Proof.
  intros Hlen Hn. unfold AUDIO_MAX_BUFFERS in *.
  destruct (winmm_init_loop (Z.to_nat (n - 0)) 0 n (c, w)) as (hs & Hrun & Hl & Hout & Hin);
    [lia|simpl; lia|lia|].
  simpl in *. exists hs. cbv zeta.
  assert (Hdone : ∀ k h, Z.of_nat k < n → hs !! k = Some h →
                         WinMM.dwFlags h = WinMM.WHDR_DONE).
  { intros k h Hk. apply Hin. lia. }
  split_and!.
  - unfold WinMM.Audio_Init, for_range. unfold mbind at 1, M_bind, m_bind.
    rewrite Hrun. done.
  - unfold WinMM.wf, AUDIO_MAX_BUFFERS. simpl. lia.
  - unfold WinMM.free_slots. simpl. rewrite count_if_all.
    + rewrite length_take. lia.
    + intros k h [Hk Hlt]%lookup_take_Some.
      apply winmm_done_only. apply (Hdone k); [lia|done].
  - unfold WinMM.Audio_Poll. unfold_m. simpl.
    rewrite winmm_poll_idle_loop; [done|done| |simpl; lia].
    simpl. intros k h Hk Hh. apply winmm_done_only. apply (Hdone k); [lia|done].
  - done.
  - apply list_eq. intros k. rewrite !lookup_drop. apply Hout. lia.
Qed.

Lemma winmm_init_too_many (c : WinMM.AudioContext) (w : heap * D) n :
  Z.of_nat (length (WinMM.headers c)) < n →
  WinMM.Audio_Init n (c, w) = Fault.
Proof.
  intros Hn. unfold WinMM.Audio_Init, for_range. unfold mbind at 1, M_bind, m_bind.
  rewrite winmm_init_overrun; [done|simpl; lia|simpl; lia|lia].
Qed.

End WinMM_slots.
Section WinMM_queue.
Context {D : Type} `{Allocator D} `{WinMM.Driver D}.

#[local] Abbreviation wst := (WinMM.AudioContext * (heap * D))%type.

Lemma winmm_prepare_header_at i h (c : WinMM.AudioContext) hp (d : D) :
  0 ≤ i → WinMM.headers c !! Z.to_nat i = Some h →
  let r := WinMM.waveOutPrepareHeader (WinMM.handle c) h d in
  WinMM.prepare_header i (c, (hp, d))
  = Ret (r.1,
         (if r.1 =? 0
          then WinMM.set_headers
                 (<[Z.to_nat i := WinMM.set_dwFlags
                                    (Z.lor (WinMM.dwFlags h) WinMM.WHDR_PREPARED) h]>
                    (WinMM.headers c)) c
          else c, (hp, r.2))).
Proof.
  intros Hi Hh r. unfold WinMM.prepare_header. unfold mbind, M_bind, m_bind.
  unfold getctx. simpl.
  rewrite (winmm_get_header_at i h) by done.
  unfold call_env. simpl. fold r.
  destruct (r.1 =? 0).
  - rewrite winmm_put_header_at; [done|]. apply lookup_lt_Some in Hh. simpl. lia.
  - done.
Qed.

Lemma winmm_write_header_at i h (c : WinMM.AudioContext) hp (d : D) :
  0 ≤ i → WinMM.headers c !! Z.to_nat i = Some h →
  let r := WinMM.waveOutWrite (WinMM.handle c) h d in
  WinMM.write_header i (c, (hp, d))
  = Ret (r.1,
         (if r.1 =? 0
          then WinMM.set_headers
                 (<[Z.to_nat i :=
                      WinMM.set_dwFlags
                        (Z.land (Z.lor (WinMM.dwFlags h) WinMM.WHDR_INQUEUE)
                                (Z.lnot WinMM.WHDR_DONE)) h]>
                    (WinMM.headers c)) c
          else c, (hp, r.2))).
Proof.
  intros Hi Hh r. unfold WinMM.write_header. unfold mbind, M_bind, m_bind.
  unfold getctx. simpl.
  rewrite (winmm_get_header_at i h) by done.
  unfold call_env. simpl. fold r.
  destruct (r.1 =? 0).
  - rewrite winmm_put_header_at; [done|]. apply lookup_lt_Some in Hh. simpl. lia.
  - done.
Qed.

Lemma winmm_queue_slot_busy chunk size i h (s : wst) :
  0 ≤ i → WinMM.headers s.1 !! Z.to_nat i = Some h →
  WinMM.has_flag h WinMM.WHDR_DONE = false →
  WinMM.queue_slot chunk size i s = Ret (None, s).
Proof.
  intros Hi Hh Hd. unfold WinMM.queue_slot. unfold mbind, M_bind, m_bind.
  rewrite (winmm_get_header_at i h) by done. by rewrite Hd.
Qed.

(** The header a chunk is queued with, before the driver has seen it. *)
#[local] Abbreviation fresh_hdr chunk size :=
  {| WinMM.lpData := chunk; WinMM.dwBufferLength := size; WinMM.dwBytesRecorded := 0;
     WinMM.dwUser := 0; WinMM.dwFlags := 0; WinMM.dwLoops := 1; WinMM.lpNext := NULL;
     WinMM.reserved := 0 |}.

Lemma winmm_queue_slot_free chunk size i h (c : WinMM.AudioContext) hp (d : D) :
  0 ≤ i → WinMM.headers c !! Z.to_nat i = Some h →
  WinMM.has_flag h WinMM.WHDR_DONE = true →
  let p := WinMM.waveOutPrepareHeader (WinMM.handle c) (fresh_hdr chunk size) d in
  let q := WinMM.waveOutWrite (WinMM.handle c)
             (WinMM.set_dwFlags WinMM.WHDR_PREPARED (fresh_hdr chunk size)) p.2 in
  ∃ hdr,
    WinMM.queue_slot chunk size i (c, (hp, d))
    = Ret (Some (if p.1 =? 0 then q.1 else p.1),
           (WinMM.set_headers (<[Z.to_nat i := hdr]> (WinMM.headers c)) c,
            (hp, if p.1 =? 0 then q.2 else p.2))) ∧
    WinMM.lpData hdr = chunk ∧ WinMM.dwBufferLength hdr = size ∧
    WinMM.has_flag hdr WinMM.WHDR_DONE = false ∧
    (p.1 = 0 → q.1 = 0 →
     WinMM.has_flag hdr WinMM.WHDR_PREPARED = true ∧
     WinMM.has_flag hdr WinMM.WHDR_INQUEUE = true).
Proof.
  intros Hi Hh Hd p q.
  pose proof (lookup_lt_Some _ _ _ Hh) as Hlt.
  unfold WinMM.queue_slot. unfold mbind at 1, M_bind, m_bind.
  rewrite (winmm_get_header_at i h) by done. rewrite Hd. simpl.
  unfold mbind at 1, M_bind, m_bind.
  rewrite winmm_put_header_at by (simpl; lia). simpl.
  unfold mbind at 1, M_bind, m_bind.
  rewrite (winmm_prepare_header_at i (fresh_hdr chunk size))
    by (done || (simpl; by rewrite list_lookup_insert_eq)).
  simpl. fold p. destruct (Z.eqb_spec p.1 0) as [Hp|Hp]; simpl.
  - rewrite list_insert_insert_eq.
    unfold mbind at 1, M_bind, m_bind.
    rewrite (winmm_write_header_at i (WinMM.set_dwFlags WinMM.WHDR_PREPARED (fresh_hdr chunk size)))
      by (done || (simpl; by rewrite list_lookup_insert_eq)).
    simpl. fold q. destruct (Z.eqb_spec q.1 0) as [Hq|Hq]; simpl.
    + rewrite list_insert_insert_eq. rewrite Hq. eexists. split; [reflexivity|].
      split_and!; try done.
    + eexists. split; [reflexivity|]. split_and!; try done.
  - rewrite list_insert_insert_eq || idtac.
    eexists. split; [reflexivity|]. split_and!; try done.
Qed.

Lemma winmm_first_free (c : WinMM.AudioContext) :
  WinMM.wf c → 0 < WinMM.free_slots c →
  ∃ j h, 0 ≤ j < WinMM.count c ∧
    WinMM.headers c !! Z.to_nat j = Some h ∧ WinMM.has_flag h WinMM.WHDR_DONE = true ∧
    ∀ i, 0 ≤ i < j →
      ∃ h', WinMM.headers c !! Z.to_nat i = Some h' ∧
            WinMM.has_flag h' WinMM.WHDR_DONE = false.
Proof.
  intros [Hlen Hc] Hfree. unfold AUDIO_MAX_BUFFERS in *.
  apply count_if_first in Hfree as (j & h & Hj & Hd & Hmin).
  apply lookup_take_Some in Hj as [Hj Hlt].
  exists (Z.of_nat j), h. rewrite Nat2Z.id. split_and!; [lia|lia|done|done|].
  intros i Hi.
  destruct (lookup_lt_is_Some_2 (WinMM.headers c) (Z.to_nat i)) as [h' Hh']; [lia|].
  exists h'. split; [done|]. apply (Hmin (Z.to_nat i)); [lia|].
  rewrite lookup_take_lt by lia. done.
Qed.

Lemma winmm_free_slots_insert (c : WinMM.AudioContext) j h hdr :
  WinMM.wf c → 0 ≤ j < WinMM.count c →
  WinMM.headers c !! Z.to_nat j = Some h →
  WinMM.free_slots (WinMM.set_headers (<[Z.to_nat j := hdr]> (WinMM.headers c)) c)
  = WinMM.free_slots c
    - (if WinMM.has_flag h WinMM.WHDR_DONE then 1 else 0)
    + (if WinMM.has_flag hdr WinMM.WHDR_DONE then 1 else 0).
Proof.
  intros [Hlen Hc] Hj Hh. unfold WinMM.free_slots. simpl.
  rewrite take_insert_lt by lia.
  apply (count_if_insert (λ h, WinMM.has_flag h WinMM.WHDR_DONE) _ (Z.to_nat j) h hdr).
  rewrite lookup_take_lt by lia. done.
Qed.

Lemma winmm_queue_free (c : WinMM.AudioContext) hp (d : D) chunk size :
  WinMM.wf c → 100 ≤ WinMM.volume c → 0 < WinMM.free_slots c →
  let p := WinMM.waveOutPrepareHeader (WinMM.handle c) (fresh_hdr chunk size) d in
  let q := WinMM.waveOutWrite (WinMM.handle c)
             (WinMM.set_dwFlags WinMM.WHDR_PREPARED (fresh_hdr chunk size)) p.2 in
  ∃ j h hdr,
    0 ≤ j < WinMM.count c ∧
    WinMM.headers c !! Z.to_nat j = Some h ∧ WinMM.has_flag h WinMM.WHDR_DONE = true ∧
    (∀ i, 0 ≤ i < j →
       ∃ h', WinMM.headers c !! Z.to_nat i = Some h' ∧
             WinMM.has_flag h' WinMM.WHDR_DONE = false) ∧
    let c' := WinMM.set_headers (<[Z.to_nat j := hdr]> (WinMM.headers c)) c in
    WinMM.Audio_QueueChunk chunk size (c, (hp, d))
    = Ret (if p.1 =? 0 then q.1 else p.1, (c', (hp, if p.1 =? 0 then q.2 else p.2))) ∧
    WinMM.lpData hdr = chunk ∧ WinMM.dwBufferLength hdr = size ∧
    WinMM.has_flag hdr WinMM.WHDR_DONE = false ∧
    (p.1 = 0 → q.1 = 0 →
     WinMM.has_flag hdr WinMM.WHDR_PREPARED = true ∧
     WinMM.has_flag hdr WinMM.WHDR_INQUEUE = true) ∧
    WinMM.free_slots c' = WinMM.free_slots c - 1.
Proof.
  intros Hwf Hvol Hfree p q.
  destruct (winmm_first_free c Hwf Hfree) as (j & h & Hj & Hh & Hd & Hmin).
  destruct (winmm_queue_slot_free chunk size j h c hp d) as (hdr & Hq & Hdata & Hsz & Hnd & Hok);
    [lia|done|done|].
  exists j, h, hdr. cbv zeta. split_and!; try done; try lia.
  - unfold WinMM.Audio_QueueChunk, WinMM.AudioBase_AdjustSound.
    unfold_m. simpl.
    destruct (Z.geb_spec (WinMM.volume c) 100) as [_|]; [|lia].
    simpl. unfold for_range.
    erewrite for_loop_first; [done|exact Hj|lia| |exact Hq].
    intros k Hk. destruct (Hmin k) as (h' & Hh' & Hb); [lia|].
    by apply (winmm_queue_slot_busy _ _ _ h'); [lia|..].
  - rewrite (winmm_free_slots_insert c j h) by done. rewrite Hd, Hnd. lia.
Qed.

End WinMM_queue.
(** ** Loops that always return *)

Lemma for_loop_total {St R} (Inv : St → Prop) (body : Z → M St (option R)) lo lim :
  (∀ i s, lo ≤ i < lim → Inv s → ∃ r s', body i s = Ret (r, s') ∧ Inv s') →
  ∀ fuel i s, lo ≤ i → Inv s →
    ∃ r s', for_loop fuel i lim body s = Ret (r, s') ∧ Inv s'.
Proof.
  intros Hbody. induction fuel as [|fuel IH]; intros i s Hi Hs; simpl.
  - by exists None, s.
  - destruct (Z.ltb_spec i lim) as [Hlt|Hge]; [|by exists None, s].
    destruct (Hbody i s) as (r & s1 & Hr & Hs1); [lia|done|].
    unfold mbind, M_bind, m_bind. rewrite Hr. destruct r as [x|].
    + by exists (Some x), s1.
    + apply IH; [lia|done].
Qed.

Section WinMM_poll.
Context {D : Type} `{Allocator D} `{WinMM.Driver D}.

#[local] Abbreviation wst := (WinMM.AudioContext * (heap * D))%type.

Lemma winmm_set_headers_id (c : WinMM.AudioContext) i h :
  WinMM.headers c !! i = Some h →
  WinMM.set_headers (<[i := h]> (WinMM.headers c)) c = c.
Proof. intros Hh. rewrite list_insert_id by done. by destruct c. Qed.

Lemma unprepared_settled h :
  WinMM.settled
    (WinMM.set_dwFlags (Z.land (WinMM.dwFlags h) (Z.lnot WinMM.WHDR_PREPARED)) h).
Proof.
  intros _. unfold WinMM.has_flag. simpl. rewrite <- Z.land_assoc.
  replace (Z.land (Z.lnot WinMM.WHDR_PREPARED) WinMM.WHDR_PREPARED) with 0 by done.
  by rewrite Z.land_0_r.
Qed.

(** One turn of [Audio_Poll]'s loop. *)
Lemma winmm_poll_slot_at i acc h (c : WinMM.AudioContext) hp (d : D) :
  0 ≤ i → WinMM.headers c !! Z.to_nat i = Some h →
  ∃ acc' brk h' d',
    WinMM.poll_slot i acc (c, (hp, d))
    = Ret ((acc', brk),
           (WinMM.set_headers (<[Z.to_nat i := h']> (WinMM.headers c)) c, (hp, d'))) ∧
    (brk = false → WinMM.settled h') ∧
    (WinMM.has_flag h WinMM.WHDR_DONE = false → h' = h) ∧
    (brk = true → acc'.1 ≠ 0) ∧
    (brk = false → acc.1 = 0 → acc'.1 = 0).
Proof.
  intros Hi Hh. unfold WinMM.poll_slot. unfold mbind at 1, M_bind, m_bind.
  rewrite (winmm_get_header_at i h) by done.
  destruct (WinMM.has_flag h WinMM.WHDR_DONE) eqn:Hd; simpl.
  - destruct (WinMM.has_flag h WinMM.WHDR_PREPARED) eqn:Hp; simpl.
    + unfold WinMM.unprepare_header. unfold mbind, M_bind, m_bind.
      unfold getctx. simpl. rewrite (winmm_get_header_at i h) by done.
      unfold call_env. simpl.
      destruct ((WinMM.waveOutUnprepareHeader (WinMM.handle c) h d).1 =? 0) eqn:He.
      * rewrite winmm_put_header_at by (apply lookup_lt_Some in Hh; simpl; lia).
        simpl. rewrite He. simpl. apply Z.eqb_eq in He.
        eexists _, _, _, _. split; [reflexivity|]. simpl.
        split_and!; [intros _; apply unprepared_settled|done|done|by intros _ _].
      * simpl. rewrite He. simpl. apply Z.eqb_neq in He.
        exists ((WinMM.waveOutUnprepareHeader (WinMM.handle c) h d).1, acc.2), true, h,
          (WinMM.waveOutUnprepareHeader (WinMM.handle c) h d).2.
        rewrite winmm_set_headers_id by done.
        split; [done|]. split_and!; done.
    + exists acc, false, h, d. rewrite winmm_set_headers_id by done.
      split; [done|]. split_and!; try done. by intros _ _.
  - exists (acc.1, acc.2 + 1), false, h, d. rewrite winmm_set_headers_id by done.
    split; [done|]. split_and!; try done. intros _ Hd'. congruence.
Qed.

Lemma winmm_poll_loop_settles lim fuel hp : ∀ i acc (c : WinMM.AudioContext) (d : D),
  0 ≤ i → lim ≤ Z.of_nat (length (WinMM.headers c)) →
  (Z.to_nat (lim - i) ≤ fuel)%nat →
  ∃ r hs d',
    for_acc fuel i lim WinMM.poll_slot acc (c, (hp, d))
    = Ret (r, (WinMM.set_headers hs c, (hp, d'))) ∧
    length hs = length (WinMM.headers c) ∧
    (∀ k, (Z.of_nat k < i ∨ lim ≤ Z.of_nat k) → hs !! k = WinMM.headers c !! k) ∧
    (∀ k h, WinMM.headers c !! k = Some h → WinMM.has_flag h WinMM.WHDR_DONE = false →
       hs !! k = Some h) ∧
    (acc.1 = 0 → r.1 = 0 →
     ∀ k h, i ≤ Z.of_nat k < lim → hs !! k = Some h → WinMM.settled h).
Proof.
  induction fuel as [|fuel IH]; intros i acc c d Hi Hlim Hfuel; simpl.
  - exists acc, (WinMM.headers c), d. destruct c. split_and!; try done. intros; lia.
  - destruct (Z.ltb_spec i lim) as [Hlt|Hge].
    2:{ exists acc, (WinMM.headers c), d. destruct c. split_and!; try done. intros; lia. }
    destruct (lookup_lt_is_Some_2 (WinMM.headers c) (Z.to_nat i)) as [h Hh]; [lia|].
    destruct (winmm_poll_slot_at i acc h c hp d Hi Hh)
      as (acc' & brk & h' & d1 & Hslot & Hset & Hbusy & Hbrk & Hok).
    unfold mbind at 1, M_bind, m_bind. rewrite Hslot.
    assert (Hi' : (Z.to_nat i < length (WinMM.headers c))%nat) by lia.
    destruct brk.
    + exists acc', (<[Z.to_nat i := h']> (WinMM.headers c)), d1.
      split_and!; [done|by rewrite length_insert| | |].
      * intros k Hk. apply list_lookup_insert_ne. lia.
      * intros k h0 Hk Hd. destruct (decide (k = Z.to_nat i)) as [->|Hne].
        -- rewrite list_lookup_insert_eq by done. f_equal.
           rewrite Hh in Hk. injection Hk as <-. by apply Hbusy.
        -- by rewrite list_lookup_insert_ne.
      * intros _ Hr. by destruct (Hbrk eq_refl).
    + destruct (IH (i + 1) acc'
                  (WinMM.set_headers (<[Z.to_nat i := h']> (WinMM.headers c)) c) d1)
        as (r & hs & d2 & Hrun & Hlen & Hout & Hkeep & Hsettled);
        [lia|simpl; rewrite length_insert; lia|lia|].
      simpl in *. rewrite length_insert in Hlen.
      exists r, hs, d2. split_and!; [done|done| | |].
      * intros k Hk. rewrite Hout by lia. apply list_lookup_insert_ne. lia.
      * intros k h0 Hk Hd. apply Hkeep; [|done].
        destruct (decide (k = Z.to_nat i)) as [->|Hne].
        -- rewrite list_lookup_insert_eq by done. f_equal.
           rewrite Hh in Hk. injection Hk as <-. by apply Hbusy.
        -- by rewrite list_lookup_insert_ne.
      * intros Hacc Hr k h0 Hk Hl.
        destruct (decide (Z.of_nat k = i)) as [<-|Hne].
        -- rewrite Hout in Hl by lia. rewrite Nat2Z.id in Hl.
           rewrite Nat2Z.id in Hi'.
           rewrite list_lookup_insert_eq in Hl by done. injection Hl as <-.
           by apply Hset.
        -- apply (Hsettled (Hok eq_refl Hacc) Hr k); [lia|done].
Qed.

Lemma winmm_poll_settles (c : WinMM.AudioContext) hp (d : D) :
  WinMM.wf c →
  ∃ r hs d',
    WinMM.Audio_Poll (c, (hp, d)) = Ret (r, (WinMM.set_headers hs c, (hp, d'))) ∧
    length hs = length (WinMM.headers c) ∧
    (∀ k, WinMM.count c ≤ Z.of_nat k → hs !! k = WinMM.headers c !! k) ∧
    (∀ k h, WinMM.headers c !! k = Some h → WinMM.has_flag h WinMM.WHDR_DONE = false →
       hs !! k = Some h) ∧
    (r.1 = 0 →
     ∀ k h, Z.of_nat k < WinMM.count c → hs !! k = Some h → WinMM.settled h).
Proof.
  intros [Hlen Hc]. unfold AUDIO_MAX_BUFFERS in *.
  destruct (winmm_poll_loop_settles (WinMM.count c) (Z.to_nat (WinMM.count c)) hp
              0 (0, 0) c d) as (r & hs & d' & Hrun & Hl & Hout & Hkeep & Hs); [lia..|].
  exists r, hs, d'. split_and!; [|done| |done|].
  - unfold WinMM.Audio_Poll. unfold mbind, M_bind, m_bind. unfold getctx. simpl. done.
  - intros k Hk. apply Hout. lia.
  - intros Hr k h Hk. apply Hs; [done|done|lia].
Qed.

End WinMM_poll.
Section WinMM_close.
Context {D : Type} `{Allocator D} `{WinMM.Driver D}.

#[local] Abbreviation wst := (WinMM.AudioContext * (heap * D))%type.

Lemma winmm_reset_slot_at i (c : WinMM.AudioContext) hs hp (d : D) :
  0 ≤ i < Z.of_nat (length hs) →
  ∃ hs',
    WinMM.reset_slot i (WinMM.set_headers hs c, (hp, d))
    = Ret (None, (WinMM.set_headers hs' c, (hp, d))) ∧ length hs' = length hs.
Proof.
  intros Hi.
  destruct (lookup_lt_is_Some_2 hs (Z.to_nat i)) as [h Hh]; [lia|].
  unfold WinMM.reset_slot. unfold mbind at 1, M_bind, m_bind.
  rewrite (winmm_get_header_at i h) by (done || lia).
  destruct (WinMM.has_flag h WinMM.WHDR_INQUEUE).
  - unfold WinMM.driver_finishes. unfold mbind, M_bind, m_bind.
    rewrite (winmm_get_header_at i h) by (done || lia).
    rewrite winmm_put_header_at by (simpl; lia). simpl.
    eexists. split; [reflexivity|]. by rewrite length_insert.
  - exists hs. done.
Qed.

Lemma winmm_stop (c : WinMM.AudioContext) hp (d : D) :
  ∃ hs,
    WinMM.Audio_Stop (c, (hp, d))
    = Ret (tt, (WinMM.set_headers hs c, (hp, (WinMM.waveOutReset (WinMM.handle c) d).2))) ∧
    length hs = length (WinMM.headers c).
Proof.
  set (d1 := (WinMM.waveOutReset (WinMM.handle c) d).2).
  destruct (for_loop_total
              (λ s : wst, ∃ hs, s = (WinMM.set_headers hs c, (hp, d1))
                                ∧ length hs = length (WinMM.headers c))
              WinMM.reset_slot 0 (Z.of_nat (length (WinMM.headers c))))
    with (fuel := Z.to_nat (Z.of_nat (length (WinMM.headers c)) - 0)) (i := 0) (s := (c, (hp, d1)))
    as (r & s' & Hrun & hs & -> & Hlen).
  - intros i s Hi (hs & -> & Hlen).
    destruct (winmm_reset_slot_at i c hs hp d1) as (hs' & Hr & Hlen'); [lia|].
    exists None, (WinMM.set_headers hs' c, (hp, d1)). split; [done|].
    exists hs'. split; [done|congruence].
  - done.
  - exists (WinMM.headers c). by destruct c.
  - exists hs. split; [|done].
    unfold WinMM.Audio_Stop, for_range. unfold mbind, M_bind, m_bind.
    unfold getctx, call_env. cbn [fst snd]. fold d1.
    match goal with
    | |- context [for_loop ?a ?b ?l ?f ?e] =>
        replace (for_loop a b l f e) with (Ret (r, (WinMM.set_headers hs c, (hp, d1))))
          by (symmetry; exact Hrun)
    end. done.
Qed.

Lemma winmm_clear (c : WinMM.AudioContext) hp (d : D) :
  WinMM.scratch_live c hp →
  WinMM.AudioBase_Clear (c, (hp, d))
  = Ret (tt, (WinMM.set__tmpSize 0 (WinMM.set__tmpData NULL (WinMM.set_sampleRate 0
               (WinMM.set_channels 0 (WinMM.set_count 0 c)))),
              (match WinMM._tmpData c with
               | Some a => delete (blk a) hp
               | None => hp
               end, d))).
Proof.
  unfold WinMM.scratch_live, WinMM.AudioBase_Clear, Mem_Free. unfold_m. simpl.
  destruct (WinMM._tmpData c) as [a|]; [|done].
  intros [-> [bytes ->]]. done.
Qed.

Lemma winmm_reset_open (c : WinMM.AudioContext) hp (d : D) :
  WinMM.handle c ≠ 0 →
  WinMM.Audio_Reset (c, (hp, d))
  = Ret ((WinMM.waveOutClose (WinMM.handle c) d).1,
         (WinMM.set_handle 0 c, (hp, (WinMM.waveOutClose (WinMM.handle c) d).2))).
Proof.
  intros Hh. unfold WinMM.Audio_Reset. unfold_m. simpl.
  by destruct (Z.eqb_spec (WinMM.handle c) 0).
Qed.

(** The context and the heap as [AudioBase_Clear] leaves them. *)
#[local] Abbreviation cleared c :=
  (WinMM.set__tmpSize 0 (WinMM.set__tmpData NULL (WinMM.set_sampleRate 0
     (WinMM.set_channels 0 (WinMM.set_count 0 c))))).

#[local] Abbreviation scratch_released c hp :=
  (match WinMM._tmpData c with
   | Some a => delete (blk a) hp
   | None => hp
   end).

Lemma winmm_close_no_device (c : WinMM.AudioContext) hp (d : D) :
  WinMM.handle c = 0 → WinMM.scratch_live c hp →
  WinMM.Audio_Close (c, (hp, d)) = Ret (tt, (cleared c, (scratch_released c hp, d))).
Proof.
  intros Hz Hlive. unfold WinMM.Audio_Close. unfold mbind, M_bind, m_bind.
  unfold getctx. cbn [fst snd]. rewrite Hz. cbn [Z.eqb negb].
  unfold mret, M_ret, m_ret. by rewrite winmm_clear.
Qed.

Lemma winmm_close_device (c : WinMM.AudioContext) hp (d : D) :
  WinMM.handle c ≠ 0 → WinMM.wf c → WinMM.scratch_live c hp →
  ∃ hs d',
    WinMM.Audio_Close (c, (hp, d))
    = Ret (tt, (cleared (WinMM.set_handle 0 (WinMM.set_headers hs c)),
                (scratch_released c hp, d'))) ∧
    length hs = length (WinMM.headers c).
Proof.
  intros Hnz Hwf Hlive.
  destruct (winmm_stop c hp d) as (hs1 & Hstop & Hlen1).
  destruct (winmm_poll_settles (WinMM.set_headers hs1 c) hp
              (WinMM.waveOutReset (WinMM.handle c) d).2)
    as (r & hs2 & d2 & Hpoll & Hlen2 & _).
  { destruct Hwf as [Hl Hc]. split; [|exact Hc].
    change (length hs1 = Z.to_nat AUDIO_MAX_BUFFERS). congruence. }
  change (length hs2 = length hs1) in Hlen2.
  exists hs2, (WinMM.waveOutClose (WinMM.handle c) d2).2.
  split; [|congruence].
  unfold WinMM.Audio_Close. unfold mbind at 1 2, M_bind, m_bind.
  unfold getctx. cbn [fst snd].
  destruct (Z.eqb_spec (WinMM.handle c) 0) as [|_]; [done|]. cbn [negb].
  unfold mbind at 1, M_bind, m_bind. rewrite Hstop.
  unfold mbind at 1, M_bind, m_bind. rewrite Hpoll.
  unfold mbind at 1, M_bind, m_bind.
  rewrite (winmm_reset_open (WinMM.set_headers hs2 (WinMM.set_headers hs1 c))) by exact Hnz.
  unfold mret, M_ret, m_ret.
  rewrite (winmm_clear (WinMM.set_handle 0 (WinMM.set_headers hs2 (WinMM.set_headers hs1 c))))
    by exact Hlive.
  reflexivity.
Qed.

Lemma winmm_close (c : WinMM.AudioContext) hp (d : D) :
  WinMM.wf c → WinMM.scratch_live c hp →
  ∃ hs d',
    let c' := WinMM.set__tmpSize 0 (WinMM.set__tmpData NULL (WinMM.set_sampleRate 0
                (WinMM.set_channels 0 (WinMM.set_count 0
                   (WinMM.set_handle 0 (WinMM.set_headers hs c)))))) in
    let hp' := match WinMM._tmpData c with
               | Some a => delete (blk a) hp
               | None => hp
               end in
    WinMM.Audio_Close (c, (hp, d)) = Ret (tt, (c', (hp', d'))) ∧
    length hs = length (WinMM.headers c) ∧
    (WinMM.handle c = 0 → hs = WinMM.headers c ∧ d' = d) ∧
    WinMM.Audio_Close (c', (hp', d')) = Ret (tt, (c', (hp', d'))).
Proof.
  intros Hwf Hlive. cbv zeta.
  assert (Hagain : ∀ hs d',
    WinMM.Audio_Close
      (cleared (WinMM.set_handle 0 (WinMM.set_headers hs c)), (scratch_released c hp, d'))
    = Ret (tt, (cleared (WinMM.set_handle 0 (WinMM.set_headers hs c)),
                (scratch_released c hp, d')))).
  { intros hs d'. by rewrite winmm_close_no_device. }
  destruct (Z.eq_dec (WinMM.handle c) 0) as [Hz|Hnz].
  - exists (WinMM.headers c), d.
    assert (WinMM.set_handle 0 (WinMM.set_headers (WinMM.headers c) c) = c) as Hc.
    { destruct c. simpl in *. by subst. }
    split_and!; [|done|done|apply Hagain].
    rewrite Hc. by apply winmm_close_no_device.
  - destruct (winmm_close_device c hp d Hnz Hwf Hlive) as (hs & d' & Hclose & Hlen).
    exists hs, d'. split_and!; [done|done|done|apply Hagain].
Qed.

End WinMM_close.
(** X16.  WinMM [Audio_Init] with [n] buffers, [n] at most
    AUDIO_MAX_BUFFERS, makes no native call, marks the first [n] headers
    done and nothing else, keeps the other headers and the device handle,
    and leaves all [n] slots free: an [Audio_Poll] right after it reports 0
    in use and changes nothing.  With more buffers than the array has
    headers the loop writes past the end of [ctx->headers]. *)
Theorem winmm_init_frees_all_slots (D : Type) (HA : Allocator D) (HW : WinMM.Driver D)
    (ctx : WinMM.AudioContext) (w : heap * D) n :
  length (WinMM.headers ctx) = Z.to_nat AUDIO_MAX_BUFFERS →
  (0 ≤ n ≤ AUDIO_MAX_BUFFERS →
   ∃ hs,
     let ctx' := WinMM.set_volume 100 (WinMM.set_count n (WinMM.set_headers hs ctx)) in
     WinMM.Audio_Init n (ctx, w) = Ret (0, (ctx', w)) ∧
     (∀ k h, Z.of_nat k < n → hs !! k = Some h → WinMM.dwFlags h = WinMM.WHDR_DONE) ∧
     drop (Z.to_nat n) hs = drop (Z.to_nat n) (WinMM.headers ctx) ∧
     WinMM.free_slots ctx' = n ∧
     WinMM.Audio_Poll (ctx', w) = Ret ((0, 0), (ctx', w)))
  ∧ (AUDIO_MAX_BUFFERS < n → WinMM.Audio_Init n (ctx, w) = Fault).
Proof.
  intros Hlen. split.
  - intros Hn. destruct (winmm_init ctx w n Hlen Hn) as (hs & Hinit & _ & Hfree & Hpoll & Hd & Hdrop).
    exists hs. cbv zeta. done.
  - intros Hn. apply winmm_init_too_many. unfold AUDIO_MAX_BUFFERS in *. lia.
Qed.

Lemma winmm_init_frees_all_slots_witness :
  (∃ hs,
     let ctx' := WinMM.set_volume 100 (WinMM.set_count 2 (WinMM.set_headers hs WinMM.ctx_zero)) in
     WinMM.Audio_Init 2 (WinMM.ctx_zero, (ex_heap, ([] : script))) = Ret (0, (ctx', (ex_heap, []))) ∧
     (∀ k h, Z.of_nat k < 2 → hs !! k = Some h → WinMM.dwFlags h = WinMM.WHDR_DONE) ∧
     drop (Z.to_nat 2) hs = drop (Z.to_nat 2) (WinMM.headers WinMM.ctx_zero) ∧
     WinMM.free_slots ctx' = 2 ∧
     WinMM.Audio_Poll (ctx', (ex_heap, ([] : script))) = Ret ((0, 0), (ctx', (ex_heap, []))))
  ∧ WinMM.Audio_Init 5 (WinMM.ctx_zero, (ex_heap, ([] : script))) = Fault.
Proof.
  split.
  - apply (winmm_init_frees_all_slots script _ _ WinMM.ctx_zero (ex_heap, []) 2);
      [reflexivity|unfold AUDIO_MAX_BUFFERS; lia].
  - apply (winmm_init_frees_all_slots script _ _ WinMM.ctx_zero (ex_heap, []) 5);
      [reflexivity|unfold AUDIO_MAX_BUFFERS; lia].
Defined.

(** X17.  WinMM [Audio_QueueChunk] at volume 100 or more on a context with
    a free slot takes the free slot of lowest index: it writes the chunk
    and its size into that header and hands it to waveOutPrepareHeader and
    then waveOutWrite.  The answer is the first result of the two that is
    not 0, else 0.  The header is no longer marked done whatever the driver
    answered, so the context has one free slot less even when the call
    fails; the other headers and fields stay. *)
Theorem winmm_queue_chunk_takes_first_free (D : Type) (HA : Allocator D) (HW : WinMM.Driver D)
    (ctx : WinMM.AudioContext) (hp : heap) (d : D) chunk size :
  WinMM.wf ctx → 100 ≤ WinMM.volume ctx → 0 < WinMM.free_slots ctx →
  let fresh := {| WinMM.lpData := chunk; WinMM.dwBufferLength := size;
                  WinMM.dwBytesRecorded := 0; WinMM.dwUser := 0; WinMM.dwFlags := 0;
                  WinMM.dwLoops := 1; WinMM.lpNext := NULL; WinMM.reserved := 0 |} in
  let p := WinMM.waveOutPrepareHeader (WinMM.handle ctx) fresh d in
  let q := WinMM.waveOutWrite (WinMM.handle ctx)
             (WinMM.set_dwFlags WinMM.WHDR_PREPARED fresh) p.2 in
  ∃ j h hdr,
    0 ≤ j < WinMM.count ctx ∧
    WinMM.headers ctx !! Z.to_nat j = Some h ∧ WinMM.has_flag h WinMM.WHDR_DONE = true ∧
    (∀ i, 0 ≤ i < j →
       ∃ h', WinMM.headers ctx !! Z.to_nat i = Some h' ∧
             WinMM.has_flag h' WinMM.WHDR_DONE = false) ∧
    let ctx' := WinMM.set_headers (<[Z.to_nat j := hdr]> (WinMM.headers ctx)) ctx in
    WinMM.Audio_QueueChunk chunk size (ctx, (hp, d))
    = Ret (if p.1 =? 0 then q.1 else p.1, (ctx', (hp, if p.1 =? 0 then q.2 else p.2))) ∧
    WinMM.lpData hdr = chunk ∧ WinMM.dwBufferLength hdr = size ∧
    WinMM.has_flag hdr WinMM.WHDR_DONE = false ∧
    (p.1 = 0 → q.1 = 0 →
     WinMM.has_flag hdr WinMM.WHDR_PREPARED = true ∧
     WinMM.has_flag hdr WinMM.WHDR_INQUEUE = true) ∧
    WinMM.free_slots ctx' = WinMM.free_slots ctx - 1.
Proof. intros Hwf Hvol Hfree. by apply winmm_queue_free. Qed.

Lemma winmm_queue_chunk_takes_first_free_witness :
  let fresh := {| WinMM.lpData := ex_chunk; WinMM.dwBufferLength := 8;
                  WinMM.dwBytesRecorded := 0; WinMM.dwUser := 0; WinMM.dwFlags := 0;
                  WinMM.dwLoops := 1; WinMM.lpNext := NULL; WinMM.reserved := 0 |} in
  let p := WinMM.waveOutPrepareHeader (WinMM.handle winmm_half_ctx) fresh ([5] : script) in
  let q := WinMM.waveOutWrite (WinMM.handle winmm_half_ctx)
             (WinMM.set_dwFlags WinMM.WHDR_PREPARED fresh) p.2 in
  ∃ j h hdr,
    0 ≤ j < WinMM.count winmm_half_ctx ∧
    WinMM.headers winmm_half_ctx !! Z.to_nat j = Some h ∧
    WinMM.has_flag h WinMM.WHDR_DONE = true ∧
    (∀ i, 0 ≤ i < j →
       ∃ h', WinMM.headers winmm_half_ctx !! Z.to_nat i = Some h' ∧
             WinMM.has_flag h' WinMM.WHDR_DONE = false) ∧
    let ctx' := WinMM.set_headers (<[Z.to_nat j := hdr]> (WinMM.headers winmm_half_ctx))
                  winmm_half_ctx in
    WinMM.Audio_QueueChunk ex_chunk 8 (winmm_half_ctx, (ex_heap, [5]))
    = Ret (if p.1 =? 0 then q.1 else p.1, (ctx', (ex_heap, if p.1 =? 0 then q.2 else p.2))) ∧
    WinMM.lpData hdr = ex_chunk ∧ WinMM.dwBufferLength hdr = 8 ∧
    WinMM.has_flag hdr WinMM.WHDR_DONE = false ∧
    (p.1 = 0 → q.1 = 0 →
     WinMM.has_flag hdr WinMM.WHDR_PREPARED = true ∧
     WinMM.has_flag hdr WinMM.WHDR_INQUEUE = true) ∧
    WinMM.free_slots ctx' = WinMM.free_slots winmm_half_ctx - 1.
Proof.
  apply (winmm_queue_chunk_takes_first_free script _ _ winmm_half_ctx ex_heap [5] ex_chunk 8).
  - split; [reflexivity|]. unfold AUDIO_MAX_BUFFERS. simpl. lia.
  - simpl. lia.
  - reflexivity.
Defined.

(** X18.  WinMM [Audio_Poll] on a context whose [count] is within the
    header array always returns and changes nothing but headers that are
    done: headers in flight and headers from [count] on are as before, the
    heap is as before.  When it answers 0, no header among the first
    [count] is left both done and prepared, so each done header can be
    queued again. *)
Theorem winmm_poll_unprepares_done_headers (D : Type) (HA : Allocator D)
    (HW : WinMM.Driver D) (ctx : WinMM.AudioContext) (hp : heap) (d : D) :
  WinMM.wf ctx →
  ∃ r hs d',
    WinMM.Audio_Poll (ctx, (hp, d)) = Ret (r, (WinMM.set_headers hs ctx, (hp, d'))) ∧
    length hs = length (WinMM.headers ctx) ∧
    (∀ k, WinMM.count ctx ≤ Z.of_nat k → hs !! k = WinMM.headers ctx !! k) ∧
    (∀ k h, WinMM.headers ctx !! k = Some h → WinMM.has_flag h WinMM.WHDR_DONE = false →
       hs !! k = Some h) ∧
    (r.1 = 0 →
     ∀ k h, Z.of_nat k < WinMM.count ctx → hs !! k = Some h → WinMM.settled h).
Proof. apply winmm_poll_settles. Qed.

Lemma winmm_poll_unprepares_done_headers_witness :
  ∃ r hs d',
    WinMM.Audio_Poll (winmm_stuck_ctx, (ex_heap, ([] : script)))
    = Ret (r, (WinMM.set_headers hs winmm_stuck_ctx, (ex_heap, d'))) ∧
    length hs = length (WinMM.headers winmm_stuck_ctx) ∧
    (∀ k, WinMM.count winmm_stuck_ctx ≤ Z.of_nat k →
       hs !! k = WinMM.headers winmm_stuck_ctx !! k) ∧
    (∀ k h, WinMM.headers winmm_stuck_ctx !! k = Some h →
       WinMM.has_flag h WinMM.WHDR_DONE = false → hs !! k = Some h) ∧
    (r.1 = 0 →
     ∀ k h, Z.of_nat k < WinMM.count winmm_stuck_ctx → hs !! k = Some h → WinMM.settled h).
Proof.
  apply (winmm_poll_unprepares_done_headers script _ _ winmm_stuck_ctx ex_heap []).
  split; [reflexivity|]. unfold AUDIO_MAX_BUFFERS. simpl. lia.
Defined.

(** X19.  WinMM [Audio_Close] on a context whose scratch buffer is NULL or
    a live block always returns: the handle, [count], [channels],
    [sampleRate] and the scratch fields are 0, the scratch block is
    released and no other block is touched.  With no device open (handle 0)
    it makes no native call and keeps the headers.  Closing a second time
    changes nothing and releases nothing twice. *)
Theorem winmm_close_releases_scratch (D : Type) (HA : Allocator D) (HW : WinMM.Driver D)
    (ctx : WinMM.AudioContext) (hp : heap) (d : D) :
  WinMM.wf ctx → WinMM.scratch_live ctx hp →
  ∃ hs d',
    let ctx' := WinMM.set__tmpSize 0 (WinMM.set__tmpData NULL (WinMM.set_sampleRate 0
                  (WinMM.set_channels 0 (WinMM.set_count 0
                     (WinMM.set_handle 0 (WinMM.set_headers hs ctx)))))) in
    let hp' := match WinMM._tmpData ctx with
               | Some a => delete (blk a) hp
               | None => hp
               end in
    WinMM.Audio_Close (ctx, (hp, d)) = Ret (tt, (ctx', (hp', d'))) ∧
    length hs = length (WinMM.headers ctx) ∧
    (WinMM.handle ctx = 0 → hs = WinMM.headers ctx ∧ d' = d) ∧
    WinMM.Audio_Close (ctx', (hp', d')) = Ret (tt, (ctx', (hp', d'))).
Proof. apply winmm_close. Qed.

Lemma winmm_close_releases_scratch_witness :
  ∃ hs d',
    let ctx' := WinMM.set__tmpSize 0 (WinMM.set__tmpData NULL (WinMM.set_sampleRate 0
                  (WinMM.set_channels 0 (WinMM.set_count 0
                     (WinMM.set_handle 0 (WinMM.set_headers hs winmm_full_ctx)))))) in
    let hp' := match WinMM._tmpData winmm_full_ctx with
               | Some a => delete (blk a) winmm_full_heap
               | None => winmm_full_heap
               end in
    WinMM.Audio_Close (winmm_full_ctx, (winmm_full_heap, ([] : script)))
    = Ret (tt, (ctx', (hp', d'))) ∧
    length hs = length (WinMM.headers winmm_full_ctx) ∧
    (WinMM.handle winmm_full_ctx = 0 → hs = WinMM.headers winmm_full_ctx ∧ d' = []) ∧
    WinMM.Audio_Close (ctx', (hp', d')) = Ret (tt, (ctx', (hp', d'))).
Proof.
  apply (winmm_close_releases_scratch script _ _ winmm_full_ctx winmm_full_heap []).
  - split; [reflexivity|]. unfold AUDIO_MAX_BUFFERS. simpl. lia.
  - split; [reflexivity|]. by eexists.
Defined.

(** [Audio_SetFormat] leaves the format it was asked for in the context,
    whatever it answers. *)
Lemma winmm_setformat_stores `{Allocator D} `{WinMM.Driver D}
    (ctx : WinMM.AudioContext) (w : heap * D) channels sampleRate playbackRate res ctx' w' :
  WinMM.Audio_SetFormat channels sampleRate playbackRate (ctx, w) = Ret (res, (ctx', w')) →
  WinMM.channels ctx' = channels ∧
  WinMM.sampleRate ctx' = Audio_AdjustSampleRate sampleRate playbackRate.
Proof.
  unfold WinMM.Audio_SetFormat, WinMM.Audio_Reset; unfold_m; simpl; intros;
    repeat (case_match; simplify_eq/=; try done);
    match goal with
    | Hb : _ && _ = true |- _ => apply andb_true_iff in Hb as [?%Z.eqb_eq ?%Z.eqb_eq]; done
    end.
Qed.

(** X20.  WinMM [Audio_FastPlay] on a context that has a format answers
    true exactly when [Audio_SetFormat] for the same sound would leave the
    device alone: both compare the channels and the sample rate adjusted by
    the playback rate, and [Audio_SetFormat] then answers 0 without a native
    call and without a change of the context. *)
Theorem winmm_fastplay_iff_setformat_keeps (D : Type) (HA : Allocator D)
    (HW : WinMM.Driver D) (ctx : WinMM.AudioContext) (w : heap * D) data :
  WinMM.channels ctx ≠ 0 →
  WinMM.Audio_FastPlay ctx data = true ↔
  WinMM.Audio_SetFormat (AudioData.channels data) (AudioData.sampleRate data)
    (AudioData.rate data) (ctx, w) = Ret (0, (ctx, w)).
Proof.
  intros Hch. unfold WinMM.Audio_FastPlay. cbv zeta.
  destruct (Z.eqb_spec (WinMM.channels ctx) 0) as [|_]; [done|]. simpl.
  split.
  - intros [Hc Hs]%andb_true_iff. apply winmm_setformat_same; lia.
  - intros [-> ->]%winmm_setformat_stores. by rewrite !Z.eqb_refl.
Qed.

Lemma winmm_fastplay_iff_setformat_keeps_witness :
  WinMM.Audio_FastPlay winmm_half_ctx ex_data = true ↔
  WinMM.Audio_SetFormat (AudioData.channels ex_data) (AudioData.sampleRate ex_data)
    (AudioData.rate ex_data) (winmm_half_ctx, (ex_heap, ([] : script)))
  = Ret (0, (winmm_half_ctx, (ex_heap, []))).
Proof.
  apply (winmm_fastplay_iff_setformat_keeps script _ _ winmm_half_ctx (ex_heap, []) ex_data).
  simpl. lia.
Defined.
(** ** The pool: the sound is played once *)

Lemma loud_is_last quiet_part last pre e post :
  quiet_part ++ [last] = pre ++ e :: post →
  forallb Pool.quiet quiet_part = true → Pool.quiet e = false →
  post = [] ∧ e = last ∧ pre = quiet_part.
Proof.
  revert pre. induction quiet_part as [|x p IH]; intros pre; simpl.
  - destruct pre as [|y pre]; simpl; intros [= -> Hp] _ _;
      [by destruct post | by destruct pre].
  - intros Heq [Hx Hq]%andb_true_iff Hloud.
    destruct pre as [|y pre]; simpl in Heq; injection Heq as -> Heq.
    + congruence.
    + destruct (IH pre Heq Hq Hloud) as (-> & -> & ->). done.
Qed.

Lemma quiet_idle_poll l :
  forallb Pool.quiet l = true →
  existsb (λ e, negb (Pool.poll_in_use e)) l = true →
  ∃ i inUse, Pool.CallPoll i 0 inUse ∈ l ∧ inUse ≤ 0.
Proof.
  induction l as [|e l IH]; simpl; [done|].
  intros [Hq Hl]%andb_true_iff [He|Hx]%orb_true_iff.
  - destruct e as [i r|i r u|i r]; simpl in *; try done.
    unfold Pool.quiet in Hq. simpl in Hq. rewrite andb_true_r in Hq.
    apply negb_true_iff, negb_false_iff, Z.eqb_eq in Hq as ->.
    simpl in He. apply negb_true_iff in He.
    exists i, u. split; [left|lia].
  - destruct (IH Hl Hx) as (i & u & Hin & Hu). exists i, u. split; [by right|done].
Qed.

Section Pool_play.
Context {C W : Type} `{Pool.Backend C W}.

Lemma pool_play_once data (s s' : Pool.pool C W) res pre e post :
  Pool.AudioPool_Play data s = Ret (res, s') →
  Pool.calls s' = Pool.calls s ++ pre ++ e :: post →
  Pool.is_play e = true →
  post = [] ∧ res = Pool.call_res e ∧ forallb Pool.quiet pre = true ∧
  (∃ i inUse, Pool.CallPoll i 0 inUse ∈ pre ∧ inUse ≤ 0) ∧
  count_if Pool.is_poll pre ≤ 2 * Pool.POOL_MAX_CONTEXTS.
Proof.
  intros Hplay Hnew Hp.
  assert (Hloud : Pool.quiet e = false).
  { unfold Pool.quiet. rewrite Hp. apply andb_false_r. }
  assert (Hnf : Pool.call_failed e = false) by by destruct e.
  destruct (pool_play_scans (λ _, tt) data s s' res Hplay)
    as (s1 & r1 & (new1 & Hc1 & Hs1 & _) & Hrest).
  pose proof (Pool.so_polls _ _ _ _ _ Hs1) as Hn1.
  destruct Hrest as [[-> ->] | (-> & r2 & (new2 & Hc2 & Hs2 & _) & ->)].
  - rewrite Hc1 in Hnew. apply app_inv_head in Hnew.
    destruct (Pool.so_some _ _ _ _ _ Hs1 res eq_refl) as (p & e1 & -> & Hq & Hr & Ht).
    destruct (loud_is_last _ _ _ _ _ Hnew Hq Hloud) as (-> & -> & ->).
    rewrite Hnf, Hp in Ht. simpl in Ht.
    rewrite count_if_app in Hn1. simpl in Hn1.
    split_and!; [done|done|done|by apply quiet_idle_poll|].
    unfold Pool.POOL_MAX_CONTEXTS in *. destruct (Pool.is_poll _); lia.
  - rewrite Hc2, Hc1, <- app_assoc in Hnew. apply app_inv_head in Hnew.
    pose proof (Pool.so_none _ _ _ _ _ Hs1 eq_refl) as Hq1.
    pose proof (Pool.so_polls _ _ _ _ _ Hs2) as Hn2.
    destruct r2 as [res2|]; simpl.
    + destruct (Pool.so_some _ _ _ _ _ Hs2 res2 eq_refl) as (p & e2 & -> & Hq & Hr & Ht).
      rewrite app_assoc in Hnew.
      assert (Hq' : forallb Pool.quiet (new1 ++ p) = true)
        by by rewrite forallb_app, Hq1, Hq.
      destruct (loud_is_last _ _ _ _ _ Hnew Hq' Hloud) as (-> & -> & ->).
      rewrite Hnf, Hp in Ht. simpl in Ht.
      rewrite count_if_app in Hn2. simpl in Hn2.
      split_and!; [done|done|done| |].
      * destruct (quiet_idle_poll p Hq Ht) as (i & u & Hin & Hu).
        exists i, u. split; [|done]. apply elem_of_app. by right.
      * rewrite count_if_app. unfold Pool.POOL_MAX_CONTEXTS in *.
        destruct (Pool.is_poll _); lia.
    + pose proof (Pool.so_none _ _ _ _ _ Hs2 eq_refl) as Hq2.
      assert (Hq' : forallb Pool.quiet (pre ++ e :: post) = true)
        by by rewrite <- Hnew, forallb_app, Hq1, Hq2.
      rewrite forallb_app in Hq'. simpl in Hq'.
      apply andb_true_iff in Hq' as [_ [Hq' _]%andb_true_iff]. congruence.
Qed.

End Pool_play.

(** X21.  [AudioPool_Play] plays a sound on one context at most: a
    [PlayAudio] call is the last backend call it makes and its result is the
    answer.  No call before it failed or played, one of them is an
    [Audio_Poll] that answered 0 with no buffer in use, and at most 16 polls
    were made. *)
Theorem pool_play_plays_once {C W : Type} (HB : Pool.Backend C W)
    data (s s' : Pool.pool C W) res pre e post :
  Pool.AudioPool_Play data s = Ret (res, s') →
  Pool.calls s' = Pool.calls s ++ pre ++ e :: post →
  Pool.is_play e = true →
  post = [] ∧ res = Pool.call_res e ∧ forallb Pool.quiet pre = true ∧
  (∃ i inUse, Pool.CallPoll i 0 inUse ∈ pre ∧ inUse ≤ 0) ∧
  count_if Pool.is_poll pre ≤ 2 * Pool.POOL_MAX_CONTEXTS.
Proof. apply pool_play_once. Qed.

Lemma pool_play_plays_once_witness :
  ([] : list Pool.call_record) = [] ∧ 0 = Pool.call_res (Pool.CallPlayAudio 0 0) ∧
  forallb Pool.quiet [Pool.CallInit 0 0; Pool.CallPoll 0 0 0] = true ∧
  (∃ i inUse, Pool.CallPoll i 0 inUse ∈ [Pool.CallInit 0 0; Pool.CallPoll 0 0 0] ∧ inUse ≤ 0) ∧
  count_if Pool.is_poll [Pool.CallInit 0 0; Pool.CallPoll 0 0 0] ≤ 2 * Pool.POOL_MAX_CONTEXTS.
Proof.
  apply (pool_play_plays_once _ ex_loud_data fresh_pool fresh_pool_played 0
           [Pool.CallInit 0 0; Pool.CallPoll 0 0 0] (Pool.CallPlayAudio 0 0) []).
  - vm_compute. reflexivity.
  - reflexivity.
  - reflexivity.
Defined.
(** ** OpenAL: queueing and closing *)

Section OpenAL_more.
Context {D : Type} `{OpenAL.Driver D}.

Lemma openal_queue_free (ctx : OpenAL.AudioContext) (d : D) chunk size :
  0 < OpenAL.free ctx ≤ Z.of_nat (length (OpenAL.freeIDs ctx)) →
  ∃ buffer,
    OpenAL.freeIDs ctx !! Z.to_nat (OpenAL.free ctx - 1) = Some buffer ∧
    let d1 := (OpenAL.alGetError d).2 in
    let e1 := OpenAL.alGetError
                (OpenAL.alBufferData buffer (OpenAL.format ctx) chunk size
                   (OpenAL.sampleRate ctx) d1) in
    let e2 := OpenAL.alGetError (OpenAL.alSourceQueueBuffers (OpenAL.source ctx) buffer e1.2) in
    OpenAL.Audio_QueueChunk chunk size (ctx, d)
    = Ret (if e1.1 =? 0 then e2.1 else e1.1,
           (OpenAL.set_free (OpenAL.free ctx - 1) ctx, if e1.1 =? 0 then e2.2 else e1.2)).
Proof.
  intros Hfree.
  destruct (lookup_lt_is_Some_2 (OpenAL.freeIDs ctx) (Z.to_nat (OpenAL.free ctx - 1)))
    as [buffer Hb]; [lia|].
  exists buffer. split; [done|]. intros d1 e1 e2.
  unfold OpenAL.Audio_QueueChunk, arr_get. unfold_m. simpl.
  destruct (Z.eqb_spec (OpenAL.free ctx) 0); [lia|].
  destruct (Z.leb_spec 0 (OpenAL.free ctx - 1)); [|lia].
  rewrite Hb. simpl. fold d1. fold e1.
  destruct (Z.eqb_spec e1.1 0) as [He1|He1]; simpl; [|done].
  fold e2. destruct (Z.eqb_spec e2.1 0) as [He2|He2]; simpl; [|done].
  by rewrite He2.
Qed.

End OpenAL_more.

Section OpenAL_close.
Context {D : Type} `{OpenAL.Driver D} `{OpenAL.Disposer D}.

Lemma openal_close (ctx : OpenAL.AudioContext) (d : D) :
  length (OpenAL.freeIDs ctx) = Z.to_nat AUDIO_MAX_BUFFERS →
  let ctx' := OpenAL.set_count 0 (OpenAL.set_free 0
                (OpenAL.set_freeIDs (replicate (Z.to_nat AUDIO_MAX_BUFFERS) 0)
                   (OpenAL.set_source 0 ctx))) in
  let d' := if OpenAL.source ctx =? 0 then d
            else (OpenAL.alGetError
                    (OpenAL.alDeleteBuffers (OpenAL.count ctx) (OpenAL.buffers ctx)
                       (OpenAL.alDeleteSources (OpenAL.source ctx)
                          (OpenAL.alSourceStop (OpenAL.source ctx) d)))).2 in
  OpenAL.Audio_Close (ctx, d) = Ret (tt, (ctx', d')) ∧
  OpenAL.Audio_Close (ctx', d') = Ret (tt, (ctx', d')) ∧
  OpenAL.Audio_Poll (ctx', d') = Ret ((0, 0), (ctx', d')) ∧
  ∀ chunk size,
    OpenAL.Audio_QueueChunk chunk size (ctx', d') = Ret (ERR_INVALID_ARGUMENT, (ctx', d')).
Proof.
  intros Hlen. cbv zeta.
  assert (Hclose : ∀ c e, length (OpenAL.freeIDs c) = Z.to_nat AUDIO_MAX_BUFFERS →
    OpenAL.Audio_Close (c, e)
    = Ret (tt, (OpenAL.set_count 0 (OpenAL.set_free 0
                  (OpenAL.set_freeIDs (replicate (Z.to_nat AUDIO_MAX_BUFFERS) 0)
                     (OpenAL.set_source 0 c))),
                if OpenAL.source c =? 0 then e
                else (OpenAL.alGetError
                        (OpenAL.alDeleteBuffers (OpenAL.count c) (OpenAL.buffers c)
                           (OpenAL.alDeleteSources (OpenAL.source c)
                              (OpenAL.alSourceStop (OpenAL.source c) e)))).2))).
  { intros c e Hl. destruct c as [src bufs ids cnt fr sr fmt]. simpl in *.
    destruct ids as [|a [|b [|c0 [|e0 [|]]]]]; try done.
    unfold OpenAL.Audio_Close, OpenAL.Audio_Stop, OpenAL.Audio_Reset, OpenAL.ClearFree.
    unfold_m. simpl. destruct (Z.eqb_spec src 0) as [->|]; reflexivity. }
  split_and!.
  - by apply Hclose.
  - rewrite Hclose by done. simpl. done.
  - by apply openal_poll_no_source.
  - intros chunk size. by apply openal_queue_no_free.
Qed.

End OpenAL_close.

(** X22.  OpenAL [Audio_QueueChunk] on a context with free buffers takes
    the buffer on top of the free list, [freeIDs[free - 1]], and lowers
    [free] by one before it talks to the driver.  The answer is the first
    error the driver reports for alBufferData or alSourceQueueBuffers, else
    0; on an error the buffer is not put back, so the context has one free
    buffer less although nothing was queued. *)
Theorem openal_queue_chunk_takes_top_buffer (D : Type) (HD : OpenAL.Driver D)
    (ctx : OpenAL.AudioContext) (d : D) chunk size :
  0 < OpenAL.free ctx ≤ Z.of_nat (length (OpenAL.freeIDs ctx)) →
  ∃ buffer,
    OpenAL.freeIDs ctx !! Z.to_nat (OpenAL.free ctx - 1) = Some buffer ∧
    let d1 := (OpenAL.alGetError d).2 in
    let e1 := OpenAL.alGetError
                (OpenAL.alBufferData buffer (OpenAL.format ctx) chunk size
                   (OpenAL.sampleRate ctx) d1) in
    let e2 := OpenAL.alGetError (OpenAL.alSourceQueueBuffers (OpenAL.source ctx) buffer e1.2) in
    OpenAL.Audio_QueueChunk chunk size (ctx, d)
    = Ret (if e1.1 =? 0 then e2.1 else e1.1,
           (OpenAL.set_free (OpenAL.free ctx - 1) ctx, if e1.1 =? 0 then e2.2 else e1.2)).
Proof. apply openal_queue_free. Qed.

Lemma openal_queue_chunk_takes_top_buffer_witness :
  ∃ buffer,
    OpenAL.freeIDs openal_ready !! Z.to_nat (OpenAL.free openal_ready - 1) = Some buffer ∧
    let d1 := (OpenAL.alGetError ([0; 5] : script)).2 in
    let e1 := OpenAL.alGetError
                (OpenAL.alBufferData buffer (OpenAL.format openal_ready) ex_chunk 8
                   (OpenAL.sampleRate openal_ready) d1) in
    let e2 := OpenAL.alGetError
                (OpenAL.alSourceQueueBuffers (OpenAL.source openal_ready) buffer e1.2) in
    OpenAL.Audio_QueueChunk ex_chunk 8 (openal_ready, [0; 5])
    = Ret (if e1.1 =? 0 then e2.1 else e1.1,
           (OpenAL.set_free (OpenAL.free openal_ready - 1) openal_ready,
            if e1.1 =? 0 then e2.2 else e1.2)).
Proof.
  apply (openal_queue_chunk_takes_top_buffer script _ openal_ready [0; 5] ex_chunk 8).
  simpl. lia.
Defined.

(** X23.  OpenAL [Audio_Close] on a context with its four free-list
    entries always returns and leaves no source, no buffer count and an
    empty, zeroed free list; the buffer names stay in [buffers].  With no
    source it makes no native call.  On the closed context [Audio_Poll]
    reports 0 in use, [Audio_QueueChunk] answers ERR_INVALID_ARGUMENT and a
    second [Audio_Close] changes nothing, all without a native call. *)
Theorem openal_close_empties_context (D : Type) (HD : OpenAL.Driver D)
    (HX : OpenAL.Disposer D) (ctx : OpenAL.AudioContext) (d : D) :
  length (OpenAL.freeIDs ctx) = Z.to_nat AUDIO_MAX_BUFFERS →
  let ctx' := OpenAL.set_count 0 (OpenAL.set_free 0
                (OpenAL.set_freeIDs (replicate (Z.to_nat AUDIO_MAX_BUFFERS) 0)
                   (OpenAL.set_source 0 ctx))) in
  let d' := if OpenAL.source ctx =? 0 then d
            else (OpenAL.alGetError
                    (OpenAL.alDeleteBuffers (OpenAL.count ctx) (OpenAL.buffers ctx)
                       (OpenAL.alDeleteSources (OpenAL.source ctx)
                          (OpenAL.alSourceStop (OpenAL.source ctx) d)))).2 in
  OpenAL.Audio_Close (ctx, d) = Ret (tt, (ctx', d')) ∧
  OpenAL.Audio_Close (ctx', d') = Ret (tt, (ctx', d')) ∧
  OpenAL.Audio_Poll (ctx', d') = Ret ((0, 0), (ctx', d')) ∧
  ∀ chunk size,
    OpenAL.Audio_QueueChunk chunk size (ctx', d') = Ret (ERR_INVALID_ARGUMENT, (ctx', d')).
Proof. apply openal_close. Qed.

Lemma openal_close_empties_context_witness :
  let ctx' := OpenAL.set_count 0 (OpenAL.set_free 0
                (OpenAL.set_freeIDs (replicate (Z.to_nat AUDIO_MAX_BUFFERS) 0)
                   (OpenAL.set_source 0 openal_started))) in
  let d' := if OpenAL.source openal_started =? 0 then ([7] : script)
            else (OpenAL.alGetError
                    (OpenAL.alDeleteBuffers (OpenAL.count openal_started)
                       (OpenAL.buffers openal_started)
                       (OpenAL.alDeleteSources (OpenAL.source openal_started)
                          (OpenAL.alSourceStop (OpenAL.source openal_started)
                             ([7] : script))))).2 in
  OpenAL.Audio_Close (openal_started, [7]) = Ret (tt, (ctx', d')) ∧
  OpenAL.Audio_Close (ctx', d') = Ret (tt, (ctx', d')) ∧
  OpenAL.Audio_Poll (ctx', d') = Ret ((0, 0), (ctx', d')) ∧
  ∀ chunk size,
    OpenAL.Audio_QueueChunk chunk size (ctx', d') = Ret (ERR_INVALID_ARGUMENT, (ctx', d')).
Proof.
  apply (openal_close_empties_context script _ _ openal_started [7]). reflexivity.
Defined.
(** ** Switch: the memory pools of the chunks *)

Lemma ptr_eqb_eq p q : Switch.ptr_eqb p q = true ↔ p = q.
Proof.
  destruct p as [[b o]|], q as [[b' o']|]; simpl; try (split; done).
  rewrite andb_true_iff, Nat.eqb_eq, Z.eqb_eq.
  split; [by intros [-> ->]|by intros [= -> ->]].
Qed.

Lemma ptr_eqb_neq p q : Switch.ptr_eqb p q = false ↔ p ≠ q.
Proof. rewrite <- ptr_eqb_eq. by destruct (Switch.ptr_eqb p q). Qed.

Lemma fill_from_length k xs T : length (Switch.fill_from k xs T) = length T.
Proof.
  revert k xs. induction T as [|p T IH]; intros k xs; simpl; [done|].
  destruct (Switch.is_empty p); [|simpl; by rewrite IH].
  destruct k as [|k]; [destruct xs as [|x xs]|]; simpl; by rewrite ?IH.
Qed.

Lemma fill_from_nil k T : Switch.fill_from k [] T = T.
Proof.
  revert k. induction T as [|p T IH]; intros k; simpl; [done|].
  destruct (Switch.is_empty p); [|by rewrite IH].
  destruct k as [|k]; [done|by rewrite IH].
Qed.

(** A table with no empty entry left after the first [k] takes no entry. *)
Lemma fill_from_no_room k xs T :
  count_if Switch.is_empty T ≤ Z.of_nat k → Switch.fill_from k xs T = T.
Proof.
  revert k. induction T as [|p T IH]; intros k; simpl; [done|].
  pose proof (count_if_nonneg Switch.is_empty T).
  destruct (Switch.is_empty p); intros Hk.
  - destruct k as [|k]; [lia|]. rewrite IH; [done|lia].
  - rewrite IH; [done|lia].
Qed.

Lemma fill_from_snoc xs x T :
  Forall (λ y, Switch.is_empty y = false) xs →
  Switch.fill_from 0 [x] (Switch.fill_from 0 xs T) = Switch.fill_from 0 (xs ++ [x]) T.
Proof.
  revert xs. induction T as [|p T IH]; intros xs Hxs; simpl; [done|].
  destruct (Switch.is_empty p) eqn:Hp.
  - destruct xs as [|y ys]; simpl.
    + by rewrite Hp.
    + apply Forall_cons in Hxs as [Hy Hys]. rewrite Hy. by rewrite IH.
  - simpl. rewrite Hp. by rewrite IH.
Qed.

Lemma fill_from_count xs T :
  Forall (λ y, Switch.is_empty y = false) xs →
  count_if Switch.is_empty (Switch.fill_from 0 xs T)
  = Z.max 0 (count_if Switch.is_empty T - Z.of_nat (length xs)).
Proof.
  revert xs. induction T as [|p T IH]; intros xs Hxs; simpl; [lia|].
  pose proof (count_if_nonneg Switch.is_empty T).
  destruct (Switch.is_empty p) eqn:Hp.
  - destruct xs as [|y ys]; simpl.
    + rewrite Hp. lia.
    + apply Forall_cons in Hxs as [Hy Hys]. rewrite Hy, IH by done. lia.
  - simpl. rewrite Hp, IH by done. lia.
Qed.

(** Writing one entry: the first empty entry takes it. *)
Lemma fill_first x T :
  (∃ j p, T !! j = Some p ∧ Switch.is_empty p = true ∧
          (∀ i q, (i < j)%nat → T !! i = Some q → Switch.is_empty q = false) ∧
          Switch.fill_from 0 [x] T = <[j := x]> T)
  ∨ ((∀ i q, T !! i = Some q → Switch.is_empty q = false) ∧ Switch.fill_from 0 [x] T = T).
Proof.
  induction T as [|p T IH]; simpl.
  - right. split; [|done]. intros i q. by rewrite lookup_nil.
  - destruct (Switch.is_empty p) eqn:Hp.
    + left. exists 0%nat, p. split_and!; [done|done| |by rewrite fill_from_nil].
      intros i q Hi. lia.
    + destruct IH as [(j & p' & Hj & He & Hmin & Hfill)|[Hnone Hfill]].
      * left. exists (S j), p'. split_and!; [done|done| |by rewrite Hfill].
        intros [|i] q Hi; simpl; [by intros [= <-]|]. apply Hmin. lia.
      * right. split; [|by rewrite Hfill].
        intros [|i] q; simpl; [by intros [= <-]|]. apply Hnone.
Qed.

(** Releasing one entry of a block: the first entry of the block is the
    one written first, and zeroing it gives the table with one empty entry
    more skipped. *)
Lemma fill_from_release c x xs T : ∀ k,
  Switch.chunk x = c → c ≠ NULL →
  (∀ p, p ∈ T → Switch.is_empty p = true → p = Switch.pool_zero) →
  (∀ p, p ∈ T → Switch.chunk p ≠ c) →
  Z.of_nat k < count_if Switch.is_empty T →
  ∃ j, Switch.fill_from k (x :: xs) T !! j = Some x ∧
       (∀ i q, (i < j)%nat → Switch.fill_from k (x :: xs) T !! i = Some q →
          Switch.ptr_eqb (Switch.chunk q) c = false) ∧
       <[j := Switch.pool_zero]> (Switch.fill_from k (x :: xs) T)
       = Switch.fill_from (S k) xs T.
Proof.
  induction T as [|p T IH]; intros k Hx Hc Hclean Hother Hroom; simpl in *; [lia|].
  assert (Hp : Switch.ptr_eqb (Switch.chunk p) c = false).
  { apply ptr_eqb_neq, Hother. left. }
  assert (HcleanT : ∀ q, q ∈ T → Switch.is_empty q = true → q = Switch.pool_zero).
  { intros q Hq. apply Hclean. by right. }
  assert (HotherT : ∀ q, q ∈ T → Switch.chunk q ≠ c).
  { intros q Hq. apply Hother. by right. }
  destruct (Switch.is_empty p) eqn:He.
  - destruct k as [|k].
    + exists 0%nat. split_and!; [done|intros; lia|]. simpl.
      rewrite (Hclean p); [done|left|done].
    + destruct (IH k Hx Hc HcleanT HotherT) as (j & Hj & Hmin & Hz); [lia|].
      exists (S j). split_and!; [done| |simpl; by rewrite Hz].
      intros [|i] q Hi; simpl; [by intros [= <-]|]. apply Hmin. lia.
  - destruct (IH k Hx Hc HcleanT HotherT) as (j & Hj & Hmin & Hz); [lia|].
    exists (S j). split_and!; [done| |simpl; by rewrite Hz].
    intros [|i] q Hi; simpl; [by intros [= <-]|]. apply Hmin. lia.
Qed.

Section Switch_pools.
Context {D : Type} `{Allocator D} `{Switch.PoolDriver D}.

#[local] Abbreviation pst := (list Switch.AudioMemPools * (heap * D))%type.

Lemma switch_record_skip dst m j q (s : pst) :
  s.1 !! j = Some q → Switch.is_empty q = false →
  Switch.record_pool dst m (Z.of_nat j) s = Ret (None, s).
Proof.
  intros Hq He. unfold Switch.record_pool, arr_get. unfold_m. simpl.
  destruct (Z.leb_spec 0 (Z.of_nat j)); [|lia]. rewrite Nat2Z.id, Hq. simpl.
  unfold Switch.is_empty in He. by rewrite He.
Qed.

Lemma switch_record_take dst m j q (T : list Switch.AudioMemPools) (w : heap * D) :
  T !! j = Some q → Switch.is_empty q = true →
  Switch.record_pool dst m (Z.of_nat j) (T, w)
  = Ret (Some tt, (<[j := {| Switch.chunk := dst; Switch.mpid := m |}]> T, w)).
Proof.
  intros Hq He. unfold Switch.record_pool, arr_get, arr_set. unfold_m. simpl.
  destruct (Z.leb_spec 0 (Z.of_nat j)); [|lia]. rewrite Nat2Z.id, Hq. simpl.
  unfold Switch.is_empty in He. rewrite He. simpl.
  apply lookup_lt_Some in Hq.
  destruct (Z.ltb_spec (Z.of_nat j) (Z.of_nat (length T))); [|lia]. done.
Qed.

(** The inner loop of [Audio_AllocChunks]. *)
Lemma switch_record_loop dst m (T : list Switch.AudioMemPools) (w : heap * D) :
  length T = 64%nat →
  ∃ r, for_range 0 64 (Switch.record_pool dst m) (T, w)
       = Ret (r, (Switch.fill_from 0 [{| Switch.chunk := dst; Switch.mpid := m |}] T, w)).
Proof.
  intros Hlen. unfold for_range.
  destruct (fill_first {| Switch.chunk := dst; Switch.mpid := m |} T)
    as [(j & p & Hj & He & Hmin & ->)|[Hnone ->]].
  - exists (Some tt). pose proof (lookup_lt_Some _ _ _ Hj).
    apply (for_loop_first _ _ (Z.of_nat j)); [lia|lia| |by apply (switch_record_take _ _ _ p)].
    intros k Hk.
    destruct (lookup_lt_is_Some_2 T (Z.to_nat k)) as [q Hq]; [lia|].
    rewrite <- (Z2Nat.id k) by lia.
    apply (switch_record_skip _ _ _ q); [done|]. apply (Hmin (Z.to_nat k)); [lia|done].
  - exists None. apply for_loop_none. intros k Hk.
    destruct (lookup_lt_is_Some_2 T (Z.to_nat k)) as [q Hq]; [lia|].
    rewrite <- (Z2Nat.id k) by lia.
    apply (switch_record_skip _ _ _ q); [done|]. by apply (Hnone (Z.to_nat k)).
Qed.

Lemma switch_added_nonempty dst size ixs (d : D) :
  dst ≠ NULL →
  Forall (λ y, Switch.is_empty y = false ∧ Switch.chunk y = dst)
    (Switch.added dst size ixs d).1.
Proof.
  intros Hd. revert d. induction ixs as [|i ixs IH]; intros d; simpl; [done|].
  apply Forall_cons. split; [|apply IH]. split; [|done].
  by apply ptr_eqb_neq.
Qed.

Lemma switch_added_length dst size ixs (d : D) :
  length (Switch.added dst size ixs d).1 = length ixs.
Proof. revert d. induction ixs as [|i ixs IH]; intros d; simpl; [done|]. by rewrite IH. Qed.

(** The loop of [Audio_AllocChunks] over the chunks. *)
Lemma switch_chunk_loop dst size (T : list Switch.AudioMemPools) hp : ∀ ixs acc (d : D),
  dst ≠ NULL → length T = 64%nat →
  Forall (λ y, Switch.is_empty y = false) acc →
  Switch.chunk_loop ixs (Switch.add_chunk dst size) (Switch.fill_from 0 acc T, (hp, d))
  = Ret ((λ i, ptr_add dst (to_uint32 (size * i))) <$> ixs,
         (Switch.fill_from 0 (acc ++ (Switch.added dst size ixs d).1) T,
          (hp, (Switch.added dst size ixs d).2))).
Proof.
  induction ixs as [|i ixs IH]; intros acc d Hd Hlen Hacc; simpl.
  - by rewrite app_nil_r.
  - set (r := Switch.audrvMemPoolAdd (ptr_add dst (to_uint32 (size * i))) size d).
    destruct (switch_record_loop dst r.1 (Switch.fill_from 0 acc T)
                (hp, Switch.audrvMemPoolAttach r.1 r.2)) as [res Hrec].
    { by rewrite fill_from_length. }
    rewrite fill_from_snoc in Hrec by done.
    unfold mbind at 1, M_bind, m_bind.
    assert (Switch.add_chunk dst size i (Switch.fill_from 0 acc T, (hp, d))
            = Ret (ptr_add dst (to_uint32 (size * i)),
                   (Switch.fill_from 0 (acc ++ [{| Switch.chunk := dst; Switch.mpid := r.1 |}]) T,
                    (hp, Switch.audrvMemPoolAttach r.1 r.2)))) as ->.
    { unfold Switch.add_chunk. unfold mbind, M_bind, m_bind. unfold call_env.
      cbn [fst snd]. fold r. rewrite Hrec. done. }
    unfold mbind at 1, M_bind, m_bind. rewrite IH; [|done|done|].
    + rewrite <- app_assoc. done.
    + apply Forall_app. split; [done|]. apply Forall_singleton. by apply ptr_eqb_neq.
Qed.

Lemma switch_release_skip c j q (s : pst) :
  s.1 !! j = Some q → Switch.ptr_eqb (Switch.chunk q) c = false →
  Switch.release_pool c (Z.of_nat j) s = Ret (None, s).
Proof.
  intros Hq He. unfold Switch.release_pool, arr_get. unfold_m. simpl.
  destruct (Z.leb_spec 0 (Z.of_nat j)); [|lia]. rewrite Nat2Z.id, Hq. simpl.
  by rewrite He.
Qed.

Lemma switch_release_take c j q (T : list Switch.AudioMemPools) hp (d : D) :
  T !! j = Some q → Switch.chunk q = c →
  Switch.release_pool c (Z.of_nat j) (T, (hp, d))
  = Ret (Some tt, (<[j := Switch.pool_zero]> T,
                   (hp, Switch.audrvMemPoolRemove (Switch.mpid q)
                          (Switch.audrvMemPoolDetach (Switch.mpid q) d)))).
Proof.
  intros Hq He. unfold Switch.release_pool, arr_get, arr_set. unfold_m. simpl.
  destruct (Z.leb_spec 0 (Z.of_nat j)); [|lia]. rewrite Nat2Z.id, Hq. simpl.
  rewrite (proj2 (ptr_eqb_eq _ _) He). simpl.
  apply lookup_lt_Some in Hq.
  destruct (Z.ltb_spec (Z.of_nat j) (Z.of_nat (length T))); [|lia]. done.
Qed.

(** One turn of the outer loop of [Audio_FreeChunks]. *)
Lemma switch_release_turn c x xs k i (T : list Switch.AudioMemPools) hp (d : D) :
  length T = 64%nat → Switch.chunk x = c → c ≠ NULL →
  (∀ p, p ∈ T → Switch.is_empty p = true → p = Switch.pool_zero) →
  (∀ p, p ∈ T → Switch.chunk p ≠ c) →
  Z.of_nat k < count_if Switch.is_empty T →
  Switch.release_turn c i (Switch.fill_from k (x :: xs) T, (hp, d))
  = Ret (None, (Switch.fill_from (S k) xs T,
                (hp, Switch.audrvMemPoolRemove (Switch.mpid x)
                       (Switch.audrvMemPoolDetach (Switch.mpid x) d)))).
Proof.
  intros Hlen Hx Hc Hclean Hother Hroom.
  destruct (fill_from_release c x xs T k Hx Hc Hclean Hother Hroom) as (j & Hj & Hmin & Hz).
  pose proof (lookup_lt_Some _ _ _ Hj) as Hlt. rewrite fill_from_length in Hlt.
  unfold Switch.release_turn, for_range. unfold mbind, M_bind, m_bind.
  rewrite (for_loop_first _ _ (Z.of_nat j) _ tt
             (Switch.fill_from (S k) xs T,
              (hp, Switch.audrvMemPoolRemove (Switch.mpid x)
                     (Switch.audrvMemPoolDetach (Switch.mpid x) d)))); [done|lia|lia| |].
  - intros n Hn.
    destruct (lookup_lt_is_Some_2 (Switch.fill_from k (x :: xs) T) (Z.to_nat n)) as [q Hq].
    { rewrite fill_from_length. lia. }
    rewrite <- (Z2Nat.id n) by lia.
    apply (switch_release_skip _ _ q); [done|]. apply (Hmin (Z.to_nat n)); [lia|done].
  - rewrite (switch_release_take c j x) by done. by rewrite Hz.
Qed.

(** The outer loop of [Audio_FreeChunks] on the entries of one block. *)
Lemma switch_release_all c (T : list Switch.AudioMemPools) hp : ∀ xs k i (d : D),
  length T = 64%nat → c ≠ NULL →
  (∀ p, p ∈ T → Switch.is_empty p = true → p = Switch.pool_zero) →
  (∀ p, p ∈ T → Switch.chunk p ≠ c) →
  Forall (λ y, Switch.chunk y = c) xs →
  Z.of_nat k + Z.of_nat (length xs) ≤ count_if Switch.is_empty T →
  for_loop (length xs) i (i + Z.of_nat (length xs)) (Switch.release_turn c)
    (Switch.fill_from k xs T, (hp, d))
  = Ret (None, (T, (hp, Switch.released (Switch.mpid <$> xs) d))).
Proof.
  induction xs as [|x xs IH]; intros k i d Hlen Hc Hclean Hother Hxs Hroom; simpl.
  - by rewrite fill_from_nil.
  - apply Forall_cons in Hxs as [Hx Hxs]. simpl in Hroom.
    destruct (Z.ltb_spec i (i + Z.of_nat (S (length xs)))); [|lia].
    unfold mbind at 1, M_bind, m_bind.
    rewrite (switch_release_turn c x xs k i) by (done || lia).
    replace (i + Z.of_nat (S (length xs))) with (i + 1 + Z.of_nat (length xs)) by lia.
    rewrite (IH (S k)); [done|done|done|done|done|done|lia].
Qed.

End Switch_pools.
Lemma round_up_4096 size :
  0 ≤ size < 2 ^ 32 - 4095 →
  Z.land (to_uint32 (size + 0xFFF)) (to_uint32 (Z.lnot 0xFFF)) = 4096 * ((size + 4095) / 4096).
Proof.
  intros Hs. rewrite to_uint32_in_range by lia.
  change (to_uint32 (Z.lnot 4095)) with (Z.land (Z.ones 32) (Z.lnot (Z.ones 12))).
  rewrite Z.land_assoc, Z.land_ones by lia. rewrite Z.mod_small by lia.
  rewrite <- Z.ldiff_land, Z.ldiff_ones_r by lia.
  rewrite Z.shiftl_mul_pow2, Z.shiftr_div_pow2 by lia. change (2 ^ 12) with 4096. lia.
Qed.

Section Switch_chunks.
Context {D : Type} `{Allocator D} `{Switch.PoolDriver D}.

(** [Audio_AllocChunks] when the allocation is granted, whatever room the
    table has. *)
Lemma switch_alloc_chunks size n (T : list Switch.AudioMemPools) hp (d : D) :
  length T = 64%nat →
  0 < size ≤ INT_MAX → 0 < n →
  let rounded := 4096 * ((size + 4095) / 4096) in
  rounded * n < 2 ^ 32 →
  (mem_grant (rounded * n) d).1 = true →
  let b := fresh (dom hp) in
  let xs := Switch.added (Some (Addr b 0)) rounded (seqZ 0 n) (mem_grant (rounded * n) d).2 in
  hp !! b = None ∧
  Switch.Audio_AllocChunks size n (T, (hp, d))
  = Ret ((0, (λ i, Some (Addr b (rounded * i))) <$> seqZ 0 n),
         (Switch.fill_from 0 xs.1 T,
          (<[b := replicate (Z.to_nat (rounded * n)) 0]> hp, xs.2))).
Proof.
  intros Hlen Hsize Hn rounded Hmax Hg b xs. unfold INT_MAX in Hsize.
  assert (Hr : 0 < rounded < 2 ^ 32).
  { unfold rounded. pose proof (Z.mul_div_le (size + 4095) 4096).
    pose proof (Z.div_str_pos (size + 4095) 4096). lia. }
  assert (Hsz : to_uint32 1 * to_uint32 (to_uint32 (rounded * n)) = rounded * n).
  { rewrite !to_uint32_in_range; rewrite ?to_uint32_in_range; nia. }
  destruct (Mem_TryAlloc_granted 1 (to_uint32 (rounded * n)) (hp, d)) as [Ha Hfresh];
    [by rewrite Hsz|].
  rewrite Hsz in Ha. simpl in Ha, Hfresh. split; [done|].
  unfold Switch.Audio_AllocChunks. rewrite round_up_4096 by lia. fold rounded.
  unfold mbind at 1, M_bind, m_bind. unfold call_world, memalign. cbn [fst snd].
  rewrite Ha. fold b.
  unfold mbind at 1, M_bind, m_bind.
  rewrite <- (fill_from_nil 0 T) at 1.
  rewrite switch_chunk_loop by done. simpl. fold xs.
  unfold mret, M_ret, m_ret. do 3 f_equal.
  apply list_fmap_ext. intros k i [-> ?]%lookup_seqZ. simpl.
  rewrite to_uint32_in_range by nia. done.
Qed.

Lemma switch_first_chunk b rounded n :
  0 < n →
  arr_get ((λ i, Some (Addr b (rounded * i))) <$> seqZ 0 n) 0 = Ret (Some (Addr b 0)).
Proof.
  intros Hn. unfold arr_get. simpl.
  rewrite list_lookup_fmap, (lookup_seqZ_lt _ _ 0%nat) by lia. simpl.
  by rewrite Z.mul_0_r.
Qed.

Lemma switch_free_block b bytes (hp : heap) :
  hp !! b = None → Mem_Free (Some (Addr b 0)) (<[b := bytes]> hp) = Ret hp.
Proof.
  intros Hb. unfold Mem_Free. simpl. rewrite lookup_insert_eq. simpl.
  by rewrite delete_insert_id.
Qed.

Lemma switch_block_not_recorded (T : list Switch.AudioMemPools) (hp : heap) b :
  (∀ p a, p ∈ T → Switch.chunk p = Some a → is_Some (hp !! blk a)) →
  hp !! b = None →
  ∀ p, p ∈ T → Switch.chunk p ≠ Some (Addr b 0).
Proof.
  intros Hlive Hb p Hp Hc. destruct (Hlive p _ Hp Hc) as [bytes Hl]. simpl in Hl. congruence.
Qed.

Lemma switch_round_trip size n (T : list Switch.AudioMemPools) hp (d : D) :
  Switch.pools_ok T hp →
  0 < size ≤ INT_MAX → 0 < n →
  let rounded := 4096 * ((size + 4095) / 4096) in
  rounded * n < 2 ^ 32 →
  (mem_grant (rounded * n) d).1 = true →
  n ≤ count_if Switch.is_empty T →
  ∃ b,
    let chunks := (λ i, Some (Addr b (rounded * i))) <$> seqZ 0 n in
    let xs := Switch.added (Some (Addr b 0)) rounded (seqZ 0 n) (mem_grant (rounded * n) d).2 in
    let T1 := Switch.fill_from 0 xs.1 T in
    let hp1 := <[b := replicate (Z.to_nat (rounded * n)) 0]> hp in
    hp !! b = None ∧
    Switch.Audio_AllocChunks size n (T, (hp, d)) = Ret ((0, chunks), (T1, (hp1, xs.2))) ∧
    count_if Switch.is_empty T1 = count_if Switch.is_empty T - n ∧
    Switch.Audio_FreeChunks chunks n (T1, (hp1, xs.2))
    = Ret (tt, (T, (hp, Switch.released (Switch.mpid <$> xs.1) xs.2))).
Proof.
  intros (Hlen & Hclean & Hlive) Hsize Hn rounded Hmax Hg Hroom.
  destruct (switch_alloc_chunks size n T hp d Hlen Hsize Hn Hmax Hg) as [Hb Halloc].
  exists (fresh (dom hp)). cbv zeta. fold rounded.
  set (b := fresh (dom hp)) in *.
  set (xs := Switch.added (Some (Addr b 0)) rounded (seqZ 0 n) (mem_grant (rounded * n) d).2)
    in *.
  pose proof (switch_added_nonempty (Some (Addr b 0)) rounded (seqZ 0 n)
                (mem_grant (rounded * n) d).2 ltac:(done)) as Hxs.
  fold xs in Hxs.
  assert (Hxl : length xs.1 = Z.to_nat n).
  { unfold xs. by rewrite switch_added_length, length_seqZ. }
  split_and!; [done|done| |].
  - rewrite fill_from_count; [lia|]. eapply Forall_impl; [exact Hxs|]. by intros y [? _].
  - unfold Switch.Audio_FreeChunks. unfold mbind at 1, M_bind, m_bind.
    unfold lift at 1. rewrite switch_first_chunk by done.
    unfold mbind at 1, M_bind, m_bind. unfold for_range.
    replace (Z.to_nat (n - 0)) with (length xs.1) by lia.
    replace n with (0 + Z.of_nat (length xs.1)) at 1 by lia.
    rewrite switch_release_all; [|done|done|done| | |lia].
    + unfold on_heap. cbn [fst snd]. by rewrite switch_free_block.
    + by apply (switch_block_not_recorded T hp).
    + eapply Forall_impl; [exact Hxs|]. by intros y [_ ?].
Qed.

(** One turn of the outer loop of [Audio_FreeChunks] on a table that has
    no entry of the block. *)
Lemma switch_release_turn_none c i (T : list Switch.AudioMemPools) (w : heap * D) :
  length T = 64%nat → (∀ p, p ∈ T → Switch.chunk p ≠ c) →
  Switch.release_turn c i (T, w) = Ret (None, (T, w)).
Proof.
  intros Hlen Hother. unfold Switch.release_turn, for_range.
  unfold mbind, M_bind, m_bind. rewrite for_loop_none; [done|].
  intros k Hk.
  destruct (lookup_lt_is_Some_2 T (Z.to_nat k)) as [q Hq]; [lia|].
  rewrite <- (Z2Nat.id k) by lia.
  apply (switch_release_skip _ _ q); [done|].
  apply ptr_eqb_neq, Hother. by eapply list_elem_of_lookup_2.
Qed.

Lemma switch_full_table size n (T : list Switch.AudioMemPools) hp (d : D) :
  Switch.pools_ok T hp →
  0 < size ≤ INT_MAX → 0 < n →
  let rounded := 4096 * ((size + 4095) / 4096) in
  rounded * n < 2 ^ 32 →
  (mem_grant (rounded * n) d).1 = true →
  count_if Switch.is_empty T = 0 →
  ∃ b,
    let chunks := (λ i, Some (Addr b (rounded * i))) <$> seqZ 0 n in
    let xs := Switch.added (Some (Addr b 0)) rounded (seqZ 0 n) (mem_grant (rounded * n) d).2 in
    let hp1 := <[b := replicate (Z.to_nat (rounded * n)) 0]> hp in
    hp !! b = None ∧ Z.of_nat (length xs.1) = n ∧
    Switch.Audio_AllocChunks size n (T, (hp, d)) = Ret ((0, chunks), (T, (hp1, xs.2))) ∧
    Switch.Audio_FreeChunks chunks n (T, (hp1, xs.2)) = Ret (tt, (T, (hp, xs.2))).
Proof.
  intros (Hlen & Hclean & Hlive) Hsize Hn rounded Hmax Hg Hfull.
  destruct (switch_alloc_chunks size n T hp d Hlen Hsize Hn Hmax Hg) as [Hb Halloc].
  exists (fresh (dom hp)). cbv zeta. fold rounded.
  set (b := fresh (dom hp)) in *.
  set (xs := Switch.added (Some (Addr b 0)) rounded (seqZ 0 n) (mem_grant (rounded * n) d).2)
    in *.
  rewrite fill_from_no_room in Halloc by lia.
  split_and!; [done| |done|].
  - unfold xs. rewrite switch_added_length, length_seqZ. lia.
  - unfold Switch.Audio_FreeChunks. unfold mbind at 1, M_bind, m_bind.
    unfold lift at 1. rewrite switch_first_chunk by done.
    unfold mbind at 1, M_bind, m_bind. unfold for_range.
    rewrite for_loop_none.
    + unfold on_heap. cbn [fst snd]. by rewrite switch_free_block.
    + intros k Hk. apply switch_release_turn_none; [done|].
      by apply (switch_block_not_recorded T hp).
Qed.

End Switch_chunks.

Lemma switch_pools_zero_ok h : Switch.pools_ok switch_pools_zero h.
Proof.
  unfold switch_pools_zero. split_and!; [done| |].
  - by intros p [-> _]%elem_of_replicate.
  - by intros p a [-> _]%elem_of_replicate.
Qed.

Lemma switch_pools_full_ok : Switch.pools_ok switch_pools_full ex_heap.
Proof.
  unfold switch_pools_full. split_and!; [done| |].
  - by intros p [-> _]%elem_of_replicate.
  - intros p a [-> _]%elem_of_replicate [= <-]. by eexists.
Qed.

(** X24.  Switch [Audio_AllocChunks] and [Audio_FreeChunks] are inverse on
    a pool table with room: the allocation rounds the size up to a multiple
    of 0x1000, takes one block for all chunks, adds one driver memory pool
    per chunk and writes it to the empty table entries in order, so the
    table has [numChunks] empty entries less; [Audio_FreeChunks] on the
    pointers it gave detaches and removes each of these pools, in the order
    they were added, and leaves the table and the heap as they were before
    the allocation. *)
Theorem switch_alloc_free_chunks_round_trip (D : Type) (HA : Allocator D)
    (HP : Switch.PoolDriver D) size n (T : list Switch.AudioMemPools) hp (d : D) :
  Switch.pools_ok T hp →
  0 < size ≤ INT_MAX → 0 < n →
  let rounded := 4096 * ((size + 4095) / 4096) in
  rounded * n < 2 ^ 32 →
  (mem_grant (rounded * n) d).1 = true →
  n ≤ count_if Switch.is_empty T →
  ∃ b,
    let chunks := (λ i, Some (Addr b (rounded * i))) <$> seqZ 0 n in
    let xs := Switch.added (Some (Addr b 0)) rounded (seqZ 0 n) (mem_grant (rounded * n) d).2 in
    let T1 := Switch.fill_from 0 xs.1 T in
    let hp1 := <[b := replicate (Z.to_nat (rounded * n)) 0]> hp in
    hp !! b = None ∧
    Switch.Audio_AllocChunks size n (T, (hp, d)) = Ret ((0, chunks), (T1, (hp1, xs.2))) ∧
    count_if Switch.is_empty T1 = count_if Switch.is_empty T - n ∧
    Switch.Audio_FreeChunks chunks n (T1, (hp1, xs.2))
    = Ret (tt, (T, (hp, Switch.released (Switch.mpid <$> xs.1) xs.2))).
Proof. apply switch_round_trip. Qed.

Lemma switch_alloc_free_chunks_round_trip_witness :
  ∃ b,
    let chunks := (λ i, Some (Addr b (4096 * i))) <$> seqZ 0 2 in
    let xs := Switch.added (Some (Addr b 0)) 4096 (seqZ 0 2)
                (mem_grant (4096 * 2) ([0; 7; 8] : script)).2 in
    let T1 := Switch.fill_from 0 xs.1 switch_pools_zero in
    let hp1 := <[b := replicate (Z.to_nat (4096 * 2)) 0]> ex_heap in
    ex_heap !! b = None ∧
    Switch.Audio_AllocChunks 100 2 (switch_pools_zero, (ex_heap, [0; 7; 8]))
    = Ret ((0, chunks), (T1, (hp1, xs.2))) ∧
    count_if Switch.is_empty T1 = count_if Switch.is_empty switch_pools_zero - 2 ∧
    Switch.Audio_FreeChunks chunks 2 (T1, (hp1, xs.2))
    = Ret (tt, (switch_pools_zero, (ex_heap, Switch.released (Switch.mpid <$> xs.1) xs.2))).
Proof.
  apply (switch_alloc_free_chunks_round_trip script _ _ 100 2 switch_pools_zero ex_heap
           [0; 7; 8]).
  - apply switch_pools_zero_ok.
  - unfold INT_MAX. lia.
  - lia.
  - reflexivity.
  - reflexivity.
  - vm_compute. discriminate.
Defined.

(** X25.  Switch [Audio_AllocChunks] on a pool table without an empty
    entry still answers 0 and hands out the chunks: the driver memory pools
    it adds are recorded nowhere, the table is as before.
    [Audio_FreeChunks] then releases the block without a call to
    audrvMemPoolDetach or audrvMemPoolRemove, so the pools stay attached
    to memory that is freed. *)
Theorem switch_alloc_chunks_full_table (D : Type) (HA : Allocator D)
    (HP : Switch.PoolDriver D) size n (T : list Switch.AudioMemPools) hp (d : D) :
  Switch.pools_ok T hp →
  0 < size ≤ INT_MAX → 0 < n →
  let rounded := 4096 * ((size + 4095) / 4096) in
  rounded * n < 2 ^ 32 →
  (mem_grant (rounded * n) d).1 = true →
  count_if Switch.is_empty T = 0 →
  ∃ b,
    let chunks := (λ i, Some (Addr b (rounded * i))) <$> seqZ 0 n in
    let xs := Switch.added (Some (Addr b 0)) rounded (seqZ 0 n) (mem_grant (rounded * n) d).2 in
    let hp1 := <[b := replicate (Z.to_nat (rounded * n)) 0]> hp in
    hp !! b = None ∧ Z.of_nat (length xs.1) = n ∧
    Switch.Audio_AllocChunks size n (T, (hp, d)) = Ret ((0, chunks), (T, (hp1, xs.2))) ∧
    Switch.Audio_FreeChunks chunks n (T, (hp1, xs.2)) = Ret (tt, (T, (hp, xs.2))).
Proof. apply switch_full_table. Qed.

Lemma switch_alloc_chunks_full_table_witness :
  ∃ b,
    let chunks := (λ i, Some (Addr b (4096 * i))) <$> seqZ 0 2 in
    let xs := Switch.added (Some (Addr b 0)) 4096 (seqZ 0 2)
                (mem_grant (4096 * 2) ([0; 7; 8] : script)).2 in
    let hp1 := <[b := replicate (Z.to_nat (4096 * 2)) 0]> ex_heap in
    ex_heap !! b = None ∧ Z.of_nat (length xs.1) = 2 ∧
    Switch.Audio_AllocChunks 100 2 (switch_pools_full, (ex_heap, [0; 7; 8]))
    = Ret ((0, chunks), (switch_pools_full, (hp1, xs.2))) ∧
    Switch.Audio_FreeChunks chunks 2 (switch_pools_full, (hp1, xs.2))
    = Ret (tt, (switch_pools_full, (ex_heap, xs.2))).
Proof.
  apply (switch_alloc_chunks_full_table script _ _ 100 2 switch_pools_full ex_heap [0; 7; 8]).
  - apply switch_pools_full_ok.
  - unfold INT_MAX. lia.
  - lia.
  - reflexivity.
  - reflexivity.
  - reflexivity.
Defined.
